(** * Canonicalization of OSSA value lifetimes

    A shallow embedding of [lib/SILOptimizer/Utils/CanonicalOSSALifetime.cpp]:
    the three steps of [CanonicalizeOSSALifetime::canonicalizeValueLifetime]
    (pruned liveness, destroy placement, copy rewriting) over an explicit
    model of a SIL function, followed by the properties proved about them. *)

From stdpp Require Import gmap list.

Set Default Proof Using "Type".

(** ** Outcomes

    The C++ code either returns, or stops in an [assert] / [llvm_unreachable].
    Loops whose termination is not structural are run with fuel. *)

Inductive Outcome (A : Type) : Type :=
| Ret (a : A)
| Unreachable
| OutOfFuel.
Arguments Ret {A} a.
Arguments Unreachable {A}.
Arguments OutOfFuel {A}.

#[global] Instance Outcome_ret : MRet Outcome := fun A a => Ret a.
#[global] Instance Outcome_bind : MBind Outcome := fun A B f m =>
  match m with
  | Ret a => f a
  | Unreachable => Unreachable
  | OutOfFuel => OutOfFuel
  end.

(** [assert(c)]: continue when [c] holds, stop otherwise. *)
Definition assert (c : bool) : Outcome unit :=
  if c then Ret tt else Unreachable.

(** A pointer that the C++ code dereferences without a check. *)
Definition deref {A} (o : option A) : Outcome A :=
  match o with
  | Some a => Ret a
  | None => Unreachable
  end.

(** ** The SIL model *)

Abbreviation BlockId := nat.
Abbreviation InstId := nat.

(** A value is the result of an instruction or an argument of a block. *)
Inductive SILValue : Type :=
| InstResult (i : InstId)
| BlockArgument (bb : BlockId) (idx : nat).

#[global] Instance SILValue_eq_dec : EqDecision SILValue.
Proof. solve_decision. Defined.

Inductive OwnershipKind : Type :=
| OwnedKind | GuaranteedKind | UnownedKind | NoneKind.

#[global] Instance OwnershipKind_eq_dec : EqDecision OwnershipKind.
Proof. solve_decision. Defined.

Inductive OperandOwnership : Type :=
| NonUse
| TrivialUse
| InstantaneousUse
| UnownedInstantaneousUse
| ForwardingUnowned
| PointerEscape
| BitwiseEscape
| Borrow
| DestroyingConsume
| ForwardingConsume
| InteriorPointer
| ForwardingBorrow
| EndBorrow
| Reborrow.

#[global] Instance OperandOwnership_eq_dec : EqDecision OperandOwnership.
Proof. solve_decision. Defined.

(** The instruction kinds the canonicalizer tells apart; every other
    instruction is an [OtherInst] (or an [OtherTermInst] when it ends a
    block) with the host's opcode. *)
Inductive SILInstructionKind : Type :=
| CopyValueInst
| DestroyValueInst
| DebugValueInst
| BeginAccessInst
| EndAccessInst
| EndUnpairedAccessInst
| BranchInst
| OtherTermInst (opcode : nat)
| OtherInst (opcode : nat).

#[global] Instance SILInstructionKind_eq_dec : EqDecision SILInstructionKind.
Proof. solve_decision. Defined.

(** [isa<TermInst>] *)
Definition isTermInst (k : SILInstructionKind) : bool :=
  match k with
  | BranchInst | OtherTermInst _ => true
  | _ => false
  end.

Record SILInstruction : Type := mkInst {
  instId : InstId;
  instKind : SILInstructionKind;
  (** the operands, each with its operand-ownership classification *)
  instOperands : list (SILValue * OperandOwnership);
  (** the successor blocks when the instruction is a terminator *)
  instSuccessors : list BlockId;
}.

#[global] Instance SILInstruction_eq_dec : EqDecision SILInstruction.
Proof. solve_decision. Defined.

Record SILBasicBlock : Type := mkBlock {
  bbId : BlockId;
  bbInsts : list SILInstruction;
}.

#[global] Instance SILBasicBlock_eq_dec : EqDecision SILBasicBlock.
Proof. solve_decision. Defined.

Record SILFunction : Type := mkFunction {
  fnBlocks : list SILBasicBlock;
  (** identity of the next instruction a builder creates *)
  fnNextInst : InstId;
}.

#[global] Instance SILFunction_eq_dec : EqDecision SILFunction.
Proof. solve_decision. Defined.

(** An [Operand *]: one use of a value, with its user. *)
Record Operand : Type := mkOperand {
  opUser : SILInstruction;
  opParentBlock : BlockId;
  opIndex : nat;
  opValue : SILValue;
  opOwnership : OperandOwnership;
}.

#[global] Instance Operand_eq_dec : EqDecision Operand.
Proof. solve_decision. Defined.

Definition isa (k : SILInstructionKind) (inst : SILInstruction) : bool :=
  bool_decide (instKind inst = k).

Fixpoint findBlock (bb : BlockId) (blocks : list SILBasicBlock)
  : option SILBasicBlock :=
  match blocks with
  | [] => None
  | b :: rest => if decide (bbId b = bb) then Some b else findBlock bb rest
  end.

Definition getBlock (fn : SILFunction) (bb : BlockId) : option SILBasicBlock :=
  findBlock bb (fnBlocks fn).

Definition blockInsts (fn : SILFunction) (bb : BlockId) : list SILInstruction :=
  from_option bbInsts [] (getBlock fn bb).

(** Every instruction of the function with its parent block, in block
    order. *)
Definition fnInsts (fn : SILFunction) : list (BlockId * SILInstruction) :=
  fnBlocks fn ≫= fun b => (fun i => (bbId b, i)) <$> bbInsts b.

Fixpoint findInstIn (i : InstId) (insts : list (BlockId * SILInstruction))
  : option (BlockId * SILInstruction) :=
  match insts with
  | [] => None
  | p :: rest => if decide (instId p.2 = i) then Some p else findInstIn i rest
  end.

(** The instruction with identity [i], with its parent block. *)
Definition findInst (fn : SILFunction) (i : InstId)
  : option (BlockId * SILInstruction) :=
  findInstIn i (fnInsts fn).

(** [inst->getParent()] *)
Definition instParent (fn : SILFunction) (i : InstId) : option BlockId :=
  fst <$> findInst fn i.

(** [value->getParentBlock()] *)
Definition getParentBlock (fn : SILFunction) (v : SILValue) : option BlockId :=
  match v with
  | InstResult i => instParent fn i
  | BlockArgument bb _ => Some bb
  end.

(** [value->getDefiningInstruction()] *)
Definition getDefiningInstruction (v : SILValue) : option InstId :=
  match v with
  | InstResult i => Some i
  | BlockArgument _ _ => None
  end.

Definition operandsOf (bb : BlockId) (inst : SILInstruction) : list Operand :=
  imap (fun idx p => mkOperand inst bb idx p.1 p.2) (instOperands inst).

(** [value->getUses()]. The use list of a value is not part of the model:
    the uses are listed in the order of the instruction stream. *)
Definition getUses (fn : SILFunction) (v : SILValue) : list Operand :=
  filter (fun op => opValue op = v)
         (fnInsts fn ≫= fun p => operandsOf p.1 p.2).

(** [bb->getTerminator()]: the last instruction, which must be a
    terminator. *)
Definition getTerminator (insts : list SILInstruction) : option SILInstruction :=
  match last insts with
  | Some t => if isTermInst (instKind t) then Some t else None
  | None => None
  end.

(** [bb->getSuccessorBlocks()] *)
Definition blockSuccessors (b : SILBasicBlock) : list BlockId :=
  from_option instSuccessors [] (getTerminator (bbInsts b)).

Definition getSuccessorBlocks (fn : SILFunction) (bb : BlockId) : list BlockId :=
  from_option blockSuccessors [] (getBlock fn bb).

(** [bb->getPredecessorBlocks()]: one entry per incoming edge. *)
Definition getPredecessorBlocks (fn : SILFunction) (bb : BlockId) : list BlockId :=
  fnBlocks fn ≫= fun b =>
    (fun _ => bbId b) <$> filter (fun s => s = bb) (blockSuccessors b).

(** [bb->getSinglePredecessorBlock()] *)
Definition getSinglePredecessorBlock (fn : SILFunction) (bb : BlockId)
  : option BlockId :=
  match getPredecessorBlocks fn bb with
  | [p] => Some p
  | _ => None
  end.

(** *** Mutation of the function *)

Definition mapBlock (f : list SILInstruction → list SILInstruction)
    (bb : BlockId) (fn : SILFunction) : SILFunction :=
  mkFunction
    ((fun b => if decide (bbId b = bb) then mkBlock (bbId b) (f (bbInsts b))
               else b) <$> fnBlocks fn)
    (fnNextInst fn).

Definition mapInsts (f : SILInstruction → SILInstruction) (fn : SILFunction)
  : SILFunction :=
  mkFunction ((fun b => mkBlock (bbId b) (f <$> bbInsts b)) <$> fnBlocks fn)
             (fnNextInst fn).

(** A builder positioned at index [pos] of block [bb] creates an
    instruction of kind [k] with operands [ops]. *)
Definition createInst (bb : BlockId) (pos : nat) (k : SILInstructionKind)
    (ops : list (SILValue * OperandOwnership)) (fn : SILFunction)
  : SILInstruction * SILFunction :=
  let inst := mkInst (fnNextInst fn) k ops [] in
  let fn' := mapBlock (fun l => take pos l ++ inst :: drop pos l) bb fn in
  (inst, mkFunction (fnBlocks fn') (S (fnNextInst fn))).

(** [use->set(v)] *)
Definition setOperand (user : InstId) (idx : nat) (v : SILValue)
    (fn : SILFunction) : SILFunction :=
  mapInsts (fun i =>
    if decide (instId i = user)
    then mkInst (instId i) (instKind i)
           (alter (fun p => (v, p.2)) idx (instOperands i)) (instSuccessors i)
    else i) fn.

(** [old->replaceAllUsesWith(new)] *)
Definition replaceAllUsesWith (old new : SILValue) (fn : SILFunction)
  : SILFunction :=
  mapInsts (fun i =>
    mkInst (instId i) (instKind i)
      ((fun p => if decide (p.1 = old) then (new, p.2) else p)
         <$> instOperands i)
      (instSuccessors i)) fn.

(** [deleter.forceDelete(inst)] *)
Definition forceDelete (i : InstId) (fn : SILFunction) : SILFunction :=
  mkFunction
    ((fun b => mkBlock (bbId b) (filter (fun x => instId x ≠ i) (bbInsts b)))
       <$> fnBlocks fn)
    (fnNextInst fn).

(** ** Collaborators of the canonicalizer

    Analyses and IR queries that live outside this file: the ownership
    tables of the function, the dominator tree, the non-local access block
    analysis and the helpers of the debug and ownership utilities. *)

Record Host : Type := mkHost {
  (** [value->getOwnershipKind()] *)
  getOwnershipKind : SILValue → OwnershipKind;
  (** [value->isLexical()] *)
  isLexical : SILValue → bool;
  (** [use->isLifetimeEnding()] *)
  isLifetimeEnding : Operand → bool;
  (** [domTree->properlyDominates(a, b)] *)
  properlyDominates : BlockId → BlockId → bool;
  (** [accessBlocks->containsNonLocalEndAccess(bb)] *)
  containsNonLocalEndAccess : BlockId → bool;
  (** [isIncidentalUse(inst)] *)
  isIncidentalUse : SILInstruction → bool;
  (** [ignoredByDestroyHoisting(kind)] *)
  ignoredByDestroyHoisting : SILInstructionKind → bool;
  (** [arg->isPhi()] for a [SILPhiArgument] *)
  isPhi : SILFunction → SILValue → bool;
  (** the reborrows [visitAdjacentReborrowsOfPhi] visits *)
  adjacentReborrowsOfPhi : SILFunction → SILValue → list SILValue;
  (** the uses [BorrowingOperand(op).visitScopeEndingUses] visits *)
  scopeEndingUses : SILFunction → Operand → list Operand;
  (** [isa<SingleValueInstruction>(inst)] *)
  isSingleValueInstruction : SILInstruction → bool;
}.

(** ** Pruned liveness *)

Inductive IsLive : Type := Dead | LiveWithin | LiveOut.

#[global] Instance IsLive_eq_dec : EqDecision IsLive.
Proof. solve_decision. Defined.

Inductive IsInterestingUser : Type :=
| NonUser | NonLifetimeEndingUse | LifetimeEndingUse.

#[global] Instance IsInterestingUser_eq_dec : EqDecision IsInterestingUser.
Proof. solve_decision. Defined.

(** Modelled from the spec: the [PrunedLiveness] class (its header and
    implementation are not part of this file). Per block a classification
    in {Dead, LiveWithin, LiveOut}, per instruction an interesting-user
    label; both only progress, Dead → LiveWithin → LiveOut and
    NonUser → NonLifetimeEndingUse → LifetimeEndingUse. *)
Record PrunedLiveness : Type := mkLiveness {
  liveBlocks : gmap BlockId IsLive;
  users : gmap InstId bool;
}.

#[global] Instance PrunedLiveness_eq_dec : EqDecision PrunedLiveness.
Proof. solve_decision. Defined.

Definition emptyLiveness : PrunedLiveness := mkLiveness ∅ ∅.

(** [liveness.getBlockLiveness(bb)] *)
Definition getBlockLiveness (l : PrunedLiveness) (bb : BlockId) : IsLive :=
  default Dead (liveBlocks l !! bb).

(** [liveness.isInterestingUser(inst)] *)
Definition isInterestingUser (l : PrunedLiveness) (i : InstId)
  : IsInterestingUser :=
  match users l !! i with
  | None => NonUser
  | Some false => NonLifetimeEndingUse
  | Some true => LifetimeEndingUse
  end.

Definition liveRank (s : IsLive) : nat :=
  match s with Dead => 0 | LiveWithin => 1 | LiveOut => 2 end.

Definition userRank (u : IsInterestingUser) : nat :=
  match u with NonUser => 0 | NonLifetimeEndingUse => 1 | LifetimeEndingUse => 2 end.

(** Modelled from the spec: block states only progress, so marking never
    lowers a block. *)
Definition markBlockLive (bb : BlockId) (s : IsLive)
    (lb : gmap BlockId IsLive) : gmap BlockId IsLive :=
  if decide (liveRank (default Dead (lb !! bb)) < liveRank s)
  then <[bb := s]> lb else lb.

(** [liveness.initializeDefBlock(bb)] *)
Definition initializeDefBlock (bb : BlockId) (l : PrunedLiveness)
  : PrunedLiveness :=
  mkLiveness (markBlockLive bb LiveWithin (liveBlocks l)) (users l).

(** Modelled from the spec: the reverse CFG walk from a block that holds a
    user. Every predecessor of a live block becomes LiveOut; the walk goes
    on through the predecessors that were Dead. [fuel] bounds the number of
    blocks taken from the worklist. *)
Fixpoint computeUseBlockLiveness (fn : SILFunction) (fuel : nat)
    (worklist : list BlockId) (lb : gmap BlockId IsLive)
  : gmap BlockId IsLive :=
  match fuel, worklist with
  | S fuel', bb :: rest =>
      let step (acc : list BlockId * gmap BlockId IsLive) (predBB : BlockId) :=
        match default Dead (acc.2 !! predBB) with
        | Dead => (predBB :: acc.1, markBlockLive predBB LiveOut acc.2)
        | LiveWithin => (acc.1, markBlockLive predBB LiveOut acc.2)
        | LiveOut => acc
        end in
      let acc := foldl step (rest, lb) (getPredecessorBlocks fn bb) in
      computeUseBlockLiveness fn fuel' acc.1 acc.2
  | _, _ => lb
  end.

(** Modelled from the spec: "recording a use updates per-block liveness and
    per-instruction interestingness monotonically". A Dead block that
    receives a user becomes LiveWithin and makes the blocks above it
    LiveOut; the label of the user rises to the recorded one. *)
Definition updateForUse (fn : SILFunction) (userBB : BlockId) (user : InstId)
    (lifetimeEnding : bool) (l : PrunedLiveness) : PrunedLiveness :=
  let lb :=
    match getBlockLiveness l userBB with
    | Dead =>
        computeUseBlockLiveness fn (S (length (fnBlocks fn))) [userBB]
          (markBlockLive userBB LiveWithin (liveBlocks l))
    | _ => liveBlocks l
    end in
  let label :=
    match users l !! user with
    | None => lifetimeEnding
    | Some old => old || lifetimeEnding
    end in
  mkLiveness lb (<[user := label]> (users l)).

(** Modelled from the spec: "extend liveness over the borrow scope; if the
    extension fails (unresolved end-borrow), bail out". Each scope-ending
    use is a non-lifetime-ending use point; a reborrow among them is the
    unsupported case. *)
Fixpoint updateForScopeEnds (fn : SILFunction) (ends : list Operand)
    (l : PrunedLiveness) : bool * PrunedLiveness :=
  match ends with
  | [] => (true, l)
  | e :: rest =>
      if decide (opOwnership e = Reborrow) then (false, l)
      else updateForScopeEnds fn rest
             (updateForUse fn (opParentBlock e) (instId (opUser e)) false l)
  end.

Definition updateForBorrowingOperand (host : Host) (fn : SILFunction)
    (use : Operand) (l : PrunedLiveness) : bool * PrunedLiveness :=
  updateForScopeEnds fn (scopeEndingUses host fn use) l.

(** ** Consume info *)

(** Modelled from the spec: [CanonicalOSSAConsumeInfo], declared in the
    header. [finalBlockConsumes] maps a block to its final consume (one per
    block); [debugAfterConsume] is the ordered set of debug values found
    after the final consume. *)
Record CanonicalOSSAConsumeInfo : Type := mkConsumes {
  finalBlockConsumes : gmap BlockId InstId;
  debugAfterConsume : list InstId;
}.

Definition emptyConsumes : CanonicalOSSAConsumeInfo := mkConsumes ∅ [].

(** [consumes.hasUnclaimedConsumes()] *)
Definition hasUnclaimedConsumes (c : CanonicalOSSAConsumeInfo) : bool :=
  bool_decide (finalBlockConsumes c ≠ ∅).

(** [consumes.recordFinalConsume(inst)]: per block exactly one final consume
    may be recorded, a second one for the same block is a precondition
    violation. *)
Definition recordFinalConsume (bb : BlockId) (inst : InstId)
    (c : CanonicalOSSAConsumeInfo) : Outcome CanonicalOSSAConsumeInfo :=
  match finalBlockConsumes c !! bb with
  | Some _ => Unreachable
  | None => Ret (mkConsumes (<[bb := inst]> (finalBlockConsumes c))
                            (debugAfterConsume c))
  end.

(** [consumes.claimConsume(inst)]: true iff [inst] was the recorded final
    consume of its block and not yet claimed; a claim is single-shot. *)
Definition claimConsume (bb : BlockId) (inst : InstId)
    (c : CanonicalOSSAConsumeInfo) : bool * CanonicalOSSAConsumeInfo :=
  if decide (finalBlockConsumes c !! bb = Some inst)
  then (true, mkConsumes (delete bb (finalBlockConsumes c)) (debugAfterConsume c))
  else (false, c).

(** Insertion into a set that keeps insertion order ([SetVector]). *)
Definition setInsert {A} `{EqDecision A} (x : A) (l : list A) : list A :=
  if decide (x ∈ l) then l else l ++ [x].

(** [consumes.recordDebugAfterConsume(dvi)] *)
Definition recordDebugAfterConsume (dvi : InstId)
    (c : CanonicalOSSAConsumeInfo) : CanonicalOSSAConsumeInfo :=
  mkConsumes (finalBlockConsumes c) (setInsert dvi (debugAfterConsume c)).

(** [consumes.popDebugAfterConsume(dvi)]: drops [dvi] when it is the most
    recently recorded debug value. *)
Definition popDebugAfterConsume (dvi : InstId)
    (c : CanonicalOSSAConsumeInfo) : CanonicalOSSAConsumeInfo :=
  match last (debugAfterConsume c) with
  | Some d =>
      if decide (d = dvi)
      then mkConsumes (finalBlockConsumes c)
                      (take (pred (length (debugAfterConsume c)))
                            (debugAfterConsume c))
      else c
  | None => c
  end.

(** ** Worklists *)

(** Modelled from the spec: [GraphNodeWorklist], a deduplicating worklist:
    a node is pushed only the first time it is inserted. *)
Record GraphNodeWorklist (A : Type) : Type := mkWorklist {
  nodeVisited : list A;
  nodeVector : list A;
}.
Arguments mkWorklist {A} _ _.
Arguments nodeVisited {A} _.
Arguments nodeVector {A} _.

Definition worklistInsert {A} `{EqDecision A} (x : A) (w : GraphNodeWorklist A)
  : GraphNodeWorklist A :=
  if decide (x ∈ nodeVisited w) then w
  else mkWorklist (x :: nodeVisited w) (x :: nodeVector w).

Definition worklistInitializeRange {A} `{EqDecision A} (xs : list A)
  : GraphNodeWorklist A :=
  foldl (fun w x => worklistInsert x w) (mkWorklist [] []) xs.

Definition worklistPop {A} (w : GraphNodeWorklist A)
  : option (A * GraphNodeWorklist A) :=
  match nodeVector w with
  | [] => None
  | x :: rest => Some (x, mkWorklist (nodeVisited w) rest)
  end.

(** ** The canonicalizer's state *)

Record Statistics : Type := mkStats {
  NumCopiesEliminated : nat;
  NumCopiesGenerated : nat;
  NumDestroysEliminated : nat;
  NumDestroysGenerated : nat;
}.

(** The members of [class CanonicalizeOSSALifetime] together with the
    function being rewritten and the statistics counters. The two worklists
    are threaded through the loops that use them. *)
Record CanonicalizeOSSALifetime : Type := mkState {
  pruneDebugMode : bool;
  func : SILFunction;
  currentDef : SILValue;
  liveness : PrunedLiveness;
  consumingBlocks : list BlockId;
  destroys : list InstId;
  debugValues : list InstId;
  consumes : CanonicalOSSAConsumeInfo;
  statistics : Statistics;
}.

Definition setFunc (fn : SILFunction) (st : CanonicalizeOSSALifetime) :=
  mkState (pruneDebugMode st) fn (currentDef st) (liveness st)
    (consumingBlocks st) (destroys st) (debugValues st) (consumes st)
    (statistics st).

Definition setCurrentDef (def : SILValue) (st : CanonicalizeOSSALifetime) :=
  mkState (pruneDebugMode st) (func st) def (liveness st)
    (consumingBlocks st) (destroys st) (debugValues st) (consumes st)
    (statistics st).

Definition setLiveness (l : PrunedLiveness) (st : CanonicalizeOSSALifetime) :=
  mkState (pruneDebugMode st) (func st) (currentDef st) l
    (consumingBlocks st) (destroys st) (debugValues st) (consumes st)
    (statistics st).

Definition setConsumingBlocks (bs : list BlockId) (st : CanonicalizeOSSALifetime) :=
  mkState (pruneDebugMode st) (func st) (currentDef st) (liveness st)
    bs (destroys st) (debugValues st) (consumes st) (statistics st).

Definition setDestroys (ds : list InstId) (st : CanonicalizeOSSALifetime) :=
  mkState (pruneDebugMode st) (func st) (currentDef st) (liveness st)
    (consumingBlocks st) ds (debugValues st) (consumes st) (statistics st).

Definition setDebugValues (ds : list InstId) (st : CanonicalizeOSSALifetime) :=
  mkState (pruneDebugMode st) (func st) (currentDef st) (liveness st)
    (consumingBlocks st) (destroys st) ds (consumes st) (statistics st).

Definition setConsumes (c : CanonicalOSSAConsumeInfo) (st : CanonicalizeOSSALifetime) :=
  mkState (pruneDebugMode st) (func st) (currentDef st) (liveness st)
    (consumingBlocks st) (destroys st) (debugValues st) c (statistics st).

Definition setStatistics (s : Statistics) (st : CanonicalizeOSSALifetime) :=
  mkState (pruneDebugMode st) (func st) (currentDef st) (liveness st)
    (consumingBlocks st) (destroys st) (debugValues st) (consumes st) s.

(** [recordDebugValue(dvi)] *)
Definition recordDebugValue (dvi : InstId) (st : CanonicalizeOSSALifetime) :=
  setDebugValues (setInsert dvi (debugValues st)) st.

(** [recordConsumingUse(use)] *)
Definition recordConsumingUse (use : Operand) (st : CanonicalizeOSSALifetime) :=
  setConsumingBlocks (setInsert (opParentBlock use) (consumingBlocks st)) st.

(** [liveness.updateForUse(user, lifetimeEnding)] on the state *)
Definition livenessUpdateForUse (userBB : BlockId) (user : InstId)
    (lifetimeEnding : bool) (st : CanonicalizeOSSALifetime) :=
  setLiveness (updateForUse (func st) userBB user lifetimeEnding (liveness st)) st.

(** [clearLiveness()] *)
Definition clearLiveness (st : CanonicalizeOSSALifetime) :=
  mkState (pruneDebugMode st) (func st) (currentDef st) emptyLiveness
    [] [] [] (consumes st) (statistics st).

(** [initDef(def)] *)
Definition initDef (def : SILValue) (st : CanonicalizeOSSALifetime)
  : Outcome CanonicalizeOSSALifetime :=
  _ ← assert (bool_decide (consumingBlocks st = [] ∧ debugValues st = []
                           ∧ liveness st = emptyLiveness));
  defBB ← deref (getParentBlock (func st) def);
  Ret (setLiveness (initializeDefBlock defBB (liveness st))
         (setCurrentDef def (setConsumes emptyConsumes st))).

Section Canonicalize.

Variable host : Host.

(** ** Step 1. Compute pruned liveness *)

(** The body of the loop over the uses of one value in
    [computeCanonicalLiveness]. The boolean is [false] when the function
    returns false at this use. *)
Definition computeLivenessForUse (use : Operand)
    (st : CanonicalizeOSSALifetime) (wl : GraphNodeWorklist SILValue)
  : Outcome (bool * CanonicalizeOSSALifetime * GraphNodeWorklist SILValue) :=
  let user := opUser use in
  let userBB := opParentBlock use in
  (* Recurse through copies. *)
  if isa CopyValueInst user
  then Ret (true, st, worklistInsert (InstResult (instId user)) wl)
  (* Handle debug_value instructions separately. *)
  else if pruneDebugMode st && isa DebugValueInst user
  then
    if decide (getBlockLiveness (liveness st) userBB ≠ LiveOut)
    then Ret (true, recordDebugValue (instId user) st, wl)
    else Ret (true, st, wl)
  else
    match opOwnership use with
    | NonUse => Ret (true, st, wl)
    | TrivialUse => Unreachable
    | ForwardingUnowned | PointerEscape => Ret (false, st, wl)
    | InstantaneousUse | UnownedInstantaneousUse | BitwiseEscape =>
        Ret (true, livenessUpdateForUse userBB (instId user) false st, wl)
    | ForwardingConsume =>
        Ret (true,
             livenessUpdateForUse userBB (instId user) true
               (recordConsumingUse use st), wl)
    | DestroyingConsume =>
        let st1 :=
          if isa DestroyValueInst user
          then setDestroys (setInsert (instId user) (destroys st)) st
          else livenessUpdateForUse userBB (instId user) true st in
        Ret (true, recordConsumingUse use st1, wl)
    | Borrow =>
        let r := updateForBorrowingOperand host (func st) use (liveness st) in
        Ret (r.1, setLiveness r.2 st, wl)
    | InteriorPointer | ForwardingBorrow | EndBorrow =>
        Ret (true, livenessUpdateForUse userBB (instId user) false st, wl)
    | Reborrow =>
        if negb (isa BranchInst user)
        then
          (* [cast<SingleValueInstruction>(user)] *)
          _ ← assert (isSingleValueInstruction host user);
          Ret (true, livenessUpdateForUse userBB (instId user) false st,
               worklistInsert (InstResult (instId user)) wl)
        else if bool_decide (currentDef st ∈ (instOperands user).*1)
        then Ret (true, livenessUpdateForUse userBB (instId user) true st, wl)
        else
          dest ← deref (head (instSuccessors user));
          Ret (true, livenessUpdateForUse userBB (instId user) false st,
               worklistInsert (BlockArgument dest (opIndex use)) wl)
    end.

Fixpoint computeLivenessForUses (uses : list Operand)
    (st : CanonicalizeOSSALifetime) (wl : GraphNodeWorklist SILValue)
  : Outcome (bool * CanonicalizeOSSALifetime * GraphNodeWorklist SILValue) :=
  match uses with
  | [] => Ret (true, st, wl)
  | use :: rest =>
      '(ok, st', wl') ← computeLivenessForUse use st wl;
      if ok : bool then computeLivenessForUses rest st' wl'
      else Ret (false, st', wl')
  end.

Definition isPhiArgument (fn : SILFunction) (v : SILValue) : bool :=
  match v with
  | BlockArgument _ _ => isPhi host fn v
  | InstResult _ => false
  end.

Fixpoint computeCanonicalLivenessLoop (fuel : nat)
    (st : CanonicalizeOSSALifetime) (wl : GraphNodeWorklist SILValue)
  : Outcome (bool * CanonicalizeOSSALifetime) :=
  match fuel with
  | 0 => OutOfFuel
  | S fuel' =>
      match worklistPop wl with
      | None => Ret (true, st)
      | Some (value, wl1) =>
          let wl2 :=
            if isPhiArgument (func st) value
            then foldl (fun w r => worklistInsert r w) wl1
                       (adjacentReborrowsOfPhi host (func st) value)
            else wl1 in
          '(ok, st', wl3) ←
            computeLivenessForUses (getUses (func st) value) st wl2;
          if ok : bool then computeCanonicalLivenessLoop fuel' st' wl3
          else Ret (false, st')
      end
  end.

Definition computeCanonicalLiveness (fuel : nat) (st : CanonicalizeOSSALifetime)
  : Outcome (bool * CanonicalizeOSSALifetime) :=
  computeCanonicalLivenessLoop fuel st
    (worklistInsert (currentDef st) (mkWorklist [] [])).

(** ** Step 1b. Extend liveness over overlapping access scopes *)

(** [endAccess->getBeginAccess()] with its parent block. *)
Definition getBeginAccess (fn : SILFunction) (endAccess : SILInstruction)
  : option (BlockId * SILInstruction) :=
  match instOperands endAccess with
  | (InstResult b, _) :: _ =>
      match findInst fn b with
      | Some (bb, beginAccess) =>
          if isa BeginAccessInst beginAccess then Some (bb, beginAccess) else None
      | None => None
      end
  | _ => None
  end.

(** The instructions after [i] in a block: [std::next(i->getIterator())]
    up to the end of the block. *)
Fixpoint instsAfter (i : InstId) (insts : list SILInstruction)
  : list SILInstruction :=
  match insts with
  | [] => []
  | x :: rest => if decide (instId x = i) then rest else instsAfter i rest
  end.

Definition endsAccessOverlappingPrunedBoundary (st : CanonicalizeOSSALifetime)
    (inst : SILInstruction) : Outcome bool :=
  if isa EndUnpairedAccessInst inst then Ret true
  else if negb (isa EndAccessInst inst) then Ret false
  else
    beginAccess ← deref (getBeginAccess (func st) inst);
    let beginBB := beginAccess.1 in
    match getBlockLiveness (liveness st) beginBB with
    | LiveOut => Ret true
    | LiveWithin =>
        Ret (existsb
               (fun nextInst =>
                  bool_decide (isInterestingUser (liveness st) (instId nextInst)
                               ≠ NonUser))
               (instsAfter (instId beginAccess.2) (blockInsts (func st) beginBB)))
    | Dead =>
        defBB ← deref (getParentBlock (func st) (currentDef st));
        Ret (properlyDominates host beginBB defBB)
    end.

(** The blocks in which liveness may have to be extended: the consuming
    blocks and, walking the set vector while it grows, the predecessors of
    every Dead block in it. *)
Fixpoint collectBlocksToVisit (fuel : nat) (st : CanonicalizeOSSALifetime)
    (idx : nat) (blocksToVisit : list BlockId) : Outcome (list BlockId) :=
  match blocksToVisit !! idx with
  | None => Ret blocksToVisit
  | Some bb =>
      match fuel with
      | 0 => OutOfFuel
      | S fuel' =>
          if decide (getBlockLiveness (liveness st) bb ≠ Dead)
          then collectBlocksToVisit fuel' st (S idx) blocksToVisit
          else collectBlocksToVisit fuel' st (S idx)
                 (foldl (fun vec predBB => setInsert predBB vec) blocksToVisit
                        (getPredecessorBlocks (func st) bb))
      end
  end.

(** The reverse scan of one block for the latest overlapping access
    scope. *)
Fixpoint findOverlappingAccess (st : CanonicalizeOSSALifetime)
    (blockHasUse : bool) (findLastConsume : bool)
    (revInsts : list SILInstruction) : Outcome (option SILInstruction) :=
  match revInsts with
  | [] => Ret None
  | inst :: rest =>
      if findLastConsume
      then findOverlappingAccess st blockHasUse
             (negb (bool_decide (instId inst ∈ destroys st))) rest
      else if blockHasUse
              && bool_decide (isInterestingUser (liveness st) (instId inst)
                              ≠ NonUser)
      then Ret None
      else
        overlaps ← endsAccessOverlappingPrunedBoundary st inst;
        if overlaps : bool then Ret (Some inst)
        else findOverlappingAccess st blockHasUse false rest
  end.

(** The body of [for (auto *bb : blocksToVisit)] for one block: the
    instruction over which liveness has to be extended, if any. *)
Definition extendLivenessInBlock (st : CanonicalizeOSSALifetime)
    (blocksToVisit : list BlockId) (bb : BlockId)
  : Outcome (option SILInstruction) :=
  let blockLiveness := getBlockLiveness (liveness st) bb in
  if bool_decide (blockLiveness = LiveOut) then Ret None
  else if bool_decide (blockLiveness = Dead)
          && negb (containsNonLocalEndAccess host bb)
  then Ret None
  else
    let blockHasUse := bool_decide (blockLiveness = LiveWithin) in
    let findLastConsume :=
      bool_decide (bb ∈ consumingBlocks st)
      && forallb
           (fun successor =>
              negb (bool_decide (successor ∈ blocksToVisit)
                    && bool_decide (getBlockLiveness (liveness st) successor
                                    = Dead)))
           (getSuccessorBlocks (func st) bb) in
    findOverlappingAccess st blockHasUse findLastConsume
      (rev (blockInsts (func st) bb)).

Fixpoint extendLivenessInBlocks (st : CanonicalizeOSSALifetime)
    (blocksToVisit : list BlockId) (todo : list BlockId)
  : Outcome (option (BlockId * SILInstruction)) :=
  match todo with
  | [] => Ret None
  | bb :: rest =>
      found ← extendLivenessInBlock st blocksToVisit bb;
      match found with
      | Some inst => Ret (Some (bb, inst))
      | None => extendLivenessInBlocks st blocksToVisit rest
      end
  end.

(** One iteration of [while (changed)]: [Some] of the new state when the
    iteration set [changed]. *)
Definition extendLivenessStep (st : CanonicalizeOSSALifetime)
  : Outcome (option CanonicalizeOSSALifetime) :=
  blocksToVisit ←
    collectBlocksToVisit
      (length (fnBlocks (func st)) + length (consumingBlocks st)) st 0
      (foldl (fun vec bb => setInsert bb vec) [] (consumingBlocks st));
  found ← extendLivenessInBlocks st blocksToVisit blocksToVisit;
  match found with
  | Some (bb, inst) => Ret (Some (livenessUpdateForUse bb (instId inst) false st))
  | None => Ret None
  end.

Fixpoint extendLivenessLoop (fuel : nat) (st : CanonicalizeOSSALifetime)
  : Outcome CanonicalizeOSSALifetime :=
  match fuel with
  | 0 => OutOfFuel
  | S fuel' =>
      changed ← extendLivenessStep st;
      match changed with
      | Some st' => extendLivenessLoop fuel' st'
      | None => Ret st
      end
  end.

Definition extendLivenessThroughOverlappingAccess
    (st : CanonicalizeOSSALifetime) : Outcome CanonicalizeOSSALifetime :=
  extendLivenessLoop
    (S (length (fnBlocks (func st)) + length (fnInsts (func st)))) st.

(** ** Step 2. Find the destroy points of the current def *)

(** [destroy->getOperand()] *)
Definition getOperand (inst : SILInstruction) : option SILValue :=
  fst <$> head (instOperands inst).

(** Modelled from the spec: [getCanonicalCopiedDef(v)], declared in the
    header, "follows copy chains back to the canonical producer". A copy of
    a value that is not owned is its own canonical def. [fuel] bounds the
    length of the chain. *)
Fixpoint getCanonicalCopiedDef (fuel : nat) (fn : SILFunction) (v : SILValue)
  : SILValue :=
  match fuel, v with
  | S fuel', InstResult i =>
      match findInst fn i with
      | Some (_, inst) =>
          if isa CopyValueInst inst
          then match getOperand inst with
               | Some def =>
                   if decide (getOwnershipKind host def = OwnedKind)
                   then getCanonicalCopiedDef fuel' fn def
                   else v
               | None => v
               end
          else v
      | None => v
      end
  | _, _ => v
  end.

Definition incNumDestroysGenerated (st : CanonicalizeOSSALifetime) :=
  let s := statistics st in
  setStatistics (mkStats (NumCopiesEliminated s) (NumCopiesGenerated s)
                   (NumDestroysEliminated s) (S (NumDestroysGenerated s))) st.

(** Look past destroys and incidental uses to find a destroy on [edgeBB]
    that destroys [def]. *)
Fixpoint findDestroyOnCFGEdge (edgeInsts : list SILInstruction) (def : SILValue)
  : option SILInstruction :=
  match edgeInsts with
  | [] => None
  | inst :: rest =>
      if isIncidentalUse host inst then findDestroyOnCFGEdge rest def
      else if isa DestroyValueInst inst
      then if decide (getOperand inst = Some def) then Some inst
           else findDestroyOnCFGEdge rest def
      else None
  end.

(** [builder.createDestroyValue(loc, def)] at index [pos] of [bb], followed
    by [consumes.recordFinalConsume(di)]. *)
Definition createAndRecordDestroy (bb : BlockId) (pos : nat)
    (st : CanonicalizeOSSALifetime) : Outcome CanonicalizeOSSALifetime :=
  (* the builder takes its location from the instruction at [pos] *)
  _ ← deref (blockInsts (func st) bb !! pos);
  let r := createInst bb pos DestroyValueInst
             [(currentDef st, DestroyingConsume)] (func st) in
  c ← recordFinalConsume bb (instId r.1) (consumes st);
  Ret (setConsumes c (setFunc r.2 st)).

Definition findOrInsertDestroyOnCFGEdge (predBB succBB : BlockId)
    (st : CanonicalizeOSSALifetime) : Outcome CanonicalizeOSSALifetime :=
  _ ← assert (bool_decide
                (getSinglePredecessorBlock (func st) succBB = Some predBB));
  st' ←
    match findDestroyOnCFGEdge (blockInsts (func st) succBB) (currentDef st) with
    | Some di =>
        c ← recordFinalConsume succBB (instId di) (consumes st);
        Ret (setConsumes c st)
    | None => createAndRecordDestroy succBB 0 st
    end;
  Ret (incNumDestroysGenerated st').

(** The debug values between [pos] and the existing destroy are popped from
    the debug-after-consume set. *)
Definition popDebugValuesBetween (insts : list SILInstruction) (pos e : nat)
    (c : CanonicalOSSAConsumeInfo) : CanonicalOSSAConsumeInfo :=
  foldl (fun c inst =>
           if isa DebugValueInst inst then popDebugAfterConsume (instId inst) c
           else c)
        c (take (e - pos) (drop pos insts)).

(** This liveness boundary is within block [bb] (whose instructions are
    [insts]) at index [pos]. Create a final destroy there, or record the
    existing one found at index [existingDestroy.1]. *)
Definition insertDestroyAtInst (bb : BlockId) (insts : list SILInstruction)
    (pos : nat) (existingDestroy : option (nat * SILInstruction))
    (st : CanonicalizeOSSALifetime) : Outcome CanonicalizeOSSALifetime :=
  match existingDestroy with
  | Some (e, destroy) =>
      (* the iterator walks from [pos] until it meets the destroy *)
      _ ← assert (bool_decide (pos ≤ e));
      c ← recordFinalConsume bb (instId destroy)
            (popDebugValuesBetween insts pos e (consumes st));
      Ret (setConsumes c st)
  | None =>
      st' ← createAndRecordDestroy bb pos st;
      Ret (incNumDestroysGenerated st')
  end.

Fixpoint findOrInsertDestroysOnSuccessors (bb : BlockId) (succs : list BlockId)
    (st : CanonicalizeOSSALifetime) : Outcome CanonicalizeOSSALifetime :=
  match succs with
  | [] => Ret st
  | succ :: rest =>
      st' ← findOrInsertDestroyOnCFGEdge bb succ st;
      findOrInsertDestroysOnSuccessors bb rest st'
  end.

Definition isBlockArgumentOf (bb : BlockId) (v : SILValue) : bool :=
  match v with
  | BlockArgument b _ => bool_decide (b = bb)
  | InstResult _ => false
  end.

(** In prune-debug mode a debug value met by the scan leaves
    [debugValues] for the debug-after-consume set. *)
Definition moveDebugValueAfterConsume (inst : SILInstruction)
    (st : CanonicalizeOSSALifetime) : CanonicalizeOSSALifetime :=
  if pruneDebugMode st && isa DebugValueInst inst
     && bool_decide (instId inst ∈ debugValues st)
  then setConsumes (recordDebugAfterConsume (instId inst) (consumes st))
         (setDebugValues
            (filter (fun d => d ≠ instId inst) (debugValues st)) st)
  else st.

(** The scan of [findOrInsertDestroyInBlock] from index [k] upwards;
    [insts] are the instructions of [bb]. *)
Fixpoint findOrInsertDestroyInBlockFrom (bb : BlockId)
    (insts : list SILInstruction) (k : nat)
    (existingDestroy : option (nat * SILInstruction))
    (st : CanonicalizeOSSALifetime) : Outcome CanonicalizeOSSALifetime :=
  inst ← deref (insts !! k);
  let st1 := moveDebugValueAfterConsume inst st in
  match isInterestingUser (liveness st1) (instId inst) with
  | NonLifetimeEndingUse =>
      (* Insert a destroy after this non-consuming use. *)
      if isTermInst (instKind inst)
      then findOrInsertDestroysOnSuccessors bb
             (from_option instSuccessors [] (getTerminator insts)) st1
      else insertDestroyAtInst bb insts (S k) existingDestroy st1
  | LifetimeEndingUse =>
      (* This use becomes a final consume. *)
      c ← recordFinalConsume bb (instId inst) (consumes st1);
      Ret (setConsumes c st1)
  | NonUser =>
      let existingDestroy' :=
        if negb (ignoredByDestroyHoisting host (instKind inst)) then None
        else match existingDestroy with
             | Some _ => existingDestroy
             | None =>
                 if isa DestroyValueInst inst
                    && bool_decide
                         (getCanonicalCopiedDef (length (fnInsts (func st1)))
                            (func st1) <$> getOperand inst
                          = Some (currentDef st1))
                 then Some (k, inst) else None
             end in
      match k with
      | 0 =>
          _ ← assert (isBlockArgumentOf bb (currentDef st1));
          insertDestroyAtInst bb insts 0 existingDestroy' st1
      | S k' =>
          prev ← deref (insts !! k');
          (* If the original def is reached, this is a dead live range. *)
          if bool_decide (Some (instId prev)
                          = getDefiningInstruction (currentDef st1))
          then insertDestroyAtInst bb insts (S k') existingDestroy' st1
          else findOrInsertDestroyInBlockFrom bb insts k' existingDestroy' st1
      end
  end.

Definition findOrInsertDestroyInBlock (bb : BlockId)
    (st : CanonicalizeOSSALifetime) : Outcome CanonicalizeOSSALifetime :=
  let insts := blockInsts (func st) bb in
  _ ← deref (getTerminator insts);
  findOrInsertDestroyInBlockFrom bb insts (pred (length insts)) None st.

(** The Dead case of [findOrInsertDestroys]: the loop over the predecessors
    of [bb]. *)
Fixpoint visitDeadBlockPredecessors (bb : BlockId) (preds : list BlockId)
    (st : CanonicalizeOSSALifetime) (wl : GraphNodeWorklist BlockId)
  : Outcome (CanonicalizeOSSALifetime * GraphNodeWorklist BlockId) :=
  match preds with
  | [] => Ret (st, wl)
  | predBB :: rest =>
      if decide (getBlockLiveness (liveness st) predBB = LiveOut)
      then st' ← findOrInsertDestroyOnCFGEdge predBB bb st;
           visitDeadBlockPredecessors bb rest st' wl
      else visitDeadBlockPredecessors bb rest st (worklistInsert predBB wl)
  end.

Fixpoint findOrInsertDestroysLoop (fuel : nat) (st : CanonicalizeOSSALifetime)
    (wl : GraphNodeWorklist BlockId)
  : Outcome (CanonicalizeOSSALifetime * GraphNodeWorklist BlockId) :=
  match worklistPop wl with
  | None => Ret (st, wl)
  | Some (bb, wl1) =>
      match fuel with
      | 0 => OutOfFuel
      | S fuel' =>
          match getBlockLiveness (liveness st) bb with
          | LiveOut => findOrInsertDestroysLoop fuel' st wl1
          | LiveWithin =>
              st' ← findOrInsertDestroyInBlock bb st;
              findOrInsertDestroysLoop fuel' st' wl1
          | Dead =>
              '(st', wl2) ←
                visitDeadBlockPredecessors bb
                  (getPredecessorBlocks (func st) bb) st wl1;
              findOrInsertDestroysLoop fuel' st' wl2
          end
      end
  end.

(** [findOrInsertDestroys()]; the final worklist is returned with the
    state, its visited set holds the blocks the traversal reached. *)
Definition findOrInsertDestroys (st : CanonicalizeOSSALifetime)
  : Outcome (CanonicalizeOSSALifetime * GraphNodeWorklist BlockId) :=
  findOrInsertDestroysLoop
    (length (fnBlocks (func st)) + length (consumingBlocks st)) st
    (worklistInitializeRange (consumingBlocks st)).

(** ** Step 3. Rewrite copies and destroys *)

(** The local state of [rewriteCopies]: the canonicalizer, the
    instructions marked for deletion and the def-use worklist. *)
Record RewriteState : Type := mkRewrite {
  rwCanon : CanonicalizeOSSALifetime;
  instsToDelete : list InstId;
  defUseWorklist : GraphNodeWorklist SILValue;
}.

Definition setCanon (st : CanonicalizeOSSALifetime) (rw : RewriteState) :=
  mkRewrite st (instsToDelete rw) (defUseWorklist rw).

Definition incNumCopiesGenerated (st : CanonicalizeOSSALifetime) :=
  let s := statistics st in
  setStatistics (mkStats (NumCopiesEliminated s) (S (NumCopiesGenerated s))
                   (NumDestroysEliminated s) (NumDestroysGenerated s)) st.

Definition incNumCopiesEliminated (st : CanonicalizeOSSALifetime) :=
  let s := statistics st in
  setStatistics (mkStats (S (NumCopiesEliminated s)) (NumCopiesGenerated s)
                   (NumDestroysEliminated s) (NumDestroysGenerated s)) st.

Definition incNumDestroysEliminated (st : CanonicalizeOSSALifetime) :=
  let s := statistics st in
  setStatistics (mkStats (NumCopiesEliminated s) (NumCopiesGenerated s)
                   (S (NumDestroysEliminated s)) (NumDestroysGenerated s)) st.

(** The position of instruction [i] in a block. *)
Fixpoint instIndex (i : InstId) (insts : list SILInstruction) : option nat :=
  match insts with
  | [] => None
  | x :: rest => if decide (instId x = i) then Some 0 else S <$> instIndex i rest
  end.

(** [use->get()]: the value the operand holds now. *)
Definition operandValue (fn : SILFunction) (use : Operand) : option SILValue :=
  findInst fn (instId (opUser use)) ≫= fun p =>
  fst <$> (instOperands p.2 !! opIndex use).

(** The lifetime extends beyond the given consuming use. Copy the value. *)
Definition copyLiveUse (use : Operand) (st : CanonicalizeOSSALifetime)
  : Outcome CanonicalizeOSSALifetime :=
  let user := opUser use in
  let bb := opParentBlock use in
  pos ← deref (instIndex (instId user) (blockInsts (func st) bb));
  v ← deref (operandValue (func st) use);
  let r := createInst bb pos CopyValueInst [(v, InstantaneousUse)] (func st) in
  Ret (incNumCopiesGenerated
         (setFunc (setOperand (instId user) (opIndex use)
                     (InstResult (instId r.1)) r.2) st)).

(** The lambda [visitUse] of [rewriteCopies]: true if the operand can use
    the current definition, false if it requires a copy. *)
Definition visitUse (use : Operand) (rw : RewriteState) : bool * RewriteState :=
  let user := opUser use in
  let st := rwCanon rw in
  (* Recurse through copies. *)
  if isa CopyValueInst user
  then (true, mkRewrite st (instsToDelete rw)
                (worklistInsert (InstResult (instId user)) (defUseWorklist rw)))
  else if isa DestroyValueInst user
  then
    (* If this destroy was marked as a final destroy, ignore it; otherwise,
       delete it. *)
    let r := claimConsume (opParentBlock use) (instId user) (consumes st) in
    if r.1 then (true, setCanon (setConsumes r.2 st) rw)
    else (true, mkRewrite (incNumDestroysEliminated st)
                  (setInsert (instId user) (instsToDelete rw))
                  (defUseWorklist rw))
  (* Nonconsuming uses do not need copies and cannot be marked as destroys. *)
  else if negb (isLifetimeEnding host use) then (true, rw)
  else
    (* If this use was not marked as a final destroy or this is not the
       first consumed operand we visited, then it needs a copy. *)
    let r := claimConsume (opParentBlock use) (instId user) (consumes st) in
    if r.1 then (true, setCanon (setConsumes r.2 st) rw)
    else (false, rw).

(** The body of the traversal of the uses of [currentDef]. *)
Definition rewriteDefUse (use : Operand) (rw : RewriteState)
  : Outcome RewriteState :=
  let r := visitUse use rw in
  if r.1 then Ret r.2
  else st' ← copyLiveUse use (rwCanon r.2); Ret (setCanon st' r.2).

Fixpoint rewriteDefUses (uses : list Operand) (rw : RewriteState)
  : Outcome RewriteState :=
  match uses with
  | [] => Ret rw
  | use :: rest => rw' ← rewriteDefUse use rw; rewriteDefUses rest rw'
  end.

(** The body of the traversal of the uses of the copy [srcCopy], which
    lives in block [srcBB]. *)
Definition rewriteCopyUse (srcBB : BlockId) (use : Operand)
    (rw : RewriteState) (reusedCopyOp : option Operand)
  : Outcome (RewriteState * option Operand) :=
  let r := visitUse use rw in
  if r.1 then Ret (r.2, reusedCopyOp)
  else
    match reusedCopyOp with
    | None =>
        if decide (srcBB = opParentBlock use) then Ret (r.2, Some use)
        else st' ← copyLiveUse use (rwCanon r.2);
             Ret (setCanon st' r.2, None)
    | Some _ =>
        st' ← copyLiveUse use (rwCanon r.2);
        Ret (setCanon st' r.2, reusedCopyOp)
    end.

Fixpoint rewriteCopyUses (srcBB : BlockId) (uses : list Operand)
    (rw : RewriteState) (reusedCopyOp : option Operand)
  : Outcome (RewriteState * option Operand) :=
  match uses with
  | [] => Ret (rw, reusedCopyOp)
  | use :: rest =>
      '(rw', reused') ← rewriteCopyUse srcBB use rw reusedCopyOp;
      rewriteCopyUses srcBB rest rw' reused'
  end.

(** [srcCopy->hasOneUse()] *)
Definition hasOneUse (fn : SILFunction) (v : SILValue) : bool :=
  bool_decide (length (getUses fn v) = 1).

(** What follows the traversal of the uses of [srcCopy]: keep the copy for
    the reused operand, or replace it by its operand and delete it. *)
Definition finishCopy (srcCopy : InstId) (reusedCopyOp : option Operand)
    (rw : RewriteState) : Outcome RewriteState :=
  let st := rwCanon rw in
  if bool_decide (is_Some reusedCopyOp)
     && hasOneUse (func st) (InstResult srcCopy)
  then Ret rw
  else
    src ← deref (findInst (func st) srcCopy);
    operand ← deref (getOperand src.2);
    let fn1 := replaceAllUsesWith (InstResult srcCopy) operand (func st) in
    match reusedCopyOp with
    | Some use =>
        Ret (setCanon
               (setFunc (setOperand (instId (opUser use)) (opIndex use)
                           (InstResult srcCopy) fn1) st) rw)
    | None =>
        if decide (srcCopy ∈ instsToDelete rw)
        then Ret (setCanon (setFunc fn1 st) rw)
        else Ret (mkRewrite (incNumCopiesEliminated (setFunc fn1 st))
                    (instsToDelete rw ++ [srcCopy]) (defUseWorklist rw))
    end.

(** The body of [while (SILValue value = defUseWorklist.pop())]. *)
Definition rewriteCopy (value : SILValue) (rw : RewriteState)
  : Outcome RewriteState :=
  match value with
  | InstResult srcCopy =>
      src ← deref (findInst (func (rwCanon rw)) srcCopy);
      _ ← assert (isa CopyValueInst src.2);
      '(rw', reusedCopyOp) ←
        rewriteCopyUses src.1 (getUses (func (rwCanon rw)) value) rw None;
      finishCopy srcCopy reusedCopyOp rw'
  | BlockArgument _ _ => Unreachable
  end.

Fixpoint rewriteCopiesLoop (fuel : nat) (rw : RewriteState)
  : Outcome RewriteState :=
  match worklistPop (defUseWorklist rw) with
  | None => Ret rw
  | Some (value, wl) =>
      match fuel with
      | 0 => OutOfFuel
      | S fuel' =>
          rw' ← rewriteCopy value
                  (mkRewrite (rwCanon rw) (instsToDelete rw) wl);
          rewriteCopiesLoop fuel' rw'
      end
  end.

(** The dead debug values: those recorded in step 1 whose block is Dead. *)
Definition recordDeadDebugValues (st : CanonicalizeOSSALifetime)
  : CanonicalOSSAConsumeInfo :=
  foldl (fun c dvi =>
           match instParent (func st) dvi with
           | Some bb =>
               if decide (getBlockLiveness (liveness st) bb = Dead)
               then recordDebugAfterConsume dvi c else c
           | None => c
           end)
        (consumes st) (debugValues st).

Definition rewriteCopies (st : CanonicalizeOSSALifetime)
  : Outcome CanonicalizeOSSALifetime :=
  _ ← assert (bool_decide (getOwnershipKind host (currentDef st) = OwnedKind));
  let rw0 := mkRewrite st [] (mkWorklist [] []) in
  (* Perform a def-use traversal, visiting each use operand. *)
  rw1 ← rewriteDefUses (getUses (func st) (currentDef st)) rw0;
  rw2 ← rewriteCopiesLoop (length (fnInsts (func st))) rw1;
  let st2 := rwCanon rw2 in
  _ ← assert (negb (hasUnclaimedConsumes (consumes st2)));
  (* Add any debug_values from Dead blocks into the debugAfterConsume set. *)
  let st3 := setConsumes (recordDeadDebugValues st2) st2 in
  (* Remove any dead, non-recovered debug_values. *)
  let fn1 := foldl (fun fn dvi => forceDelete dvi fn) (func st3)
                   (debugAfterConsume (consumes st3)) in
  (* Remove the leftover copy_value and destroy_value instructions. *)
  let fn2 := foldl (fun fn i => forceDelete i fn) fn1 (instsToDelete rw2) in
  Ret (setFunc fn2 st3).

(** ** Top-level API *)

(** Canonicalize a single extended owned lifetime. [fuel] bounds the number
    of values step 1 takes from its worklist. *)
Definition canonicalizeValueLifetime (fuel : nat) (def : SILValue)
    (st : CanonicalizeOSSALifetime) : Outcome (bool * CanonicalizeOSSALifetime) :=
  if decide (getOwnershipKind host def ≠ OwnedKind) then Ret (false, st)
  else if isLexical host def then Ret (false, st)
  else
    st0 ← initDef def st;
    (* Step 1: compute liveness *)
    '(ok, st1) ← computeCanonicalLiveness fuel st0;
    if negb ok then Ret (false, clearLiveness st1)
    else
      st2 ← extendLivenessThroughOverlappingAccess st1;
      (* Step 2: record final destroys *)
      '(st3, _) ← findOrInsertDestroys st2;
      (* Step 3: rewrite copies and delete extra destroys *)
      st4 ← rewriteCopies st3;
      Ret (true, setConsumes emptyConsumes (clearLiveness st4)).

End Canonicalize.

(** * Example inputs *)

(** A host in which every value is owned and not lexical, a use ends a
    lifetime when its operand is consumed, block [a] properly dominates
    block [b] when [a < b], debug values and end_access are incidental
    uses, destroy hoisting ignores destroys and debug values, and the
    instructions that define a value are the copies, the begin_access and
    the instructions that are not named. *)
Definition exampleHost : Host :=
  mkHost
    (fun _ => OwnedKind)
    (fun _ => false)
    (fun op => bool_decide (opOwnership op = DestroyingConsume
                            ∨ opOwnership op = ForwardingConsume))
    (fun a b => bool_decide (a < b))
    (fun _ => false)
    (fun i => bool_decide (instKind i = DebugValueInst
                           ∨ instKind i = EndAccessInst))
    (fun k => bool_decide (k = DestroyValueInst ∨ k = DebugValueInst))
    (fun _ _ => false)
    (fun _ _ => [])
    (fun _ _ => [])
    (fun i => match instKind i with
              | CopyValueInst | BeginAccessInst | OtherInst _ => true
              | _ => false
              end).

Definition exampleState (debugMode : bool) (fn : SILFunction) (def : SILValue)
  : CanonicalizeOSSALifetime :=
  mkState debugMode fn def emptyLiveness [] [] [] emptyConsumes
    (mkStats 0 0 0 0).

Definition producerInst (i : InstId) : SILInstruction :=
  mkInst i (OtherInst 0) [] [].
Definition destroyInst (i : InstId) (v : SILValue) : SILInstruction :=
  mkInst i DestroyValueInst [(v, DestroyingConsume)] [].
Definition copyInst (i : InstId) (v : SILValue) : SILInstruction :=
  mkInst i CopyValueInst [(v, InstantaneousUse)] [].
Definition consumeInst (i : InstId) (v : SILValue) : SILInstruction :=
  mkInst i (OtherInst 1) [(v, DestroyingConsume)] [].
Definition useInst (i : InstId) (v : SILValue) : SILInstruction :=
  mkInst i (OtherInst 2) [(v, InstantaneousUse)] [].
Definition escapeInst (i : InstId) (v : SILValue) : SILInstruction :=
  mkInst i (OtherInst 3) [(v, PointerEscape)] [].
Definition debugInst (i : InstId) (v : SILValue) : SILInstruction :=
  mkInst i DebugValueInst [(v, PointerEscape)] [].
Definition beginAccessInst (i : InstId) : SILInstruction :=
  mkInst i BeginAccessInst [] [].
Definition endAccessInst (i : InstId) (b : InstId) : SILInstruction :=
  mkInst i EndAccessInst [(InstResult b, EndBorrow)] [].
Definition returnInst (i : InstId) : SILInstruction :=
  mkInst i (OtherTermInst 0) [] [].
Definition condBranchInst (i : InstId) (a b : BlockId) : SILInstruction :=
  mkInst i (OtherTermInst 1) [] [a; b].
Definition branchInst (i : InstId) (a : BlockId) : SILInstruction :=
  mkInst i BranchInst [] [a].

(** begin_access in bb0; bb1 defines the value and ends the access. *)
Definition accessAcrossBlocks : SILFunction :=
  mkFunction
    [mkBlock 0 [beginAccessInst 0; branchInst 1 1];
     mkBlock 1 [producerInst 2; endAccessInst 3 0;
                destroyInst 4 (InstResult 2); returnInst 5]]
    6.

(** %d is used in bb0 and by a debug_value in bb1; the operand of the
    debug_value is classified as a pointer escape. *)
Definition debugValueFunction : SILFunction :=
  mkFunction
    [mkBlock 0 [producerInst 0; useInst 1 (InstResult 0); branchInst 2 1];
     mkBlock 1 [debugInst 3 (InstResult 0);
                destroyInst 4 (InstResult 0); returnInst 5]]
    6.

Definition debugValueUse : Operand :=
  mkOperand (debugInst 3 (InstResult 0)) 1 0 (InstResult 0) PointerEscape.

(** S3 of the spec: two consumes of %d followed by its destroy. *)
Definition twoConsumes : SILFunction :=
  mkFunction
    [mkBlock 0 [producerInst 0; consumeInst 1 (InstResult 0);
                consumeInst 2 (InstResult 0); destroyInst 3 (InstResult 0);
                returnInst 4]]
    5.

Definition destroyUse : Operand :=
  mkOperand (destroyInst 3 (InstResult 0)) 0 0 (InstResult 0) DestroyingConsume.

(** The rewrite state in which the second consume of [twoConsumes] is the
    final consume of bb0. *)
Definition twoConsumesRewrite : RewriteState :=
  mkRewrite
    (mkState false twoConsumes (InstResult 0) emptyLiveness [0] [3] []
       (mkConsumes {[0 := 2]} []) (mkStats 0 0 0 0))
    [] (mkWorklist [] []).

(** bb1, the single successor of bb0 on which %0 is dead, starts with the
    destroy of another value followed by a destroy of %0. *)
Definition destroyBehindOtherDestroy : SILFunction :=
  mkFunction
    [mkBlock 0 [producerInst 0; producerInst 1; condBranchInst 2 1 2];
     mkBlock 1 [destroyInst 3 (InstResult 1); destroyInst 4 (InstResult 0);
                returnInst 5];
     mkBlock 2 [useInst 6 (InstResult 0); destroyInst 7 (InstResult 0);
                destroyInst 8 (InstResult 1); returnInst 9]]
    10.

(** As above, but bb1 holds no destroy of %0. *)
Definition noDestroyOnEdge : SILFunction :=
  mkFunction
    [mkBlock 0 [producerInst 0; producerInst 1; condBranchInst 2 1 2];
     mkBlock 1 [destroyInst 3 (InstResult 1); returnInst 5];
     mkBlock 2 [useInst 6 (InstResult 0); destroyInst 7 (InstResult 0);
                destroyInst 8 (InstResult 1); returnInst 9]]
    10.

(** * The destroy on a CFG edge, in the words of the specification *)

(** The CFG-edge rule as the spec words it: [succ] "already begins with a
    destroy of CurrentDef (skipping incidental uses)". *)
Fixpoint destroyPastIncidentalUses (host : Host)
    (insts : list SILInstruction) (def : SILValue) : option SILInstruction :=
  match insts with
  | [] => None
  | inst :: rest =>
      if isIncidentalUse host inst then destroyPastIncidentalUses host rest def
      else if isa DestroyValueInst inst
              && bool_decide (getOperand inst = Some def)
      then Some inst
      else None
  end.

(** What placing the destroy of the edge [predBB → succBB] does, given the
    way [lookup] finds an existing destroy at the entry of [succBB]: an
    existing destroy is recorded as the final consume and nothing is
    created; otherwise a fresh destroy of the current def becomes the first
    instruction of [succBB] and is recorded. *)
Definition edgeDestroyPlaced
    (lookup : list SILInstruction → SILValue → option SILInstruction)
    (host : Host) (predBB succBB : BlockId) (st : CanonicalizeOSSALifetime)
  : Prop :=
  ∃ st',
    findOrInsertDestroyOnCFGEdge host predBB succBB st = Ret st'
    ∧ match lookup (blockInsts (func st) succBB) (currentDef st) with
      | Some di =>
          func st' = func st
          ∧ finalBlockConsumes (consumes st')
            = <[succBB := instId di]> (finalBlockConsumes (consumes st))
      | None =>
          let di := mkInst (fnNextInst (func st)) DestroyValueInst
                      [(currentDef st, DestroyingConsume)] [] in
          blockInsts (func st') succBB = di :: blockInsts (func st) succBB
          ∧ (∀ bb, bb ≠ succBB →
               blockInsts (func st') bb = blockInsts (func st) bb)
          ∧ fnNextInst (func st') = S (fnNextInst (func st))
          ∧ finalBlockConsumes (consumes st')
            = <[succBB := instId di]> (finalBlockConsumes (consumes st))
      end.

(** The instructions [findDestroyOnCFGEdge] looks past. *)
Definition skippedOnCFGEdge (host : Host) (def : SILValue)
    (inst : SILInstruction) : Prop :=
  isIncidentalUse host inst = true
  ∨ (isa DestroyValueInst inst = true ∧ getOperand inst ≠ Some def).

#[global] Instance skippedOnCFGEdge_dec (host : Host) (def : SILValue)
    (inst : SILInstruction) : Decision (skippedOnCFGEdge host def inst).
Proof. unfold skippedOnCFGEdge. apply _. Defined.

(** Modelled from the spec, with the amendment: [succ] "already begins with
    a destroy of CurrentDef", looking past incidental uses and
    destroy_values of other values. *)
Fixpoint destroyPastIncidentalUsesAndDestroys (host : Host)
    (insts : list SILInstruction) (def : SILValue) : option SILInstruction :=
  match insts with
  | [] => None
  | inst :: rest =>
      if decide (skippedOnCFGEdge host def inst)
      then destroyPastIncidentalUsesAndDestroys host rest def
      else if isa DestroyValueInst inst
              && bool_decide (getOperand inst = Some def)
      then Some inst
      else None
  end.

(** The state after step 1 for %0 in the two functions above: bb0 is
    LiveOut, bb2 LiveWithin and bb1 Dead. *)
Definition edgeState (fn : SILFunction) : CanonicalizeOSSALifetime :=
  mkState false fn (InstResult 0)
    (mkLiveness {[0 := LiveOut; 2 := LiveWithin]} {[6 := false]})
    [2] [7] [] emptyConsumes (mkStats 0 0 0 0).

(** * Well-formed functions *)

Definition instIds (fn : SILFunction) : list InstId :=
  (fun p => instId p.2) <$> fnInsts fn.

(** Blocks and instructions have identities of their own, and the builder's
    next identity is fresh. *)
Definition wfFunction (fn : SILFunction) : Prop :=
  NoDup (bbId <$> fnBlocks fn)
  ∧ NoDup (instIds fn)
  ∧ Forall (fun i => i < fnNextInst fn) (instIds fn).

(** The value held by operand [idx] of instruction [i]. *)
Definition operandAt (fn : SILFunction) (i : InstId) (idx : nat)
  : option SILValue :=
  findInst fn i ≫= fun p => fst <$> (instOperands p.2 !! idx).

(** The position of a use: its user and operand index. *)
Definition usePos (op : Operand) : InstId * nat :=
  (instId (opUser op), opIndex op).

#[global] Instance wfFunction_dec (fn : SILFunction) : Decision (wfFunction fn).
Proof. unfold wfFunction. apply _. Defined.

(** ** The copy short-circuit of step 3 *)

(** The uses, among [uses] visited in order from [rw], for which [visitUse]
    answers that a copy is needed. *)
Fixpoint usesNeedingCopy (host : Host) (uses : list Operand)
    (rw : RewriteState) : list Operand :=
  match uses with
  | [] => []
  | use :: rest =>
      let r := visitUse host use rw in
      if r.1 then usesNeedingCopy host rest r.2
      else use :: usesNeedingCopy host rest r.2
  end.

(** The spec's condition: "exactly one of c's uses needed a copy and that
    use is in the same block as c". *)
Definition onlyUseInBlock (srcBB : BlockId) (needing : list Operand)
  : option Operand :=
  match needing with
  | [use] => if decide (srcBB = opParentBlock use) then Some use else None
  | _ => None
  end.

(** The code's condition: the first use needing a copy that is in the same
    block as c. *)
Fixpoint firstUseInBlock (srcBB : BlockId) (needing : list Operand)
  : option Operand :=
  match needing with
  | [] => None
  | use :: rest =>
      if decide (srcBB = opParentBlock use) then Some use
      else firstUseInBlock srcBB rest
  end.

(** Ownership SSA consumes an owned value once on every path: when a
    lifetime-ending use of the copy [c] is in the block of [c], which every
    path from [c] runs through, [c] has no other lifetime-ending use. *)
Definition consumedOnceInBlock (host : Host) (fn : SILFunction) (c : InstId)
    (srcBB : BlockId) : Prop :=
  let ending :=
    filter (fun u => isLifetimeEnding host u = true)
           (getUses fn (InstResult c)) in
  Exists (fun u => opParentBlock u = srcBB) ending → length ending = 1.

#[global] Instance consumedOnceInBlock_dec (host : Host) (fn : SILFunction)
    (c : InstId) (srcBB : BlockId)
  : Decision (consumedOnceInBlock host fn c srcBB).
Proof. unfold consumedOnceInBlock. apply _. Defined.

(** What the traversal of the uses of [c] does to the function [fn]: a use
    that needed a copy, but for the reused one, holds a copy_value of [c]
    created in its block; every other operand holds what it held. *)
Definition usesCopied (c : InstId) (needing : list Operand)
    (reusedOp : option Operand) (fn fn1 : SILFunction) : Prop :=
  (∀ u, u ∈ needing → reusedOp ≠ Some u →
     ∃ f, fnNextInst fn ≤ f
          ∧ operandAt fn1 (instId (opUser u)) (opIndex u)
            = Some (InstResult f)
          ∧ findInst fn1 f
            = Some (opParentBlock u,
                    mkInst f CopyValueInst
                      [(InstResult c, InstantaneousUse)] []))
  ∧ (∀ i idx w,
       (∀ u, u ∈ needing → reusedOp ≠ Some u → usePos u ≠ (i, idx)) →
       operandAt fn i idx = Some w → operandAt fn1 i idx = Some w).

(** The copy [c] is reused for [use]: it is not deleted, [use] holds it and
    no other operand does, every other operand that held [c] when its uses
    had been visited now holding [operand], the operand of [c]. *)
Definition copyReusedFor (c : InstId) (operand : SILValue) (use : Operand)
    (rw1 rw' : RewriteState) : Prop :=
  (c ∉ instsToDelete rw')
  ∧ operandAt (func (rwCanon rw')) (instId (opUser use)) (opIndex use)
    = Some (InstResult c)
  ∧ (∀ op, op ∈ getUses (func (rwCanon rw')) (InstResult c) →
           usePos op = usePos use)
  ∧ (∀ i idx, (i, idx) ≠ usePos use →
       operandAt (func (rwCanon rw1)) i idx = Some (InstResult c) →
       operandAt (func (rwCanon rw')) i idx = Some operand).

(** The copy [c] is replaced by its operand everywhere and scheduled for
    deletion: every operand that held [c] when its uses had been visited
    now holds [operand], the operand of [c]. *)
Definition copyReplaced (c : InstId) (operand : SILValue)
    (rw1 rw' : RewriteState) : Prop :=
  c ∈ instsToDelete rw'
  ∧ getUses (func (rwCanon rw')) (InstResult c) = []
  ∧ (∀ i idx,
       operandAt (func (rwCanon rw1)) i idx = Some (InstResult c) →
       operandAt (func (rwCanon rw')) i idx = Some operand).

(** The outcome of [rewriteCopy] for the copy [c] of block [srcBB], whose
    operand is [operand], where [reused] selects the use for which the copy
    is kept among those that needed a copy. The uses of [c] are visited in
    the order of its use list, whatever that order is; [rewriteCopy] visits
    them in the order of [getUses]. Both the traversal and what follows it
    return: [rw1] is the state when the uses have been visited, [rw'] the
    state when [c] has been dealt with. *)
Definition copyShortCircuit
    (reused : BlockId → list Operand → option Operand)
    (host : Host) (c : InstId) (srcBB : BlockId) (operand : SILValue)
    (rw : RewriteState) : Prop :=
  ∀ uses,
    uses ≡ₚ getUses (func (rwCanon rw)) (InstResult c) →
    let needing := usesNeedingCopy host uses rw in
    ∃ rw1 rw',
      rewriteCopyUses host srcBB uses rw None
      = Ret (rw1, reused srcBB needing)
      ∧ finishCopy c (reused srcBB needing) rw1 = Ret rw'
      ∧ (uses = getUses (func (rwCanon rw)) (InstResult c) →
         rewriteCopy host (InstResult c) rw = Ret rw')
      ∧ usesCopied c needing (reused srcBB needing)
          (func (rwCanon rw)) (func (rwCanon rw1))
      ∧ (∀ i idx w,
           w ≠ InstResult c →
           operandAt (func (rwCanon rw1)) i idx = Some w →
           operandAt (func (rwCanon rw')) i idx = Some w)
      ∧ match reused srcBB needing with
        | Some use => copyReusedFor c operand use rw1 rw'
        | None => copyReplaced c operand rw1 rw'
        end.

(** %1 = copy %0 is consumed twice in its own block before the last
    consume of %0, which ownership SSA does not allow. *)
Definition copyConsumedTwice : SILFunction :=
  mkFunction
    [mkBlock 0 [producerInst 0; copyInst 1 (InstResult 0);
                consumeInst 2 (InstResult 1); consumeInst 3 (InstResult 1);
                consumeInst 4 (InstResult 0); returnInst 5]]
    6.

(** The rewrite state of [copyConsumedTwice] when the copy is taken from
    the worklist: the consume of %0 has been claimed. *)
Definition copyConsumedTwiceRewrite : RewriteState :=
  mkRewrite
    (mkState false copyConsumedTwice (InstResult 0)
       (mkLiveness {[0 := LiveWithin]} {[2 := true; 3 := true; 4 := true]})
       [0] [] [] emptyConsumes (mkStats 0 0 0 0))
    [] (mkWorklist [InstResult 1] []).

(** ** Bail-out of step 1 *)

(** A use at which [computeCanonicalLiveness] returns false: it is not
    taken by the copy or debug_value cases, and its operand is a pointer
    escape, a forwarding to an unowned value, or a borrow whose scope ends
    in a reborrow (the borrow-operand extension that liveness does not
    support). *)
Definition bailingUse (host : Host) (debugMode : bool) (fn : SILFunction)
    (use : Operand) : Prop :=
  isa CopyValueInst (opUser use) = false
  ∧ debugMode && isa DebugValueInst (opUser use) = false
  ∧ (opOwnership use = ForwardingUnowned
     ∨ opOwnership use = PointerEscape
     ∨ (opOwnership use = Borrow
        ∧ ∃ e, e ∈ scopeEndingUses host fn use ∧ opOwnership e = Reborrow)).

(** S6 of the spec: %d escapes. *)
Definition pointerEscapeFunction : SILFunction :=
  mkFunction
    [mkBlock 0 [producerInst 0; escapeInst 1 (InstResult 0);
                destroyInst 2 (InstResult 0); returnInst 3]]
    4.

(** ** Growth of pruned liveness *)

(** [l'] is [l] grown: no block and no instruction has a lower state. *)
Definition livenessLe (l l' : PrunedLiveness) : Prop :=
  (∀ bb, liveRank (getBlockLiveness l bb) ≤ liveRank (getBlockLiveness l' bb))
  ∧ (∀ i, userRank (isInterestingUser l i) ≤ userRank (isInterestingUser l' i)).

(** The invariant of recorded users: the block of an interesting user is
    not Dead. *)
Definition usersLive (fn : SILFunction) (l : PrunedLiveness) : Prop :=
  ∀ bb inst,
    (bb, inst) ∈ fnInsts fn →
    isInterestingUser l (instId inst) ≠ NonUser →
    getBlockLiveness l bb ≠ Dead.

(** What is left to grow: the Dead blocks and the instructions that are
    not users. *)
Definition deadBlocks (fn : SILFunction) (l : PrunedLiveness) : nat :=
  length (filter (fun bb => getBlockLiveness l bb = Dead) (bbId <$> fnBlocks fn)).

Definition nonUsers (fn : SILFunction) (l : PrunedLiveness) : nat :=
  length (filter (fun i => isInterestingUser l i = NonUser) (instIds fn)).

(** S5 of the spec: the last use of %0 is inside the access scope, its
    destroy after the end of the scope. *)
Definition useInsideAccess : SILFunction :=
  mkFunction
    [mkBlock 0 [producerInst 0; beginAccessInst 1; useInst 2 (InstResult 0);
                endAccessInst 3 1; destroyInst 4 (InstResult 0);
                returnInst 5]]
    6.

(** The state of [useInsideAccess] after step 1. *)
Definition useInsideAccessState : CanonicalizeOSSALifetime :=
  mkState false useInsideAccess (InstResult 0)
    (mkLiveness {[0 := LiveWithin]} {[2 := false]})
    [0] [4] [] emptyConsumes (mkStats 0 0 0 0).

(** ** The final consumes of step 2 *)

(** A destroy of the current def at the entry of [succ], behind incidental
    uses and destroys only, is recorded as the final consume of [succ]. *)
Definition entryDestroyRecorded (host : Host) (st : CanonicalizeOSSALifetime)
    (succ : BlockId) : Prop :=
  ∃ di pre post,
    finalBlockConsumes (consumes st) !! succ = Some (instId di)
    ∧ blockInsts (func st) succ = pre ++ di :: post
    ∧ Forall (fun i => isIncidentalUse host i = true
                       ∨ isa DestroyValueInst i = true) pre
    ∧ isa DestroyValueInst di = true
    ∧ getOperand di = Some (currentDef st).

(** Block [bb] holds its recorded final consume. *)
Definition blockConsumeRecorded (st : CanonicalizeOSSALifetime) (bb : BlockId)
  : Prop :=
  ∃ inst,
    inst ∈ blockInsts (func st) bb
    ∧ finalBlockConsumes (consumes st) !! bb = Some (instId inst).





(** The same control-flow graph: terminators and predecessors. *)
Definition sameCFG (fn fn' : SILFunction) : Prop :=
  (∀ bb, getTerminator (blockInsts fn' bb) = getTerminator (blockInsts fn bb))
  ∧ (∀ bb, getPredecessorBlocks fn' bb = getPredecessorBlocks fn bb).

(** [st'] is [st] after more destroys were placed: liveness and the def are
    the same, the CFG too, no instruction left its block, and a block whose
    final consume was recorded in [st] has the same consume and the same
    instructions in [st']. *)
Definition placedLe (st st' : CanonicalizeOSSALifetime) : Prop :=
  liveness st' = liveness st
  ∧ currentDef st' = currentDef st
  ∧ pruneDebugMode st' = pruneDebugMode st
  ∧ sameCFG (func st) (func st')
  ∧ (∀ bb inst,
       inst ∈ blockInsts (func st) bb → inst ∈ blockInsts (func st') bb)
  ∧ ∀ bb i,
      finalBlockConsumes (consumes st) !! bb = Some i →
      finalBlockConsumes (consumes st') !! bb = Some i
      ∧ blockInsts (func st') bb = blockInsts (func st) bb.

(** %0 is used in bb0 and by the terminator of bb1, and destroyed in both
    successors of bb1. *)
Definition terminatorUseInst (i : InstId) (v : SILValue) (a b : BlockId)
  : SILInstruction :=
  mkInst i (OtherTermInst 2) [(v, InstantaneousUse)] [a; b].

Definition useByTerminator : SILFunction :=
  mkFunction
    [mkBlock 0 [producerInst 0; useInst 1 (InstResult 0); branchInst 2 1];
     mkBlock 1 [terminatorUseInst 3 (InstResult 0) 2 3];
     mkBlock 2 [destroyInst 4 (InstResult 0); returnInst 5];
     mkBlock 3 [destroyInst 6 (InstResult 0); returnInst 7]]
    8.

(** The state of [useByTerminator] after step 1: bb0 is LiveOut, bb1
    LiveWithin, bb2 and bb3 are Dead consuming blocks. *)
Definition useByTerminatorState : CanonicalizeOSSALifetime :=
  mkState false useByTerminator (InstResult 0)
    (mkLiveness {[0 := LiveOut; 1 := LiveWithin]} {[1 := false; 3 := false]})
    [2; 3] [4; 6] [] emptyConsumes (mkStats 0 0 0 0).

(** The invariant of a [GraphNodeWorklist]: nothing is visited twice and
    what waits in the vector was visited. *)
Definition worklistInv {A} (w : GraphNodeWorklist A) : Prop :=
  NoDup (nodeVisited w) ∧ NoDup (nodeVector w)
  ∧ nodeVector w ⊆ nodeVisited w.

(** [w'] is [w] after insertions: what is new waits in the vector, and what
    had left the vector stays out of it. *)
Definition worklistGrows {A} (w w' : GraphNodeWorklist A) : Prop :=
  nodeVisited w ⊆ nodeVisited w'
  ∧ nodeVector w ⊆ nodeVector w'
  ∧ (∀ y, y ∈ nodeVisited w' → y ∈ nodeVisited w ∨ y ∈ nodeVector w')
  ∧ (∀ y, y ∈ nodeVisited w → y ∉ nodeVector w → y ∉ nodeVector w')
  ∧ length (nodeVisited w') + length (nodeVector w)
    = length (nodeVisited w) + length (nodeVector w').


(** * What canonicalization leaves alone *)

(** The instructions the canonicalizer creates and deletes: copies and
    destroys, and debug values in prune-debug mode. *)
Definition ownedByCanonicalizer (prune : bool) (k : SILInstructionKind)
  : bool :=
  match k with
  | CopyValueInst | DestroyValueInst => true
  | DebugValueInst => prune
  | _ => false
  end.

(** What an instruction keeps when its operands are retargeted: its
    identity, its kind and its successors. *)
Definition instShape (i : SILInstruction)
  : InstId * SILInstructionKind * list BlockId :=
  (instId i, instKind i, instSuccessors i).

(** The instructions of a block that are not the canonicalizer's, in
    order. *)
Definition blockSkeleton (prune : bool) (insts : list SILInstruction)
  : list (InstId * SILInstructionKind * list BlockId) :=
  instShape
    <$> filter (fun i => ownedByCanonicalizer prune (instKind i) = false) insts.

Definition fnSkeleton (prune : bool) (fn : SILFunction)
  : list (BlockId * list (InstId * SILInstructionKind * list BlockId)) :=
  (fun b => (bbId b, blockSkeleton prune (bbInsts b))) <$> fnBlocks fn.

(** The terminator of a block, up to its operands. *)
Definition terminatorShape (insts : list SILInstruction)
  : option (InstId * SILInstructionKind * list BlockId) :=
  instShape <$> getTerminator insts.

(** A block of [fn] that ends in a terminator ends in the same terminator
    in [fn']. *)
Definition keepsTerminators (fn fn' : SILFunction) : Prop :=
  ∀ bb,
    is_Some (getTerminator (blockInsts fn bb)) →
    terminatorShape (blockInsts fn' bb) = terminatorShape (blockInsts fn bb).

(** Every instruction with identity [i] is one of the canonicalizer's. *)
Definition deletable (prune : bool) (fn : SILFunction) (i : InstId) : Prop :=
  ∀ p, p ∈ fnInsts fn → instId p.2 = i →
       ownedByCanonicalizer prune (instKind p.2) = true.

(** The identity of [u] is in use, and stands for an instruction of the
    kind of [u]. *)
Definition knownInst (fn : SILFunction) (u : SILInstruction) : Prop :=
  instId u < fnNextInst fn
  ∧ ∀ p, p ∈ fnInsts fn → instId p.2 = instId u → instKind p.2 = instKind u.
(** [fn'] is [fn] with destroys of [def] added: the instructions of [fn]
    are in their blocks, unchanged and in their order, and every other
    instruction of [fn'] is a destroy of [def] with a fresh identity. *)
Definition destroysAdded (def : SILValue) (fn fn' : SILFunction) : Prop :=
  bbId <$> fnBlocks fn' = bbId <$> fnBlocks fn
  ∧ fnNextInst fn ≤ fnNextInst fn'
  ∧ (∀ bb,
       filter (fun i => instId i < fnNextInst fn) (blockInsts fn' bb)
       = blockInsts fn bb)
  ∧ ∀ bb i,
      i ∈ blockInsts fn' bb → fnNextInst fn ≤ instId i →
      i = mkInst (instId i) DestroyValueInst [(def, DestroyingConsume)] []
      ∧ instId i < fnNextInst fn'.

(** What step 2 keeps of the state [st0] it starts from. *)
Record stepTwoFrame (st0 st : CanonicalizeOSSALifetime) : Prop := {
  frame_wf : wfFunction (func st);
  frame_func : destroysAdded (currentDef st0) (func st0) (func st);
  frame_skeleton :
    ∀ prune, fnSkeleton prune (func st) = fnSkeleton prune (func st0);
  frame_terminators :
    ∀ bb,
      getTerminator (blockInsts (func st) bb)
      = getTerminator (blockInsts (func st0) bb);
  frame_deletable :
    ∀ prune d, deletable prune (func st0) d → deletable prune (func st) d;
  frame_def : currentDef st = currentDef st0;
  frame_mode : pruneDebugMode st = pruneDebugMode st0;
  frame_liveness : liveness st = liveness st0;
  frame_consuming : consumingBlocks st = consumingBlocks st0;
  frame_destroys : destroys st = destroys st0;
  frame_debug : ∀ d, d ∈ debugValues st → d ∈ debugValues st0;
  frame_after :
    ∀ d, d ∈ debugAfterConsume (consumes st) →
         d ∈ debugAfterConsume (consumes st0) ∨ d ∈ debugValues st0;
  frame_copies_eliminated :
    NumCopiesEliminated (statistics st) = NumCopiesEliminated (statistics st0);
  frame_copies_generated :
    NumCopiesGenerated (statistics st) = NumCopiesGenerated (statistics st0);
  frame_destroys_eliminated :
    NumDestroysEliminated (statistics st)
    = NumDestroysEliminated (statistics st0);
  frame_destroys_generated :
    fnNextInst (func st) + NumDestroysGenerated (statistics st0)
    ≤ NumDestroysGenerated (statistics st) + fnNextInst (func st0);
}.

(** Every recorded final consume is an instruction of the block it is
    recorded for. *)
Definition consumesLocated (st : CanonicalizeOSSALifetime) : Prop :=
  ∀ bb c,
    finalBlockConsumes (consumes st) !! bb = Some c →
    ∃ inst, inst ∈ blockInsts (func st) bb ∧ instId inst = c.

(** The final consume recorded for [bb] is an instruction of [bb], and no
    instruction behind it in the block is a user in [l]. *)
Definition consumeBehindUsers (l : PrunedLiveness)
    (st : CanonicalizeOSSALifetime) (bb : BlockId) : Prop :=
  ∃ pre ci post,
    blockInsts (func st) bb = pre ++ ci :: post
    ∧ finalBlockConsumes (consumes st) !! bb = Some (instId ci)
    ∧ Forall (fun i => isInterestingUser l (instId i) = NonUser) post.
(** [fn'] is [fn] with operands retargeted, instructions deleted and
    copies added: an instruction of [fn'] with an identity of [fn] is in
    the block it had in [fn], with the kind and the successors it had, and
    every other instruction of [fn'] is a copy_value with a fresh
    identity. *)
Definition copiesAdded (fn fn' : SILFunction) : Prop :=
  ∀ p,
    p ∈ fnInsts fn' →
    (fnNextInst fn ≤ instId p.2 < fnNextInst fn'
     ∧ instKind p.2 = CopyValueInst)
    ∨ (instId p.2 < fnNextInst fn
       ∧ ∃ q, q ∈ fnInsts fn ∧ q.1 = p.1 ∧ instShape q.2 = instShape p.2).

(** What step 3 keeps, before it deletes the instructions it scheduled,
    of the state [st0] it starts from. *)
Record stepThreeFrame (st0 : CanonicalizeOSSALifetime) (rw : RewriteState)
  : Prop := {
  rewrite_wf : wfFunction (func (rwCanon rw));
  rewrite_skeleton :
    ∀ prune,
      fnSkeleton prune (func (rwCanon rw)) = fnSkeleton prune (func st0);
  rewrite_terminators : keepsTerminators (func st0) (func (rwCanon rw));
  rewrite_next : fnNextInst (func st0) ≤ fnNextInst (func (rwCanon rw));
  rewrite_added : copiesAdded (func st0) (func (rwCanon rw));
  rewrite_deleted :
    ∀ i, i ∈ instsToDelete rw → deletable false (func (rwCanon rw)) i;
  rewrite_deletable :
    ∀ prune d,
      deletable prune (func st0) d → deletable prune (func (rwCanon rw)) d;
  rewrite_def : currentDef (rwCanon rw) = currentDef st0;
  rewrite_mode : pruneDebugMode (rwCanon rw) = pruneDebugMode st0;
  rewrite_liveness : liveness (rwCanon rw) = liveness st0;
  rewrite_debug : debugValues (rwCanon rw) = debugValues st0;
  rewrite_after :
    debugAfterConsume (consumes (rwCanon rw))
    = debugAfterConsume (consumes st0);
  rewrite_copies_generated :
    NumCopiesGenerated (statistics (rwCanon rw)) + fnNextInst (func st0)
    = NumCopiesGenerated (statistics st0) + fnNextInst (func (rwCanon rw));
  rewrite_destroys_generated :
    NumDestroysGenerated (statistics (rwCanon rw))
    = NumDestroysGenerated (statistics st0);
}.
(** What step 1 does to the state [st0] it starts from. It writes to
    liveness and to its three records only. A destroy it records is a
    destroy_value in a consuming block, a debug value it records is a
    debug_value (and the mode is prune-debug), and a block it records as
    consuming holds an instruction with a consuming operand. *)
Record stepOneRecords (st0 st : CanonicalizeOSSALifetime) : Prop := {
  recorded_func : func st = func st0;
  recorded_def : currentDef st = currentDef st0;
  recorded_mode : pruneDebugMode st = pruneDebugMode st0;
  recorded_consumes : consumes st = consumes st0;
  recorded_statistics : statistics st = statistics st0;
  recorded_destroys :
    ∀ d, d ∈ destroys st →
         d ∈ destroys st0
         ∨ ∃ bb inst,
             (bb, inst) ∈ fnInsts (func st) ∧ instId inst = d
             ∧ isa DestroyValueInst inst = true
             ∧ bb ∈ consumingBlocks st;
  recorded_debug :
    ∀ d, d ∈ debugValues st →
         d ∈ debugValues st0
         ∨ (pruneDebugMode st = true
            ∧ ∃ bb inst,
                (bb, inst) ∈ fnInsts (func st) ∧ instId inst = d
                ∧ isa DebugValueInst inst = true);
  recorded_consuming :
    ∀ bb, bb ∈ consumingBlocks st →
          bb ∈ consumingBlocks st0
          ∨ ∃ inst own,
              (bb, inst) ∈ fnInsts (func st)
              ∧ own ∈ (instOperands inst).*2
              ∧ (own = DestroyingConsume ∨ own = ForwardingConsume);
}.
(** ** A destroy to hoist *)

(** %0 is used, and destroyed behind an instruction that destroy hoisting
    does not ignore. *)
Definition lateDestroy : SILFunction :=
  mkFunction
    [mkBlock 0 [producerInst 0; useInst 1 (InstResult 0); producerInst 2;
                destroyInst 3 (InstResult 0); returnInst 4]]
    5.

(** The state of [lateDestroy] after step 1. *)
Definition lateDestroyState : CanonicalizeOSSALifetime :=
  mkState false lateDestroy (InstResult 0)
    (mkLiveness {[0 := LiveWithin]} {[1 := false]})
    [0] [3] [] emptyConsumes (mkStats 0 0 0 0).

(** ** Copies consumed once *)

(** %1 = copy %0 is used, and consumed once in its own block, before the
    last consume of %0. *)
Definition copyConsumedOnce : SILFunction :=
  mkFunction
    [mkBlock 0 [producerInst 0; copyInst 1 (InstResult 0);
                useInst 2 (InstResult 1); consumeInst 3 (InstResult 1);
                consumeInst 4 (InstResult 0); returnInst 5]]
    6.

(** The rewrite state of [copyConsumedOnce] when the copy is taken from
    the worklist: the consume of %0 has been claimed. *)
Definition copyConsumedOnceRewrite : RewriteState :=
  mkRewrite
    (mkState false copyConsumedOnce (InstResult 0)
       (mkLiveness {[0 := LiveWithin]} {[2 := false; 3 := true; 4 := true]})
       [0] [] [] emptyConsumes (mkStats 0 0 0 0))
    [] (mkWorklist [InstResult 1] []).

(** %1 = copy %0 is used and destroyed before the last consume of %0. *)
Definition copyDestroyed : SILFunction :=
  mkFunction
    [mkBlock 0 [producerInst 0; copyInst 1 (InstResult 0);
                useInst 2 (InstResult 1); destroyInst 3 (InstResult 1);
                consumeInst 4 (InstResult 0); returnInst 5]]
    6.

(** The rewrite state of [copyDestroyed] when the copy is taken from the
    worklist. *)
Definition copyDestroyedRewrite : RewriteState :=
  mkRewrite
    (mkState false copyDestroyed (InstResult 0)
       (mkLiveness {[0 := LiveWithin]} {[2 := false; 4 := true]})
       [0] [3] [] emptyConsumes (mkStats 0 0 0 0))
    [] (mkWorklist [InstResult 1] []).

(** ** The traversal of step 1 *)

(** The values a use makes step 1 add to its worklist: the copy that uses
    the value, the instruction that reborrows it, or the phi a branch
    reborrows it into. *)
Definition valuesOfUse (def : SILValue) (debugMode : bool) (use : Operand)
  : list SILValue :=
  let user := opUser use in
  if isa CopyValueInst user then [InstResult (instId user)]
  else if debugMode && isa DebugValueInst user then []
  else
    match opOwnership use with
    | Reborrow =>
        if negb (isa BranchInst user) then [InstResult (instId user)]
        else if bool_decide (def ∈ (instOperands user).*1) then []
        else match head (instSuccessors user) with
             | Some dest => [BlockArgument dest (opIndex use)]
             | None => []
             end
    | _ => []
    end.

(** The values step 1 visits from [def]: [def] itself, the reborrows
    adjacent to a visited phi, and the values of the uses of a visited
    value. *)
Inductive visitedInStepOne (host : Host) (fn : SILFunction) (def : SILValue)
    (debugMode : bool) : SILValue → Prop :=
| visited_def : visitedInStepOne host fn def debugMode def
| visited_reborrow (v r : SILValue) :
    visitedInStepOne host fn def debugMode v →
    isPhiArgument host fn v = true →
    r ∈ adjacentReborrowsOfPhi host fn v →
    visitedInStepOne host fn def debugMode r
| visited_use (v : SILValue) (use : Operand) (w : SILValue) :
    visitedInStepOne host fn def debugMode v →
    use ∈ getUses fn v →
    w ∈ valuesOfUse def debugMode use →
    visitedInStepOne host fn def debugMode w.

(** Step 1 meets a bailing use: a use, of a value it visits, at which
    [computeCanonicalLiveness] returns false. *)
Definition bailsOut (host : Host) (fn : SILFunction) (def : SILValue)
    (debugMode : bool) : Prop :=
  ∃ v use,
    visitedInStepOne host fn def debugMode v
    ∧ use ∈ getUses fn v
    ∧ bailingUse host debugMode fn use.

(** A use at which step 1 stops in [llvm_unreachable] or in a failed cast:
    it is not taken by the copy or debug_value cases, and its operand is a
    TrivialUse, a Reborrow by an instruction that is neither a branch nor a
    SingleValueInstruction, or a Reborrow, not next to a consume of [def],
    by a branch without a destination. *)
Definition stoppingUse (host : Host) (def : SILValue) (debugMode : bool)
    (use : Operand) : Prop :=
  isa CopyValueInst (opUser use) = false
  ∧ (debugMode && isa DebugValueInst (opUser use)) = false
  ∧ (opOwnership use = TrivialUse
     ∨ (opOwnership use = Reborrow
        ∧ isa BranchInst (opUser use) = false
        ∧ isSingleValueInstruction host (opUser use) = false)
     ∨ (opOwnership use = Reborrow
        ∧ isa BranchInst (opUser use) = true
        ∧ (def ∉ (instOperands (opUser use)).*1)
        ∧ head (instSuccessors (opUser use)) = None)).

#[global] Instance stoppingUse_dec (host : Host) (def : SILValue)
    (debugMode : bool) (use : Operand)
  : Decision (stoppingUse host def debugMode use).
Proof. unfold stoppingUse. apply _. Defined.

(** [values] holds [def] and whatever step 1 visits from one of its
    values, and step 1 stops at no use of one of its values: a bound on
    what step 1 visits. *)
Definition closedInStepOne (host : Host) (fn : SILFunction) (def : SILValue)
    (debugMode : bool) (values : list SILValue) : Prop :=
  def ∈ values
  ∧ Forall (fun v =>
      (isPhiArgument host fn v = true →
       adjacentReborrowsOfPhi host fn v ⊆ values)
      ∧ Forall (fun use =>
                  valuesOfUse def debugMode use ⊆ values
                  ∧ ¬ stoppingUse host def debugMode use)
               (getUses fn v))
    values.

#[global] Instance closedInStepOne_dec (host : Host) (fn : SILFunction)
    (def : SILValue) (debugMode : bool) (values : list SILValue)
  : Decision (closedInStepOne host fn def debugMode values).
Proof. unfold closedInStepOne. apply _. Defined.

(** The invariant of the worklist of step 1: the def was inserted, what
    was inserted is a value step 1 visits, and a value that has left the
    vector has been dealt with: what it makes step 1 visit was inserted and
    none of its uses bails. *)
Definition stepOneInvariant (host : Host) (fn : SILFunction) (def : SILValue)
    (debugMode : bool) (wl : GraphNodeWorklist SILValue) : Prop :=
  worklistInv wl
  ∧ def ∈ nodeVisited wl
  ∧ (∀ v, v ∈ nodeVisited wl → visitedInStepOne host fn def debugMode v)
  ∧ ∀ v, v ∈ nodeVisited wl → v ∉ nodeVector wl →
         (isPhiArgument host fn v = true →
          adjacentReborrowsOfPhi host fn v ⊆ nodeVisited wl)
         ∧ ∀ use, use ∈ getUses fn v →
                  valuesOfUse def debugMode use ⊆ nodeVisited wl
                  ∧ ¬ bailingUse host debugMode fn use.

(** The copy %1 of %0 escapes. *)
Definition copyEscapes : SILFunction :=
  mkFunction
    [mkBlock 0 [producerInst 0; copyInst 1 (InstResult 0);
                escapeInst 2 (InstResult 1); destroyInst 3 (InstResult 1);
                destroyInst 4 (InstResult 0); returnInst 5]]
    6.

(** * Properties *)

Section Properties.

Variable host : Host.

(** C5: an end_access whose begin_access lives in a Dead block overlaps the
    pruned boundary exactly when that block properly dominates the block of
    the def being canonicalized. *)
Theorem endsAccess_begin_in_dead_block
    (st : CanonicalizeOSSALifetime) (inst beginAccess : SILInstruction)
    (beginBB defBB : BlockId) :
  isa EndAccessInst inst = true →
  getBeginAccess (func st) inst = Some (beginBB, beginAccess) →
  getBlockLiveness (liveness st) beginBB = Dead →
  getParentBlock (func st) (currentDef st) = Some defBB →
  endsAccessOverlappingPrunedBoundary host st inst
  = Ret (properlyDominates host beginBB defBB).
Proof.
  intros Hend Hbegin Hdead Hdef.
  unfold endsAccessOverlappingPrunedBoundary.
  assert (isa EndUnpairedAccessInst inst = false) as ->.
  { unfold isa in *. apply bool_decide_eq_true in Hend.
    apply bool_decide_eq_false. congruence. }
  rewrite Hend, Hbegin. simpl. rewrite Hdead, Hdef. reflexivity.
Qed.

End Properties.

Lemma endsAccess_begin_in_dead_block_witness :
  endsAccessOverlappingPrunedBoundary exampleHost
    (exampleState false accessAcrossBlocks (InstResult 2))
    (endAccessInst 3 0)
  = Ret true.
Proof.
  apply (endsAccess_begin_in_dead_block exampleHost
           (exampleState false accessAcrossBlocks (InstResult 2))
           (endAccessInst 3 0) (beginAccessInst 0) 0 1);
    vm_compute; reflexivity.
Defined.

(** *** Step 1: debug values *)

Section LivenessOfDebugValues.

Variable host : Host.

(** C10: in prune-debug mode a debug_value user is dealt with before the
    dispatch on the operand ownership: whatever the classification of its
    operand, the use neither bails out nor touches pruned liveness, and the
    debug_value is recorded exactly when the liveness of its block is not
    LiveOut. *)
Theorem debug_value_use_in_liveness
    (use : Operand) (st : CanonicalizeOSSALifetime)
    (wl : GraphNodeWorklist SILValue) :
  pruneDebugMode st = true →
  isa DebugValueInst (opUser use) = true →
  ∃ st',
    computeLivenessForUse host use st wl = Ret (true, st', wl)
    ∧ liveness st' = liveness st
    ∧ func st' = func st
    ∧ consumingBlocks st' = consumingBlocks st
    ∧ destroys st' = destroys st
    ∧ debugValues st'
      = (if decide (getBlockLiveness (liveness st) (opParentBlock use) = LiveOut)
         then debugValues st
         else setInsert (instId (opUser use)) (debugValues st)).
Proof.
  intros Hmode Hdvi.
  unfold computeLivenessForUse.
  assert (isa CopyValueInst (opUser use) = false) as ->.
  { unfold isa in *. apply bool_decide_eq_true in Hdvi.
    apply bool_decide_eq_false. congruence. }
  rewrite Hmode, Hdvi. simpl.
  destruct (decide (getBlockLiveness (liveness st) (opParentBlock use) = LiveOut))
    as [Hout | Hout].
  - rewrite decide_False by (intros H; apply H, Hout).
    exists st. repeat split; reflexivity.
  - rewrite decide_True by exact Hout.
    exists (recordDebugValue (instId (opUser use)) st).
    repeat split; reflexivity.
Qed.

End LivenessOfDebugValues.

Lemma debug_value_use_in_liveness_witness :
  ∃ st',
    computeLivenessForUse exampleHost debugValueUse
      (exampleState true debugValueFunction (InstResult 0))
      (mkWorklist [] [])
    = Ret (true, st', mkWorklist [] [])
    ∧ liveness st' = emptyLiveness
    ∧ func st' = debugValueFunction
    ∧ consumingBlocks st' = []
    ∧ destroys st' = []
    ∧ debugValues st' = [3].
Proof.
  apply (debug_value_use_in_liveness exampleHost debugValueUse
           (exampleState true debugValueFunction (InstResult 0))
           (mkWorklist [] [])); reflexivity.
Defined.

(** *** Step 3: destroys never receive a copy *)

Section RewriteOfDestroys.

Variable host : Host.

(** C9: for a destroy_value user, [visitUse] reports that the use can keep
    its operand: the destroy is either claimed as the final consume of its
    block (and kept) or scheduled for deletion. Both traversals of
    [rewriteCopies] therefore leave the function and the count of generated
    copies untouched at such a use: [copyLiveUse] is not run on it. *)
Theorem destroy_value_use_never_copied (use : Operand) (rw : RewriteState) :
  isa DestroyValueInst (opUser use) = true →
  ∃ rw',
    visitUse host use rw = (true, rw')
    ∧ rewriteDefUse host use rw = Ret rw'
    ∧ (∀ srcBB reused,
         rewriteCopyUse host srcBB use rw reused = Ret (rw', reused))
    ∧ func (rwCanon rw') = func (rwCanon rw)
    ∧ NumCopiesGenerated (statistics (rwCanon rw'))
      = NumCopiesGenerated (statistics (rwCanon rw))
    ∧ defUseWorklist rw' = defUseWorklist rw
    ∧ (if decide (finalBlockConsumes (consumes (rwCanon rw))
                    !! opParentBlock use = Some (instId (opUser use)))
       then
         (* claimed as the final consume: kept *)
         finalBlockConsumes (consumes (rwCanon rw'))
         = delete (opParentBlock use)
             (finalBlockConsumes (consumes (rwCanon rw)))
         ∧ instsToDelete rw' = instsToDelete rw
       else
         (* not a final consume: deleted *)
         consumes (rwCanon rw') = consumes (rwCanon rw)
         ∧ instsToDelete rw'
           = setInsert (instId (opUser use)) (instsToDelete rw)).
Proof.
  intros Hdestroy.
  assert (isa CopyValueInst (opUser use) = false) as Hcopy.
  { unfold isa in *. apply bool_decide_eq_true in Hdestroy.
    apply bool_decide_eq_false. congruence. }
  assert (∃ rw', visitUse host use rw = (true, rw')) as [rw' Hvisit].
  { unfold visitUse. rewrite Hcopy, Hdestroy.
    destruct (claimConsume _ _ _) as [[] c]; simpl; eauto. }
  exists rw'. split; [exact Hvisit |].
  split; [unfold rewriteDefUse; rewrite Hvisit; reflexivity |].
  split; [intros srcBB reused; unfold rewriteCopyUse; rewrite Hvisit;
          reflexivity |].
  revert Hvisit. unfold visitUse, claimConsume. rewrite Hcopy, Hdestroy.
  destruct (decide (finalBlockConsumes (consumes (rwCanon rw))
                      !! opParentBlock use = Some (instId (opUser use))));
    simpl; intros [= <-]; repeat split; reflexivity.
Qed.

End RewriteOfDestroys.

Lemma destroy_value_use_never_copied_witness :
  ∃ rw',
    visitUse exampleHost destroyUse twoConsumesRewrite = (true, rw')
    ∧ rewriteDefUse exampleHost destroyUse twoConsumesRewrite = Ret rw'
    ∧ (∀ srcBB reused,
         rewriteCopyUse exampleHost srcBB destroyUse twoConsumesRewrite reused
         = Ret (rw', reused))
    ∧ func (rwCanon rw') = twoConsumes
    ∧ NumCopiesGenerated (statistics (rwCanon rw')) = 0
    ∧ defUseWorklist rw' = mkWorklist [] []
    ∧ consumes (rwCanon rw') = mkConsumes {[0 := 2]} []
    ∧ instsToDelete rw' = [3].
Proof.
  apply (destroy_value_use_never_copied exampleHost destroyUse
           twoConsumesRewrite).
  reflexivity.
Defined.

(** *** Lookups in the function and its mutation *)

Lemma getBlock_mapBlock_same (f : list SILInstruction → list SILInstruction)
    (bb : BlockId) (fn : SILFunction) (b : SILBasicBlock) :
  getBlock fn bb = Some b →
  getBlock (mapBlock f bb fn) bb = Some (mkBlock (bbId b) (f (bbInsts b))).
Proof.
  unfold getBlock, mapBlock. simpl.
  induction (fnBlocks fn) as [| x l IH]; simpl; [discriminate |].
  destruct (decide (bbId x = bb)) as [Heq | Hne]; simpl.
  - rewrite decide_True by exact Heq. congruence.
  - rewrite decide_False by exact Hne. exact IH.
Qed.

Lemma getBlock_mapBlock_other (f : list SILInstruction → list SILInstruction)
    (bb bb' : BlockId) (fn : SILFunction) :
  bb' ≠ bb →
  getBlock (mapBlock f bb fn) bb' = getBlock fn bb'.
Proof.
  intros Hne. unfold getBlock, mapBlock. simpl.
  induction (fnBlocks fn) as [| x l IH]; simpl; [reflexivity |].
  destruct (decide (bbId x = bb)) as [Heq | Hneq]; simpl.
  - rewrite !decide_False by congruence. exact IH.
  - destruct (decide (bbId x = bb')); [reflexivity | exact IH].
Qed.

Lemma getBlock_bbId (fn : SILFunction) (bb : BlockId) (b : SILBasicBlock) :
  getBlock fn bb = Some b → bbId b = bb.
Proof.
  unfold getBlock.
  induction (fnBlocks fn) as [| x l IH]; simpl; [discriminate |].
  destruct (decide (bbId x = bb)); [congruence | exact IH].
Qed.

Lemma blockInsts_nonempty_getBlock (fn : SILFunction) (bb : BlockId) :
  blockInsts fn bb ≠ [] → ∃ b, getBlock fn bb = Some b.
Proof.
  unfold blockInsts. destruct (getBlock fn bb); simpl; [eauto | congruence].
Qed.

Lemma blockInsts_createInst_same (bb : BlockId) (pos : nat)
    (k : SILInstructionKind) (ops : list (SILValue * OperandOwnership))
    (fn : SILFunction) :
  blockInsts fn bb ≠ [] →
  blockInsts (createInst bb pos k ops fn).2 bb
  = take pos (blockInsts fn bb)
    ++ mkInst (fnNextInst fn) k ops [] :: drop pos (blockInsts fn bb).
Proof.
  intros Hne. destruct (blockInsts_nonempty_getBlock _ _ Hne) as [b Hb].
  pose proof (getBlock_mapBlock_same
                (fun l => take pos l ++ mkInst (fnNextInst fn) k ops []
                                      :: drop pos l) bb fn b Hb) as Hmap.
  unfold blockInsts, createInst, getBlock in *. simpl in *.
  rewrite Hmap, Hb. reflexivity.
Qed.

Lemma blockInsts_createInst_other (bb bb' : BlockId) (pos : nat)
    (k : SILInstructionKind) (ops : list (SILValue * OperandOwnership))
    (fn : SILFunction) :
  bb' ≠ bb →
  blockInsts (createInst bb pos k ops fn).2 bb' = blockInsts fn bb'.
Proof.
  intros Hne.
  pose proof (getBlock_mapBlock_other
                (fun l => take pos l ++ mkInst (fnNextInst fn) k ops []
                                      :: drop pos l) bb bb' fn Hne) as Hmap.
  unfold blockInsts, createInst, getBlock in *. simpl in *.
  rewrite Hmap. reflexivity.
Qed.

(** *** Step 2: the destroy on a CFG edge *)

Lemma createAndRecordDestroy_Ret (bb : BlockId) (pos : nat)
    (st : CanonicalizeOSSALifetime) :
  finalBlockConsumes (consumes st) !! bb = None →
  is_Some (blockInsts (func st) bb !! pos) →
  createAndRecordDestroy bb pos st
  = Ret (setConsumes
           (mkConsumes (<[bb := fnNextInst (func st)]>
                          (finalBlockConsumes (consumes st)))
                       (debugAfterConsume (consumes st)))
           (setFunc (createInst bb pos DestroyValueInst
                       [(currentDef st, DestroyingConsume)] (func st)).2 st)).
Proof.
  intros Hfree [inst Hinst]. unfold createAndRecordDestroy.
  rewrite Hinst. simpl. unfold recordFinalConsume. rewrite Hfree.
  reflexivity.
Qed.


Section DestroyOnCFGEdge.

Variable host : Host.

(** What [findDestroyOnCFGEdge] finds: the first destroy of [def] that is
    not an incidental use, behind incidental uses and destroys of other
    values only. *)
Lemma findDestroyOnCFGEdge_Some (insts : list SILInstruction)
    (def : SILValue) (di : SILInstruction) :
  findDestroyOnCFGEdge host insts def = Some di ↔
  ∃ pre post,
    insts = pre ++ di :: post
    ∧ Forall (skippedOnCFGEdge host def) pre
    ∧ isIncidentalUse host di = false
    ∧ isa DestroyValueInst di = true
    ∧ getOperand di = Some def.
Proof.
  split.
  - induction insts as [| inst rest IH]; simpl; [discriminate |].
    destruct (isIncidentalUse host inst) eqn:Hinc.
    { intros H. destruct (IH H) as (pre & post & -> & Hpre & Hdi).
      exists (inst :: pre), post. split; [reflexivity |].
      split; [| exact Hdi]. constructor; [left; exact Hinc | exact Hpre]. }
    destruct (isa DestroyValueInst inst) eqn:Hdestroy; [| discriminate].
    destruct (decide (getOperand inst = Some def)) as [Hop | Hop].
    { intros [= <-]. exists [], rest. repeat split; auto. }
    intros H. destruct (IH H) as (pre & post & -> & Hpre & Hdi).
    exists (inst :: pre), post. split; [reflexivity |].
    split; [| exact Hdi]. constructor; [right; split; assumption | exact Hpre].
  - intros (pre & post & -> & Hpre & Hinc & Hdestroy & Hop).
    induction Hpre as [| inst pre [Hskip | [Hskip Hne]] _ IH]; simpl.
    + rewrite Hinc, Hdestroy. rewrite decide_True by exact Hop. reflexivity.
    + rewrite Hskip. exact IH.
    + destruct (isIncidentalUse host inst); [exact IH |].
      rewrite Hskip. rewrite decide_False by exact Hne. exact IH.
Qed.

(** The lookup of the code is the rule of the amended text: it stops at
    the first instruction that is neither an incidental use nor a destroy
    of another value, and answers with it when it is a destroy of [def]. *)
Lemma findDestroyOnCFGEdge_looks_past (insts : list SILInstruction)
    (def : SILValue) :
  findDestroyOnCFGEdge host insts def
  = destroyPastIncidentalUsesAndDestroys host insts def.
Proof.
  induction insts as [| inst rest IH]; [reflexivity |].
  cbn [findDestroyOnCFGEdge destroyPastIncidentalUsesAndDestroys].
  destruct (decide (skippedOnCFGEdge host def inst))
    as [[Hinc | [Hd Hop]] | Hs].
  - rewrite Hinc. exact IH.
  - destruct (isIncidentalUse host inst); [exact IH |].
    rewrite Hd. rewrite decide_False by exact Hop. exact IH.
  - destruct (isIncidentalUse host inst) eqn:Hinc.
    { exfalso. apply Hs. left. exact Hinc. }
    destruct (isa DestroyValueInst inst) eqn:Hd; [| reflexivity].
    destruct (decide (getOperand inst = Some def)) as [Hop | Hop].
    + rewrite bool_decide_eq_true_2 by exact Hop. reflexivity.
    + exfalso. apply Hs. right. split; assumption.
Qed.

(** C7, as amended: on a boundary edge [predBB → succBB], with [predBB] the
    single predecessor of [succBB], a destroy of the current def that
    [succBB] begins with, looking past incidental uses and destroys of
    other values, is recorded as the final consume and no instruction is
    created; without one, a fresh destroy of the current def becomes the
    first instruction of [succBB] and is recorded. *)
Theorem findOrInsertDestroyOnCFGEdge_places_destroy
    (predBB succBB : BlockId) (st : CanonicalizeOSSALifetime) :
  getSinglePredecessorBlock (func st) succBB = Some predBB →
  finalBlockConsumes (consumes st) !! succBB = None →
  blockInsts (func st) succBB ≠ [] →
  edgeDestroyPlaced (destroyPastIncidentalUsesAndDestroys host) host
    predBB succBB st.
Proof.
  intros Hpred Hfree Hne.
  unfold edgeDestroyPlaced, findOrInsertDestroyOnCFGEdge.
  rewrite bool_decide_eq_true_2 by exact Hpred. simpl.
  rewrite <- findDestroyOnCFGEdge_looks_past.
  destruct (findDestroyOnCFGEdge host (blockInsts (func st) succBB)
              (currentDef st)) as [di |] eqn:Hfind.
  - unfold recordFinalConsume. rewrite Hfree. simpl.
    eexists. split; [reflexivity |]. split; reflexivity.
  - rewrite (createAndRecordDestroy_Ret succBB 0 st Hfree)
      by (destruct (blockInsts (func st) succBB); [congruence | simpl; eauto]).
    cbn [mbind Outcome_bind]. eexists. split; [reflexivity |].
    cbn [func consumes setStatistics setConsumes setFunc incNumDestroysGenerated
         finalBlockConsumes].
    split.
    { rewrite (blockInsts_createInst_same succBB 0 DestroyValueInst
                 [(currentDef st, DestroyingConsume)] (func st) Hne).
      reflexivity. }
    split; [intros bb Hbb;
            apply (blockInsts_createInst_other succBB bb 0), Hbb |].
    split; reflexivity.
Qed.

End DestroyOnCFGEdge.

Lemma findOrInsertDestroyOnCFGEdge_places_destroy_witness :
  destroyPastIncidentalUsesAndDestroys exampleHost
    (blockInsts noDestroyOnEdge 1) (InstResult 0) = None
  ∧ edgeDestroyPlaced (destroyPastIncidentalUsesAndDestroys exampleHost)
      exampleHost 0 1 (edgeState noDestroyOnEdge)
  ∧ destroyPastIncidentalUsesAndDestroys exampleHost
      (blockInsts destroyBehindOtherDestroy 1) (InstResult 0)
    = Some (destroyInst 4 (InstResult 0))
  ∧ edgeDestroyPlaced (destroyPastIncidentalUsesAndDestroys exampleHost)
      exampleHost 0 1 (edgeState destroyBehindOtherDestroy).
Proof.
  split; [reflexivity |]. split.
  { apply (findOrInsertDestroyOnCFGEdge_places_destroy exampleHost 0 1
             (edgeState noDestroyOnEdge)).
    - reflexivity.
    - reflexivity.
    - discriminate. }
  split; [reflexivity |].
  apply (findOrInsertDestroyOnCFGEdge_places_destroy exampleHost 0 1
           (edgeState destroyBehindOtherDestroy)).
  - reflexivity.
  - reflexivity.
  - discriminate.
Defined.

(** C7, as stated, fails on the code: bb1 starts with the destroy of
    another value, so it does not begin with a destroy of %0 once the
    incidental uses are skipped, yet the code records the existing destroy
    of %0 behind it and creates nothing. *)
Lemma edge_destroy_skips_other_destroys :
  ¬ edgeDestroyPlaced (destroyPastIncidentalUses exampleHost) exampleHost 0 1
      (edgeState destroyBehindOtherDestroy).
Proof.
  intros (st' & Hrun & Hplaced).
  vm_compute in Hrun. injection Hrun as <-.
  vm_compute in Hplaced. destruct Hplaced as [Hinsts _].
  discriminate Hinsts.
Qed.

(** *** Well-formed functions *)

Lemma fnInsts_mapInsts (f : SILInstruction → SILInstruction) (fn : SILFunction) :
  fnInsts (mapInsts f fn) = (fun p => (p.1, f p.2)) <$> fnInsts fn.
Proof.
  unfold fnInsts, mapInsts. simpl.
  induction (fnBlocks fn) as [| b l IH]; [reflexivity |].
  rewrite fmap_cons, !bind_cons, fmap_app, IH. f_equal.
  simpl. rewrite <- !list_fmap_compose. reflexivity.
Qed.

Lemma elem_of_fnInsts (fn : SILFunction) (bb : BlockId) (inst : SILInstruction) :
  (bb, inst) ∈ fnInsts fn ↔
  ∃ b, b ∈ fnBlocks fn ∧ bbId b = bb ∧ inst ∈ bbInsts b.
Proof.
  unfold fnInsts. rewrite list_elem_of_bind. split.
  - intros (b & Hin & Hb). apply list_elem_of_fmap in Hin as (i & Heq & Hi).
    injection Heq as -> ->. eauto.
  - intros (b & Hb & <- & Hin). exists b. split; [| exact Hb].
    apply list_elem_of_fmap. eauto.
Qed.

Lemma findInstIn_Some (i : InstId) (l : list (BlockId * SILInstruction))
    (p : BlockId * SILInstruction) :
  findInstIn i l = Some p → p ∈ l ∧ instId p.2 = i.
Proof.
  induction l as [| x l IH]; simpl; [discriminate |].
  destruct (decide (instId x.2 = i)).
  - intros [= <-]. split; [left | assumption].
  - intros H. destruct (IH H). split; [right |]; assumption.
Qed.

Lemma findInstIn_NoDup (i : InstId) (l : list (BlockId * SILInstruction))
    (p : BlockId * SILInstruction) :
  NoDup ((fun p => instId p.2) <$> l) →
  p ∈ l → instId p.2 = i → findInstIn i l = Some p.
Proof.
  induction l as [| x l IH]; simpl; intros Hnd Hin Hid.
  - inversion Hin.
  - apply NoDup_cons in Hnd as [Hx Hnd].
    apply elem_of_cons in Hin as [-> | Hin].
    + rewrite decide_True by exact Hid. reflexivity.
    + destruct (decide (instId x.2 = i)) as [Heq | Hne]; [| auto].
      exfalso. apply Hx. rewrite Heq, <- Hid.
      apply list_elem_of_fmap. eauto.
Qed.

Lemma findInst_Some (fn : SILFunction) (i : InstId)
    (p : BlockId * SILInstruction) :
  findInst fn i = Some p → p ∈ fnInsts fn ∧ instId p.2 = i.
Proof. apply findInstIn_Some. Qed.

Lemma findInst_wf (fn : SILFunction) (i : InstId)
    (p : BlockId * SILInstruction) :
  wfFunction fn → p ∈ fnInsts fn → instId p.2 = i → findInst fn i = Some p.
Proof. intros (_ & Hnd & _). apply findInstIn_NoDup, Hnd. Qed.

Lemma findInst_None (fn : SILFunction) (i : InstId) :
  findInst fn i = None ↔ i ∉ instIds fn.
Proof.
  unfold findInst, instIds.
  induction (fnInsts fn) as [| x l IH]; simpl.
  - split; [intros _ H; inversion H | reflexivity].
  - destruct (decide (instId x.2 = i)) as [Heq | Hne].
    + split; [discriminate |]. intros H. exfalso. apply H. rewrite Heq. left.
    + rewrite IH. rewrite not_elem_of_cons. split; [intros H; split; [congruence | exact H] | intros [_ H]; exact H].
Qed.

(** Inserting an instruction into the (only) block [bb]. *)
Lemma fnInsts_mapBlock_insert (bb : BlockId) (pos : nat)
    (new : SILInstruction) (blocks : list SILBasicBlock) (b : SILBasicBlock) :
  NoDup (bbId <$> blocks) →
  findBlock bb blocks = Some b →
  ((fun b => if decide (bbId b = bb)
             then mkBlock (bbId b)
                    (take pos (bbInsts b) ++ new :: drop pos (bbInsts b))
             else b) <$> blocks)
    ≫= (fun b => (fun i => (bbId b, i)) <$> bbInsts b)
  ≡ₚ (bb, new) :: (blocks ≫= fun b => (fun i => (bbId b, i)) <$> bbInsts b).
Proof.
  induction blocks as [| x l IH]; [discriminate |].
  intros Hnd Hfind. rewrite fmap_cons in Hnd.
  apply NoDup_cons in Hnd as [Hx Hnd].
  rewrite fmap_cons, !bind_cons. simpl in Hfind.
  destruct (decide (bbId x = bb)) as [Heq | Hne].
  - replace (_ <$> l) with l.
    2:{ clear -Hx Heq. induction l as [| y l IH]; [reflexivity |].
        rewrite fmap_cons in Hx. apply not_elem_of_cons in Hx as [Hy Hx].
        rewrite fmap_cons. rewrite decide_False by congruence.
        f_equal. apply IH, Hx. }
    cbn [bbId bbInsts]. rewrite fmap_app, fmap_cons. rewrite Heq.
    rewrite <- app_assoc. rewrite <- app_comm_cons.
    rewrite <- Permutation_middle. constructor.
    rewrite app_assoc, <- fmap_app, take_drop. reflexivity.
  - rewrite (IH Hnd Hfind). rewrite Permutation_middle. reflexivity.
Qed.

Lemma fnBlocks_mapBlock_missing (f : list SILInstruction → list SILInstruction)
    (bb : BlockId) (fn : SILFunction) :
  getBlock fn bb = None → fnBlocks (mapBlock f bb fn) = fnBlocks fn.
Proof.
  unfold getBlock, mapBlock. simpl.
  induction (fnBlocks fn) as [| x l IH]; [reflexivity |].
  cbn [findBlock]. rewrite fmap_cons.
  destruct (decide (bbId x = bb)); [discriminate |].
  intros H. rewrite (IH H). reflexivity.
Qed.

Lemma fnInsts_createInst (bb : BlockId) (pos : nat) (k : SILInstructionKind)
    (ops : list (SILValue * OperandOwnership)) (fn : SILFunction) :
  wfFunction fn →
  is_Some (getBlock fn bb) →
  fnInsts (createInst bb pos k ops fn).2
  ≡ₚ (bb, mkInst (fnNextInst fn) k ops []) :: fnInsts fn.
Proof.
  intros (Hblocks & _) [b Hb]. unfold createInst, fnInsts. simpl.
  apply (fnInsts_mapBlock_insert bb pos _ (fnBlocks fn) b Hblocks Hb).
Qed.

Lemma fnInsts_createInst_missing (bb : BlockId) (pos : nat)
    (k : SILInstructionKind) (ops : list (SILValue * OperandOwnership))
    (fn : SILFunction) :
  getBlock fn bb = None →
  fnInsts (createInst bb pos k ops fn).2 = fnInsts fn.
Proof.
  intros Hb. unfold fnInsts, createInst. simpl.
  pose proof (fnBlocks_mapBlock_missing
                (fun l => take pos l ++ mkInst (fnNextInst fn) k ops []
                                      :: drop pos l) bb fn Hb) as Heq.
  simpl in Heq. rewrite Heq. reflexivity.
Qed.

Lemma bbIds_mapBlock (f : list SILInstruction → list SILInstruction)
    (bb : BlockId) (fn : SILFunction) :
  bbId <$> fnBlocks (mapBlock f bb fn) = bbId <$> fnBlocks fn.
Proof.
  unfold mapBlock. simpl. rewrite <- list_fmap_compose. apply list_fmap_ext.
  intros _ b _. simpl. destruct (decide (bbId b = bb)); reflexivity.
Qed.

Lemma wfFunction_createInst (bb : BlockId) (pos : nat) (k : SILInstructionKind)
    (ops : list (SILValue * OperandOwnership)) (fn : SILFunction) :
  wfFunction fn → wfFunction (createInst bb pos k ops fn).2.
Proof.
  intros Hwf. pose proof Hwf as (Hblocks & Hnd & Hlt).
  assert (NoDup (bbId <$> fnBlocks (createInst bb pos k ops fn).2)) as Hb'.
  { unfold createInst. simpl.
    rewrite <- (bbIds_mapBlock
                  (fun l => take pos l ++ mkInst (fnNextInst fn) k ops []
                                        :: drop pos l) bb fn) in Hblocks.
    exact Hblocks. }
  split; [exact Hb' |].
  destruct (getBlock fn bb) as [b |] eqn:Hb.
  - pose proof (fnInsts_createInst bb pos k ops fn Hwf (mk_is_Some _ _ Hb))
      as Hperm.
    assert (instIds (createInst bb pos k ops fn).2
            ≡ₚ fnNextInst fn :: instIds fn) as Hids.
    { unfold instIds. rewrite Hperm. reflexivity. }
    split.
    + rewrite Hids. apply NoDup_cons. split; [| exact Hnd].
      intros Hin. rewrite Forall_forall in Hlt.
      specialize (Hlt _ Hin). lia.
    + rewrite Hids. simpl. constructor; [lia |].
      eapply Forall_impl; [exact Hlt |]. simpl. intros. lia.
  - unfold instIds. rewrite (fnInsts_createInst_missing bb pos k ops fn Hb).
    split; [exact Hnd |].
    eapply Forall_impl; [exact Hlt |]. simpl. intros. lia.
Qed.

Lemma instIds_mapInsts (f : SILInstruction → SILInstruction) (fn : SILFunction) :
  (∀ i, instId (f i) = instId i) →
  instIds (mapInsts f fn) = instIds fn.
Proof.
  intros Hid. unfold instIds. rewrite fnInsts_mapInsts, <- list_fmap_compose.
  apply list_fmap_ext. intros _ p _. simpl. apply Hid.
Qed.

Lemma wfFunction_mapInsts (f : SILInstruction → SILInstruction) (fn : SILFunction) :
  (∀ i, instId (f i) = instId i) →
  wfFunction fn → wfFunction (mapInsts f fn).
Proof.
  intros Hid (Hblocks & Hnd & Hlt). unfold wfFunction.
  rewrite (instIds_mapInsts f fn Hid).
  split; [| split; assumption].
  unfold mapInsts. simpl. rewrite <- list_fmap_compose. exact Hblocks.
Qed.

Lemma wfFunction_setOperand (user : InstId) (idx : nat) (v : SILValue)
    (fn : SILFunction) :
  wfFunction fn → wfFunction (setOperand user idx v fn).
Proof.
  apply wfFunction_mapInsts. intros i.
  destruct (decide (instId i = user)); reflexivity.
Qed.

Lemma wfFunction_replaceAllUsesWith (old new : SILValue) (fn : SILFunction) :
  wfFunction fn → wfFunction (replaceAllUsesWith old new fn).
Proof. apply wfFunction_mapInsts. reflexivity. Qed.

(** *** Uses and operands *)

Lemma elem_of_getUses (fn : SILFunction) (v : SILValue) (op : Operand) :
  op ∈ getUses fn v ↔
  ∃ bb inst idx own,
    (bb, inst) ∈ fnInsts fn
    ∧ instOperands inst !! idx = Some (v, own)
    ∧ op = mkOperand inst bb idx v own.
Proof.
  unfold getUses. rewrite list_elem_of_filter, list_elem_of_bind. split.
  - intros (Hv & [bb inst] & Hop & Hin). unfold operandsOf in Hop.
    apply elem_of_lookup_imap in Hop as (idx & [v' own] & -> & Hlook).
    simpl in *. subst v'. eauto 10.
  - intros (bb & inst & idx & own & Hin & Hlook & ->). split; [reflexivity |].
    exists (bb, inst). split; [| exact Hin].
    unfold operandsOf. apply elem_of_lookup_imap. exists idx, (v, own). auto.
Qed.

Lemma NoDup_fmap_eq {A B} (f : A → B) (l : list A) (x y : A) :
  NoDup (f <$> l) → x ∈ l → y ∈ l → f x = f y → x = y.
Proof.
  induction l as [| z l IH]; intros Hnd Hx Hy Heq; [inversion Hx |].
  rewrite fmap_cons in Hnd. apply NoDup_cons in Hnd as [Hz Hnd].
  apply elem_of_cons in Hx as [-> | Hx]; apply elem_of_cons in Hy as [-> | Hy].
  - reflexivity.
  - exfalso. apply Hz. rewrite Heq. apply list_elem_of_fmap. eauto.
  - exfalso. apply Hz. rewrite <- Heq. apply list_elem_of_fmap. eauto.
  - auto.
Qed.

Lemma fnInsts_same_id (fn : SILFunction) (p q : BlockId * SILInstruction) :
  wfFunction fn → p ∈ fnInsts fn → q ∈ fnInsts fn →
  instId p.2 = instId q.2 → p = q.
Proof.
  intros (_ & Hnd & _). apply (NoDup_fmap_eq (fun p => instId p.2)), Hnd.
Qed.

Lemma getUses_operandAt (fn : SILFunction) (v : SILValue) (op : Operand) :
  wfFunction fn → op ∈ getUses fn v →
  operandAt fn (instId (opUser op)) (opIndex op) = Some v.
Proof.
  intros Hwf Hop.
  apply elem_of_getUses in Hop as (bb & inst & idx & own & Hin & Hlook & ->).
  unfold operandAt. simpl.
  rewrite (findInst_wf fn (instId inst) (bb, inst) Hwf Hin eq_refl). simpl.
  rewrite Hlook. reflexivity.
Qed.

Lemma operandAt_getUses (fn : SILFunction) (v : SILValue) (i : InstId)
    (idx : nat) :
  operandAt fn i idx = Some v →
  ∃ op, op ∈ getUses fn v ∧ usePos op = (i, idx).
Proof.
  unfold operandAt. destruct (findInst fn i) as [[bb inst] |] eqn:Hfind;
    simpl; [| discriminate].
  destruct (instOperands inst !! idx) as [[v' own] |] eqn:Hlook; simpl;
    [| discriminate].
  intros [= ->]. apply findInst_Some in Hfind as [Hin Hid]. simpl in Hid.
  exists (mkOperand inst bb idx v own). split.
  - apply elem_of_getUses. eauto 10.
  - unfold usePos. simpl. rewrite Hid. reflexivity.
Qed.

Lemma getUses_same_pos (fn : SILFunction) (v w : SILValue) (op1 op2 : Operand) :
  wfFunction fn → op1 ∈ getUses fn v → op2 ∈ getUses fn w →
  usePos op1 = usePos op2 → op1 = op2.
Proof.
  intros Hwf H1 H2 Hpos.
  apply elem_of_getUses in H1 as (bb1 & i1 & idx1 & own1 & Hin1 & Hl1 & ->).
  apply elem_of_getUses in H2 as (bb2 & i2 & idx2 & own2 & Hin2 & Hl2 & ->).
  unfold usePos in Hpos. simpl in Hpos. injection Hpos as Hid Hidx. subst idx2.
  pose proof (fnInsts_same_id fn (bb1, i1) (bb2, i2) Hwf Hin1 Hin2 Hid) as Heq.
  injection Heq as -> ->. rewrite Hl1 in Hl2. injection Hl2 as -> ->.
  reflexivity.
Qed.

Lemma NoDup_operandsOf (bb : BlockId) (inst : SILInstruction) :
  NoDup (operandsOf bb inst).
Proof.
  apply NoDup_alt. intros i j op Hi Hj. unfold operandsOf in *.
  rewrite list_lookup_imap in Hi, Hj.
  destruct (instOperands inst !! i) as [p |]; [| discriminate].
  destruct (instOperands inst !! j) as [q |]; [| discriminate].
  simpl in *. injection Hi as <-. injection Hj as Hj. congruence.
Qed.

Lemma NoDup_fnInsts (fn : SILFunction) : wfFunction fn → NoDup (fnInsts fn).
Proof. intros (_ & Hnd & _). eapply NoDup_fmap_1, Hnd. Qed.

Lemma NoDup_getUses (fn : SILFunction) (v : SILValue) :
  wfFunction fn → NoDup (getUses fn v).
Proof.
  intros Hwf. unfold getUses. apply NoDup_filter, NoDup_bind.
  - intros [bb1 i1] [bb2 i2] op _ _ H1 H2. unfold operandsOf in *.
    apply elem_of_lookup_imap in H1 as (idx1 & p1 & -> & _).
    apply elem_of_lookup_imap in H2 as (idx2 & p2 & Heq & _).
    simpl in Heq. congruence.
  - intros [bb inst] _. apply NoDup_operandsOf.
  - apply NoDup_fnInsts, Hwf.
Qed.

Lemma NoDup_usePos_getUses (fn : SILFunction) (v : SILValue) :
  wfFunction fn → NoDup (usePos <$> getUses fn v).
Proof.
  intros Hwf. apply NoDup_fmap_2_strong; [| apply NoDup_getUses, Hwf].
  intros op1 op2 H1 H2. apply (getUses_same_pos fn v v); assumption.
Qed.

Lemma findInst_mapInsts (f : SILInstruction → SILInstruction)
    (fn : SILFunction) (i : InstId) :
  (∀ x, instId (f x) = instId x) →
  findInst (mapInsts f fn) i = (fun p => (p.1, f p.2)) <$> findInst fn i.
Proof.
  intros Hid. unfold findInst. rewrite fnInsts_mapInsts.
  induction (fnInsts fn) as [| p l IH]; [reflexivity |].
  rewrite fmap_cons. cbn [findInstIn]. simpl. rewrite Hid.
  destruct (decide (instId p.2 = i)); [reflexivity | exact IH].
Qed.

Lemma findInst_createInst (bb : BlockId) (pos : nat) (k : SILInstructionKind)
    (ops : list (SILValue * OperandOwnership)) (fn : SILFunction) (i : InstId) :
  wfFunction fn → i ≠ fnNextInst fn →
  findInst (createInst bb pos k ops fn).2 i = findInst fn i.
Proof.
  intros Hwf Hne.
  pose proof (wfFunction_createInst bb pos k ops fn Hwf) as Hwf'.
  destruct (getBlock fn bb) as [b |] eqn:Hb.
  - pose proof (fnInsts_createInst bb pos k ops fn Hwf (mk_is_Some _ _ Hb))
      as Hperm.
    destruct (findInst fn i) as [p |] eqn:Hfind.
    + apply findInst_Some in Hfind as [Hin Hid].
      apply findInst_wf; [exact Hwf' | | exact Hid].
      rewrite Hperm. right. exact Hin.
    + apply findInst_None. apply findInst_None in Hfind.
      unfold instIds in *. rewrite Hperm, fmap_cons. simpl.
      apply not_elem_of_cons. split; assumption.
  - unfold findInst. rewrite (fnInsts_createInst_missing bb pos k ops fn Hb).
    reflexivity.
Qed.

Lemma operandAt_createInst (bb : BlockId) (pos : nat) (k : SILInstructionKind)
    (ops : list (SILValue * OperandOwnership)) (fn : SILFunction)
    (i : InstId) (idx : nat) :
  wfFunction fn → i ≠ fnNextInst fn →
  operandAt (createInst bb pos k ops fn).2 i idx = operandAt fn i idx.
Proof.
  intros Hwf Hne. unfold operandAt.
  rewrite (findInst_createInst bb pos k ops fn i Hwf Hne). reflexivity.
Qed.

Lemma operandAt_setOperand_same (fn : SILFunction) (i : InstId) (idx : nat)
    (v : SILValue) :
  is_Some (operandAt fn i idx) →
  operandAt (setOperand i idx v fn) i idx = Some v.
Proof.
  unfold operandAt, setOperand. intros [w Hw].
  rewrite findInst_mapInsts
    by (intros x; destruct (decide (instId x = i)); reflexivity).
  destruct (findInst fn i) as [[bb inst] |] eqn:Hfind; simpl in *;
    [| discriminate].
  apply findInst_Some in Hfind as [_ Hid]. simpl in Hid.
  rewrite decide_True by exact Hid. simpl.
  rewrite list_lookup_alter. rewrite decide_True by reflexivity.
  destruct (instOperands inst !! idx) as [[? ?] |]; simpl in *;
    [reflexivity | discriminate].
Qed.

Lemma operandAt_setOperand_other (fn : SILFunction) (i j : InstId)
    (idx jdx : nat) (v : SILValue) :
  (i, idx) ≠ (j, jdx) →
  operandAt (setOperand j jdx v fn) i idx = operandAt fn i idx.
Proof.
  unfold operandAt, setOperand. intros Hne.
  rewrite findInst_mapInsts
    by (intros x; destruct (decide (instId x = j)); reflexivity).
  destruct (findInst fn i) as [[bb inst] |] eqn:Hfind; simpl; [| reflexivity].
  apply findInst_Some in Hfind as [_ Hid]. simpl in Hid.
  destruct (decide (instId inst = j)) as [Heq | Hneq]; simpl; [| reflexivity].
  rewrite list_lookup_alter_ne; [reflexivity |]. congruence.
Qed.

Lemma operandAt_replaceAllUsesWith (fn : SILFunction) (old new : SILValue)
    (i : InstId) (idx : nat) :
  operandAt (replaceAllUsesWith old new fn) i idx
  = (fun x => if decide (x = old) then new else x) <$> operandAt fn i idx.
Proof.
  unfold operandAt, replaceAllUsesWith.
  rewrite findInst_mapInsts by reflexivity.
  destruct (findInst fn i) as [[bb inst] |]; simpl; [| reflexivity].
  rewrite list_lookup_fmap.
  destruct (instOperands inst !! idx) as [[w own] |]; simpl; [| reflexivity].
  destruct (decide (w = old)); reflexivity.
Qed.

Lemma getUses_replaceAllUsesWith (fn : SILFunction) (old new : SILValue) :
  new ≠ old → getUses (replaceAllUsesWith old new fn) old = [].
Proof.
  intros Hne. destruct (getUses _ old) as [| op l] eqn:Huses; [reflexivity |].
  exfalso.
  assert (op ∈ getUses (replaceAllUsesWith old new fn) old) as Hop
    by (rewrite Huses; left).
  apply elem_of_getUses in Hop as (bb & inst & idx & own & Hin & Hlook & _).
  unfold replaceAllUsesWith in Hin. rewrite fnInsts_mapInsts in Hin.
  apply list_elem_of_fmap in Hin as ([bb0 inst0] & Heq & _).
  injection Heq as -> ->. simpl in Hlook.
  rewrite list_lookup_fmap in Hlook.
  destruct (instOperands inst0 !! idx) as [[w o] |]; simpl in Hlook;
    [| discriminate].
  destruct (decide (w = old)); simpl in Hlook; congruence.
Qed.

Lemma getUses_setOperand_replaced (fn : SILFunction) (old new : SILValue)
    (j : InstId) (jdx : nat) (op : Operand) :
  new ≠ old →
  op ∈ getUses (setOperand j jdx old (replaceAllUsesWith old new fn)) old →
  usePos op = (j, jdx).
Proof.
  intros Hne Hop.
  apply elem_of_getUses in Hop as (bb & inst & idx & own & Hin & Hlook & ->).
  unfold usePos. simpl.
  unfold setOperand, replaceAllUsesWith in Hin.
  rewrite !fnInsts_mapInsts in Hin.
  apply list_elem_of_fmap in Hin as ([bb1 inst1] & Heq & Hin).
  injection Heq as -> ->.
  apply list_elem_of_fmap in Hin as ([bb0 inst0] & Heq & _).
  injection Heq as -> ->. cbn [snd fst instId] in *.
  destruct (decide (instId inst0 = j)) as [Hid | Hid]; cbn [instId instOperands] in *.
  - destruct (decide (idx = jdx)) as [-> | Hidx]; [congruence |].
    exfalso. rewrite list_lookup_alter_ne in Hlook by congruence.
    rewrite list_lookup_fmap in Hlook.
    destruct (instOperands inst0 !! idx) as [[w o] |]; simpl in Hlook;
      [| discriminate].
    destruct (decide (w = old)); simpl in Hlook; congruence.
  - exfalso. rewrite list_lookup_fmap in Hlook.
    destruct (instOperands inst0 !! idx) as [[w o] |]; simpl in Hlook;
      [| discriminate].
    destruct (decide (w = old)); simpl in Hlook; congruence.
Qed.

(** *** Step 3: the copy short-circuit *)

Section CopyShortCircuit.

Variable host : Host.

Lemma visitUse_func (use : Operand) (rw : RewriteState) :
  func (rwCanon (visitUse host use rw).2) = func (rwCanon rw).
Proof.
  unfold visitUse.
  repeat (destruct (isa _ _) || destruct (negb _)
          || destruct (claimConsume _ _ _) as [[] ?]); reflexivity.
Qed.

Lemma visitUse_false (use : Operand) (rw : RewriteState) :
  (visitUse host use rw).1 = false →
  isa CopyValueInst (opUser use) = false ∧ (visitUse host use rw).2 = rw.
Proof.
  unfold visitUse.
  destruct (isa CopyValueInst (opUser use)); [discriminate |].
  destruct (isa DestroyValueInst (opUser use)).
  { destruct (claimConsume _ _ _) as [[] ?]; discriminate. }
  destruct (negb _); [discriminate |].
  destruct (claimConsume _ _ _) as [[] ?]; [discriminate |]. auto.
Qed.

Lemma visitUse_instsToDelete (use : Operand) (rw : RewriteState) (i : InstId) :
  i ∈ instsToDelete (visitUse host use rw).2 →
  i ∈ instsToDelete rw
  ∨ (i = instId (opUser use) ∧ isa DestroyValueInst (opUser use) = true).
Proof.
  unfold visitUse.
  destruct (isa CopyValueInst (opUser use)); [auto |].
  destruct (isa DestroyValueInst (opUser use)).
  { destruct (claimConsume _ _ _) as [[] ?]; simpl; [auto |].
    unfold setInsert. destruct (decide (_ ∈ _)); [auto |].
    rewrite elem_of_app, list_elem_of_singleton. intros [? | ->]; auto. }
  destruct (negb _); [auto |].
  destruct (claimConsume _ _ _) as [[] ?]; auto.
Qed.

Lemma visitUse_consumes (use : Operand) (rw1 rw2 : RewriteState) :
  consumes (rwCanon rw1) = consumes (rwCanon rw2) →
  (visitUse host use rw1).1 = (visitUse host use rw2).1
  ∧ consumes (rwCanon (visitUse host use rw1).2)
    = consumes (rwCanon (visitUse host use rw2).2).
Proof.
  intros Heq. unfold visitUse. rewrite Heq.
  destruct (isa CopyValueInst (opUser use)); [auto |].
  destruct (isa DestroyValueInst (opUser use)).
  { destruct (claimConsume _ _ _) as [[] ?]; simpl; auto. }
  destruct (negb _); [auto |].
  destruct (claimConsume _ _ _) as [[] ?]; simpl; auto.
Qed.

Lemma usesNeedingCopy_consumes (uses : list Operand) (rw1 rw2 : RewriteState) :
  consumes (rwCanon rw1) = consumes (rwCanon rw2) →
  usesNeedingCopy host uses rw1 = usesNeedingCopy host uses rw2.
Proof.
  revert rw1 rw2. induction uses as [| use rest IH]; intros rw1 rw2 Heq;
    [reflexivity |].
  simpl. destruct (visitUse_consumes use rw1 rw2 Heq) as [Hb Hc].
  rewrite Hb. rewrite (IH _ _ Hc). reflexivity.
Qed.

Lemma copyLiveUse_Ret (use : Operand) (st st' : CanonicalizeOSSALifetime) :
  copyLiveUse use st = Ret st' →
  ∃ pos v,
    func st'
    = setOperand (instId (opUser use)) (opIndex use)
        (InstResult (fnNextInst (func st)))
        (createInst (opParentBlock use) pos CopyValueInst
           [(v, InstantaneousUse)] (func st)).2
    ∧ consumes st' = consumes st.
Proof.
  unfold copyLiveUse.
  destruct (instIndex _ _) as [pos |]; [| discriminate].
  destruct (operandValue _ _) as [v |]; [| discriminate].
  simpl. intros [= <-]. exists pos, v. split; reflexivity.
Qed.

Lemma findInst_lt_next (fn : SILFunction) (i : InstId)
    (p : BlockId * SILInstruction) :
  wfFunction fn → findInst fn i = Some p → i ≠ fnNextInst fn.
Proof.
  intros (_ & _ & Hlt) Hfind. apply findInst_Some in Hfind as [Hin <-].
  rewrite Forall_forall in Hlt.
  assert (instId p.2 ∈ instIds fn) as Hid
    by (apply list_elem_of_fmap; eauto).
  specialize (Hlt _ Hid). lia.
Qed.

Lemma operandAt_lt_next (fn : SILFunction) (i : InstId) (idx : nat)
    (v : SILValue) :
  wfFunction fn → operandAt fn i idx = Some v → i ≠ fnNextInst fn.
Proof.
  intros Hwf. unfold operandAt.
  destruct (findInst fn i) as [p |] eqn:Hfind; [| discriminate].
  intros _. eapply findInst_lt_next; eassumption.
Qed.

(** The function after [copyLiveUse]: well-formed, and every operand but
    the copied one is as before. *)
Lemma copyLiveUse_inv (use : Operand) (st st' : CanonicalizeOSSALifetime) :
  wfFunction (func st) →
  copyLiveUse use st = Ret st' →
  wfFunction (func st')
  ∧ consumes st' = consumes st
  ∧ (∀ i idx v, (i, idx) ≠ usePos use →
       operandAt (func st) i idx = Some v →
       operandAt (func st') i idx = Some v)
  ∧ (∀ i p, i ≠ instId (opUser use) →
       findInst (func st) i = Some p → findInst (func st') i = Some p).
Proof.
  intros Hwf Hcopy.
  apply copyLiveUse_Ret in Hcopy as (pos & v & Hfunc & Hcons).
  rewrite Hfunc. split; [| split; [exact Hcons | split]].
  - apply wfFunction_setOperand, wfFunction_createInst, Hwf.
  - intros i idx w Hpos Hat.
    rewrite operandAt_setOperand_other by exact Hpos.
    rewrite operandAt_createInst; [exact Hat | exact Hwf |].
    eapply operandAt_lt_next; eassumption.
  - intros i p Hne Hfind. unfold setOperand.
    rewrite findInst_mapInsts
      by (intros x; destruct (decide (instId x = _)); reflexivity).
    rewrite findInst_createInst;
      [| exact Hwf | eapply findInst_lt_next; eassumption].
    rewrite Hfind. simpl. destruct p as [bb inst].
    apply findInst_Some in Hfind as [_ Hid]. simpl in *.
    rewrite decide_False by congruence. reflexivity.
Qed.

(** The traversal of the uses of the copy [c]. *)
Lemma rewriteCopyUses_inv (c : InstId) (srcBB : BlockId) (src : SILInstruction)
    (uses : list Operand) :
  isa CopyValueInst src = true →
  ∀ (rw : RewriteState) (reused : option Operand)
    (rw' : RewriteState) (reused' : option Operand),
  wfFunction (func (rwCanon rw)) →
  findInst (func (rwCanon rw)) c = Some (srcBB, src) →
  c ∉ instsToDelete rw →
  NoDup (usePos <$> uses) →
  (∀ u, u ∈ uses → instId (opUser u) = c → opUser u = src) →
  (∀ u, u ∈ uses →
     operandAt (func (rwCanon rw)) (instId (opUser u)) (opIndex u)
     = Some (InstResult c)) →
  (∀ u, reused = Some u →
     operandAt (func (rwCanon rw)) (instId (opUser u)) (opIndex u)
     = Some (InstResult c)
     ∧ usePos u ∉ usePos <$> uses) →
  rewriteCopyUses host srcBB uses rw reused = Ret (rw', reused') →
  wfFunction (func (rwCanon rw'))
  ∧ findInst (func (rwCanon rw')) c = Some (srcBB, src)
  ∧ (c ∉ instsToDelete rw')
  ∧ (∀ u, reused' = Some u →
       operandAt (func (rwCanon rw')) (instId (opUser u)) (opIndex u)
       = Some (InstResult c))
  ∧ reused' = match reused with
              | Some u => Some u
              | None => firstUseInBlock srcBB (usesNeedingCopy host uses rw)
              end.
Proof.
  intros Hsrc. induction uses as [| use rest IH];
    intros rw reused rw' reused' Hwf Hfind Hdel Hnd Hself Hheld Hreused Hrun.
  { simpl in Hrun. injection Hrun as <- <-.
    split; [exact Hwf |]. split; [exact Hfind |]. split; [exact Hdel |].
    split; [intros u Hu; apply (Hreused u Hu) |].
    destruct reused; reflexivity. }
  rewrite fmap_cons in Hnd. apply NoDup_cons in Hnd as [Hfresh Hnd].
  assert (∀ u, u ∈ rest → usePos u ≠ usePos use) as Hother.
  { intros u Hu Heq. apply Hfresh. rewrite <- Heq.
    apply list_elem_of_fmap. eauto. }
  cbn [rewriteCopyUses] in Hrun. unfold rewriteCopyUse in Hrun.
  cbn [usesNeedingCopy].
  pose proof (visitUse_func use rw) as Hvfunc.
  destruct (visitUse host use rw) as [ok rw1] eqn:Hvisit. simpl in *.
  destruct ok.
  - (* the use keeps its operand *)
    simpl in Hrun.
    assert (c ∉ instsToDelete rw1) as Hdel1.
    { intros Hin.
      pose proof (visitUse_instsToDelete use rw c) as Hcases.
      rewrite Hvisit in Hcases. simpl in Hcases.
      destruct (Hcases Hin) as [? | [Hid Hdestroy]]; [auto |].
      rewrite (Hself use) in Hdestroy by (left || auto).
      unfold isa in *. apply bool_decide_eq_true in Hsrc, Hdestroy.
      congruence. }
    apply (IH rw1 reused rw' reused'); try assumption.
    + rewrite Hvfunc. exact Hwf.
    + rewrite Hvfunc. exact Hfind.
    + intros u Hu. apply Hself. right. exact Hu.
    + intros u Hu. rewrite Hvfunc. apply Hheld. right. exact Hu.
    + intros u Hu. rewrite Hvfunc. destruct (Hreused u Hu) as [Hat Hpos].
      split; [exact Hat |]. try rewrite fmap_cons in Hpos.
      apply not_elem_of_cons in Hpos. tauto.
  - (* the use needs a copy *)
    pose proof (visitUse_false use rw) as Hfalse.
    rewrite Hvisit in Hfalse. simpl in Hfalse.
    destruct (Hfalse eq_refl) as [Hnocopy ->]. clear Hfalse Hvfunc.
    assert (instId (opUser use) ≠ c) as Hnotsrc.
    { intros Hid. rewrite (Hself use) in Hnocopy by (left || auto).
      congruence. }
    assert (∀ st',
              copyLiveUse use (rwCanon rw) = Ret st' →
              ∀ reused1,
                (∀ u, reused1 = Some u →
                   operandAt (func (rwCanon rw)) (instId (opUser u)) (opIndex u)
                   = Some (InstResult c)
                   ∧ usePos u ≠ usePos use ∧ usePos u ∉ usePos <$> rest) →
                rewriteCopyUses host srcBB rest (setCanon st' rw) reused1
                = Ret (rw', reused') →
                wfFunction (func (rwCanon rw'))
                ∧ findInst (func (rwCanon rw')) c = Some (srcBB, src)
                ∧ (c ∉ instsToDelete rw')
                ∧ (∀ u, reused' = Some u →
                     operandAt (func (rwCanon rw')) (instId (opUser u))
                       (opIndex u) = Some (InstResult c))
                ∧ reused' = match reused1 with
                            | Some u => Some u
                            | None =>
                                firstUseInBlock srcBB
                                  (usesNeedingCopy host rest rw)
                            end) as Hcopied.
    { intros st' Hcopy reused1 Hreused1 Hrest.
      destruct (copyLiveUse_inv use (rwCanon rw) st' Hwf Hcopy)
        as (Hwf' & Hcons & Hat' & Hfind').
      rewrite (usesNeedingCopy_consumes rest rw (setCanon st' rw))
        by (simpl; congruence).
      apply (IH (setCanon st' rw) reused1 rw' reused'); simpl;
        try assumption.
      - apply Hfind'; [congruence | exact Hfind].
      - intros u Hu. apply Hself. right. exact Hu.
      - intros u Hu. apply Hat'; [apply Hother, Hu |].
        apply Hheld. right. exact Hu.
      - intros u Hu. destruct (Hreused1 u Hu) as (Hat & Hne & Hnotin).
        split; [| exact Hnotin]. apply Hat'; assumption. }
    destruct reused as [w |].
    + destruct (copyLiveUse use (rwCanon rw)) as [st' | |] eqn:Hcopy;
        simpl in Hrun; try discriminate.
      apply (Hcopied st' eq_refl (Some w)); [| exact Hrun].
      intros u [= <-]. destruct (Hreused w eq_refl) as [Hat Hpos].
      try rewrite fmap_cons in Hpos. apply not_elem_of_cons in Hpos as [? ?].
      auto.
    + destruct (decide (srcBB = opParentBlock use)) as [Hbb | Hbb].
      * simpl in Hrun.
        destruct (IH rw (Some use) rw' reused') as (? & ? & ? & ? & ->);
          try assumption.
        -- intros u Hu. apply Hself. right. exact Hu.
        -- intros u Hu. apply Hheld. right. exact Hu.
        -- intros u [= <-]. split; [apply Hheld; left |]. exact Hfresh.
        -- cbn [firstUseInBlock]. rewrite decide_True by exact Hbb. auto.
      * destruct (copyLiveUse use (rwCanon rw)) as [st' | |] eqn:Hcopy;
          simpl in Hrun; try discriminate.
        cbn [firstUseInBlock]. rewrite decide_False by exact Hbb.
        apply (Hcopied st' eq_refl None); [| exact Hrun].
        intros u [=].
Qed.

End CopyShortCircuit.

(** *** The result of canonicalizeValueLifetime *)

Section ResultOfCanonicalize.

Variable host : Host.

Lemma updateForScopeEnds_fails (fn : SILFunction) (ends : list Operand)
    (l : PrunedLiveness) :
  (updateForScopeEnds fn ends l).1 = false ↔
  ∃ e, e ∈ ends ∧ opOwnership e = Reborrow.
Proof.
  revert l. induction ends as [| e rest IH]; intros l; simpl.
  - split; [discriminate |]. intros (e & He & _). inversion He.
  - destruct (decide (opOwnership e = Reborrow)) as [Hre | Hre]; simpl.
    + split; [| reflexivity]. intros _. exists e. split; [left | exact Hre].
    + rewrite IH. split.
      * intros (x & Hx & Hown). exists x. split; [right |]; assumption.
      * intros (x & Hx & Hown). apply elem_of_cons in Hx as [-> | Hx];
          [contradiction | eauto].
Qed.

(** One use in step 1: the function is not touched, and the answer is
    false exactly at a bailing use. *)
Lemma computeLivenessForUse_func (use : Operand)
    (st st' : CanonicalizeOSSALifetime) (wl wl' : GraphNodeWorklist SILValue)
    (ok : bool) :
  computeLivenessForUse host use st wl = Ret (ok, st', wl') →
  func st' = func st
  ∧ pruneDebugMode st' = pruneDebugMode st
  ∧ (ok = false ↔ bailingUse host (pruneDebugMode st) (func st) use).
Proof.
  unfold computeLivenessForUse, bailingUse.
  destruct (isa CopyValueInst (opUser use)).
  { intros [= <- <- <-]. repeat split; try discriminate. intros [[=] _]. }
  destruct (pruneDebugMode st && isa DebugValueInst (opUser use)) eqn:Hdbg.
  { destruct (decide _); intros [= <- <- <-]; repeat split;
      try discriminate; intros (_ & [=] & _). }
  destruct (opOwnership use) eqn:Hown; try discriminate;
    try (intros [= <- <- <-]; repeat split; try discriminate; try reflexivity;
         try (intros (_ & _ & [[=] | [[=] | [[=] _]]]); fail);
         try (right; left; reflexivity); try (left; reflexivity); fail).
  - (* Borrow *)
    intros [= <- <- <-]. split; [reflexivity |]. split; [reflexivity |].
    unfold updateForBorrowingOperand. rewrite updateForScopeEnds_fails.
    split.
    + intros Hends. repeat split. right. right. split; [reflexivity | exact Hends].
    + intros (_ & _ & [[=] | [[=] | [_ Hends]]]). exact Hends.
  - (* DestroyingConsume *)
    intros [= <- <- <-]. split.
    { destruct (isa DestroyValueInst (opUser use)); reflexivity. }
    split.
    { destruct (isa DestroyValueInst (opUser use)); reflexivity. }
    split; [discriminate |]. intros (_ & _ & [[=] | [[=] | [[=] _]]]).
  - (* Reborrow *)
    destruct (negb (isa BranchInst (opUser use))).
    { destruct (isSingleValueInstruction host (opUser use)); simpl;
        [| discriminate].
      intros [= <- <- <-]. split; [reflexivity |]. split; [reflexivity |].
      split; [discriminate |]. intros (_ & _ & [[=] | [[=] | [[=] _]]]). }
    destruct (bool_decide _).
    { intros [= <- <- <-]. split; [reflexivity |]. split; [reflexivity |].
      split; [discriminate |]. intros (_ & _ & [[=] | [[=] | [[=] _]]]). }
    destruct (head (instSuccessors (opUser use))); simpl; [| discriminate].
    intros [= <- <- <-]. split; [reflexivity |]. split; [reflexivity |].
    split; [discriminate |]. intros (_ & _ & [[=] | [[=] | [[=] _]]]).
Qed.

Lemma computeLivenessForUses_func (uses : list Operand) :
  ∀ (st st' : CanonicalizeOSSALifetime) (wl wl' : GraphNodeWorklist SILValue)
    (ok : bool),
  computeLivenessForUses host uses st wl = Ret (ok, st', wl') →
  func st' = func st
  ∧ pruneDebugMode st' = pruneDebugMode st
  ∧ (ok = false →
     ∃ use, use ∈ uses ∧ bailingUse host (pruneDebugMode st) (func st) use).
Proof.
  induction uses as [| use rest IH]; intros st st' wl wl' ok; simpl.
  { intros [= <- <- <-]. repeat split. discriminate. }
  destruct (computeLivenessForUse host use st wl) as [[[ok1 st1] wl1] | |]
    eqn:Huse; simpl; try discriminate.
  destruct (computeLivenessForUse_func _ _ _ _ _ _ Huse) as (Hf & Hd & Hbail).
  destruct ok1.
  - intros Hrest. destruct (IH _ _ _ _ _ Hrest) as (Hf' & Hd' & Hbail').
    split; [congruence |]. split; [congruence |].
    intros Hok. destruct (Hbail' Hok) as (u & Hu & Hb).
    exists u. split; [right; exact Hu |]. rewrite <- Hf, <- Hd. exact Hb.
  - intros [= <- <- <-]. split; [exact Hf |]. split; [exact Hd |].
    intros _. exists use. split; [left |]. apply Hbail. reflexivity.
Qed.

Lemma computeCanonicalLivenessLoop_func (fuel : nat) :
  ∀ (st st' : CanonicalizeOSSALifetime) (wl : GraphNodeWorklist SILValue)
    (ok : bool),
  computeCanonicalLivenessLoop host fuel st wl = Ret (ok, st') →
  func st' = func st
  ∧ (ok = false →
     ∃ value use,
       use ∈ getUses (func st) value
       ∧ bailingUse host (pruneDebugMode st) (func st) use).
Proof.
  induction fuel as [| fuel IH]; intros st st' wl ok; simpl; [discriminate |].
  destruct (worklistPop wl) as [[value wl1] |].
  2:{ intros [= <- <-]. split; [reflexivity | discriminate]. }
  destruct (computeLivenessForUses host _ st _) as [[[ok1 st1] wl3] | |]
    eqn:Huses; simpl; try discriminate.
  destruct (computeLivenessForUses_func _ _ _ _ _ _ Huses)
    as (Hf & Hd & Hbail).
  destruct ok1.
  - intros Hrest. destruct (IH _ _ _ _ Hrest) as (Hf' & Hbail').
    split; [congruence |]. intros Hok.
    destruct (Hbail' Hok) as (v & u & Hu & Hb). exists v, u.
    rewrite <- Hf, <- Hd. auto.
  - intros [= <- <-]. split; [exact Hf |]. intros _.
    destruct (Hbail eq_refl) as (u & Hu & Hb). eauto.
Qed.

Lemma initDef_func (def : SILValue) (st st0 : CanonicalizeOSSALifetime) :
  initDef def st = Ret st0 →
  func st0 = func st ∧ pruneDebugMode st0 = pruneDebugMode st.
Proof.
  unfold initDef. destruct (bool_decide _); simpl; [| discriminate].
  destruct (getParentBlock (func st) def); simpl; [| discriminate].
  intros [= <-]. split; reflexivity.
Qed.

End ResultOfCanonicalize.

(** S6 of the spec: the def escapes, the canonicalizer returns false and
    gives back the state it was given. *)
Example pointer_escape_bails_out :
  canonicalizeValueLifetime exampleHost 10 (InstResult 0)
    (exampleState false pointerEscapeFunction (InstResult 0))
  = Ret (false, exampleState false pointerEscapeFunction (InstResult 0)).
Proof. vm_compute. reflexivity. Qed.

(** S1 of the spec: a def that is already canonical; the canonicalizer
    returns true although no copy or destroy was eliminated. *)
Example canonical_def_is_accepted :
  ∃ st',
    canonicalizeValueLifetime exampleHost 10 (InstResult 0)
      (exampleState false
         (mkFunction [mkBlock 0 [producerInst 0; destroyInst 1 (InstResult 0);
                                 returnInst 2]] 3)
         (InstResult 0))
    = Ret (true, st')
    ∧ func st'
      = mkFunction [mkBlock 0 [producerInst 0; destroyInst 1 (InstResult 0);
                               returnInst 2]] 3
    ∧ statistics st' = mkStats 0 0 0 0.
Proof. eexists. split; [vm_compute; reflexivity |]. split; reflexivity. Qed.

(** *** Growth of pruned liveness *)

Lemma markBlockLive_le (bb b : BlockId) (s : IsLive) (lb : gmap BlockId IsLive) :
  liveRank (default Dead (lb !! b))
  ≤ liveRank (default Dead (markBlockLive bb s lb !! b)).
Proof.
  unfold markBlockLive. destruct (decide _) as [Hlt | Hge]; [| lia].
  destruct (decide (bb = b)) as [-> | Hne].
  - rewrite lookup_insert_eq. simpl. lia.
  - rewrite lookup_insert_ne by exact Hne. lia.
Qed.

Lemma markBlockLive_at (bb : BlockId) (s : IsLive) (lb : gmap BlockId IsLive) :
  liveRank s ≤ liveRank (default Dead (markBlockLive bb s lb !! bb)).
Proof.
  unfold markBlockLive. destruct (decide _) as [Hlt | Hge]; [| lia].
  rewrite lookup_insert_eq. simpl. lia.
Qed.

Lemma computeUseBlockLiveness_le (fn : SILFunction) (fuel : nat) :
  ∀ (worklist : list BlockId) (lb : gmap BlockId IsLive) (b : BlockId),
    liveRank (default Dead (lb !! b))
    ≤ liveRank (default Dead (computeUseBlockLiveness fn fuel worklist lb !! b)).
Proof.
  induction fuel as [| fuel IH]; intros worklist lb b; simpl; [lia |].
  destruct worklist as [| bb rest]; [lia |].
  etransitivity; [| apply IH].
  change lb with (rest, lb).2 at 1.
  generalize (rest, lb). generalize (getPredecessorBlocks fn bb).
  intros preds. induction preds as [| p preds IHp]; intros acc; simpl; [lia |].
  etransitivity; [| apply IHp].
  destruct (default Dead (acc.2 !! p)); simpl; try apply markBlockLive_le. lia.
Qed.

#[local] Arguments computeUseBlockLiveness : simpl never.

Lemma updateForUse_livenessLe (fn : SILFunction) (userBB : BlockId)
    (user : InstId) (lifetimeEnding : bool) (l : PrunedLiveness) :
  livenessLe l (updateForUse fn userBB user lifetimeEnding l).
Proof.
  split.
  - intros bb. unfold updateForUse, getBlockLiveness. simpl.
    destruct (default Dead (liveBlocks l !! userBB)); try lia.
    etransitivity; [| apply computeUseBlockLiveness_le].
    apply markBlockLive_le.
  - intros i. unfold updateForUse, isInterestingUser. simpl.
    destruct (decide (user = i)) as [-> | Hne].
    + rewrite lookup_insert_eq.
      destruct (users l !! i) as [[] |]; destruct lifetimeEnding; simpl; lia.
    + rewrite lookup_insert_ne by exact Hne. lia.
Qed.

Lemma updateForUse_block_live (fn : SILFunction) (userBB : BlockId)
    (user : InstId) (lifetimeEnding : bool) (l : PrunedLiveness) :
  getBlockLiveness (updateForUse fn userBB user lifetimeEnding l) userBB ≠ Dead.
Proof.
  unfold updateForUse, getBlockLiveness. simpl.
  destruct (default Dead (liveBlocks l !! userBB)) eqn:Hlive;
    try (rewrite Hlive; discriminate).
  pose proof (computeUseBlockLiveness_le fn (S (length (fnBlocks fn)))
                [userBB] (markBlockLive userBB LiveWithin (liveBlocks l))
                userBB) as Hle.
  pose proof (markBlockLive_at userBB LiveWithin (liveBlocks l)) as Hat.
  intros Hdead. rewrite Hdead in Hle. simpl in *. lia.
Qed.

Lemma updateForUse_new_user (fn : SILFunction) (userBB : BlockId)
    (user : InstId) (l : PrunedLiveness) :
  isInterestingUser l user = NonUser →
  isInterestingUser (updateForUse fn userBB user false l) user
  = NonLifetimeEndingUse.
Proof.
  unfold updateForUse, isInterestingUser. simpl. rewrite lookup_insert_eq.
  destruct (users l !! user) as [[] |]; [discriminate.. | reflexivity].
Qed.

Lemma updateForUse_is_user (fn : SILFunction) (userBB : BlockId)
    (user : InstId) (lifetimeEnding : bool) (l : PrunedLiveness) :
  isInterestingUser (updateForUse fn userBB user lifetimeEnding l) user
  ≠ NonUser.
Proof.
  unfold updateForUse, isInterestingUser. simpl. rewrite lookup_insert_eq.
  destruct (users l !! user) as [[] |]; destruct lifetimeEnding; discriminate.
Qed.

Lemma updateForUse_other_user (fn : SILFunction) (userBB : BlockId)
    (user i : InstId) (lifetimeEnding : bool) (l : PrunedLiveness) :
  i ≠ user →
  isInterestingUser (updateForUse fn userBB user lifetimeEnding l) i
  = isInterestingUser l i.
Proof.
  intros Hne. unfold updateForUse, isInterestingUser. simpl.
  rewrite lookup_insert_ne by congruence. reflexivity.
Qed.

Lemma livenessLe_refl (l : PrunedLiveness) : livenessLe l l.
Proof. split; intros; lia. Qed.

Lemma livenessLe_trans (l1 l2 l3 : PrunedLiveness) :
  livenessLe l1 l2 → livenessLe l2 l3 → livenessLe l1 l3.
Proof.
  intros [Hb1 Hu1] [Hb2 Hu2]. split; intros x.
  - specialize (Hb1 x). specialize (Hb2 x). lia.
  - specialize (Hu1 x). specialize (Hu2 x). lia.
Qed.

(** Recording a user of the function keeps the users in live blocks. *)
Lemma updateForUse_usersLive (fn : SILFunction) (userBB : BlockId)
    (user : SILInstruction) (lifetimeEnding : bool) (l : PrunedLiveness) :
  wfFunction fn →
  (userBB, user) ∈ fnInsts fn →
  usersLive fn l →
  usersLive fn (updateForUse fn userBB (instId user) lifetimeEnding l).
Proof.
  intros Hwf Hin Hlive bb inst Hinst Huser.
  destruct (decide (instId inst = instId user)) as [Hid | Hid].
  - pose proof (fnInsts_same_id fn (bb, inst) (userBB, user) Hwf Hinst Hin Hid)
      as Heq.
    injection Heq as -> ->. apply updateForUse_block_live.
  - rewrite updateForUse_other_user in Huser by exact Hid.
    specialize (Hlive bb inst Hinst Huser).
    destruct (updateForUse_livenessLe fn userBB (instId user) lifetimeEnding l)
      as [Hle _].
    specialize (Hle bb). intros Hdead. rewrite Hdead in Hle.
    destruct (getBlockLiveness l bb); simpl in Hle; try lia. congruence.
Qed.

(** *** Termination of the access-scope extension *)

Lemma length_filter_mono {A} (P Q : A → Prop)
    `{∀ x, Decision (P x)} `{∀ x, Decision (Q x)} (l : list A) :
  (∀ x, x ∈ l → Q x → P x) →
  length (filter Q l) ≤ length (filter P l).
Proof.
  induction l as [| x l IH]; intros Himp; [reflexivity |].
  rewrite !filter_cons.
  assert (length (filter Q l) ≤ length (filter P l)) as Hle.
  { apply IH. intros y Hy. apply Himp. right. exact Hy. }
  destruct (decide (Q x)) as [Hq | Hq].
  - rewrite decide_True by (apply Himp; [left | exact Hq]). simpl. lia.
  - destruct (decide (P x)); simpl; lia.
Qed.

Lemma length_filter_strict {A} (P Q : A → Prop)
    `{∀ x, Decision (P x)} `{∀ x, Decision (Q x)} (l : list A) (y : A) :
  (∀ x, x ∈ l → Q x → P x) →
  y ∈ l → P y → ¬ Q y →
  length (filter Q l) < length (filter P l).
Proof.
  induction l as [| x l IH]; intros Himp Hy Hp Hq; [inversion Hy |].
  rewrite !filter_cons.
  assert (length (filter Q l) ≤ length (filter P l)) as Hle.
  { apply length_filter_mono. intros z Hz. apply Himp. right. exact Hz. }
  apply elem_of_cons in Hy as [<- | Hy].
  - rewrite decide_False by exact Hq. rewrite decide_True by exact Hp.
    simpl. lia.
  - assert (length (filter Q l) < length (filter P l)) as Hlt.
    { apply IH; try assumption. intros z Hz. apply Himp. right. exact Hz. }
    destruct (decide (Q x)) as [Hqx | Hqx].
    + rewrite decide_True by (apply Himp; [left | exact Hqx]). simpl. lia.
    + destruct (decide (P x)); simpl; lia.
Qed.

Lemma blockInsts_elem_of (fn : SILFunction) (bb : BlockId)
    (inst : SILInstruction) :
  inst ∈ blockInsts fn bb →
  (bb, inst) ∈ fnInsts fn ∧ bb ∈ bbId <$> fnBlocks fn.
Proof.
  unfold blockInsts. destruct (getBlock fn bb) as [b |] eqn:Hb; simpl;
    [| intros H; inversion H].
  intros Hin. pose proof (getBlock_bbId _ _ _ Hb) as Hid.
  assert (b ∈ fnBlocks fn) as Hbin.
  { unfold getBlock in Hb. induction (fnBlocks fn) as [| x l IH];
      simpl in Hb; [discriminate |].
    destruct (decide (bbId x = bb)); [injection Hb as ->; left |].
    right. apply IH, Hb. }
  split.
  - apply elem_of_fnInsts. eauto.
  - apply list_elem_of_fmap. eauto.
Qed.

Lemma getPredecessorBlocks_ids (fn : SILFunction) (bb p : BlockId) :
  p ∈ getPredecessorBlocks fn bb → p ∈ bbId <$> fnBlocks fn.
Proof.
  unfold getPredecessorBlocks. rewrite list_elem_of_bind.
  intros (b & Hp & Hb). apply list_elem_of_fmap in Hp as (s & -> & _).
  apply list_elem_of_fmap. eauto.
Qed.

Section ExtensionTerminates.

Variable host : Host.

Lemma endsAccessOverlappingPrunedBoundary_fuel (st : CanonicalizeOSSALifetime)
    (inst : SILInstruction) :
  endsAccessOverlappingPrunedBoundary host st inst ≠ OutOfFuel.
Proof.
  unfold endsAccessOverlappingPrunedBoundary.
  destruct (isa EndUnpairedAccessInst inst); [discriminate |].
  destruct (negb _); [discriminate |].
  destruct (getBeginAccess _ _) as [[bb b] |]; simpl; [| discriminate].
  destruct (getBlockLiveness _ _); try discriminate.
  destruct (getParentBlock _ _); simpl; discriminate.
Qed.

(** The instruction the scan of a block finds is an instruction of the
    block, and it is not yet a user when the block holds a use. *)
Lemma findOverlappingAccess_found (st : CanonicalizeOSSALifetime)
    (blockHasUse : bool) (revInsts : list SILInstruction) :
  ∀ findLastConsume,
    findOverlappingAccess host st blockHasUse findLastConsume revInsts
    ≠ OutOfFuel
    ∧ ∀ inst,
        findOverlappingAccess host st blockHasUse findLastConsume revInsts
        = Ret (Some inst) →
        inst ∈ revInsts
        ∧ (blockHasUse = true →
           isInterestingUser (liveness st) (instId inst) = NonUser).
Proof.
  induction revInsts as [| x rest IH]; intros flc; simpl.
  { split; [discriminate | intros inst [=]]. }
  destruct flc.
  { destruct (IH (negb (bool_decide (instId x ∈ destroys st)))) as [Hf Hs].
    split; [exact Hf |]. intros inst Hrun.
    destruct (Hs inst Hrun). split; [right |]; assumption. }
  destruct (blockHasUse && _) eqn:Huse.
  { split; [discriminate | intros inst [=]]. }
  pose proof (endsAccessOverlappingPrunedBoundary_fuel st x) as Hends.
  destruct (endsAccessOverlappingPrunedBoundary host st x) as [[] | |];
    simpl; try contradiction.
  - split; [discriminate |]. intros inst [= <-]. split; [left |].
    intros ->. simpl in Huse. apply bool_decide_eq_false in Huse.
    apply dec_stable in Huse. exact Huse.
  - destruct (IH false) as [Hf Hs]. split; [exact Hf |]. intros inst Hrun.
    destruct (Hs inst Hrun). split; [right |]; assumption.
  - split; [discriminate | intros inst [=]].
Qed.

Lemma extendLivenessInBlock_found (st : CanonicalizeOSSALifetime)
    (blocksToVisit : list BlockId) (bb : BlockId) :
  extendLivenessInBlock host st blocksToVisit bb ≠ OutOfFuel
  ∧ ∀ inst,
      extendLivenessInBlock host st blocksToVisit bb = Ret (Some inst) →
      inst ∈ blockInsts (func st) bb
      ∧ (getBlockLiveness (liveness st) bb = Dead
         ∨ isInterestingUser (liveness st) (instId inst) = NonUser).
Proof.
  unfold extendLivenessInBlock.
  destruct (bool_decide (getBlockLiveness (liveness st) bb = LiveOut)) eqn:Hout.
  { split; [discriminate | intros inst [=]]. }
  destruct (bool_decide (getBlockLiveness (liveness st) bb = Dead) && _).
  { split; [discriminate | intros inst [=]]. }
  match goal with
  | |- context [findOverlappingAccess host st ?u ?f ?l] =>
      destruct (findOverlappingAccess_found st u l f) as [Hf Hs]
  end.
  split; [exact Hf |]. intros inst Hrun. destruct (Hs inst Hrun) as [Hin Hnew].
  split; [apply list_elem_of_In, in_rev, list_elem_of_In; exact Hin |].
  apply bool_decide_eq_false in Hout.
  destruct (getBlockLiveness (liveness st) bb) eqn:Hlive;
    [left; reflexivity | | contradiction].
  right. apply Hnew. apply bool_decide_eq_true. reflexivity.
Qed.

Lemma extendLivenessInBlocks_found (st : CanonicalizeOSSALifetime)
    (blocksToVisit todo : list BlockId) :
  extendLivenessInBlocks host st blocksToVisit todo ≠ OutOfFuel
  ∧ ∀ bb inst,
      extendLivenessInBlocks host st blocksToVisit todo = Ret (Some (bb, inst)) →
      inst ∈ blockInsts (func st) bb
      ∧ (getBlockLiveness (liveness st) bb = Dead
         ∨ isInterestingUser (liveness st) (instId inst) = NonUser).
Proof.
  induction todo as [| b rest [IHf IHs]]; simpl.
  { split; [discriminate | intros bb inst [=]]. }
  destruct (extendLivenessInBlock_found st blocksToVisit b) as [Hf Hs].
  destruct (extendLivenessInBlock host st blocksToVisit b) as [[inst |] | |];
    simpl; try contradiction.
  - split; [discriminate |]. intros bb i [= <- <-]. apply Hs. reflexivity.
  - split; assumption.
  - split; [discriminate | intros bb inst [=]].
Qed.

(** The set vector of blocks to visit: the blocks not yet in it and the
    entries not yet walked bound the steps left. *)
Lemma setInsert_unvisited (ids vec : list BlockId) (p : BlockId) :
  p ∈ ids →
  length (filter (fun b => b ∉ setInsert p vec) ids)
  + length (setInsert p vec)
  ≤ length (filter (fun b => b ∉ vec) ids) + length vec
  ∧ length vec ≤ length (setInsert p vec).
Proof.
  intros Hp. unfold setInsert. destruct (decide (p ∈ vec)) as [Hin | Hnin];
    [lia |].
  rewrite length_app. simpl.
  assert (length (filter (fun b => b ∉ vec ++ [p]) ids)
          < length (filter (fun b => b ∉ vec) ids)) as Hlt.
  { apply (length_filter_strict _ _ ids p).
    - intros x _ Hx Hv. apply Hx. apply elem_of_app. left. exact Hv.
    - exact Hp.
    - exact Hnin.
    - intros Hx. apply Hx. apply elem_of_app. right. left. }
  lia.
Qed.

Lemma setInsert_fold_unvisited (ids : list BlockId) (ps : list BlockId) :
  ∀ vec,
    (∀ p, p ∈ ps → p ∈ ids) →
    length (filter (fun b => b ∉ foldl (fun v p => setInsert p v) vec ps) ids)
    + length (foldl (fun v p => setInsert p v) vec ps)
    ≤ length (filter (fun b => b ∉ vec) ids) + length vec
    ∧ length vec ≤ length (foldl (fun v p => setInsert p v) vec ps).
Proof.
  induction ps as [| p ps IH]; intros vec Hps; simpl; [lia |].
  destruct (setInsert_unvisited ids vec p) as [H1 H2];
    [apply Hps; left |].
  destruct (IH (setInsert p vec)) as [H3 H4];
    [intros q Hq; apply Hps; right; exact Hq |].
  lia.
Qed.

Lemma collectBlocksToVisit_fuel (st : CanonicalizeOSSALifetime) (fuel : nat) :
  ∀ idx vec,
    length (filter (fun b => b ∉ vec) (bbId <$> fnBlocks (func st)))
    + (length vec - idx) ≤ fuel →
    collectBlocksToVisit fuel st idx vec ≠ OutOfFuel.
Proof.
  induction fuel as [| fuel IH]; intros idx vec Hfuel.
  - simpl. destruct (vec !! idx) eqn:Hlook; [| discriminate].
    apply lookup_lt_Some in Hlook. lia.
  - simpl. destruct (vec !! idx) as [bb |] eqn:Hlook; [| discriminate].
    apply lookup_lt_Some in Hlook.
    destruct (decide (getBlockLiveness (liveness st) bb ≠ Dead)).
    + apply IH. lia.
    + apply IH.
      destruct (setInsert_fold_unvisited (bbId <$> fnBlocks (func st))
                  (getPredecessorBlocks (func st) bb) vec) as [H1 H2].
      { intros p. apply getPredecessorBlocks_ids. }
      lia.
Qed.

Lemma extendLivenessStep_fuel (st : CanonicalizeOSSALifetime) :
  extendLivenessStep host st ≠ OutOfFuel.
Proof.
  unfold extendLivenessStep.
  pose proof (collectBlocksToVisit_fuel st
                (length (fnBlocks (func st)) + length (consumingBlocks st)) 0
                (foldl (fun vec bb => setInsert bb vec) []
                       (consumingBlocks st))) as Hcollect.
  destruct (collectBlocksToVisit _ st 0 _) as [blocks | |]; simpl.
  - destruct (extendLivenessInBlocks_found st blocks blocks) as [Hf _].
    destruct (extendLivenessInBlocks host st blocks blocks)
      as [[[bb inst] |] | |]; simpl; try discriminate. contradiction.
  - discriminate.
  - exfalso. apply Hcollect; [| reflexivity].
    assert (∀ (xs vec : list BlockId),
              length (foldl (fun vec bb => setInsert bb vec) vec xs)
              ≤ length vec + length xs) as Hlen.
    { induction xs as [| x xs IHxs]; intros vec; simpl; [lia |].
      etransitivity; [apply IHxs |]. unfold setInsert.
      destruct (decide (x ∈ vec)); [lia |]. rewrite length_app. simpl. lia. }
    specialize (Hlen (consumingBlocks st) []). simpl in Hlen.
    pose proof (length_filter
                  (fun b => b ∉ foldl (fun vec bb => setInsert bb vec) []
                                      (consumingBlocks st))
                  (bbId <$> fnBlocks (func st))) as Hfilter.
    rewrite length_fmap in Hfilter. lia.
Qed.

(** One iteration that sets [changed]: liveness grows, and the state left
    to grow shrinks. *)
Lemma extendLivenessStep_changed (st st' : CanonicalizeOSSALifetime) :
  extendLivenessStep host st = Ret (Some st') →
  ∃ bb inst,
    inst ∈ blockInsts (func st) bb
    ∧ (getBlockLiveness (liveness st) bb = Dead
       ∨ isInterestingUser (liveness st) (instId inst) = NonUser)
    ∧ st' = livenessUpdateForUse bb (instId inst) false st.
Proof.
  unfold extendLivenessStep.
  destruct (collectBlocksToVisit _ st 0 _) as [blocks | |]; simpl;
    try discriminate.
  destruct (extendLivenessInBlocks_found st blocks blocks) as [_ Hs].
  destruct (extendLivenessInBlocks host st blocks blocks)
    as [[[bb inst] |] | |]; simpl; try discriminate.
  intros [= <-]. exists bb, inst. destruct (Hs bb inst eq_refl). auto.
Qed.

Lemma extendLivenessStep_measure (st st' : CanonicalizeOSSALifetime) :
  extendLivenessStep host st = Ret (Some st') →
  func st' = func st
  ∧ livenessLe (liveness st) (liveness st')
  ∧ deadBlocks (func st') (liveness st') + nonUsers (func st') (liveness st')
    < deadBlocks (func st) (liveness st) + nonUsers (func st) (liveness st).
Proof.
  intros Hstep.
  apply extendLivenessStep_changed in Hstep as (bb & inst & Hin & Hnew & ->).
  split; [reflexivity |].
  pose proof (updateForUse_livenessLe (func st) bb (instId inst) false
                (liveness st)) as Hle.
  split; [exact Hle |]. simpl.
  set (l' := updateForUse (func st) bb (instId inst) false (liveness st)) in *.
  destruct Hle as [Hblocks Husers].
  destruct (blockInsts_elem_of _ _ _ Hin) as [Hinst Hbb].
  assert (deadBlocks (func st) l' ≤ deadBlocks (func st) (liveness st)) as Hd.
  { apply length_filter_mono. intros b _ Hdead. specialize (Hblocks b).
    rewrite Hdead in Hblocks.
    destruct (getBlockLiveness (liveness st) b); simpl in *; [reflexivity | lia..]. }
  assert (nonUsers (func st) l' ≤ nonUsers (func st) (liveness st)) as Hu.
  { apply length_filter_mono. intros i _ Hnon. specialize (Husers i).
    rewrite Hnon in Husers.
    destruct (isInterestingUser (liveness st) i); simpl in *;
      [reflexivity | lia..]. }
  destruct Hnew as [Hdead | Hnon].
  - assert (deadBlocks (func st) l' < deadBlocks (func st) (liveness st)).
    { apply (length_filter_strict _ _ _ bb); try assumption.
      - intros b _ Hdead'. specialize (Hblocks b). rewrite Hdead' in Hblocks.
        destruct (getBlockLiveness (liveness st) b); simpl in *;
          [reflexivity | lia..].
      - apply updateForUse_block_live. }
    lia.
  - assert (nonUsers (func st) l' < nonUsers (func st) (liveness st)).
    { apply (length_filter_strict _ _ _ (instId inst)); try assumption.
      - intros i _ Hnon'. specialize (Husers i). rewrite Hnon' in Husers.
        destruct (isInterestingUser (liveness st) i); simpl in *;
          [reflexivity | lia..].
      - unfold instIds. apply list_elem_of_fmap. exists (bb, inst). auto.
      - apply updateForUse_is_user. }
    lia.
Qed.

Lemma extendLivenessLoop_fuel (fuel : nat) :
  ∀ st,
    deadBlocks (func st) (liveness st) + nonUsers (func st) (liveness st)
    < fuel →
    extendLivenessLoop host fuel st ≠ OutOfFuel.
Proof.
  induction fuel as [| fuel IH]; intros st Hfuel; [lia |].
  simpl. pose proof (extendLivenessStep_fuel st) as Hstep.
  destruct (extendLivenessStep host st) as [[st' |] | |] eqn:Hrun; simpl;
    try discriminate; try contradiction.
  apply IH. apply extendLivenessStep_measure in Hrun as (_ & _ & Hlt). lia.
Qed.

Lemma extendLivenessLoop_grows (fuel : nat) :
  ∀ st st',
    extendLivenessLoop host fuel st = Ret st' →
    func st' = func st ∧ livenessLe (liveness st) (liveness st').
Proof.
  induction fuel as [| fuel IH]; intros st st'; simpl; [discriminate |].
  destruct (extendLivenessStep host st) as [[st1 |] | |] eqn:Hrun; simpl;
    try discriminate.
  - intros Hloop. apply IH in Hloop as [Hf Hle].
    apply extendLivenessStep_measure in Hrun as (Hf1 & Hle1 & _).
    split; [congruence |]. eapply livenessLe_trans; eassumption.
  - intros [= <-]. split; [reflexivity | apply livenessLe_refl].
Qed.

(** C6: the iterative extension of liveness over access scopes terminates
    on every state: it never runs out of the fuel given by the number of
    blocks and instructions of the function. Pruned liveness only grows,
    and an iteration that sets [changed] records an instruction of the
    function that was not a user as a non-lifetime-ending user (the users
    recorded so far being in blocks that are not Dead, which the iteration
    preserves). *)
Theorem extendLiveness_terminates (st : CanonicalizeOSSALifetime) :
  extendLivenessThroughOverlappingAccess host st ≠ OutOfFuel
  ∧ (∀ st',
       extendLivenessThroughOverlappingAccess host st = Ret st' →
       func st' = func st ∧ livenessLe (liveness st) (liveness st'))
  ∧ (∀ st',
       extendLivenessStep host st = Ret (Some st') →
       func st' = func st
       ∧ livenessLe (liveness st) (liveness st')
       ∧ deadBlocks (func st') (liveness st')
         + nonUsers (func st') (liveness st')
         < deadBlocks (func st) (liveness st)
           + nonUsers (func st) (liveness st))
  ∧ (∀ st',
       wfFunction (func st) →
       usersLive (func st) (liveness st) →
       extendLivenessStep host st = Ret (Some st') →
       usersLive (func st') (liveness st')
       ∧ ∃ bb inst,
           (bb, inst) ∈ fnInsts (func st)
           ∧ isInterestingUser (liveness st) (instId inst) = NonUser
           ∧ isInterestingUser (liveness st') (instId inst)
             = NonLifetimeEndingUse).
Proof.
  split; [| split; [| split]].
  - unfold extendLivenessThroughOverlappingAccess.
    apply extendLivenessLoop_fuel.
    pose proof (length_filter
                  (fun bb => getBlockLiveness (liveness st) bb = Dead)
                  (bbId <$> fnBlocks (func st))) as Hb.
    pose proof (length_filter
                  (fun i => isInterestingUser (liveness st) i = NonUser)
                  (instIds (func st))) as Hi.
    unfold deadBlocks, nonUsers, instIds in *.
    rewrite length_fmap in Hb. rewrite length_fmap in Hi. lia.
  - intros st'. apply extendLivenessLoop_grows.
  - intros st'. apply extendLivenessStep_measure.
  - intros st' Hwf Hlive Hstep.
    apply extendLivenessStep_changed in Hstep as (bb & inst & Hin & Hnew & ->).
    destruct (blockInsts_elem_of _ _ _ Hin) as [Hinst _].
    split.
    + simpl. apply updateForUse_usersLive; assumption.
    + exists bb, inst. split; [exact Hinst |].
      assert (isInterestingUser (liveness st) (instId inst) = NonUser)
        as Hnon.
      { destruct Hnew as [Hdead | Hnon]; [| exact Hnon].
        destruct (decide (isInterestingUser (liveness st) (instId inst)
                          = NonUser)) as [Hn | Hn]; [exact Hn |].
        exfalso. exact (Hlive bb inst Hinst Hn Hdead). }
      split; [exact Hnon |]. simpl. apply updateForUse_new_user, Hnon.
Qed.

(** The state step 1 hands to the extension has its users in live blocks,
    provided the scope-ending uses the host reports are operands of the
    function. *)
Lemma computeLivenessForUse_usersLive (use : Operand)
    (st st' : CanonicalizeOSSALifetime) (wl wl' : GraphNodeWorklist SILValue)
    (ok : bool) :
  (∀ fn u e, e ∈ scopeEndingUses host fn u →
             (opParentBlock e, opUser e) ∈ fnInsts fn) →
  wfFunction (func st) →
  (opParentBlock use, opUser use) ∈ fnInsts (func st) →
  usersLive (func st) (liveness st) →
  computeLivenessForUse host use st wl = Ret (ok, st', wl') →
  func st' = func st ∧ usersLive (func st') (liveness st').
Proof.
  intros Hhost Hwf Hin Hlive. unfold computeLivenessForUse.
  assert (∀ e, usersLive (func st)
                 (updateForUse (func st) (opParentBlock use)
                    (instId (opUser use)) e (liveness st))) as Hupd.
  { intros e. apply updateForUse_usersLive; assumption. }
  destruct (isa CopyValueInst (opUser use)); [intros [= <- <- <-]; auto |].
  destruct (pruneDebugMode st && isa DebugValueInst (opUser use)).
  { destruct (decide _); intros [= <- <- <-]; auto. }
  destruct (opOwnership use); try discriminate;
    try (intros [= <- <- <-]; simpl; auto; fail).
  - (* Borrow *)
    intros [= <- <- <-]. simpl. split; [reflexivity |].
    unfold updateForBorrowingOperand.
    assert (∀ e, e ∈ scopeEndingUses host (func st) use →
                 (opParentBlock e, opUser e) ∈ fnInsts (func st)) as Hends
      by (intros e; apply Hhost).
    revert Hends Hlive. generalize (liveness st).
    induction (scopeEndingUses host (func st) use) as [| e ends IH];
      intros l Hends Hl; simpl; [exact Hl |].
    destruct (decide (opOwnership e = Reborrow)); [exact Hl |].
    apply IH.
    + intros x Hx. apply Hends. right. exact Hx.
    + apply updateForUse_usersLive; [exact Hwf | | exact Hl].
      apply Hends. left.
  - (* DestroyingConsume *)
    intros [= <- <- <-]. destruct (isa DestroyValueInst (opUser use)); simpl;
      auto.
  - (* Reborrow *)
    destruct (negb _).
    { destruct (isSingleValueInstruction host (opUser use)); simpl;
        [| discriminate].
      intros [= <- <- <-]. simpl. auto. }
    destruct (bool_decide _); [intros [= <- <- <-]; simpl; auto |].
    destruct (head _); simpl; [| discriminate].
    intros [= <- <- <-]. simpl. auto.
Qed.

End ExtensionTerminates.

(** S5 of the spec: the end_access after the last use is recorded as a
    non-lifetime-ending user, and the loop stops after this one
    extension. *)
Example extension_over_access_scope :
  ∃ st',
    extendLivenessThroughOverlappingAccess exampleHost useInsideAccessState
    = Ret st'
    ∧ isInterestingUser (liveness useInsideAccessState) 3 = NonUser
    ∧ isInterestingUser (liveness st') 3 = NonLifetimeEndingUse
    ∧ extendLivenessStep exampleHost st' = Ret None.
Proof.
  eexists. split; [vm_compute; reflexivity |].
  split; [reflexivity |]. split; vm_compute; reflexivity.
Qed.

(** *** Projections of updated states *)

Lemma func_setConsumes (c : CanonicalOSSAConsumeInfo) (st : CanonicalizeOSSALifetime) :
  func (setConsumes c st) = func st.
Proof. reflexivity. Qed.

Lemma consumes_setConsumes (c : CanonicalOSSAConsumeInfo) (st : CanonicalizeOSSALifetime) :
  consumes (setConsumes c st) = c.
Proof. reflexivity. Qed.

Lemma liveness_setConsumes (c : CanonicalOSSAConsumeInfo) (st : CanonicalizeOSSALifetime) :
  liveness (setConsumes c st) = liveness st.
Proof. reflexivity. Qed.

Lemma currentDef_setConsumes (c : CanonicalOSSAConsumeInfo) (st : CanonicalizeOSSALifetime) :
  currentDef (setConsumes c st) = currentDef st.
Proof. reflexivity. Qed.

Lemma pruneDebugMode_setConsumes (c : CanonicalOSSAConsumeInfo) (st : CanonicalizeOSSALifetime) :
  pruneDebugMode (setConsumes c st) = pruneDebugMode st.
Proof. reflexivity. Qed.

Lemma debugValues_setConsumes (c : CanonicalOSSAConsumeInfo) (st : CanonicalizeOSSALifetime) :
  debugValues (setConsumes c st) = debugValues st.
Proof. reflexivity. Qed.

Lemma func_setFunc (fn : SILFunction) (st : CanonicalizeOSSALifetime) :
  func (setFunc fn st) = fn.
Proof. reflexivity. Qed.

Lemma consumes_setFunc (fn : SILFunction) (st : CanonicalizeOSSALifetime) :
  consumes (setFunc fn st) = consumes st.
Proof. reflexivity. Qed.

Lemma liveness_setFunc (fn : SILFunction) (st : CanonicalizeOSSALifetime) :
  liveness (setFunc fn st) = liveness st.
Proof. reflexivity. Qed.

Lemma currentDef_setFunc (fn : SILFunction) (st : CanonicalizeOSSALifetime) :
  currentDef (setFunc fn st) = currentDef st.
Proof. reflexivity. Qed.

Lemma pruneDebugMode_setFunc (fn : SILFunction) (st : CanonicalizeOSSALifetime) :
  pruneDebugMode (setFunc fn st) = pruneDebugMode st.
Proof. reflexivity. Qed.

Lemma debugValues_setFunc (fn : SILFunction) (st : CanonicalizeOSSALifetime) :
  debugValues (setFunc fn st) = debugValues st.
Proof. reflexivity. Qed.

Lemma func_setDebugValues (ds : list InstId) (st : CanonicalizeOSSALifetime) :
  func (setDebugValues ds st) = func st.
Proof. reflexivity. Qed.

Lemma consumes_setDebugValues (ds : list InstId) (st : CanonicalizeOSSALifetime) :
  consumes (setDebugValues ds st) = consumes st.
Proof. reflexivity. Qed.

Lemma liveness_setDebugValues (ds : list InstId) (st : CanonicalizeOSSALifetime) :
  liveness (setDebugValues ds st) = liveness st.
Proof. reflexivity. Qed.

Lemma currentDef_setDebugValues (ds : list InstId) (st : CanonicalizeOSSALifetime) :
  currentDef (setDebugValues ds st) = currentDef st.
Proof. reflexivity. Qed.

Lemma pruneDebugMode_setDebugValues (ds : list InstId) (st : CanonicalizeOSSALifetime) :
  pruneDebugMode (setDebugValues ds st) = pruneDebugMode st.
Proof. reflexivity. Qed.

Lemma debugValues_setDebugValues (ds : list InstId) (st : CanonicalizeOSSALifetime) :
  debugValues (setDebugValues ds st) = ds.
Proof. reflexivity. Qed.

Lemma func_incNumDestroysGenerated (st : CanonicalizeOSSALifetime) :
  func (incNumDestroysGenerated st) = func st.
Proof. reflexivity. Qed.

Lemma consumes_incNumDestroysGenerated (st : CanonicalizeOSSALifetime) :
  consumes (incNumDestroysGenerated st) = consumes st.
Proof. reflexivity. Qed.

Lemma liveness_incNumDestroysGenerated (st : CanonicalizeOSSALifetime) :
  liveness (incNumDestroysGenerated st) = liveness st.
Proof. reflexivity. Qed.

Lemma currentDef_incNumDestroysGenerated (st : CanonicalizeOSSALifetime) :
  currentDef (incNumDestroysGenerated st) = currentDef st.
Proof. reflexivity. Qed.

Lemma pruneDebugMode_incNumDestroysGenerated (st : CanonicalizeOSSALifetime) :
  pruneDebugMode (incNumDestroysGenerated st) = pruneDebugMode st.
Proof. reflexivity. Qed.

Lemma debugValues_incNumDestroysGenerated (st : CanonicalizeOSSALifetime) :
  debugValues (incNumDestroysGenerated st) = debugValues st.
Proof. reflexivity. Qed.

Create Rewrite HintDb canon.

#[global] Hint Rewrite
  func_setConsumes
  consumes_setConsumes
  liveness_setConsumes
  currentDef_setConsumes
  pruneDebugMode_setConsumes
  debugValues_setConsumes
  func_setFunc
  consumes_setFunc
  liveness_setFunc
  currentDef_setFunc
  pruneDebugMode_setFunc
  debugValues_setFunc
  func_setDebugValues
  consumes_setDebugValues
  liveness_setDebugValues
  currentDef_setDebugValues
  pruneDebugMode_setDebugValues
  debugValues_setDebugValues
  func_incNumDestroysGenerated
  consumes_incNumDestroysGenerated
  liveness_incNumDestroysGenerated
  currentDef_incNumDestroysGenerated
  pruneDebugMode_incNumDestroysGenerated
  debugValues_incNumDestroysGenerated
  : canon.

Lemma Ret_inj {A} (a b : A) : Ret a = Ret b → a = b.
Proof. intros [= ->]. reflexivity. Qed.

(** *** Step 2: placing destroys keeps what was placed *)

Lemma elem_of_findBlock (bb : BlockId) (blocks : list SILBasicBlock)
    (b : SILBasicBlock) :
  findBlock bb blocks = Some b → b ∈ blocks ∧ bbId b = bb.
Proof.
  induction blocks as [| x l IH]; simpl; [discriminate |].
  destruct (decide (bbId x = bb)).
  - intros [= <-]. split; [left | assumption].
  - intros H. destruct (IH H). split; [right |]; assumption.
Qed.

Lemma last_insert_before {A} (l : list A) (pos : nat) (x : A) :
  pos < length l → last (take pos l ++ x :: drop pos l) = last l.
Proof.
  intros Hpos. rewrite <- (take_drop pos l) at 3.
  destruct (drop pos l) as [| y rest] eqn:Hdrop.
  { apply (f_equal length) in Hdrop. rewrite length_drop in Hdrop.
    simpl in Hdrop. lia. }
  rewrite !last_app. rewrite !last_cons.
  destruct (last rest); reflexivity.
Qed.

Lemma getTerminator_insert_before (l : list SILInstruction) (pos : nat)
    (x : SILInstruction) :
  pos < length l →
  getTerminator (take pos l ++ x :: drop pos l) = getTerminator l.
Proof.
  intros Hpos. unfold getTerminator. rewrite last_insert_before by exact Hpos.
  reflexivity.
Qed.

Lemma createInst_sameCFG (bb : BlockId) (pos : nat) (k : SILInstructionKind)
    (ops : list (SILValue * OperandOwnership)) (fn : SILFunction) :
  wfFunction fn →
  pos < length (blockInsts fn bb) →
  sameCFG fn (createInst bb pos k ops fn).2.
Proof.
  intros Hwf Hpos.
  assert (blockInsts fn bb ≠ []) as Hne
    by (destruct (blockInsts fn bb); simpl in Hpos; [lia | discriminate]).
  split.
  - intros X. destruct (decide (X = bb)) as [-> | HX].
    + rewrite blockInsts_createInst_same by exact Hne.
      apply getTerminator_insert_before, Hpos.
    + rewrite blockInsts_createInst_other by exact HX. reflexivity.
  - intros X. unfold getPredecessorBlocks, createInst, mapBlock. simpl.
    destruct (blockInsts_nonempty_getBlock _ _ Hne) as [b0 Hb0].
    assert (blockInsts fn bb = bbInsts b0) as Hinsts
      by (unfold blockInsts; rewrite Hb0; reflexivity).
    destruct Hwf as (Hnd & _).
    apply elem_of_findBlock in Hb0 as [Hb0in Hb0id].
    assert (∀ b, b ∈ fnBlocks fn → bbId b = bb → b = b0) as Huniq.
    { intros b Hb Hid. apply (NoDup_fmap_eq bbId (fnBlocks fn)); try assumption.
      congruence. }
    clear Hnd Hb0in.
    induction (fnBlocks fn) as [| b l IH]; [reflexivity |].
    rewrite fmap_cons, !bind_cons. f_equal.
    + destruct (decide (bbId b = bb)) as [Hid | Hid]; [| reflexivity].
      rewrite (Huniq b) by (left || exact Hid). simpl.
      unfold blockSuccessors. simpl.
      rewrite getTerminator_insert_before by (rewrite <- Hinsts; exact Hpos).
      reflexivity.
    + apply IH. intros b' Hb'. apply Huniq. right. exact Hb'.
Qed.

Lemma sameCFG_refl (fn : SILFunction) : sameCFG fn fn.
Proof. split; reflexivity. Qed.

Lemma sameCFG_trans (fn1 fn2 fn3 : SILFunction) :
  sameCFG fn1 fn2 → sameCFG fn2 fn3 → sameCFG fn1 fn3.
Proof.
  intros [Ht1 Hp1] [Ht2 Hp2]. split; intros bb.
  - rewrite Ht2. apply Ht1.
  - rewrite Hp2. apply Hp1.
Qed.

Lemma placedLe_refl (st : CanonicalizeOSSALifetime) : placedLe st st.
Proof.
  split; [reflexivity |]. split; [reflexivity |]. split; [reflexivity |].
  split; [apply sameCFG_refl |]. split; [auto |]. auto.
Qed.

Lemma placedLe_trans (st1 st2 st3 : CanonicalizeOSSALifetime) :
  placedLe st1 st2 → placedLe st2 st3 → placedLe st1 st3.
Proof.
  intros (Hl1 & Hd1 & Hm1 & Hc1 & Hi1 & Hk1) (Hl2 & Hd2 & Hm2 & Hc2 & Hi2 & Hk2).
  split; [congruence |]. split; [congruence |]. split; [congruence |].
  split; [eapply sameCFG_trans; eassumption |].
  split; [intros bb inst Hin; apply Hi2, Hi1, Hin |].
  intros bb i Hrec. destruct (Hk1 bb i Hrec) as [Hrec2 Hinsts2].
  destruct (Hk2 bb i Hrec2) as [Hrec3 Hinsts3].
  split; [exact Hrec3 | congruence].
Qed.

Lemma getSuccessorBlocks_terminator (fn : SILFunction) (bb : BlockId) :
  getSuccessorBlocks fn bb
  = from_option instSuccessors [] (getTerminator (blockInsts fn bb)).
Proof.
  unfold getSuccessorBlocks, blockInsts, blockSuccessors.
  destruct (getBlock fn bb); reflexivity.
Qed.


Section PlacedPersists.

Variable host : Host.





End PlacedPersists.

(** *** Step 2: what each placement records *)


Section PlacingDestroys.

Variable host : Host.

Lemma recordFinalConsume_Ret (bb : BlockId) (i : InstId)
    (c c' : CanonicalOSSAConsumeInfo) :
  recordFinalConsume bb i c = Ret c' →
  finalBlockConsumes c !! bb = None
  ∧ finalBlockConsumes c' = <[bb := i]> (finalBlockConsumes c).
Proof.
  unfold recordFinalConsume.
  destruct (finalBlockConsumes c !! bb); [discriminate |].
  intros [= <-]. split; reflexivity.
Qed.

(** Recording the final consume of [bb] without touching the function. *)
Lemma record_placedLe (st : CanonicalizeOSSALifetime) (bb : BlockId)
    (i : InstId) (c c' : CanonicalOSSAConsumeInfo) :
  finalBlockConsumes c = finalBlockConsumes (consumes st) →
  recordFinalConsume bb i c = Ret c' →
  placedLe st (setConsumes c' st)
  ∧ finalBlockConsumes c' !! bb = Some i.
Proof.
  intros Hc Hrec. apply recordFinalConsume_Ret in Hrec as [Hfree Hc'].
  rewrite Hc in *. split; [| rewrite Hc'; apply lookup_insert_eq].
  split; [reflexivity |]. split; [reflexivity |]. split; [reflexivity |].
  split; [apply sameCFG_refl |]. split; [auto |].
  intros X j Hrec. cbn [func consumes setConsumes]. split; [| reflexivity].
  rewrite Hc'. rewrite lookup_insert_ne by congruence. exact Hrec.
Qed.

Lemma createAndRecordDestroy_placed (bb : BlockId) (pos : nat)
    (st st' : CanonicalizeOSSALifetime) :
  wfFunction (func st) →
  createAndRecordDestroy bb pos st = Ret st' →
  wfFunction (func st')
  ∧ placedLe st st'
  ∧ finalBlockConsumes (consumes st') !! bb = Some (fnNextInst (func st))
  ∧ blockInsts (func st') bb
    = take pos (blockInsts (func st) bb)
      ++ mkInst (fnNextInst (func st)) DestroyValueInst
           [(currentDef st, DestroyingConsume)] []
         :: drop pos (blockInsts (func st) bb).
Proof.
  intros Hwf Hrun.
  assert (is_Some (blockInsts (func st) bb !! pos)
          ∧ finalBlockConsumes (consumes st) !! bb = None) as [Hsome Hfree].
  { unfold createAndRecordDestroy, recordFinalConsume in Hrun.
    destruct (blockInsts (func st) bb !! pos); [| discriminate].
    split; [eauto |]. cbn [deref mbind Outcome_bind] in Hrun.
    destruct (finalBlockConsumes (consumes st) !! bb);
      [discriminate | reflexivity]. }
  rewrite (createAndRecordDestroy_Ret bb pos st Hfree Hsome) in Hrun.
  apply Ret_inj in Hrun. subst st'.
  destruct Hsome as [at_pos Hpos]. apply lookup_lt_Some in Hpos.
  assert (blockInsts (func st) bb ≠ []) as Hne
    by (destruct (blockInsts (func st) bb); simpl in Hpos; [lia | discriminate]).
  autorewrite with canon. cbn [finalBlockConsumes].
  pose proof (blockInsts_createInst_same bb pos DestroyValueInst
                [(currentDef st, DestroyingConsume)] (func st) Hne) as Hsame.
  pose proof (fun X => blockInsts_createInst_other bb X pos DestroyValueInst
                         [(currentDef st, DestroyingConsume)] (func st))
    as Hother.
  split; [apply wfFunction_createInst, Hwf |].
  split; [| split].
  - split; [reflexivity |]. split; [reflexivity |]. split; [reflexivity |].
    split; [apply createInst_sameCFG; assumption |].
    split.
    + intros X inst Hin. autorewrite with canon.
      destruct (decide (X = bb)) as [-> | HX].
      * rewrite Hsame.
        rewrite <- (take_drop pos (blockInsts (func st) bb)) in Hin.
        apply elem_of_app in Hin as [Hin | Hin]; apply elem_of_app;
          [left | right; right]; exact Hin.
      * rewrite Hother by exact HX. exact Hin.
    + intros X j HrecX. autorewrite with canon. cbn [finalBlockConsumes].
      assert (X ≠ bb) as HX by congruence.
      rewrite lookup_insert_ne by congruence.
      split; [exact HrecX |]. apply Hother, HX.
  - apply lookup_insert_eq.
  - exact Hsame.
Qed.

Lemma findOrInsertDestroyOnCFGEdge_placed (predBB succBB : BlockId)
    (st st' : CanonicalizeOSSALifetime) :
  wfFunction (func st) →
  findOrInsertDestroyOnCFGEdge host predBB succBB st = Ret st' →
  wfFunction (func st')
  ∧ placedLe st st'
  ∧ entryDestroyRecorded host st' succBB.
Proof.
  intros Hwf. unfold findOrInsertDestroyOnCFGEdge.
  destruct (bool_decide _); simpl; [| discriminate].
  destruct (findDestroyOnCFGEdge host (blockInsts (func st) succBB)
              (currentDef st)) as [di |] eqn:Hfind.
  - destruct (recordFinalConsume succBB (instId di) (consumes st))
      as [c | |] eqn:Hrec; simpl; try discriminate.
    intros [= <-].
    destruct (record_placedLe st succBB (instId di) (consumes st) c eq_refl Hrec)
      as [Hle Hat].
    split; [exact Hwf |]. split; [exact Hle |].
    apply findDestroyOnCFGEdge_Some in Hfind
      as (pre & post & Hinsts & Hpre & _ & Hdestroy & Hop).
    exists di, pre, post. autorewrite with canon.
    split; [exact Hat |]. split; [exact Hinsts |].
    split; [| auto].
    eapply Forall_impl; [exact Hpre |]. intros x [Hx | [Hx _]]; auto.
  - destruct (createAndRecordDestroy succBB 0 st) as [st1 | |] eqn:Hcreate;
      simpl; try discriminate.
    intros [= <-].
    destruct (createAndRecordDestroy_placed _ _ _ _ Hwf Hcreate)
      as (Hwf1 & Hle & Hat & Hinsts).
    split; [exact Hwf1 |]. split; [exact Hle |].
    exists (mkInst (fnNextInst (func st)) DestroyValueInst
              [(currentDef st, DestroyingConsume)] []),
           [], (blockInsts (func st) succBB).
    autorewrite with canon. rewrite Hat, Hinsts.
    split; [reflexivity |]. split; [reflexivity |].
    split; [constructor |]. split; [reflexivity |].
    destruct Hle as (_ & -> & _). reflexivity.
Qed.

Lemma popDebugValuesBetween_consumes (insts : list SILInstruction)
    (pos e : nat) (c : CanonicalOSSAConsumeInfo) :
  finalBlockConsumes (popDebugValuesBetween insts pos e c)
  = finalBlockConsumes c.
Proof.
  unfold popDebugValuesBetween.
  generalize (take (e - pos) (drop pos insts)). intros l. revert c.
  induction l as [| x l IH]; intros c; simpl; [reflexivity |].
  rewrite IH. destruct (isa DebugValueInst x); [| reflexivity].
  unfold popDebugAfterConsume. destruct (last _); [| reflexivity].
  destruct (decide _); reflexivity.
Qed.

Lemma incNumDestroysGenerated_placedLe (st : CanonicalizeOSSALifetime) :
  placedLe st (incNumDestroysGenerated st).
Proof.
  split; [reflexivity |]. split; [reflexivity |]. split; [reflexivity |].
  split; [apply sameCFG_refl |]. split; auto.
Qed.

Lemma insertDestroyAtInst_placed (bb : BlockId) (pos : nat)
    (existingDestroy : option (nat * SILInstruction))
    (st st' : CanonicalizeOSSALifetime) :
  wfFunction (func st) →
  (∀ e d, existingDestroy = Some (e, d) →
          blockInsts (func st) bb !! e = Some d) →
  insertDestroyAtInst bb (blockInsts (func st) bb) pos existingDestroy st
  = Ret st' →
  wfFunction (func st') ∧ placedLe st st' ∧ blockConsumeRecorded st' bb.
Proof.
  intros Hwf Hexisting. unfold insertDestroyAtInst.
  destruct existingDestroy as [[e d] |].
  - destruct (bool_decide (pos ≤ e)); simpl; [| discriminate].
    destruct (recordFinalConsume bb (instId d) _) as [c | |] eqn:Hrec;
      simpl; try discriminate.
    intros [= <-].
    destruct (record_placedLe st bb (instId d) _ c
                (popDebugValuesBetween_consumes _ _ _ _) Hrec) as [Hle Hat].
    split; [exact Hwf |]. split; [exact Hle |].
    exists d. autorewrite with canon. split; [| exact Hat].
    eapply list_elem_of_lookup_2. exact (Hexisting e d eq_refl).
  - destruct (createAndRecordDestroy bb pos st) as [st1 | |] eqn:Hcreate;
      simpl; try discriminate.
    intros [= <-].
    destruct (createAndRecordDestroy_placed _ _ _ _ Hwf Hcreate)
      as (Hwf1 & Hle & Hat & Hinsts).
    split; [exact Hwf1 |].
    split; [eapply placedLe_trans;
            [exact Hle | apply incNumDestroysGenerated_placedLe] |].
    exists (mkInst (fnNextInst (func st)) DestroyValueInst
              [(currentDef st, DestroyingConsume)] []).
    autorewrite with canon. rewrite Hinsts, Hat. split; [| reflexivity].
    apply elem_of_app. right. left.
Qed.


End PlacingDestroys.

(** *** Step 2: the traversal *)

Section TraversalOfStepTwo.

Variable host : Host.

Lemma moveDebugValueAfterConsume_placedLe (inst : SILInstruction)
    (st : CanonicalizeOSSALifetime) :
  func (moveDebugValueAfterConsume inst st) = func st
  ∧ placedLe st (moveDebugValueAfterConsume inst st).
Proof.
  unfold moveDebugValueAfterConsume.
  destruct (_ && _ && _).
  - split; [reflexivity |].
    split; [reflexivity |]. split; [reflexivity |]. split; [reflexivity |].
    split; [apply sameCFG_refl |]. split; auto.
  - split; [reflexivity |]. apply placedLe_refl.
Qed.



(** The existing destroy the scan remembers is an instruction of the
    block. *)
Lemma scan_existing_destroy (insts : list SILInstruction) (k : nat)
    (inst : SILInstruction) (existingDestroy : option (nat * SILInstruction))
    (ignored found : bool) :
  insts !! k = Some inst →
  (∀ e d, existingDestroy = Some (e, d) → insts !! e = Some d) →
  ∀ e d,
    (if negb ignored then None
     else match existingDestroy with
          | Some _ => existingDestroy
          | None => if found then Some (k, inst) else None
          end) = Some (e, d) →
    insts !! e = Some d.
Proof.
  intros Hk Hexisting e d. destruct (negb ignored); [discriminate |].
  destruct existingDestroy as [[e0 d0] |]; [apply Hexisting |].
  destruct found; [| discriminate]. intros [= <- <-]. exact Hk.
Qed.



End TraversalOfStepTwo.

(** *** Step 2 needs no more fuel than it is given *)





Section NoFuelInStepTwo.

Variable host : Host.








End NoFuelInStepTwo.

(** *** The worklist of step 2 *)

Section Worklist.

Context {A : Type} `{EqDecision A}.

Lemma worklistGrows_refl (w : GraphNodeWorklist A) : worklistGrows w w.
Proof. split; [| split; [| split; [| split]]]; auto. Qed.

Lemma worklistGrows_trans (w1 w2 w3 : GraphNodeWorklist A) :
  worklistGrows w1 w2 → worklistGrows w2 w3 → worklistGrows w1 w3.
Proof.
  intros (Hv1 & Hq1 & Hnew1 & Hout1 & Hlen1) (Hv2 & Hq2 & Hnew2 & Hout2 & Hlen2).
  split; [| split; [| split; [| split]]].
  - intros y Hy. apply Hv2, Hv1, Hy.
  - intros y Hy. apply Hq2, Hq1, Hy.
  - intros y Hy. destruct (Hnew2 y Hy) as [Hy2 | Hy3]; [| right; exact Hy3].
    destruct (Hnew1 y Hy2) as [Hy1 | Hy2']; [left; exact Hy1 |].
    right. apply Hq2, Hy2'.
  - intros y Hy Hny. apply Hout2; [apply Hv1, Hy | apply Hout1; assumption].
  - lia.
Qed.

Lemma worklistInsert_grows (x : A) (w : GraphNodeWorklist A) :
  worklistInv w →
  worklistInv (worklistInsert x w)
  ∧ worklistGrows w (worklistInsert x w)
  ∧ x ∈ nodeVisited (worklistInsert x w)
  ∧ ∀ y, y ∈ nodeVisited (worklistInsert x w) → y = x ∨ y ∈ nodeVisited w.
Proof.
  intros (Hnv & Hnq & Hsub). unfold worklistInsert.
  destruct (decide (x ∈ nodeVisited w)) as [Hin | Hnin].
  - split; [split; [| split]; assumption |].
    split; [apply worklistGrows_refl |]. split; [exact Hin | auto].
  - cbn [nodeVisited nodeVector].
    assert (x ∉ nodeVector w) as Hnq' by (intros Hx; apply Hnin, Hsub, Hx).
    split; [split; [| split] |].
    + apply NoDup_cons; auto.
    + apply NoDup_cons; auto.
    + intros y Hy. apply elem_of_cons in Hy as [-> | Hy];
        [left | right; apply Hsub, Hy].
    + split; [| split; [left | intros y Hy; apply elem_of_cons, Hy]].
      split; [| split; [| split; [| split]]]; cbn [nodeVisited nodeVector].
      * intros y Hy. right. exact Hy.
      * intros y Hy. right. exact Hy.
      * intros y Hy. apply elem_of_cons in Hy as [-> | Hy];
          [right; left | left; exact Hy].
      * intros y Hy Hny Hy'. apply elem_of_cons in Hy' as [-> | Hy'];
          [apply Hnin, Hy | apply Hny, Hy'].
      * cbn [length]. lia.
Qed.

Lemma worklistInsert_range (xs : list A) :
  ∀ w : GraphNodeWorklist A,
    worklistInv w →
    let w' := foldl (fun w x => worklistInsert x w) w xs in
    worklistInv w' ∧ worklistGrows w w'
    ∧ (∀ x, x ∈ xs → x ∈ nodeVisited w')
    ∧ ∀ y, y ∈ nodeVisited w' → y ∈ nodeVisited w ∨ y ∈ xs.
Proof.
  induction xs as [| x rest IH]; intros w Hw; cbn [foldl].
  - split; [exact Hw |]. split; [apply worklistGrows_refl |].
    split; [intros x Hx; inversion Hx | auto].
  - destruct (worklistInsert_grows x w Hw) as (Hw1 & Hg1 & Hx1 & Hfrom1).
    destruct (IH _ Hw1) as (Hw' & Hg' & Hall & Hfrom).
    split; [exact Hw' |].
    split; [eapply worklistGrows_trans; eassumption |]. split.
    + intros y Hy. apply elem_of_cons in Hy as [-> | Hy]; [| apply Hall, Hy].
      destruct Hg' as (Hv & _). apply Hv, Hx1.
    + intros y Hy. destruct (Hfrom y Hy) as [Hy1 | Hy1].
      * destruct (Hfrom1 y Hy1) as [-> | Hy0]; [right; left | left; exact Hy0].
      * right. right. exact Hy1.
Qed.

Lemma worklistInv_visited_length (w : GraphNodeWorklist A) (univ : list A) :
  worklistInv w → nodeVisited w ⊆ univ →
  length (nodeVisited w) ≤ length univ.
Proof.
  intros (Hnv & _) Hsub. apply submseteq_length, NoDup_submseteq; assumption.
Qed.

End Worklist.

(** *** Step 2: the worklist loop *)

Section LoopOfStepTwo.

Variable host : Host.




End LoopOfStepTwo.

(** *** Step 2: what it leaves behind *)




(** ** The instructions that are not the canonicalizer's *)

Lemma elem_of_fnInsts_mapInsts (f : SILInstruction → SILInstruction)
    (fn : SILFunction) (p : BlockId * SILInstruction) :
  p ∈ fnInsts (mapInsts f fn) ↔ ∃ q, q ∈ fnInsts fn ∧ p = (q.1, f q.2).
Proof.
  rewrite fnInsts_mapInsts, list_elem_of_fmap. split.
  - intros (q & -> & Hq). eauto.
  - intros (q & Hq & ->). eauto.
Qed.

Lemma elem_of_fnInsts_createInst (bb : BlockId) (pos : nat)
    (k : SILInstructionKind) (ops : list (SILValue * OperandOwnership))
    (fn : SILFunction) (p : BlockId * SILInstruction) :
  p ∈ fnInsts (createInst bb pos k ops fn).2 →
  p ∈ fnInsts fn ∨ p.2 = mkInst (fnNextInst fn) k ops [].
Proof.
  destruct p as [b i]. rewrite !elem_of_fnInsts. cbn [createInst snd fnBlocks].
  intros (blk & Hblk & Hid & Hi). unfold mapBlock in Hblk. cbn [fnBlocks] in Hblk.
  apply list_elem_of_fmap in Hblk as (blk0 & -> & Hblk0).
  destruct (decide (bbId blk0 = bb)) as [Hbb | Hbb]; cbn [bbId bbInsts] in *.
  - apply elem_of_app in Hi as [Hi | Hi].
    + left. exists blk0. split; [exact Hblk0 |]. split; [exact Hid |].
      rewrite <- (take_drop pos (bbInsts blk0)). apply elem_of_app. auto.
    + apply elem_of_cons in Hi as [-> | Hi]; [right; reflexivity |].
      left. exists blk0. split; [exact Hblk0 |]. split; [exact Hid |].
      rewrite <- (take_drop pos (bbInsts blk0)). apply elem_of_app. auto.
  - left. exists blk0. auto.
Qed.

Lemma elem_of_fnInsts_forceDelete (i : InstId) (fn : SILFunction)
    (p : BlockId * SILInstruction) :
  p ∈ fnInsts (forceDelete i fn) ↔ p ∈ fnInsts fn ∧ instId p.2 ≠ i.
Proof.
  destruct p as [b x]. rewrite !elem_of_fnInsts. cbn [forceDelete fnBlocks snd].
  split.
  - intros (blk & Hblk & Hid & Hx).
    apply list_elem_of_fmap in Hblk as (blk0 & -> & Hblk0).
    cbn [bbId bbInsts] in *. apply list_elem_of_filter in Hx as [Hne Hx].
    split; [| exact Hne]. exists blk0. auto.
  - intros [(blk & Hblk & Hid & Hx) Hne].
    exists (mkBlock (bbId blk) (filter (fun x => instId x ≠ i) (bbInsts blk))).
    split; [| split; [exact Hid |]].
    + apply list_elem_of_fmap. exists blk. auto.
    + cbn [bbInsts]. apply list_elem_of_filter. auto.
Qed.

Lemma blockSkeleton_app (prune : bool) (l1 l2 : list SILInstruction) :
  blockSkeleton prune (l1 ++ l2)
  = blockSkeleton prune l1 ++ blockSkeleton prune l2.
Proof. unfold blockSkeleton. rewrite filter_app, fmap_app. reflexivity. Qed.

Lemma blockSkeleton_insert (prune : bool) (pos : nat) (new : SILInstruction)
    (l : list SILInstruction) :
  ownedByCanonicalizer prune (instKind new) = true →
  blockSkeleton prune (take pos l ++ new :: drop pos l) = blockSkeleton prune l.
Proof.
  intros Hnew. rewrite <- (take_drop pos l) at 3.
  rewrite !blockSkeleton_app. f_equal. unfold blockSkeleton.
  rewrite filter_cons_False; [reflexivity |]. rewrite Hnew. discriminate.
Qed.

Lemma blockSkeleton_fmap (prune : bool) (f : SILInstruction → SILInstruction)
    (l : list SILInstruction) :
  (∀ i, instShape (f i) = instShape i) →
  blockSkeleton prune (f <$> l) = blockSkeleton prune l.
Proof.
  intros Hf. unfold blockSkeleton.
  induction l as [| x l IH]; [reflexivity |]. rewrite fmap_cons.
  assert (instKind (f x) = instKind x) as Hk
    by (specialize (Hf x); unfold instShape in Hf; congruence).
  destruct (decide (ownedByCanonicalizer prune (instKind x) = false)) as [Hx | Hx].
  - rewrite !filter_cons_True by (rewrite ?Hk; exact Hx).
    rewrite !fmap_cons, Hf, IH. reflexivity.
  - rewrite !filter_cons_False by (rewrite ?Hk; exact Hx). exact IH.
Qed.

Lemma blockSkeleton_delete (prune : bool) (i : InstId)
    (l : list SILInstruction) :
  (∀ x, x ∈ l → instId x = i →
        ownedByCanonicalizer prune (instKind x) = true) →
  blockSkeleton prune (filter (fun x => instId x ≠ i) l) = blockSkeleton prune l.
Proof.
  intros Hdel. unfold blockSkeleton. f_equal.
  induction l as [| x l IH]; [reflexivity |].
  assert (∀ y, y ∈ l → instId y = i →
               ownedByCanonicalizer prune (instKind y) = true) as Hl
    by (intros y Hy; apply Hdel; right; exact Hy).
  destruct (decide (instId x = i)) as [Hx | Hx].
  - rewrite (filter_cons_False (fun x => instId x ≠ i)) by auto.
    rewrite (filter_cons_False _ x l); [apply IH, Hl |].
    rewrite (Hdel x); [discriminate | left | exact Hx].
  - rewrite (filter_cons_True (fun x => instId x ≠ i)) by exact Hx.
    destruct (decide (ownedByCanonicalizer prune (instKind x) = false)).
    + rewrite !filter_cons_True by assumption. f_equal. apply IH, Hl.
    + rewrite !filter_cons_False by assumption. apply IH, Hl.
Qed.

Lemma fnSkeleton_mapInsts (prune : bool) (f : SILInstruction → SILInstruction)
    (fn : SILFunction) :
  (∀ i, instShape (f i) = instShape i) →
  fnSkeleton prune (mapInsts f fn) = fnSkeleton prune fn.
Proof.
  intros Hf. unfold fnSkeleton, mapInsts. cbn [fnBlocks].
  rewrite <- list_fmap_compose. apply list_fmap_ext. intros _ b _. unfold compose. cbn [bbId bbInsts].
  rewrite blockSkeleton_fmap by exact Hf. reflexivity.
Qed.

Lemma fnSkeleton_setOperand (prune : bool) (user : InstId) (idx : nat)
    (v : SILValue) (fn : SILFunction) :
  fnSkeleton prune (setOperand user idx v fn) = fnSkeleton prune fn.
Proof.
  apply fnSkeleton_mapInsts. intros i. destruct (decide _); reflexivity.
Qed.

Lemma fnSkeleton_replaceAllUsesWith (prune : bool) (old new : SILValue)
    (fn : SILFunction) :
  fnSkeleton prune (replaceAllUsesWith old new fn) = fnSkeleton prune fn.
Proof. apply fnSkeleton_mapInsts. reflexivity. Qed.

Lemma fnSkeleton_createInst (prune : bool) (bb : BlockId) (pos : nat)
    (k : SILInstructionKind) (ops : list (SILValue * OperandOwnership))
    (fn : SILFunction) :
  ownedByCanonicalizer prune k = true →
  fnSkeleton prune (createInst bb pos k ops fn).2 = fnSkeleton prune fn.
Proof.
  intros Hk. unfold fnSkeleton, createInst, mapBlock. cbn [fnBlocks snd].
  rewrite <- list_fmap_compose. apply list_fmap_ext. intros _ b _. unfold compose. cbn [bbId bbInsts].
  destruct (decide (bbId b = bb)); [| reflexivity]. cbn [bbId bbInsts].
  rewrite blockSkeleton_insert by exact Hk. reflexivity.
Qed.

Lemma fnSkeleton_forceDelete (prune : bool) (i : InstId) (fn : SILFunction) :
  deletable prune fn i →
  fnSkeleton prune (forceDelete i fn) = fnSkeleton prune fn.
Proof.
  intros Hdel. unfold fnSkeleton, forceDelete. cbn [fnBlocks].
  rewrite <- list_fmap_compose. apply list_fmap_ext. intros n b Hb. unfold compose. cbn [bbId bbInsts].
  rewrite blockSkeleton_delete; [reflexivity |]. intros x Hx Hi.
  apply (Hdel (bbId b, x)); [| exact Hi]. apply elem_of_fnInsts.
  exists b. split; [eapply list_elem_of_lookup_2, Hb | auto].
Qed.

(** *** Instructions scheduled for deletion *)

Lemma deletable_mapInsts (prune : bool) (f : SILInstruction → SILInstruction)
    (fn : SILFunction) (i : InstId) :
  (∀ x, instShape (f x) = instShape x) →
  deletable prune fn i → deletable prune (mapInsts f fn) i.
Proof.
  intros Hf Hdel p Hp Hi. apply elem_of_fnInsts_mapInsts in Hp as (q & Hq & ->).
  cbn [snd] in *. specialize (Hf q.2). unfold instShape in Hf.
  injection Hf as Hid Hk _. rewrite Hk. apply Hdel; [exact Hq | congruence].
Qed.

Lemma deletable_createInst (prune : bool) (bb : BlockId) (pos : nat)
    (k : SILInstructionKind) (ops : list (SILValue * OperandOwnership))
    (fn : SILFunction) (i : InstId) :
  ownedByCanonicalizer prune k = true →
  deletable prune fn i → deletable prune (createInst bb pos k ops fn).2 i.
Proof.
  intros Hk Hdel p Hp Hi.
  apply elem_of_fnInsts_createInst in Hp as [Hp | ->]; [auto | exact Hk].
Qed.

Lemma deletable_forceDelete (prune : bool) (j i : InstId) (fn : SILFunction) :
  deletable prune fn i → deletable prune (forceDelete j fn) i.
Proof.
  intros Hdel p Hp Hi. apply elem_of_fnInsts_forceDelete in Hp as [Hp _]. auto.
Qed.

Lemma fnSkeleton_forceDelete_all (prune : bool) (ids : list InstId) :
  ∀ fn,
    (∀ i, i ∈ ids → deletable prune fn i) →
    fnSkeleton prune (foldl (fun fn i => forceDelete i fn) fn ids)
    = fnSkeleton prune fn
    ∧ ∀ i, deletable prune fn i →
           deletable prune (foldl (fun fn i => forceDelete i fn) fn ids) i.
Proof.
  induction ids as [| j ids IH]; intros fn Hall; cbn [foldl]; [auto |].
  destruct (IH (forceDelete j fn)) as [Hskel Hkeep].
  { intros i Hi. apply deletable_forceDelete, Hall. right. exact Hi. }
  split.
  - rewrite Hskel. apply fnSkeleton_forceDelete, Hall. left.
  - intros i Hi. apply Hkeep, deletable_forceDelete, Hi.
Qed.

(** *** Instructions met by a traversal *)

Lemma knownInst_wf (fn : SILFunction) (p : BlockId * SILInstruction) :
  wfFunction fn → p ∈ fnInsts fn → knownInst fn p.2.
Proof.
  intros Hwf Hp. pose proof Hwf as (_ & _ & Hlt). split.
  - rewrite Forall_forall in Hlt. apply Hlt. unfold instIds.
    apply list_elem_of_fmap. exists p. auto.
  - intros q Hq Hid. rewrite (fnInsts_same_id fn q p Hwf Hq Hp Hid). reflexivity.
Qed.

Lemma knownInst_mapInsts (f : SILInstruction → SILInstruction)
    (fn : SILFunction) (u : SILInstruction) :
  (∀ x, instShape (f x) = instShape x) →
  knownInst fn u → knownInst (mapInsts f fn) u.
Proof.
  intros Hf [Hlt Hkind]. split; [exact Hlt |]. intros p Hp Hi.
  apply elem_of_fnInsts_mapInsts in Hp as (q & Hq & ->). cbn [snd] in *.
  specialize (Hf q.2). unfold instShape in Hf. injection Hf as Hid Hk _.
  rewrite Hk. apply Hkind; [exact Hq | congruence].
Qed.

Lemma knownInst_createInst (bb : BlockId) (pos : nat) (k : SILInstructionKind)
    (ops : list (SILValue * OperandOwnership)) (fn : SILFunction)
    (u : SILInstruction) :
  knownInst fn u → knownInst (createInst bb pos k ops fn).2 u.
Proof.
  intros [Hlt Hkind]. split; [cbn; lia |]. intros p Hp Hi.
  apply elem_of_fnInsts_createInst in Hp as [Hp | Hnew]; [auto |].
  rewrite Hnew in Hi. cbn in Hi. lia.
Qed.

Lemma knownInst_deletable (prune : bool) (fn : SILFunction)
    (u : SILInstruction) :
  knownInst fn u → ownedByCanonicalizer prune (instKind u) = true →
  deletable prune fn (instId u).
Proof. intros [_ Hkind] Hu p Hp Hi. rewrite (Hkind p Hp Hi). exact Hu. Qed.

(** *** Terminators *)

Lemma findBlock_fmap (g : SILBasicBlock → SILBasicBlock) (bb : BlockId)
    (blocks : list SILBasicBlock) :
  (∀ b, bbId (g b) = bbId b) →
  findBlock bb (g <$> blocks) = g <$> findBlock bb blocks.
Proof.
  intros Hg. induction blocks as [| b l IH]; [reflexivity |].
  rewrite fmap_cons. cbn [findBlock]. rewrite Hg.
  destruct (decide (bbId b = bb)); [reflexivity | exact IH].
Qed.

Lemma blockInsts_mapInsts (f : SILInstruction → SILInstruction)
    (fn : SILFunction) (bb : BlockId) :
  blockInsts (mapInsts f fn) bb = f <$> blockInsts fn bb.
Proof.
  unfold blockInsts, getBlock, mapInsts. cbn [fnBlocks].
  rewrite findBlock_fmap by reflexivity.
  destruct (findBlock bb (fnBlocks fn)); reflexivity.
Qed.

Lemma blockInsts_forceDelete (i : InstId) (fn : SILFunction) (bb : BlockId) :
  blockInsts (forceDelete i fn) bb
  = filter (fun x => instId x ≠ i) (blockInsts fn bb).
Proof.
  unfold blockInsts, getBlock, forceDelete. cbn [fnBlocks].
  rewrite findBlock_fmap by reflexivity.
  destruct (findBlock bb (fnBlocks fn)); reflexivity.
Qed.

Lemma terminatorShape_fmap (f : SILInstruction → SILInstruction)
    (l : list SILInstruction) :
  (∀ i, instShape (f i) = instShape i) →
  terminatorShape (f <$> l) = terminatorShape l.
Proof.
  intros Hf. unfold terminatorShape, getTerminator. rewrite fmap_last.
  destruct (last l) as [t |]; [| reflexivity]. cbn [fmap option_fmap option_map].
  assert (instKind (f t) = instKind t) as ->
    by (specialize (Hf t); unfold instShape in Hf; congruence).
  destruct (isTermInst (instKind t)); [| reflexivity].
  cbn [fmap option_fmap option_map]. rewrite Hf. reflexivity.
Qed.

Lemma owned_not_terminator (prune : bool) (k : SILInstructionKind) :
  ownedByCanonicalizer prune k = true → isTermInst k = false.
Proof. destruct k; cbn; congruence. Qed.

Lemma getTerminator_delete (prune : bool) (i : InstId)
    (l : list SILInstruction) :
  (∀ x, x ∈ l → instId x = i →
        ownedByCanonicalizer prune (instKind x) = true) →
  is_Some (getTerminator l) →
  getTerminator (filter (fun x => instId x ≠ i) l) = getTerminator l.
Proof.
  intros Hdel [t Ht]. unfold getTerminator in *.
  destruct (last l) as [t' |] eqn:Hlast; [| discriminate].
  destruct (isTermInst (instKind t')) eqn:Hterm; [| discriminate].
  apply last_Some in Hlast as [l' ->].
  assert (instId t' ≠ i) as Hne.
  { intros Hi. rewrite (owned_not_terminator prune (instKind t')) in Hterm;
      [discriminate |].
    apply Hdel; [apply elem_of_app; right; left | exact Hi]. }
  rewrite filter_app, filter_cons_True, filter_nil by exact Hne.
  rewrite last_snoc, Hterm. reflexivity.
Qed.

Lemma keepsTerminators_refl (fn : SILFunction) : keepsTerminators fn fn.
Proof. intros bb _. reflexivity. Qed.

Lemma keepsTerminators_trans (fn1 fn2 fn3 : SILFunction) :
  keepsTerminators fn1 fn2 → keepsTerminators fn2 fn3 →
  keepsTerminators fn1 fn3.
Proof.
  intros H12 H23 bb Hsome. rewrite <- (H12 bb Hsome). apply H23.
  specialize (H12 bb Hsome). destruct Hsome as [t Ht].
  unfold terminatorShape in H12. rewrite Ht in H12.
  destruct (getTerminator (blockInsts fn2 bb)); [eauto | discriminate].
Qed.

Lemma keepsTerminators_mapInsts (f : SILInstruction → SILInstruction)
    (fn : SILFunction) :
  (∀ i, instShape (f i) = instShape i) →
  keepsTerminators fn (mapInsts f fn).
Proof.
  intros Hf bb _. rewrite blockInsts_mapInsts.
  apply terminatorShape_fmap, Hf.
Qed.

Lemma keepsTerminators_createInst (bb : BlockId) (pos : nat)
    (k : SILInstructionKind) (ops : list (SILValue * OperandOwnership))
    (fn : SILFunction) :
  pos < length (blockInsts fn bb) →
  keepsTerminators fn (createInst bb pos k ops fn).2.
Proof.
  intros Hpos X _. unfold terminatorShape. f_equal.
  destruct (decide (X = bb)) as [-> | HX].
  - rewrite blockInsts_createInst_same
      by (destruct (blockInsts fn bb); cbn in Hpos; [lia | discriminate]).
    apply getTerminator_insert_before, Hpos.
  - rewrite blockInsts_createInst_other by exact HX. reflexivity.
Qed.

Lemma keepsTerminators_forceDelete (prune : bool) (i : InstId)
    (fn : SILFunction) :
  deletable prune fn i → keepsTerminators fn (forceDelete i fn).
Proof.
  intros Hdel bb Hsome. unfold terminatorShape. f_equal.
  rewrite blockInsts_forceDelete.
  apply (getTerminator_delete prune); [| exact Hsome].
  intros x Hx Hi. apply (Hdel (bb, x)); [| exact Hi].
  apply blockInsts_elem_of, Hx.
Qed.

Lemma keepsTerminators_forceDelete_all (prune : bool) (ids : list InstId) :
  ∀ fn,
    (∀ i, i ∈ ids → deletable prune fn i) →
    keepsTerminators fn (foldl (fun fn i => forceDelete i fn) fn ids).
Proof.
  induction ids as [| j ids IH]; intros fn Hall; cbn [foldl];
    [apply keepsTerminators_refl |].
  eapply keepsTerminators_trans;
    [apply (keepsTerminators_forceDelete prune), Hall; left |].
  apply IH. intros i Hi. apply deletable_forceDelete, Hall. right. exact Hi.
Qed.

Lemma keepsTerminators_successors (fn fn' : SILFunction) (bb : BlockId) :
  keepsTerminators fn fn' →
  is_Some (getTerminator (blockInsts fn bb)) →
  getSuccessorBlocks fn' bb = getSuccessorBlocks fn bb.
Proof.
  intros Hkeep Hsome. specialize (Hkeep bb Hsome).
  rewrite !getSuccessorBlocks_terminator. unfold terminatorShape in Hkeep.
  destruct (getTerminator (blockInsts fn' bb)) as [t' |],
           (getTerminator (blockInsts fn bb)) as [t |];
    cbn in Hkeep; try discriminate; [| reflexivity].
  injection Hkeep as _ _ Hsucc. exact Hsucc.
Qed.

(** ** Step 2, one placement at a time *)

(** What every placement of a destroy keeps is kept by the whole of step
    2. *)
Section PlacementsOfStepTwo.

Variable host : Host.
Variable P : CanonicalizeOSSALifetime → Prop.

Hypothesis P_edge :
  ∀ predBB succBB st st',
    P st → findOrInsertDestroyOnCFGEdge host predBB succBB st = Ret st' → P st'.
Hypothesis P_inst :
  ∀ bb pos existingDestroy st st',
    P st →
    (∀ e d, existingDestroy = Some (e, d) →
            blockInsts (func st) bb !! e = Some d) →
    insertDestroyAtInst bb (blockInsts (func st) bb) pos existingDestroy st
    = Ret st' →
    P st'.
Hypothesis P_debug :
  ∀ inst st, P st → P (moveDebugValueAfterConsume inst st).
Hypothesis P_consume :
  ∀ bb inst st c,
    P st → inst ∈ blockInsts (func st) bb →
    recordFinalConsume bb (instId inst) (consumes st) = Ret c →
    P (setConsumes c st).

Lemma findOrInsertDestroysOnSuccessors_keeps (bb : BlockId)
    (succs : list BlockId) :
  ∀ st st',
    P st → findOrInsertDestroysOnSuccessors host bb succs st = Ret st' → P st'.
Proof using All.
  induction succs as [| succ rest IH]; intros st st' HP;
    cbn [findOrInsertDestroysOnSuccessors].
  - intros Hrun. apply Ret_inj in Hrun. subst st'. exact HP.
  - destruct (findOrInsertDestroyOnCFGEdge host bb succ st) as [st1 | |]
      eqn:Hedge; cbn [mbind Outcome_bind]; try discriminate.
    apply IH. eapply P_edge; eassumption.
Qed.

Lemma findOrInsertDestroyInBlockFrom_keeps (bb : BlockId) (k : nat) :
  ∀ existingDestroy st st',
    P st →
    (∀ e d, existingDestroy = Some (e, d) →
            blockInsts (func st) bb !! e = Some d) →
    findOrInsertDestroyInBlockFrom host bb (blockInsts (func st) bb) k
      existingDestroy st = Ret st' →
    P st'.
Proof using All.
  assert (∀ inst st1 st' existing pos,
            P st1 → inst ∈ blockInsts (func st1) bb →
            (∀ e d, existing = Some (e, d) →
                    blockInsts (func st1) bb !! e = Some d) →
            match isInterestingUser (liveness st1) (instId inst) with
            | NonUser => True
            | NonLifetimeEndingUse =>
                (if isTermInst (instKind inst)
                 then findOrInsertDestroysOnSuccessors host bb
                        (from_option instSuccessors []
                           (getTerminator (blockInsts (func st1) bb))) st1
                 else insertDestroyAtInst bb (blockInsts (func st1) bb) pos
                        existing st1) = Ret st' → P st'
            | LifetimeEndingUse =>
                (recordFinalConsume bb (instId inst) (consumes st1)
                 ≫= fun c => Ret (setConsumes c st1)) = Ret st' → P st'
            end) as Hstop.
  { intros inst st1 st' existing pos HP1 Hinst Hexisting.
    destruct (isInterestingUser (liveness st1) (instId inst)); [exact I | |].
    - destruct (isTermInst (instKind inst)); intros Hrun.
      + eapply findOrInsertDestroysOnSuccessors_keeps; eassumption.
      + eapply P_inst; eassumption.
    - destruct (recordFinalConsume bb (instId inst) (consumes st1))
        as [c | |] eqn:Hrec; cbn [mbind Outcome_bind]; try discriminate.
      intros Hrun. apply Ret_inj in Hrun. subst st'.
      eapply P_consume; eassumption. }
  induction k as [| k IH]; intros existing st st' HP Hexisting Hrun.
  - cbn [findOrInsertDestroyInBlockFrom] in Hrun.
    destruct (blockInsts (func st) bb !! 0) as [inst |] eqn:Hk;
      cbn [deref mbind Outcome_bind] in Hrun; [| discriminate].
    destruct (moveDebugValueAfterConsume_placedLe inst st) as (Hf1 & _).
    pose proof (P_debug inst st HP) as HP1.
    set (st1 := moveDebugValueAfterConsume inst st) in *.
    rewrite <- Hf1 in *.
    assert (inst ∈ blockInsts (func st1) bb) as Hinst
      by (eapply list_elem_of_lookup_2; exact Hk).
    pose proof (Hstop inst st1 st' existing 1 HP1 Hinst Hexisting) as Hcase.
    destruct (isInterestingUser (liveness st1) (instId inst));
      [| exact (Hcase Hrun) | exact (Hcase Hrun)].
    destruct (isBlockArgumentOf bb (currentDef st1));
      cbn [assert mbind Outcome_bind] in Hrun; [| discriminate].
    eapply P_inst; [exact HP1 | | exact Hrun].
    eapply scan_existing_destroy; eassumption.
  - cbn [findOrInsertDestroyInBlockFrom] in Hrun.
    destruct (blockInsts (func st) bb !! S k) as [inst |] eqn:Hk;
      cbn [deref mbind Outcome_bind] in Hrun; [| discriminate].
    destruct (moveDebugValueAfterConsume_placedLe inst st) as (Hf1 & _).
    pose proof (P_debug inst st HP) as HP1.
    set (st1 := moveDebugValueAfterConsume inst st) in *.
    rewrite <- Hf1 in *.
    assert (inst ∈ blockInsts (func st1) bb) as Hinst
      by (eapply list_elem_of_lookup_2; exact Hk).
    pose proof (Hstop inst st1 st' existing (S (S k)) HP1 Hinst Hexisting)
      as Hcase.
    destruct (isInterestingUser (liveness st1) (instId inst));
      [| exact (Hcase Hrun) | exact (Hcase Hrun)].
    destruct (blockInsts (func st1) bb !! k) as [prev |];
      cbn [deref mbind Outcome_bind] in Hrun; [| discriminate].
    destruct (bool_decide _);
      [eapply P_inst; [exact HP1 | | exact Hrun]
      | eapply IH; [exact HP1 | | exact Hrun]];
      eapply scan_existing_destroy; eassumption.
Qed.

Lemma findOrInsertDestroyInBlock_keeps (bb : BlockId)
    (st st' : CanonicalizeOSSALifetime) :
  P st → findOrInsertDestroyInBlock host bb st = Ret st' → P st'.
Proof using All.
  intros HP. unfold findOrInsertDestroyInBlock.
  destruct (getTerminator _); [| discriminate].
  cbn [deref mbind Outcome_bind].
  apply findOrInsertDestroyInBlockFrom_keeps; [exact HP |]. intros e d [=].
Qed.

Lemma visitDeadBlockPredecessors_keeps (bb : BlockId) (preds : list BlockId) :
  ∀ st st' wl wl',
    P st → visitDeadBlockPredecessors host bb preds st wl = Ret (st', wl') →
    P st'.
Proof using All.
  induction preds as [| predBB rest IH]; intros st st' wl wl' HP;
    cbn [visitDeadBlockPredecessors].
  - intros Hrun. apply Ret_inj in Hrun. injection Hrun as <- _. exact HP.
  - destruct (decide _); [| apply IH, HP].
    destruct (findOrInsertDestroyOnCFGEdge host predBB bb st) as [st1 | |]
      eqn:Hedge; cbn [mbind Outcome_bind]; try discriminate.
    apply IH. eapply P_edge; eassumption.
Qed.

Lemma findOrInsertDestroysLoop_keeps (fuel : nat) :
  ∀ st st' wl wl',
    P st → findOrInsertDestroysLoop host fuel st wl = Ret (st', wl') → P st'.
Proof using All.
  induction fuel as [| fuel IH]; intros st st' wl wl' HP;
    cbn [findOrInsertDestroysLoop];
    (destruct (worklistPop wl) as [[bb wl1] |];
     [| intros Hrun; apply Ret_inj in Hrun; injection Hrun as <- _; exact HP]);
    [discriminate |].
  destruct (getBlockLiveness (liveness st) bb).
  - destruct (visitDeadBlockPredecessors host bb _ st wl1)
      as [[st1 wl2] | |] eqn:Hvisit; cbn [mbind Outcome_bind];
      try discriminate.
    apply IH. eapply visitDeadBlockPredecessors_keeps; eassumption.
  - destruct (findOrInsertDestroyInBlock host bb st) as [st1 | |] eqn:Hscan;
      cbn [mbind Outcome_bind]; try discriminate.
    apply IH. eapply findOrInsertDestroyInBlock_keeps; eassumption.
  - apply IH, HP.
Qed.

Lemma findOrInsertDestroys_keeps (st st' : CanonicalizeOSSALifetime)
    (wl : GraphNodeWorklist BlockId) :
  P st → findOrInsertDestroys host st = Ret (st', wl) → P st'.
Proof using All. intros HP. apply findOrInsertDestroysLoop_keeps, HP. Qed.

End PlacementsOfStepTwo.

(** ** What step 2 keeps *)

Ltac state_simpl :=
  cbn [setConsumes setFunc setDebugValues setStatistics setLiveness
       setDestroys setConsumingBlocks recordDebugValue recordConsumingUse
       livenessUpdateForUse
       incNumDestroysGenerated incNumCopiesGenerated incNumCopiesEliminated
       incNumDestroysEliminated setCanon rwCanon instsToDelete defUseWorklist
       pruneDebugMode func currentDef liveness consumingBlocks destroys
       debugValues consumes statistics NumCopiesEliminated NumCopiesGenerated
       NumDestroysEliminated NumDestroysGenerated finalBlockConsumes
       debugAfterConsume] in *.

Lemma blockInsts_lt_next (fn : SILFunction) (bb : BlockId)
    (i : SILInstruction) :
  wfFunction fn → i ∈ blockInsts fn bb → instId i < fnNextInst fn.
Proof.
  intros (_ & _ & Hlt) Hi. rewrite Forall_forall in Hlt. apply Hlt.
  unfold instIds. apply list_elem_of_fmap. exists (bb, i).
  split; [reflexivity |]. apply blockInsts_elem_of, Hi.
Qed.

Lemma filter_all {A} (Q : A → Prop) `{∀ x, Decision (Q x)} (l : list A) :
  (∀ x, x ∈ l → Q x) → filter Q l = l.
Proof.
  induction l as [| x l IH]; intros Hall; [reflexivity |].
  rewrite filter_cons_True by (apply Hall; left).
  f_equal. apply IH. intros y Hy. apply Hall. right. exact Hy.
Qed.

Lemma destroysAdded_refl (def : SILValue) (fn : SILFunction) :
  wfFunction fn → destroysAdded def fn fn.
Proof.
  intros Hwf. split; [reflexivity |]. split; [reflexivity |]. split.
  - intros bb. apply filter_all. intros i Hi.
    eapply blockInsts_lt_next; eassumption.
  - intros bb i Hi Hge. pose proof (blockInsts_lt_next fn bb i Hwf Hi). lia.
Qed.

Lemma destroysAdded_createInst (def : SILValue) (fn0 fn : SILFunction)
    (bb : BlockId) (pos : nat) :
  blockInsts fn bb ≠ [] →
  destroysAdded def fn0 fn →
  destroysAdded def fn0
    (createInst bb pos DestroyValueInst [(def, DestroyingConsume)] fn).2.
Proof.
  intros Hne (Hids & Hnext & Hold & Hnew).
  pose proof (blockInsts_createInst_same bb pos DestroyValueInst
                [(def, DestroyingConsume)] fn Hne) as Hsame.
  pose proof (fun X => blockInsts_createInst_other bb X pos DestroyValueInst
                         [(def, DestroyingConsume)] fn) as Hother.
  split; [| split; [| split]].
  - rewrite <- Hids. cbn [createInst snd fnBlocks]. apply bbIds_mapBlock.
  - cbn [createInst snd fnNextInst]. lia.
  - intros X. destruct (decide (X = bb)) as [-> | HX].
    + rewrite Hsame, filter_app, filter_cons_False by (cbn [instId]; lia).
      rewrite <- filter_app, take_drop. apply Hold.
    + rewrite Hother by exact HX. apply Hold.
  - intros X i Hi Hge. cbn [createInst snd fnNextInst].
    assert (i ∈ blockInsts fn X
            ∨ i = mkInst (fnNextInst fn) DestroyValueInst
                    [(def, DestroyingConsume)] []) as [Hi0 | ->].
    { destruct (decide (X = bb)) as [-> | HX].
      - rewrite Hsame in Hi. apply elem_of_app in Hi as [Hi | Hi].
        + left. rewrite <- (take_drop pos (blockInsts fn bb)).
          apply elem_of_app. auto.
        + apply elem_of_cons in Hi as [-> | Hi]; [right; reflexivity |].
          left. rewrite <- (take_drop pos (blockInsts fn bb)).
          apply elem_of_app. auto.
      - rewrite Hother in Hi by exact HX. auto. }
    + destruct (Hnew X i Hi0 Hge) as [Hform Hlt]. split; [exact Hform | lia].
    + cbn [instId]. split; [reflexivity | lia].
Qed.

Section FrameOfStepTwo.

Variable host : Host.
Variable st0 : CanonicalizeOSSALifetime.

Lemma stepTwoFrame_refl : wfFunction (func st0) → stepTwoFrame st0 st0.
Proof.
  intros Hwf. constructor; auto; try lia. apply destroysAdded_refl, Hwf.
Qed.

Lemma stepTwoFrame_setConsumes (st : CanonicalizeOSSALifetime)
    (c : CanonicalOSSAConsumeInfo) :
  (∀ d, d ∈ debugAfterConsume c → d ∈ debugAfterConsume (consumes st)) →
  stepTwoFrame st0 st → stepTwoFrame st0 (setConsumes c st).
Proof.
  intros Hc []. constructor; state_simpl; auto.
Qed.

Lemma stepTwoFrame_record (bb : BlockId) (i : InstId)
    (st : CanonicalizeOSSALifetime) (c0 c : CanonicalOSSAConsumeInfo) :
  (∀ d, d ∈ debugAfterConsume c0 → d ∈ debugAfterConsume (consumes st)) →
  recordFinalConsume bb i c0 = Ret c →
  stepTwoFrame st0 st → stepTwoFrame st0 (setConsumes c st).
Proof.
  intros Hc0 Hrec. apply stepTwoFrame_setConsumes.
  unfold recordFinalConsume in Hrec.
  destruct (finalBlockConsumes c0 !! bb); [discriminate |].
  apply Ret_inj in Hrec. subst c. exact Hc0.
Qed.

Lemma stepTwoFrame_inc (st : CanonicalizeOSSALifetime) :
  stepTwoFrame st0 st → stepTwoFrame st0 (incNumDestroysGenerated st).
Proof.
  intros []. constructor; state_simpl; auto. lia.
Qed.

Lemma stepTwoFrame_create (bb : BlockId) (pos : nat)
    (st st' : CanonicalizeOSSALifetime) :
  stepTwoFrame st0 st →
  createAndRecordDestroy bb pos st = Ret st' →
  stepTwoFrame st0 (incNumDestroysGenerated st').
Proof.
  intros HP Hrun. unfold createAndRecordDestroy in Hrun.
  destruct (blockInsts (func st) bb !! pos) as [at_pos |] eqn:Hpos;
    cbn [deref mbind Outcome_bind] in Hrun; [| discriminate].
  assert (blockInsts (func st) bb ≠ []) as Hne
    by (intros Hnil; rewrite Hnil in Hpos; discriminate).
  destruct (recordFinalConsume bb _ (consumes st)) as [c | |] eqn:Hrec;
    cbn [mbind Outcome_bind] in Hrun; try discriminate.
  apply Ret_inj in Hrun. subst st'.
  pose proof (stepTwoFrame_record bb _ st (consumes st) c (fun d H => H) Hrec HP)
    as []. destruct HP as [Hwf Hfunc Hskel Hterm Hkept Hdef ? ? ? ? ? ? ? ? ? Hgen].
  constructor; state_simpl; auto.
  - apply wfFunction_createInst, Hwf.
  - rewrite Hdef. apply destroysAdded_createInst; assumption.
  - intros prune. rewrite fnSkeleton_createInst by reflexivity. apply Hskel.
  - intros X. rewrite <- Hterm. apply lookup_lt_Some in Hpos.
    apply createInst_sameCFG; assumption.
  - intros prune d Hd. apply deletable_createInst;
      [destruct prune; reflexivity | auto].
  - cbn [createInst snd fnNextInst]. lia.
Qed.

Lemma stepTwoFrame_edge (predBB succBB : BlockId)
    (st st' : CanonicalizeOSSALifetime) :
  stepTwoFrame st0 st →
  findOrInsertDestroyOnCFGEdge host predBB succBB st = Ret st' →
  stepTwoFrame st0 st'.
Proof.
  intros HP. unfold findOrInsertDestroyOnCFGEdge.
  destruct (bool_decide _); cbn [assert mbind Outcome_bind]; [| discriminate].
  destruct (findDestroyOnCFGEdge host _ _).
  - destruct (recordFinalConsume succBB _ (consumes st)) as [c | |] eqn:Hrec;
      cbn [mbind Outcome_bind]; try discriminate.
    intros Hrun. apply Ret_inj in Hrun. subst st'.
    apply stepTwoFrame_inc.
    eapply stepTwoFrame_record; [| exact Hrec | exact HP]. auto.
  - destruct (createAndRecordDestroy succBB 0 st) as [st1 | |] eqn:Hcreate;
      cbn [mbind Outcome_bind]; try discriminate.
    intros Hrun. apply Ret_inj in Hrun. subst st'.
    eapply stepTwoFrame_create; eassumption.
Qed.

Lemma popDebugValuesBetween_subset (insts : list SILInstruction)
    (pos e : nat) (c : CanonicalOSSAConsumeInfo) (d : InstId) :
  d ∈ debugAfterConsume (popDebugValuesBetween insts pos e c) →
  d ∈ debugAfterConsume c.
Proof.
  unfold popDebugValuesBetween.
  generalize (take (e - pos) (drop pos insts)). intros l. revert c.
  induction l as [| x l IH]; intros c; cbn [foldl]; [auto |].
  intros Hd. apply IH in Hd. destruct (isa DebugValueInst x); [| exact Hd].
  unfold popDebugAfterConsume in Hd.
  destruct (last (debugAfterConsume c)); [| exact Hd].
  destruct (decide _); [| exact Hd]. cbn [debugAfterConsume] in Hd.
  apply elem_of_take in Hd as (j & Hj & _).
  eapply list_elem_of_lookup_2, Hj.
Qed.

Lemma stepTwoFrame_inst (bb : BlockId) (insts : list SILInstruction)
    (pos : nat) (existingDestroy : option (nat * SILInstruction))
    (st st' : CanonicalizeOSSALifetime) :
  stepTwoFrame st0 st →
  insertDestroyAtInst bb insts pos existingDestroy st = Ret st' →
  stepTwoFrame st0 st'.
Proof.
  intros HP. unfold insertDestroyAtInst.
  destruct existingDestroy as [[e d] |].
  - destruct (bool_decide _); cbn [assert mbind Outcome_bind];
      [| discriminate].
    destruct (recordFinalConsume bb _ _) as [c | |] eqn:Hrec;
      cbn [mbind Outcome_bind]; try discriminate.
    intros Hrun. apply Ret_inj in Hrun. subst st'.
    eapply stepTwoFrame_record; [| exact Hrec | exact HP].
    intros x. apply popDebugValuesBetween_subset.
  - destruct (createAndRecordDestroy bb pos st) as [st1 | |] eqn:Hcreate;
      cbn [mbind Outcome_bind]; try discriminate.
    intros Hrun. apply Ret_inj in Hrun. subst st'.
    eapply stepTwoFrame_create; eassumption.
Qed.

Lemma stepTwoFrame_debug (inst : SILInstruction)
    (st : CanonicalizeOSSALifetime) :
  stepTwoFrame st0 st → stepTwoFrame st0 (moveDebugValueAfterConsume inst st).
Proof.
  intros HP. unfold moveDebugValueAfterConsume.
  destruct (pruneDebugMode st && isa DebugValueInst inst
            && bool_decide (instId inst ∈ debugValues st)) eqn:Hmove;
    [| exact HP].
  apply andb_prop in Hmove as [_ Hin]. apply bool_decide_eq_true in Hin.
  destruct HP as [? ? ? ? ? ? ? ? ? ? Hdbg Hafter ? ? ? ?].
  constructor; state_simpl; auto.
  - intros d Hd. apply list_elem_of_filter in Hd as [_ Hd]. auto.
  - unfold recordDebugAfterConsume, setInsert. cbn [debugAfterConsume].
    intros d Hd. destruct (decide _); [auto |].
    apply elem_of_app in Hd as [Hd | Hd]; [auto |].
    apply list_elem_of_singleton in Hd. subst d. right. auto.
Qed.

Lemma findOrInsertDestroys_frame (st st' : CanonicalizeOSSALifetime)
    (wl : GraphNodeWorklist BlockId) :
  stepTwoFrame st0 st →
  findOrInsertDestroys host st = Ret (st', wl) →
  stepTwoFrame st0 st'.
Proof.
  apply (findOrInsertDestroys_keeps host (stepTwoFrame st0)).
  - intros. eapply stepTwoFrame_edge; eassumption.
  - intros ? ? ? ? ? HP _ Hrun. eapply stepTwoFrame_inst; eassumption.
  - intros. apply stepTwoFrame_debug. assumption.
  - intros ? ? ? ? HP _ Hrec.
    eapply stepTwoFrame_record; [| exact Hrec | exact HP]. auto.
Qed.

End FrameOfStepTwo.

(** ** What step 3 keeps *)

Lemma instIndex_lt (i : InstId) (insts : list SILInstruction) (pos : nat) :
  instIndex i insts = Some pos → pos < length insts.
Proof.
  revert pos. induction insts as [| x l IH]; intros pos; cbn [instIndex];
    [discriminate |].
  destruct (decide (instId x = i)).
  - intros [= <-]. cbn. lia.
  - destruct (instIndex i l) as [m |]; cbn; [| discriminate].
    intros [= <-]. specialize (IH m eq_refl). lia.
Qed.

Lemma deletable_weaken (prune : bool) (fn : SILFunction) (i : InstId) :
  deletable false fn i → deletable prune fn i.
Proof.
  intros Hdel p Hp Hi. specialize (Hdel p Hp Hi).
  destruct (instKind p.2); cbn in *; congruence.
Qed.

Lemma instShape_setOperand (user : InstId) (idx : nat) (v : SILValue)
    (x : SILInstruction) :
  instShape
    (if decide (instId x = user)
     then mkInst (instId x) (instKind x)
            (alter (fun p => (v, p.2)) idx (instOperands x))
            (instSuccessors x)
     else x) = instShape x.
Proof. destruct (decide _); reflexivity. Qed.

Lemma copiesAdded_refl (fn : SILFunction) :
  wfFunction fn → copiesAdded fn fn.
Proof.
  intros (_ & _ & Hlt) p Hp. right. split; [| eauto].
  rewrite Forall_forall in Hlt. apply Hlt. unfold instIds.
  apply list_elem_of_fmap. eauto.
Qed.

Lemma copiesAdded_mapInsts (f : SILInstruction → SILInstruction)
    (fn0 fn : SILFunction) :
  (∀ x, instShape (f x) = instShape x) →
  copiesAdded fn0 fn → copiesAdded fn0 (mapInsts f fn).
Proof.
  intros Hf Hadd p Hp. apply elem_of_fnInsts_mapInsts in Hp as (q & Hq & ->).
  cbn [fst snd]. pose proof (Hf q.2) as Hshape. unfold instShape in Hshape.
  injection Hshape as Hid Hk Hs. cbn [mapInsts fnNextInst].
  rewrite Hid, Hk. destruct (Hadd q Hq) as [Hnew | (Hold & q0 & ? & ? & Hq0)];
    [left; exact Hnew |].
  right. split; [exact Hold |]. exists q0. rewrite Hf. auto.
Qed.

Lemma copiesAdded_createInst (bb : BlockId) (pos : nat)
    (ops : list (SILValue * OperandOwnership)) (fn0 fn : SILFunction) :
  fnNextInst fn0 ≤ fnNextInst fn →
  copiesAdded fn0 fn →
  copiesAdded fn0 (createInst bb pos CopyValueInst ops fn).2.
Proof.
  intros Hnext Hadd p Hp. cbn [createInst snd fnNextInst].
  apply elem_of_fnInsts_createInst in Hp as [Hp | ->].
  - destruct (Hadd p Hp) as [[Hnew Hk] | Hold]; [left | right; exact Hold].
    split; [lia | exact Hk].
  - left. cbn [instId instKind]. split; [lia | reflexivity].
Qed.

Lemma copiesAdded_forceDelete_all (fn0 : SILFunction) (ids : list InstId) :
  ∀ fn,
    copiesAdded fn0 fn →
    copiesAdded fn0 (foldl (fun fn i => forceDelete i fn) fn ids).
Proof.
  induction ids as [| j ids IH]; intros fn Hadd; cbn [foldl]; [exact Hadd |].
  apply IH. intros p Hp. apply elem_of_fnInsts_forceDelete in Hp as [Hp _].
  exact (Hadd p Hp).
Qed.

Section FrameOfStepThree.

Variable host : Host.
Variable st0 : CanonicalizeOSSALifetime.

Lemma stepThreeFrame_start :
  wfFunction (func st0) →
  stepThreeFrame st0 (mkRewrite st0 [] (mkWorklist [] [])).
Proof.
  intros Hwf. constructor; state_simpl; auto.
  - apply keepsTerminators_refl.
  - apply copiesAdded_refl, Hwf.
  - intros i Hi. inversion Hi.
Qed.

Lemma stepThreeFrame_worklist (rw : RewriteState)
    (wl : GraphNodeWorklist SILValue) :
  stepThreeFrame st0 rw →
  stepThreeFrame st0 (mkRewrite (rwCanon rw) (instsToDelete rw) wl).
Proof. intros []. constructor; state_simpl; auto. Qed.

Lemma visitUse_frame (use : Operand) (rw : RewriteState) :
  knownInst (func (rwCanon rw)) (opUser use) →
  stepThreeFrame st0 rw → stepThreeFrame st0 (visitUse host use rw).2.
Proof.
  intros Hknown HP. unfold visitUse.
  destruct (isa CopyValueInst (opUser use));
    [apply stepThreeFrame_worklist, HP |].
  destruct (isa DestroyValueInst (opUser use)) eqn:Hdestroy.
  - unfold claimConsume. destruct (decide _); cbn [fst snd].
    + destruct HP. constructor; state_simpl; auto.
    + destruct HP as [? ? ? ? ? Hdel ? ? ? ? ? ? ? ?].
      constructor; state_simpl; auto.
      intros i Hi. unfold setInsert in Hi.
      destruct (decide _); [auto |].
      apply elem_of_app in Hi as [Hi | Hi]; [auto |].
      apply list_elem_of_singleton in Hi. subst i.
      apply knownInst_deletable; [exact Hknown |].
      apply bool_decide_eq_true in Hdestroy. rewrite Hdestroy. reflexivity.
  - destruct (negb (isLifetimeEnding host use)); [exact HP |].
    unfold claimConsume. destruct (decide _); cbn [fst snd]; [| exact HP].
    destruct HP. constructor; state_simpl; auto.
Qed.

Lemma copyLiveUse_frame (use : Operand) (rw : RewriteState)
    (st' : CanonicalizeOSSALifetime) :
  stepThreeFrame st0 rw →
  copyLiveUse use (rwCanon rw) = Ret st' →
  stepThreeFrame st0 (setCanon st' rw)
  ∧ ∀ u, knownInst (func (rwCanon rw)) u → knownInst (func st') u.
Proof.
  intros HP. unfold copyLiveUse.
  destruct (instIndex _ _) as [pos |] eqn:Hpos;
    cbn [deref mbind Outcome_bind]; [| discriminate].
  destruct (operandValue _ use) as [v |];
    cbn [deref mbind Outcome_bind]; [| discriminate].
  intros Hrun. apply Ret_inj in Hrun. subst st'.
  apply instIndex_lt in Hpos.
  destruct HP as [Hwf Hskel Hterm Hnext Hadd Hdel Hkept ? ? ? ? ? Hgen ?].
  split.
  - constructor; state_simpl; auto.
    + apply wfFunction_setOperand, wfFunction_createInst, Hwf.
    + intros prune. rewrite fnSkeleton_setOperand.
      rewrite fnSkeleton_createInst by reflexivity. apply Hskel.
    + eapply keepsTerminators_trans; [exact Hterm |].
      eapply keepsTerminators_trans;
        [apply keepsTerminators_createInst, Hpos |].
      apply keepsTerminators_mapInsts, instShape_setOperand.
    + unfold setOperand, mapInsts. cbn [createInst snd fnNextInst]. lia.
    + apply copiesAdded_mapInsts; [apply instShape_setOperand |].
      apply copiesAdded_createInst; assumption.
    + intros i Hi. apply deletable_mapInsts; [apply instShape_setOperand |].
      apply deletable_createInst; [reflexivity | auto].
    + intros prune d Hd. apply deletable_mapInsts;
        [apply instShape_setOperand |].
      apply deletable_createInst; [destruct prune; reflexivity | auto].
    + unfold setOperand, mapInsts. cbn [createInst snd fnNextInst]. lia.
  - intros u Hu. state_simpl.
    apply knownInst_mapInsts; [apply instShape_setOperand |].
    apply knownInst_createInst, Hu.
Qed.

Lemma rewriteDefUses_frame (uses : list Operand) :
  ∀ rw rw',
    (∀ u, u ∈ uses → knownInst (func (rwCanon rw)) (opUser u)) →
    stepThreeFrame st0 rw →
    rewriteDefUses host uses rw = Ret rw' →
    stepThreeFrame st0 rw'.
Proof.
  induction uses as [| use rest IH]; intros rw rw' Hknown HP;
    cbn [rewriteDefUses].
  - intros Hrun. apply Ret_inj in Hrun. subst rw'. exact HP.
  - unfold rewriteDefUse.
    pose proof (visitUse_frame use rw (Hknown use ltac:(left)) HP) as HP1.
    pose proof (visitUse_func host use rw) as Hf1.
    destruct (visitUse host use rw) as [ok rw1]. cbn [fst snd] in *.
    destruct ok; cbn [mbind Outcome_bind].
    + apply IH; [| exact HP1]. intros u Hu. rewrite Hf1. apply Hknown.
      right. exact Hu.
    + destruct (copyLiveUse use (rwCanon rw1)) as [st1 | |] eqn:Hcopy;
        cbn [mbind Outcome_bind]; try discriminate.
      destruct (copyLiveUse_frame use rw1 st1 HP1 Hcopy) as [HP2 Hkeep].
      apply IH; [| exact HP2]. intros u Hu. state_simpl. apply Hkeep.
      rewrite Hf1. apply Hknown. right. exact Hu.
Qed.

Lemma rewriteCopyUses_frame (srcBB : BlockId) (uses : list Operand) :
  ∀ rw reused rw' reused',
    (∀ u, u ∈ uses → knownInst (func (rwCanon rw)) (opUser u)) →
    stepThreeFrame st0 rw →
    rewriteCopyUses host srcBB uses rw reused = Ret (rw', reused') →
    stepThreeFrame st0 rw'
    ∧ ∀ u, knownInst (func (rwCanon rw)) u → knownInst (func (rwCanon rw')) u.
Proof.
  induction uses as [| use rest IH]; intros rw reused rw' reused' Hknown HP;
    cbn [rewriteCopyUses].
  - intros Hrun. apply Ret_inj in Hrun. injection Hrun as <- _. auto.
  - unfold rewriteCopyUse.
    pose proof (visitUse_frame use rw (Hknown use ltac:(left)) HP) as HP1.
    pose proof (visitUse_func host use rw) as Hf1.
    destruct (visitUse host use rw) as [ok rw1]. cbn [fst snd] in *.
    assert (∀ u, u ∈ rest → knownInst (func (rwCanon rw1)) (opUser u))
      as Hknown1 by (intros u Hu; rewrite Hf1; apply Hknown; right; exact Hu).
    assert (∀ rw2 reused2,
              stepThreeFrame st0 rw2 →
              (∀ u, knownInst (func (rwCanon rw1)) u →
                    knownInst (func (rwCanon rw2)) u) →
              rewriteCopyUses host srcBB rest rw2 reused2 = Ret (rw', reused') →
              stepThreeFrame st0 rw'
              ∧ ∀ u, knownInst (func (rwCanon rw)) u →
                     knownInst (func (rwCanon rw')) u) as Hrest.
    { intros rw2 reused2 HP2 Hkeep Hrun.
      destruct (IH rw2 reused2 rw' reused') as [HP' Hkeep']; auto.
      split; [exact HP' |]. intros u Hu. apply Hkeep', Hkeep.
      rewrite Hf1. exact Hu. }
    assert (∀ reused2,
              (st' ← copyLiveUse use (rwCanon rw1);
               Ret (setCanon st' rw1, reused2))
              ≫= (fun '(rw2, reused3) =>
                    rewriteCopyUses host srcBB rest rw2 reused3)
              = Ret (rw', reused') →
              stepThreeFrame st0 rw'
              ∧ ∀ u, knownInst (func (rwCanon rw)) u →
                     knownInst (func (rwCanon rw')) u) as Hcopied.
    { intros reused2.
      destruct (copyLiveUse use (rwCanon rw1)) as [st1 | |] eqn:Hcopy;
        cbn [mbind Outcome_bind]; try discriminate.
      destruct (copyLiveUse_frame use rw1 st1 HP1 Hcopy) as [HP2 Hkeep].
      apply Hrest; [exact HP2 | exact Hkeep]. }
    destruct ok; cbn [mbind Outcome_bind].
    + apply Hrest; auto.
    + destruct reused as [r |]; [apply Hcopied |].
      destruct (decide (srcBB = opParentBlock use));
        [cbn [mbind Outcome_bind]; apply Hrest; auto | apply Hcopied].
Qed.


Lemma finishCopy_frame (srcCopy : InstId) (reused : option Operand)
    (rw rw' : RewriteState) :
  deletable false (func (rwCanon rw)) srcCopy →
  stepThreeFrame st0 rw →
  finishCopy srcCopy reused rw = Ret rw' →
  stepThreeFrame st0 rw'.
Proof.
  intros Hsrc HP. unfold finishCopy.
  destruct (bool_decide (is_Some reused) && hasOneUse _ _).
  { intros Hrun. apply Ret_inj in Hrun. subst rw'. exact HP. }
  destruct (findInst _ srcCopy) as [src |];
    cbn [deref mbind Outcome_bind]; [| discriminate].
  destruct (getOperand src.2) as [operand |];
    cbn [deref mbind Outcome_bind]; [| discriminate].
  destruct HP as [Hwf Hskel Hterm Hnext Hadd Hdel Hkept ? ? ? ? ? Hgen ?].
  assert (∀ x, instShape
                 (mkInst (instId x) (instKind x)
                    ((fun p => if decide (p.1 = InstResult srcCopy)
                               then (operand, p.2) else p)
                       <$> instOperands x) (instSuccessors x))
               = instShape x) as Hshape by reflexivity.
  destruct reused as [use |]; [| destruct (decide (srcCopy ∈ instsToDelete rw))];
    intros Hrun; apply Ret_inj in Hrun; subst rw';
    constructor; state_simpl; auto.
  - apply wfFunction_setOperand, wfFunction_replaceAllUsesWith, Hwf.
  - intros prune. rewrite fnSkeleton_setOperand, fnSkeleton_replaceAllUsesWith.
    apply Hskel.
  - eapply keepsTerminators_trans; [exact Hterm |].
    eapply keepsTerminators_trans;
      [apply keepsTerminators_mapInsts, Hshape |].
    apply keepsTerminators_mapInsts, instShape_setOperand.
  - apply copiesAdded_mapInsts; [apply instShape_setOperand |].
    apply copiesAdded_mapInsts; [exact Hshape | exact Hadd].
  - intros i Hi. apply deletable_mapInsts; [apply instShape_setOperand |].
    apply deletable_mapInsts; [exact Hshape | auto].
  - intros prune d Hd. apply deletable_mapInsts;
      [apply instShape_setOperand |].
    apply deletable_mapInsts; [exact Hshape | auto].
  - apply wfFunction_replaceAllUsesWith, Hwf.
  - intros prune. rewrite fnSkeleton_replaceAllUsesWith. apply Hskel.
  - eapply keepsTerminators_trans; [exact Hterm |].
    apply keepsTerminators_mapInsts, Hshape.
  - apply copiesAdded_mapInsts; [exact Hshape | exact Hadd].
  - intros i Hi. apply deletable_mapInsts; [exact Hshape | auto].
  - intros prune d Hd. apply deletable_mapInsts; [exact Hshape | auto].
  - apply wfFunction_replaceAllUsesWith, Hwf.
  - intros prune. rewrite fnSkeleton_replaceAllUsesWith. apply Hskel.
  - eapply keepsTerminators_trans; [exact Hterm |].
    apply keepsTerminators_mapInsts, Hshape.
  - apply copiesAdded_mapInsts; [exact Hshape | exact Hadd].
  - intros i Hi. apply deletable_mapInsts; [exact Hshape |].
    apply elem_of_app in Hi as [Hi | Hi]; [auto |].
    apply list_elem_of_singleton in Hi. subst i. exact Hsrc.
  - intros prune d Hd. apply deletable_mapInsts; [exact Hshape | auto].
Qed.

Lemma getUses_knownInst (fn : SILFunction) (v : SILValue) (u : Operand) :
  wfFunction fn → u ∈ getUses fn v → knownInst fn (opUser u).
Proof.
  intros Hwf Hu. apply elem_of_getUses in Hu as (bb & inst & idx & own & Hin & _ & ->).
  apply (knownInst_wf fn (bb, inst) Hwf Hin).
Qed.

Lemma rewriteCopy_frame (value : SILValue) (rw rw' : RewriteState) :
  stepThreeFrame st0 rw →
  rewriteCopy host value rw = Ret rw' →
  stepThreeFrame st0 rw'.
Proof.
  intros HP. unfold rewriteCopy. destruct value as [srcCopy |]; [| discriminate].
  destruct (findInst _ srcCopy) as [src |] eqn:Hsrc;
    cbn [deref mbind Outcome_bind]; [| discriminate].
  destruct (isa CopyValueInst src.2) eqn:Hcopy;
    cbn [assert mbind Outcome_bind]; [| discriminate].
  destruct (rewriteCopyUses host src.1 _ rw None) as [[rw1 reused] | |]
    eqn:Huses; cbn [mbind Outcome_bind]; try discriminate.
  pose proof (rewrite_wf _ _ HP) as Hwf.
  destruct (rewriteCopyUses_frame src.1
              (getUses (func (rwCanon rw)) (InstResult srcCopy))
              rw None rw1 reused) as [HP1 Hkeep];
    [| exact HP | exact Huses |].
  { intros u Hu. eapply getUses_knownInst; eassumption. }
  apply finishCopy_frame; [| exact HP1].
  apply findInst_Some in Hsrc as [Hin Hid]. rewrite <- Hid.
  apply knownInst_deletable; [apply Hkeep, knownInst_wf; assumption |].
  apply bool_decide_eq_true in Hcopy. rewrite Hcopy. reflexivity.
Qed.

Lemma rewriteCopiesLoop_frame (fuel : nat) :
  ∀ rw rw',
    stepThreeFrame st0 rw →
    rewriteCopiesLoop host fuel rw = Ret rw' →
    stepThreeFrame st0 rw'.
Proof.
  induction fuel as [| fuel IH]; intros rw rw' HP; cbn [rewriteCopiesLoop];
    (destruct (worklistPop (defUseWorklist rw)) as [[value wl] |];
     [| intros Hrun; apply Ret_inj in Hrun; subst rw'; exact HP]);
    [discriminate |].
  destruct (rewriteCopy host value _) as [rw1 | |] eqn:Hcopy;
    cbn [mbind Outcome_bind]; try discriminate.
  apply IH. eapply rewriteCopy_frame; [| exact Hcopy].
  apply stepThreeFrame_worklist, HP.
Qed.

End FrameOfStepThree.

(** ** What step 1 records *)

Lemma elem_of_setInsert {A} `{EqDecision A} (x y : A) (l : list A) :
  x ∈ setInsert y l ↔ x = y ∨ x ∈ l.
Proof.
  unfold setInsert. destruct (decide (y ∈ l)) as [Hy | Hy].
  - split; [auto |]. intros [-> | Hx]; assumption.
  - rewrite elem_of_app, list_elem_of_singleton. tauto.
Qed.

Section RecordsOfStepOne.

Variable host : Host.
Variable st0 : CanonicalizeOSSALifetime.

Lemma stepOneRecords_refl : stepOneRecords st0 st0.
Proof. constructor; auto. Qed.

Lemma stepOneRecords_liveness (st : CanonicalizeOSSALifetime)
    (l : PrunedLiveness) :
  stepOneRecords st0 st → stepOneRecords st0 (setLiveness l st).
Proof. intros []. constructor; state_simpl; auto. Qed.

Lemma stepOneRecords_consuming (use : Operand) (bb : BlockId)
    (inst : SILInstruction) (idx : nat) (v : SILValue)
    (st : CanonicalizeOSSALifetime) :
  (bb, inst) ∈ fnInsts (func st) →
  instOperands inst !! idx = Some (v, opOwnership use) →
  opParentBlock use = bb →
  opOwnership use = DestroyingConsume ∨ opOwnership use = ForwardingConsume →
  stepOneRecords st0 st → stepOneRecords st0 (recordConsumingUse use st).
Proof.
  intros Hin Hop Hbb Hown [? ? ? ? ? Hd Hdbg Hc]. constructor; state_simpl; auto.
  - intros d Hdin.
    destruct (Hd d Hdin) as [? | (b & i & ? & ? & ? & Hb)]; [auto |].
    right. exists b, i. rewrite elem_of_setInsert. auto 6.
  - intros b Hb. apply elem_of_setInsert in Hb as [-> | Hb]; [| auto].
    right. exists inst, (opOwnership use). rewrite Hbb. split; [exact Hin |].
    split; [| exact Hown]. apply list_elem_of_fmap.
    exists (v, opOwnership use). split; [reflexivity |].
    eapply list_elem_of_lookup_2, Hop.
Qed.

Lemma computeLivenessForUse_records (v : SILValue) (use : Operand)
    (st st' : CanonicalizeOSSALifetime) (wl wl' : GraphNodeWorklist SILValue)
    (ok : bool) :
  use ∈ getUses (func st) v →
  stepOneRecords st0 st →
  computeLivenessForUse host use st wl = Ret (ok, st', wl') →
  stepOneRecords st0 st'.
Proof.
  intros Huse HP.
  apply elem_of_getUses in Huse as (bb & inst & idx & own & Hin & Hop & ->).
  unfold computeLivenessForUse. cbn [opUser opParentBlock opOwnership opIndex].
  destruct (isa CopyValueInst inst).
  { intros [= <- <- <-]. exact HP. }
  destruct (pruneDebugMode st && isa DebugValueInst inst) eqn:Hdbg.
  { apply andb_prop in Hdbg as [Hmode Hisa].
    destruct (decide _); intros [= <- <- <-]; [| exact HP].
    destruct HP as [? ? ? ? ? Hd Hdv Hc]. constructor; state_simpl; auto.
    intros d Hdin. apply elem_of_setInsert in Hdin as [-> | Hdin]; [| auto].
    right. split; [exact Hmode |]. exists bb, inst. auto. }
  pose proof (fun Hown =>
                stepOneRecords_consuming (mkOperand inst bb idx v own) bb inst
                  idx v st Hin Hop eq_refl Hown HP) as Hconsuming.
  cbn [opOwnership] in Hconsuming.
  destruct own; try discriminate;
    try (intros [= <- <- <-]; first
           [ exact HP
           | apply stepOneRecords_liveness; exact HP
           | apply stepOneRecords_liveness, Hconsuming; auto ]; fail).
  - (* DestroyingConsume *)
    intros [= <- <- <-].
    destruct (isa DestroyValueInst inst) eqn:Hdestroy.
    + specialize (Hconsuming (or_introl eq_refl)).
      destruct Hconsuming as [? ? ? ? ? Hd Hdv Hc]. destruct HP as [_ _ _ _ _ Hd0 _ _].
      constructor; state_simpl; auto.
      intros d Hdin. apply elem_of_setInsert in Hdin as [-> | Hdin].
      * right. exists bb, inst. rewrite elem_of_setInsert. auto 6.
      * destruct (Hd0 d Hdin) as [? | (b & i & ? & ? & ? & Hb)]; [auto |].
        right. exists b, i. rewrite elem_of_setInsert. auto 6.
    + pose proof (stepOneRecords_consuming (mkOperand inst bb idx v DestroyingConsume) bb inst idx v
                    (livenessUpdateForUse bb (instId inst) true st)
                    Hin Hop eq_refl (or_introl eq_refl)
                    (stepOneRecords_liveness _ _ HP)) as Hrec.
      exact Hrec.
  - (* Reborrow *)
    destruct (negb (isa BranchInst inst)).
    { destruct (isSingleValueInstruction host inst);
        cbn [assert mbind Outcome_bind]; [| discriminate].
      intros [= <- <- <-]. apply stepOneRecords_liveness, HP. }
    destruct (bool_decide _).
    { intros [= <- <- <-]. apply stepOneRecords_liveness, HP. }
    destruct (head (instSuccessors inst)); cbn [deref mbind Outcome_bind];
      [| discriminate].
    intros [= <- <- <-]. apply stepOneRecords_liveness, HP.
Qed.

Lemma computeLivenessForUses_records (v : SILValue) (uses : list Operand) :
  ∀ st st' wl wl' ok,
    (∀ u, u ∈ uses → u ∈ getUses (func st) v) →
    stepOneRecords st0 st →
    computeLivenessForUses host uses st wl = Ret (ok, st', wl') →
    stepOneRecords st0 st'.
Proof.
  induction uses as [| use rest IH]; intros st st' wl wl' ok Huses HP;
    cbn [computeLivenessForUses].
  { intros [= <- <- <-]. exact HP. }
  destruct (computeLivenessForUse host use st wl) as [[[ok1 st1] wl1] | |]
    eqn:Huse; cbn [mbind Outcome_bind]; try discriminate.
  pose proof (computeLivenessForUse_records v use st st1 wl wl1 ok1
                (Huses use ltac:(left)) HP Huse) as HP1.
  destruct (computeLivenessForUse_func host _ _ _ _ _ _ Huse) as (Hf & _).
  destruct ok1; [| intros [= <- <- <-]; exact HP1].
  apply IH; [| exact HP1]. intros u Hu. rewrite Hf. apply Huses. right.
  exact Hu.
Qed.

Lemma computeCanonicalLivenessLoop_records (fuel : nat) :
  ∀ st st' wl ok,
    stepOneRecords st0 st →
    computeCanonicalLivenessLoop host fuel st wl = Ret (ok, st') →
    stepOneRecords st0 st'.
Proof.
  induction fuel as [| fuel IH]; intros st st' wl ok HP;
    cbn [computeCanonicalLivenessLoop]; [discriminate |].
  destruct (worklistPop wl) as [[value wl1] |];
    [| intros [= <- <-]; exact HP].
  destruct (computeLivenessForUses host _ st _) as [[[ok1 st1] wl3] | |]
    eqn:Huses; cbn [mbind Outcome_bind]; try discriminate.
  pose proof (computeLivenessForUses_records value _ _ _ _ _ _
                (fun u H => H) HP Huses) as HP1.
  destruct ok1; [apply IH, HP1 | intros [= <- <-]; exact HP1].
Qed.

End RecordsOfStepOne.

(** ** The whole of a canonicalization *)

Section FrameOfCanonicalize.

Variable host : Host.

Lemma setLiveness_setLiveness (l1 l2 : PrunedLiveness)
    (st : CanonicalizeOSSALifetime) :
  setLiveness l2 (setLiveness l1 st) = setLiveness l2 st.
Proof. reflexivity. Qed.

Lemma setLiveness_liveness (st : CanonicalizeOSSALifetime) :
  setLiveness (liveness st) st = st.
Proof. destruct st. reflexivity. Qed.

Lemma extendLivenessLoop_liveness (fuel : nat) :
  ∀ st st',
    extendLivenessLoop host fuel st = Ret st' →
    st' = setLiveness (liveness st') st.
Proof.
  induction fuel as [| fuel IH]; intros st st'; cbn [extendLivenessLoop];
    [discriminate |].
  destruct (extendLivenessStep host st) as [[st1 |] | |] eqn:Hstep;
    cbn [mbind Outcome_bind]; try discriminate.
  - intros Hloop. apply IH in Hloop.
    apply extendLivenessStep_changed in Hstep as (bb & inst & _ & _ & ->).
    rewrite Hloop at 1. reflexivity.
  - intros Hrun. apply Ret_inj in Hrun. subst st'.
    symmetry. apply setLiveness_liveness.
Qed.

Lemma recordDeadDebugValues_subset (st : CanonicalizeOSSALifetime)
    (d : InstId) :
  d ∈ debugAfterConsume (recordDeadDebugValues st) →
  d ∈ debugAfterConsume (consumes st) ∨ d ∈ debugValues st.
Proof.
  unfold recordDeadDebugValues.
  assert (∀ l c,
            d ∈ debugAfterConsume
                  (foldl (fun c dvi =>
                            match instParent (func st) dvi with
                            | Some bb =>
                                if decide (getBlockLiveness (liveness st) bb
                                           = Dead)
                                then recordDebugAfterConsume dvi c else c
                            | None => c
                            end) c l) →
            d ∈ debugAfterConsume c ∨ d ∈ l) as Hfold.
  { induction l as [| x l IH]; intros c; cbn [foldl]; [auto |].
    intros Hd. apply IH in Hd as [Hd | Hd]; [| right; right; exact Hd].
    destruct (instParent (func st) x); [| auto].
    destruct (decide _); [| auto].
    unfold recordDebugAfterConsume in Hd. cbn [debugAfterConsume] in Hd.
    apply elem_of_setInsert in Hd as [-> | Hd]; [right; left | auto]. }
  apply Hfold.
Qed.

Lemma forceDelete_all_next (ids : list InstId) :
  ∀ fn,
    fnNextInst (foldl (fun fn i => forceDelete i fn) fn ids) = fnNextInst fn.
Proof.
  induction ids as [| j ids IH]; intros fn; cbn [foldl]; [reflexivity |].
  rewrite IH. reflexivity.
Qed.

Lemma rewriteCopies_added (st st' : CanonicalizeOSSALifetime) :
  wfFunction (func st) →
  rewriteCopies host st = Ret st' →
  copiesAdded (func st) (func st')
  ∧ fnNextInst (func st) ≤ fnNextInst (func st')
  ∧ NumCopiesGenerated (statistics st') + fnNextInst (func st)
    = NumCopiesGenerated (statistics st) + fnNextInst (func st')
  ∧ NumDestroysGenerated (statistics st')
    = NumDestroysGenerated (statistics st).
Proof.
  intros Hwf. unfold rewriteCopies.
  destruct (bool_decide _); cbn [assert mbind Outcome_bind]; [| discriminate].
  destruct (rewriteDefUses host _ _) as [rw1 | |] eqn:Hdef;
    cbn [mbind Outcome_bind]; try discriminate.
  destruct (rewriteCopiesLoop host _ rw1) as [rw2 | |] eqn:Hloop;
    cbn [mbind Outcome_bind]; try discriminate.
  destruct (negb (hasUnclaimedConsumes _)); cbn [assert mbind Outcome_bind];
    [| discriminate].
  intros Hrun. apply Ret_inj in Hrun. subst st'.
  pose proof (rewriteDefUses_frame host st
                (getUses (func st) (currentDef st))
                (mkRewrite st [] (mkWorklist [] [])) rw1
                (fun u Hu => getUses_knownInst (func st) (currentDef st) u
                               Hwf Hu)
                (stepThreeFrame_start st Hwf) Hdef) as HP1.
  pose proof (rewriteCopiesLoop_frame host st _ _ _ HP1 Hloop)
    as [_ _ _ Hnext2 Hadd _ _ _ _ _ _ _ Hgen Hdes].
  state_simpl. rewrite !forceDelete_all_next.
  split; [| auto].
  apply copiesAdded_forceDelete_all, copiesAdded_forceDelete_all, Hadd.
Qed.

Lemma rewriteCopies_frame (st st' : CanonicalizeOSSALifetime) :
  wfFunction (func st) →
  (∀ d, d ∈ debugValues st ∨ d ∈ debugAfterConsume (consumes st) →
        deletable (pruneDebugMode st) (func st) d) →
  rewriteCopies host st = Ret st' →
  fnSkeleton (pruneDebugMode st) (func st')
  = fnSkeleton (pruneDebugMode st) (func st)
  ∧ keepsTerminators (func st) (func st')
  ∧ copiesAdded (func st) (func st')
  ∧ pruneDebugMode st' = pruneDebugMode st
  ∧ fnNextInst (func st) ≤ fnNextInst (func st')
  ∧ NumCopiesGenerated (statistics st') + fnNextInst (func st)
    = NumCopiesGenerated (statistics st) + fnNextInst (func st')
  ∧ NumDestroysGenerated (statistics st')
    = NumDestroysGenerated (statistics st).
Proof.
  intros Hwf Hdebug. unfold rewriteCopies.
  destruct (bool_decide _); cbn [assert mbind Outcome_bind]; [| discriminate].
  destruct (rewriteDefUses host _ _) as [rw1 | |] eqn:Hdef;
    cbn [mbind Outcome_bind]; try discriminate.
  destruct (rewriteCopiesLoop host _ rw1) as [rw2 | |] eqn:Hloop;
    cbn [mbind Outcome_bind]; try discriminate.
  destruct (negb (hasUnclaimedConsumes _)); cbn [assert mbind Outcome_bind];
    [| discriminate].
  intros Hrun. apply Ret_inj in Hrun. subst st'.
  pose proof (rewriteDefUses_frame host st
                (getUses (func st) (currentDef st))
                (mkRewrite st [] (mkWorklist [] [])) rw1
                (fun u Hu => getUses_knownInst (func st) (currentDef st) u
                               Hwf Hu)
                (stepThreeFrame_start st Hwf) Hdef) as HP1.
  pose proof (rewriteCopiesLoop_frame host st _ _ _ HP1 Hloop)
    as [Hwf2 Hskel Hterm Hnext2 Hadd Hdel Hkept Hdef2 Hmode Hlive Hdbg Hafter Hgen
        Hdes].
  state_simpl.
  set (prune := pruneDebugMode st) in *.
  set (after := debugAfterConsume
                  (recordDeadDebugValues (rwCanon rw2))) in *.
  assert (∀ d, d ∈ after → deletable prune (func (rwCanon rw2)) d) as Hafter2.
  { intros d Hd. apply Hkept, Hdebug.
    apply recordDeadDebugValues_subset in Hd as [Hd | Hd];
      [right; rewrite <- Hafter | left; rewrite <- Hdbg]; exact Hd. }
  destruct (fnSkeleton_forceDelete_all prune after (func (rwCanon rw2)) Hafter2)
    as [Hskel1 Hkeep1].
  set (fn1 := foldl (fun fn dvi => forceDelete dvi fn) (func (rwCanon rw2))
                    after) in *.
  assert (∀ i, i ∈ instsToDelete rw2 → deletable prune fn1 i) as Hdel1
    by (intros i Hi; apply Hkeep1, deletable_weaken, Hdel, Hi).
  destruct (fnSkeleton_forceDelete_all prune (instsToDelete rw2) fn1 Hdel1)
    as [Hskel2 _].
  assert (∀ ids fn,
            fnNextInst (foldl (fun fn i => forceDelete i fn) fn ids)
            = fnNextInst fn) as Hnext.
  { induction ids as [| j ids IH]; intros fn; cbn [foldl]; [reflexivity |].
    rewrite IH. reflexivity. }
  split; [rewrite Hskel2, Hskel1; apply Hskel |].
  split.
  { eapply keepsTerminators_trans; [exact Hterm |].
    eapply keepsTerminators_trans;
      [apply (keepsTerminators_forceDelete_all prune), Hafter2 |].
    apply (keepsTerminators_forceDelete_all prune), Hdel1. }
  split; [apply copiesAdded_forceDelete_all, copiesAdded_forceDelete_all, Hadd |].
  split; [exact Hmode |].
  rewrite Hnext. unfold fn1. rewrite Hnext. auto.
Qed.

End FrameOfCanonicalize.

Section TheWholeRun.

Variable host : Host.

Lemma initDef_Ret (def : SILValue) (st st0 : CanonicalizeOSSALifetime) :
  initDef def st = Ret st0 →
  func st0 = func st ∧ pruneDebugMode st0 = pruneDebugMode st
  ∧ statistics st0 = statistics st
  ∧ currentDef st0 = def
  ∧ debugValues st0 = [] ∧ consumingBlocks st0 = []
  ∧ consumes st0 = emptyConsumes.
Proof.
  unfold initDef. destruct (bool_decide _) eqn:Hempty;
    cbn [assert mbind Outcome_bind]; [| discriminate].
  apply bool_decide_eq_true in Hempty as (Hc & Hd & _).
  destruct (getParentBlock (func st) def); cbn [deref mbind Outcome_bind];
    [| discriminate].
  intros Hrun. apply Ret_inj in Hrun. subst st0. state_simpl. auto 10.
Qed.

(** What a run of the canonicalizer that returns keeps of the function. *)
Lemma canonicalizeValueLifetime_frame (fuel : nat) (def : SILValue)
    (st st' : CanonicalizeOSSALifetime) (ok : bool) :
  wfFunction (func st) →
  canonicalizeValueLifetime host fuel def st = Ret (ok, st') →
  pruneDebugMode st' = pruneDebugMode st
  ∧ fnSkeleton (pruneDebugMode st) (func st')
    = fnSkeleton (pruneDebugMode st) (func st)
  ∧ keepsTerminators (func st) (func st')
  ∧ NumCopiesGenerated (statistics st) ≤ NumCopiesGenerated (statistics st')
  ∧ NumDestroysGenerated (statistics st)
    ≤ NumDestroysGenerated (statistics st')
  ∧ fnNextInst (func st') + NumCopiesGenerated (statistics st)
    + NumDestroysGenerated (statistics st)
    ≤ NumCopiesGenerated (statistics st')
      + NumDestroysGenerated (statistics st') + fnNextInst (func st).
Proof.
  intros Hwf. unfold canonicalizeValueLifetime.
  assert (pruneDebugMode st = pruneDebugMode st
          ∧ fnSkeleton (pruneDebugMode st) (func st)
            = fnSkeleton (pruneDebugMode st) (func st)
          ∧ keepsTerminators (func st) (func st)
          ∧ NumCopiesGenerated (statistics st)
            ≤ NumCopiesGenerated (statistics st)
          ∧ NumDestroysGenerated (statistics st)
            ≤ NumDestroysGenerated (statistics st)
          ∧ fnNextInst (func st) + NumCopiesGenerated (statistics st)
            + NumDestroysGenerated (statistics st)
            ≤ NumCopiesGenerated (statistics st)
              + NumDestroysGenerated (statistics st) + fnNextInst (func st))
    as Hsame
    by (repeat split; try lia; apply keepsTerminators_refl).
  destruct (decide _); [intros [= <- <-]; exact Hsame |].
  destruct (isLexical host def); [intros [= <- <-]; exact Hsame |].
  destruct (initDef def st) as [st0 | |] eqn:Hinit;
    cbn [mbind Outcome_bind]; try discriminate.
  apply initDef_Ret in Hinit
    as (Hf0 & Hm0 & Hs0 & _ & Hdbg0 & _ & Hc0).
  destruct (computeCanonicalLiveness host fuel st0) as [[ok1 st1] | |]
    eqn:Hlive; cbn [mbind Outcome_bind]; try discriminate.
  pose proof (computeCanonicalLivenessLoop_records host st0 fuel st0 st1 _ ok1
                (stepOneRecords_refl st0) Hlive)
    as [Hf1 _ Hm1 Hc1 Hs1 _ Hdbg1 _].
  destruct ok1; cbn [negb].
  2:{ intros [= <- <-]. unfold clearLiveness. state_simpl.
      rewrite Hf1, Hf0, Hm1, Hm0, Hs1, Hs0. exact Hsame. }
  destruct (extendLivenessThroughOverlappingAccess host st1) as [st2 | |]
    eqn:Hext; cbn [mbind Outcome_bind]; try discriminate.
  apply extendLivenessLoop_liveness in Hext.
  destruct (findOrInsertDestroys host st2) as [[st3 wl] | |] eqn:Hplace;
    cbn [mbind Outcome_bind]; try discriminate.
  assert (func st2 = func st ∧ pruneDebugMode st2 = pruneDebugMode st
          ∧ statistics st2 = statistics st
          ∧ debugValues st2 = debugValues st1
          ∧ consumes st2 = emptyConsumes) as (Hf2 & Hm2 & Hs2 & Hdbg2 & Hc2).
  { rewrite Hext. state_simpl. rewrite Hf1, Hf0, Hm1, Hm0, Hs1, Hs0, Hc1, Hc0.
    auto. }
  assert (wfFunction (func st2)) as Hwf2 by (rewrite Hf2; exact Hwf).
  pose proof (findOrInsertDestroys_frame host st2 st2 st3 wl
                (stepTwoFrame_refl st2 Hwf2) Hplace)
    as [Hwf3 (_ & Hnext3 & _) Hskel3 Hterm3 Hkept3 _ Hm3 _ _ _ Hdbg3 Hafter3 _ Hcg3 _
        Hdg3].
  destruct (rewriteCopies host st3) as [st4 | |] eqn:Hrewrite;
    cbn [mbind Outcome_bind]; try discriminate.
  intros [= <- <-]. unfold clearLiveness. state_simpl.
  destruct (rewriteCopies_frame host st3 st4 Hwf3) as
    (Hskel4 & Hterm4 & _ & Hm4 & Hnext4 & Hcg4 & Hdg4); [| exact Hrewrite |].
  { intros d Hd. rewrite Hm3. apply Hkept3.
    assert (d ∈ debugValues st1) as Hd1.
    { rewrite <- Hdbg2.
      destruct Hd as [Hd | Hd]; [apply Hdbg3, Hd |].
      destruct (Hafter3 d Hd) as [Hd2 | Hd2]; [| exact Hd2].
      rewrite Hc2 in Hd2. inversion Hd2. }
    destruct (Hdbg1 d Hd1) as [Hd0 | (Hmode & bb & inst & Hin & Hid & Hisa)].
    { rewrite Hdbg0 in Hd0. inversion Hd0. }
    rewrite Hm2, <- Hm0, <- Hm1, Hmode, <- Hid. rewrite Hf1, Hf0, <- Hf2 in Hin.
    apply knownInst_deletable; [apply (knownInst_wf _ (bb, inst)); assumption |].
    apply bool_decide_eq_true in Hisa. rewrite Hisa. reflexivity. }
  rewrite Hm3, Hm2 in *. rewrite Hf2, Hs2 in *.
  split; [rewrite Hm4; reflexivity |].
  split; [rewrite Hskel4; apply Hskel3 |].
  split.
  { eapply keepsTerminators_trans; [| exact Hterm4].
    intros bb _. unfold terminatorShape. rewrite Hterm3. reflexivity. }
  lia.
Qed.

End TheWholeRun.

(** ** Where the final consumes are *)

Section ConsumesOfStepTwo.

Variable host : Host.

Lemma consumesLocated_record (bb : BlockId) (inst : SILInstruction)
    (st : CanonicalizeOSSALifetime) (c0 c : CanonicalOSSAConsumeInfo) :
  finalBlockConsumes c0 = finalBlockConsumes (consumes st) →
  inst ∈ blockInsts (func st) bb →
  recordFinalConsume bb (instId inst) c0 = Ret c →
  consumesLocated st → consumesLocated (setConsumes c st).
Proof.
  intros Hc0 Hinst Hrec Hloc X x. state_simpl.
  apply recordFinalConsume_Ret in Hrec as [_ ->]. rewrite Hc0.
  destruct (decide (X = bb)) as [-> | HX].
  - rewrite lookup_insert_eq. intros [= <-]. eauto.
  - rewrite lookup_insert_ne by congruence. apply Hloc.
Qed.

Lemma consumesLocated_create (bb : BlockId) (pos : nat)
    (st st' : CanonicalizeOSSALifetime) :
  wfFunction (func st) →
  createAndRecordDestroy bb pos st = Ret st' →
  consumesLocated st → consumesLocated st'.
Proof.
  intros Hwf Hrun Hloc X x Hx.
  destruct (createAndRecordDestroy_placed bb pos st st' Hwf Hrun)
    as (_ & (_ & _ & _ & _ & Hkeep & _) & Hat & Hinsts).
  destruct (decide (X = bb)) as [-> | HX].
  - rewrite Hat in Hx. injection Hx as <-. eexists. split.
    + rewrite Hinsts. apply elem_of_app. right. left.
    + reflexivity.
  - assert (finalBlockConsumes (consumes st) !! X = Some x) as Hx0.
    { unfold createAndRecordDestroy in Hrun.
      destruct (blockInsts (func st) bb !! pos);
        cbn [deref mbind Outcome_bind] in Hrun; [| discriminate].
      destruct (recordFinalConsume bb _ (consumes st)) as [c | |] eqn:Hrec;
        cbn [mbind Outcome_bind] in Hrun; try discriminate.
      apply Ret_inj in Hrun. subst st'. state_simpl.
      apply recordFinalConsume_Ret in Hrec as [_ Hc]. rewrite Hc in Hx.
      rewrite lookup_insert_ne in Hx by congruence. exact Hx. }
    destruct (Hloc X x Hx0) as (inst & Hin & Hid). eauto.
Qed.

(** Step 2 keeps every recorded final consume in the block it is recorded
    for. *)
Lemma findOrInsertDestroys_located (st st' : CanonicalizeOSSALifetime)
    (wl : GraphNodeWorklist BlockId) :
  wfFunction (func st) → consumesLocated st →
  findOrInsertDestroys host st = Ret (st', wl) →
  consumesLocated st'.
Proof.
  intros Hwf Hloc Hrun.
  cut (wfFunction (func st') ∧ consumesLocated st'); [tauto |].
  eapply (findOrInsertDestroys_keeps host
            (fun s => wfFunction (func s) ∧ consumesLocated s));
    [| | | | split; [exact Hwf | exact Hloc] | exact Hrun].
  - intros predBB succBB s s' [Hwfs Hlocs] Hedge.
    split; [eapply findOrInsertDestroyOnCFGEdge_placed; eassumption |].
    unfold findOrInsertDestroyOnCFGEdge in Hedge.
    destruct (bool_decide _); cbn [assert mbind Outcome_bind] in Hedge;
      [| discriminate].
    destruct (findDestroyOnCFGEdge host _ _) as [di |] eqn:Hfind.
    + destruct (recordFinalConsume succBB _ (consumes s)) as [c | |] eqn:Hrec;
        cbn [mbind Outcome_bind] in Hedge; try discriminate.
      apply Ret_inj in Hedge. subst s'.
      apply findDestroyOnCFGEdge_Some in Hfind as (pre & post & Hinsts & _).
      assert (di ∈ blockInsts (func s) succBB) as Hdi
        by (rewrite Hinsts; apply elem_of_app; right; left).
      exact (consumesLocated_record succBB di s (consumes s) c eq_refl Hdi
               Hrec Hlocs).
    + destruct (createAndRecordDestroy succBB 0 s) as [s1 | |] eqn:Hcreate;
        cbn [mbind Outcome_bind] in Hedge; try discriminate.
      apply Ret_inj in Hedge. subst s'.
      exact (consumesLocated_create succBB 0 s s1 Hwfs Hcreate Hlocs).
  - intros bb pos existing s s' [Hwfs Hlocs] Hexisting Hinst.
    split; [eapply insertDestroyAtInst_placed; eassumption |].
    unfold insertDestroyAtInst in Hinst. destruct existing as [[e d] |].
    + destruct (bool_decide _); cbn [assert mbind Outcome_bind] in Hinst;
        [| discriminate].
      destruct (recordFinalConsume bb _ _) as [c | |] eqn:Hrec;
        cbn [mbind Outcome_bind] in Hinst; try discriminate.
      apply Ret_inj in Hinst. subst s'.
      eapply consumesLocated_record; [| | exact Hrec | exact Hlocs].
      * apply popDebugValuesBetween_consumes.
      * eapply list_elem_of_lookup_2, Hexisting. reflexivity.
    + destruct (createAndRecordDestroy bb pos s) as [s1 | |] eqn:Hcreate;
        cbn [mbind Outcome_bind] in Hinst; try discriminate.
      apply Ret_inj in Hinst. subst s'.
      exact (consumesLocated_create bb pos s s1 Hwfs Hcreate Hlocs).
  - intros inst s [Hwfs Hlocs].
    destruct (moveDebugValueAfterConsume_placedLe inst s) as [Hf _].
    split; [rewrite Hf; exact Hwfs |].
    unfold moveDebugValueAfterConsume in *.
    destruct (_ && _ && _); [| exact Hlocs].
    intros X x. state_simpl. apply Hlocs.
  - intros bb inst s c [Hwfs Hlocs] Hinst Hrec.
    split; [exact Hwfs |].
    exact (consumesLocated_record bb inst s (consumes s) c eq_refl Hinst Hrec
             Hlocs).
Qed.

End ConsumesOfStepTwo.

(** ** The final consume of a block is behind its users *)

Section ConsumeBehindUsers.

Variable host : Host.

Lemma insertDestroyAtInst_behind (bb : BlockId) (pos : nat)
    (existingDestroy : option (nat * SILInstruction))
    (st st' : CanonicalizeOSSALifetime) :
  wfFunction (func st) →
  (∀ e d, existingDestroy = Some (e, d) →
          blockInsts (func st) bb !! e = Some d) →
  Forall (fun i => isInterestingUser (liveness st) (instId i) = NonUser)
         (drop pos (blockInsts (func st) bb)) →
  insertDestroyAtInst bb (blockInsts (func st) bb) pos existingDestroy st
  = Ret st' →
  consumeBehindUsers (liveness st) st' bb.
Proof.
  intros Hwf Hexisting Hbehind. unfold insertDestroyAtInst.
  destruct existingDestroy as [[e d] |].
  - destruct (bool_decide (pos ≤ e)) eqn:Hle;
      cbn [assert mbind Outcome_bind]; [| discriminate].
    apply bool_decide_eq_true in Hle.
    destruct (recordFinalConsume bb (instId d) _) as [c | |] eqn:Hrec;
      cbn [mbind Outcome_bind]; try discriminate.
    intros Hrun. apply Ret_inj in Hrun. subst st'.
    destruct (record_placedLe st bb (instId d) _ c
                (popDebugValuesBetween_consumes _ _ _ _) Hrec) as [_ Hat].
    specialize (Hexisting e d eq_refl).
    exists (take e (blockInsts (func st) bb)), d,
           (drop (S e) (blockInsts (func st) bb)). state_simpl.
    split; [symmetry; apply take_drop_middle, Hexisting |].
    split; [exact Hat |].
    replace (S e) with (pos + (S e - pos)) by lia. rewrite <- drop_drop.
    apply Forall_drop, Hbehind.
  - destruct (createAndRecordDestroy bb pos st) as [st1 | |] eqn:Hcreate;
      cbn [mbind Outcome_bind]; try discriminate.
    intros Hrun. apply Ret_inj in Hrun. subst st'.
    destruct (createAndRecordDestroy_placed bb pos st st1 Hwf Hcreate)
      as (_ & _ & Hat & Hinsts).
    eexists _, _, _. state_simpl. split; [exact Hinsts |].
    split; [exact Hat | exact Hbehind].
Qed.

Lemma drop_lookup {A} (l : list A) (k : nat) (x : A) :
  l !! k = Some x → drop k l = x :: drop (S k) l.
Proof.
  intros Hk. rewrite <- (take_drop_middle l k x Hk) at 1.
  rewrite drop_app_length'; [reflexivity |].
  rewrite length_take. apply lookup_lt_Some in Hk. lia.
Qed.

(** The scan of a LiveWithin block: unless it ends at the terminator, the
    final consume it records has no user behind it. *)
Lemma findOrInsertDestroyInBlockFrom_behind (bb : BlockId) (k : nat) :
  ∀ existingDestroy st st',
    wfFunction (func st) →
    (∀ e d, existingDestroy = Some (e, d) →
            blockInsts (func st) bb !! e = Some d) →
    Forall (fun i => isInterestingUser (liveness st) (instId i) = NonUser)
           (drop (S k) (blockInsts (func st) bb)) →
    findOrInsertDestroyInBlockFrom host bb (blockInsts (func st) bb) k
      existingDestroy st = Ret st' →
    (∃ term,
       term ∈ blockInsts (func st) bb
       ∧ isTermInst (instKind term) = true
       ∧ isInterestingUser (liveness st) (instId term) = NonLifetimeEndingUse)
    ∨ consumeBehindUsers (liveness st) st' bb.
Proof.
  assert (∀ inst st1 st' existing j,
            wfFunction (func st1) →
            blockInsts (func st1) bb !! j = Some inst →
            (∀ e d, existing = Some (e, d) →
                    blockInsts (func st1) bb !! e = Some d) →
            Forall (fun i => isInterestingUser (liveness st1) (instId i)
                             = NonUser)
                   (drop (S j) (blockInsts (func st1) bb)) →
            match isInterestingUser (liveness st1) (instId inst) with
            | NonUser => True
            | NonLifetimeEndingUse =>
                (if isTermInst (instKind inst)
                 then findOrInsertDestroysOnSuccessors host bb
                        (from_option instSuccessors []
                           (getTerminator (blockInsts (func st1) bb))) st1
                 else insertDestroyAtInst bb (blockInsts (func st1) bb) (S j)
                        existing st1) = Ret st' →
                (∃ term,
                   term ∈ blockInsts (func st1) bb
                   ∧ isTermInst (instKind term) = true
                   ∧ isInterestingUser (liveness st1) (instId term)
                     = NonLifetimeEndingUse)
                ∨ consumeBehindUsers (liveness st1) st' bb
            | LifetimeEndingUse =>
                (recordFinalConsume bb (instId inst) (consumes st1)
                 ≫= fun c => Ret (setConsumes c st1)) = Ret st' →
                consumeBehindUsers (liveness st1) st' bb
            end) as Hstop.
  { intros inst st1 st' existing j Hwf Hk Hexisting Hbehind.
    destruct (isInterestingUser (liveness st1) (instId inst)) eqn:Huser;
      [exact I | |].
    - destruct (isTermInst (instKind inst)) eqn:Hterm; intros Hrun.
      + left. exists inst. split; [eapply list_elem_of_lookup_2, Hk | auto].
      + right. eapply insertDestroyAtInst_behind; eassumption.
    - destruct (recordFinalConsume bb (instId inst) (consumes st1))
        as [c | |] eqn:Hrec; cbn [mbind Outcome_bind]; try discriminate.
      intros Hrun. apply Ret_inj in Hrun. subst st'.
      destruct (record_placedLe st1 bb (instId inst) _ c eq_refl Hrec)
        as [_ Hat].
      exists (take j (blockInsts (func st1) bb)), inst,
             (drop (S j) (blockInsts (func st1) bb)). state_simpl.
      split; [symmetry; apply take_drop_middle, Hk |].
      split; [exact Hat | exact Hbehind]. }
  induction k as [| k IH]; intros existing st st' Hwf Hexisting Hbehind Hrun.
  - cbn [findOrInsertDestroyInBlockFrom] in Hrun.
    destruct (blockInsts (func st) bb !! 0) as [inst |] eqn:Hk;
      cbn [deref mbind Outcome_bind] in Hrun; [| discriminate].
    destruct (moveDebugValueAfterConsume_placedLe inst st)
      as (Hf1 & Hl1 & _).
    set (st1 := moveDebugValueAfterConsume inst st) in *.
    rewrite <- Hf1, <- Hl1 in *.
    pose proof (Hstop inst st1 st' existing 0 Hwf Hk Hexisting Hbehind)
      as Hcase.
    destruct (isInterestingUser (liveness st1) (instId inst)) eqn:Huser;
      [| exact (Hcase Hrun) | right; exact (Hcase Hrun)].
    destruct (isBlockArgumentOf bb (currentDef st1));
      cbn [assert mbind Outcome_bind] in Hrun; [| discriminate].
    right. eapply insertDestroyAtInst_behind; [exact Hwf | | | exact Hrun].
    + eapply scan_existing_destroy; eassumption.
    + rewrite (drop_lookup _ 0 inst Hk). constructor; assumption.
  - cbn [findOrInsertDestroyInBlockFrom] in Hrun.
    destruct (blockInsts (func st) bb !! S k) as [inst |] eqn:Hk;
      cbn [deref mbind Outcome_bind] in Hrun; [| discriminate].
    destruct (moveDebugValueAfterConsume_placedLe inst st)
      as (Hf1 & Hl1 & _).
    set (st1 := moveDebugValueAfterConsume inst st) in *.
    rewrite <- Hf1, <- Hl1 in *.
    pose proof (Hstop inst st1 st' existing (S k) Hwf Hk Hexisting Hbehind)
      as Hcase.
    destruct (isInterestingUser (liveness st1) (instId inst)) eqn:Huser;
      [| exact (Hcase Hrun) | right; exact (Hcase Hrun)].
    assert (Forall (fun i => isInterestingUser (liveness st1) (instId i)
                             = NonUser)
                   (drop (S k) (blockInsts (func st1) bb))) as Hbehind1
      by (rewrite (drop_lookup _ (S k) inst Hk); constructor; assumption).
    destruct (blockInsts (func st1) bb !! k) as [prev |];
      cbn [deref mbind Outcome_bind] in Hrun; [| discriminate].
    destruct (bool_decide _).
    + right. eapply insertDestroyAtInst_behind; [exact Hwf | | | exact Hrun].
      * eapply scan_existing_destroy; eassumption.
      * exact Hbehind1.
    + eapply IH; [exact Hwf | | exact Hbehind1 | exact Hrun].
      eapply scan_existing_destroy; eassumption.
Qed.

End ConsumeBehindUsers.

(** ** The extension of liveness without access scopes *)

Section ExtensionWithoutAccess.

Variable host : Host.

Lemma collectBlocksToVisit_reachable (st : CanonicalizeOSSALifetime)
    (fuel : nat) :
  ∀ idx vec, collectBlocksToVisit fuel st idx vec ≠ Unreachable.
Proof.
  induction fuel as [| fuel IH]; intros idx vec; cbn [collectBlocksToVisit];
    destruct (vec !! idx); try discriminate.
  destruct (decide _); apply IH.
Qed.

Lemma findOverlappingAccess_none (st : CanonicalizeOSSALifetime)
    (blockHasUse : bool) (revInsts : list SILInstruction) :
  (∀ i, i ∈ revInsts →
        isa EndAccessInst i = false ∧ isa EndUnpairedAccessInst i = false) →
  ∀ findLastConsume,
    findOverlappingAccess host st blockHasUse findLastConsume revInsts
    = Ret None.
Proof.
  induction revInsts as [| inst rest IH]; intros Hnone findLast;
    cbn [findOverlappingAccess]; [reflexivity |].
  assert (∀ i, i ∈ rest →
               isa EndAccessInst i = false
               ∧ isa EndUnpairedAccessInst i = false) as Hrest
    by (intros i Hi; apply Hnone; right; exact Hi).
  destruct findLast; [apply IH, Hrest |].
  destruct (blockHasUse && _); [reflexivity |].
  unfold endsAccessOverlappingPrunedBoundary.
  destruct (Hnone inst ltac:(left)) as [-> ->].
  cbn [negb mbind Outcome_bind]. apply IH, Hrest.
Qed.

Lemma extendLivenessInBlocks_none (st : CanonicalizeOSSALifetime)
    (blocksToVisit todo : list BlockId) :
  (∀ p, p ∈ fnInsts (func st) →
        isa EndAccessInst p.2 = false
        ∧ isa EndUnpairedAccessInst p.2 = false) →
  extendLivenessInBlocks host st blocksToVisit todo = Ret None.
Proof.
  intros Hnone. induction todo as [| bb rest IH];
    cbn [extendLivenessInBlocks]; [reflexivity |].
  assert (extendLivenessInBlock host st blocksToVisit bb = Ret None) as ->.
  { unfold extendLivenessInBlock.
    destruct (bool_decide _); [reflexivity |].
    destruct (_ && negb _); [reflexivity |].
    apply findOverlappingAccess_none. intros i Hi.
    apply list_elem_of_In, in_rev, list_elem_of_In in Hi.
    apply (Hnone (bb, i)), blockInsts_elem_of, Hi. }
  cbn [mbind Outcome_bind]. exact IH.
Qed.

Lemma extendLivenessStep_none (st : CanonicalizeOSSALifetime) :
  (∀ p, p ∈ fnInsts (func st) →
        isa EndAccessInst p.2 = false
        ∧ isa EndUnpairedAccessInst p.2 = false) →
  extendLivenessStep host st = Ret None.
Proof.
  intros Hnone. pose proof (extendLivenessStep_fuel host st) as Hfuel.
  unfold extendLivenessStep in *.
  pose proof (collectBlocksToVisit_reachable st
                (length (fnBlocks (func st)) + length (consumingBlocks st)) 0
                (foldl (fun vec bb => setInsert bb vec) []
                       (consumingBlocks st))) as Hreach.
  destruct (collectBlocksToVisit _ st 0 _) as [blocks | |];
    cbn [mbind Outcome_bind] in *; try contradiction.
  rewrite extendLivenessInBlocks_none by exact Hnone. reflexivity.
Qed.

End ExtensionWithoutAccess.

(** ** The copy made for a consuming use *)

Lemma findBlock_elem_of (bb : BlockId) (blocks : list SILBasicBlock)
    (b : SILBasicBlock) :
  NoDup (bbId <$> blocks) → b ∈ blocks → bbId b = bb →
  findBlock bb blocks = Some b.
Proof.
  intros Hnd Hb Hid. induction blocks as [| x l IH]; [inversion Hb |].
  rewrite fmap_cons in Hnd. apply NoDup_cons in Hnd as [Hx Hnd].
  cbn [findBlock]. apply elem_of_cons in Hb as [-> | Hb].
  - rewrite decide_True by exact Hid. reflexivity.
  - rewrite decide_False; [apply IH; assumption |].
    intros Hxid. apply Hx. apply list_elem_of_fmap. exists b.
    split; [congruence | exact Hb].
Qed.

Lemma fnInsts_blockInsts (fn : SILFunction) (bb : BlockId)
    (inst : SILInstruction) :
  wfFunction fn → (bb, inst) ∈ fnInsts fn → inst ∈ blockInsts fn bb.
Proof.
  intros (Hnd & _) Hin. apply elem_of_fnInsts in Hin as (b & Hb & Hid & Hinst).
  unfold blockInsts, getBlock.
  rewrite (findBlock_elem_of bb _ b Hnd Hb Hid). exact Hinst.
Qed.

Lemma instIndex_Some (i : InstId) (insts : list SILInstruction) (pos : nat) :
  instIndex i insts = Some pos →
  ∃ x, insts !! pos = Some x ∧ instId x = i.
Proof.
  revert pos. induction insts as [| x l IH]; intros pos; cbn [instIndex];
    [discriminate |].
  destruct (decide (instId x = i)) as [Hx | Hx].
  - intros [= <-]. exists x. auto.
  - destruct (instIndex i l) as [m |]; cbn; [| discriminate].
    intros [= <-]. apply (IH m eq_refl).
Qed.

Lemma instIndex_elem_of (i : InstId) (insts : list SILInstruction)
    (x : SILInstruction) :
  x ∈ insts → instId x = i → is_Some (instIndex i insts).
Proof.
  intros Hx Hid. induction insts as [| y l IH]; [inversion Hx |].
  cbn [instIndex]. destruct (decide (instId y = i)); [eauto |].
  apply elem_of_cons in Hx as [-> | Hx]; [contradiction |].
  destruct (IH Hx) as [m ->]. cbn. eauto.
Qed.

Section CopyOfLiveUse.

(** X10: [copyLiveUse] on a use of a well-formed function returns. The
    copy it creates takes the value the use held, and sits in the block of
    the user, at the position the user had; the user follows it, with the
    same identity, kind and successors, the operand of the use now holding
    the copy. No other operand of the function changes, one instruction is
    added to the block, NumCopiesGenerated counts it, and the final
    consumes and liveness are untouched. *)
Theorem copyLiveUse_effect (v : SILValue) (use : Operand)
    (st : CanonicalizeOSSALifetime) :
  wfFunction (func st) →
  use ∈ getUses (func st) v →
  let bb := opParentBlock use in
  let copy :=
    mkInst (fnNextInst (func st)) CopyValueInst [(v, InstantaneousUse)] [] in
  ∃ st' pos user',
    copyLiveUse use st = Ret st'
    ∧ blockInsts (func st) bb !! pos = Some (opUser use)
    ∧ blockInsts (func st') bb !! pos = Some copy
    ∧ blockInsts (func st') bb !! S pos = Some user'
    ∧ instShape user' = instShape (opUser use)
    ∧ instOperands user' !! opIndex use
      = Some (InstResult (instId copy), opOwnership use)
    ∧ length (blockInsts (func st') bb)
      = S (length (blockInsts (func st) bb))
    ∧ (∀ i idx w,
         (i, idx) ≠ usePos use →
         operandAt (func st) i idx = Some w →
         operandAt (func st') i idx = Some w)
    ∧ NumCopiesGenerated (statistics st')
      = S (NumCopiesGenerated (statistics st))
    ∧ consumes st' = consumes st ∧ liveness st' = liveness st.
Proof.
  intros Hwf Huse bb copy.
  pose proof Huse as Huse0.
  apply elem_of_getUses in Huse as (b & inst & idx & own & Hin & Hop & ->).
  cbn [opParentBlock opUser opIndex opOwnership] in *. subst bb.
  pose proof (fnInsts_blockInsts _ _ _ Hwf Hin) as Hblock.
  destruct (instIndex_elem_of (instId inst) _ inst Hblock eq_refl)
    as [pos Hpos].
  destruct (instIndex_Some _ _ _ Hpos) as (x & Hx & Hid).
  assert (x = inst) as ->.
  { assert ((b, x) = (b, inst)) as Hsame; [| congruence].
    apply (fnInsts_same_id (func st)); [exact Hwf | | exact Hin | exact Hid].
    apply blockInsts_elem_of. eapply list_elem_of_lookup_2, Hx. }
  assert (operandValue (func st) (mkOperand inst b idx v own) = Some v)
    as Hvalue.
  { unfold operandValue. cbn [opUser opIndex].
    rewrite (findInst_wf (func st) (instId inst) (b, inst) Hwf Hin eq_refl).
    cbn. rewrite Hop. reflexivity. }
  assert (copyLiveUse (mkOperand inst b idx v own) st
          = Ret (incNumCopiesGenerated
                   (setFunc (setOperand (instId inst) idx
                               (InstResult (fnNextInst (func st)))
                               (createInst b pos CopyValueInst
                                  [(v, InstantaneousUse)] (func st)).2) st)))
    as Hrun.
  { unfold copyLiveUse. cbn [opUser opParentBlock opIndex].
    rewrite Hpos. cbn [deref mbind Outcome_bind]. rewrite Hvalue.
    reflexivity. }
  destruct (copyLiveUse_inv _ _ _ Hwf Hrun) as (_ & Hcons & Hothers & _).
  eexists _, pos, _. split; [exact Hrun |]. state_simpl.
  assert (blockInsts (func st) b ≠ []) as Hne
    by (intros Hnil; rewrite Hnil in Hx; discriminate).
  assert (instId inst ≠ fnNextInst (func st)) as Hfresh.
  { pose proof (blockInsts_lt_next _ _ _ Hwf Hblock). lia. }
  unfold setOperand. rewrite blockInsts_mapInsts.
  rewrite blockInsts_createInst_same by exact Hne.
  pose proof (lookup_lt_Some _ _ _ Hx) as Hlt.
  split; [exact Hx |]. split; [| split; [| split; [| split; [| split]]]].
  - rewrite list_lookup_fmap, lookup_app_r by (rewrite length_take; lia).
    rewrite length_take, Nat.min_l, Nat.sub_diag by lia. cbn.
    rewrite decide_False by (cbn; lia). reflexivity.
  - rewrite list_lookup_fmap, lookup_app_r by (rewrite length_take; lia).
    rewrite length_take, Nat.min_l by lia.
    replace (S pos - pos) with 1 by lia.
    rewrite lookup_cons_ne_0 by lia. cbn [pred].
    rewrite lookup_drop, Nat.add_0_r, Hx. cbn.
    rewrite decide_True by reflexivity. reflexivity.
  - reflexivity.
  - cbn [instOperands]. rewrite list_lookup_alter, Hop.
    rewrite decide_True by reflexivity. reflexivity.
  - rewrite length_fmap, length_app. cbn [length].
    rewrite length_take, length_drop. lia.
  - split; [exact Hothers |]. auto.
Qed.

End CopyOfLiveUse.

Lemma copyLiveUse_effect_witness :
  wfFunction (func (exampleState false copyConsumedTwice (InstResult 0)))
  ∧ mkOperand (consumeInst 3 (InstResult 1)) 0 0 (InstResult 1)
      DestroyingConsume
    ∈ getUses (func (exampleState false copyConsumedTwice (InstResult 0)))
        (InstResult 1)
  ∧ ∃ st',
      copyLiveUse
        (mkOperand (consumeInst 3 (InstResult 1)) 0 0 (InstResult 1)
           DestroyingConsume)
        (exampleState false copyConsumedTwice (InstResult 0))
      = Ret st'
      ∧ blockInsts (func st') 0 !! 3 = Some (copyInst 6 (InstResult 1))
      ∧ blockInsts (func st') 0 !! 4 = Some (consumeInst 3 (InstResult 6))
      ∧ NumCopiesGenerated (statistics st') = 1.
Proof.
  assert (wfFunction (func (exampleState false copyConsumedTwice
                              (InstResult 0))))
    as Hwf by (apply (bool_decide_unpack _); vm_compute; exact I).
  assert (mkOperand (consumeInst 3 (InstResult 1)) 0 0 (InstResult 1)
            DestroyingConsume
          ∈ getUses (func (exampleState false copyConsumedTwice
                             (InstResult 0)))
              (InstResult 1))
    as Huse by (apply (bool_decide_unpack _); vm_compute; exact I).
  split; [exact Hwf |]. split; [exact Huse |].
  destruct (copyLiveUse_effect (InstResult 1) _ _ Hwf Huse)
    as (st' & pos & user' & Hrun & _ & _ & _ & _ & _ & _ & _ & Hgen & _).
  exists st'. split; [exact Hrun |].
  vm_compute in Hrun. injection Hrun as <-.
  split; [reflexivity |]. split; reflexivity.
Defined.

(** *** What a run keeps and what it adds *)

Lemma fnSkeleton_blocks (prune : bool) (fn : SILFunction) :
  (fnSkeleton prune fn).*1 = bbId <$> fnBlocks fn.
Proof.
  unfold fnSkeleton. rewrite <- list_fmap_compose.
  apply list_fmap_ext. intros _ b _. reflexivity.
Qed.

(** X1: step 2 changes the function only by adding destroy_value
    instructions of the current def. In a well-formed function, when
    [findOrInsertDestroys] returns, every block holds the instructions it
    had, unchanged and in their order, every other instruction is a destroy
    of the current def with a fresh identity, the function is still well
    formed, and liveness, the consuming blocks, the recorded destroys and
    the current def are as before. *)
Theorem findOrInsertDestroys_adds_destroys_only (host : Host)
    (st st' : CanonicalizeOSSALifetime) (wl : GraphNodeWorklist BlockId) :
  wfFunction (func st) →
  findOrInsertDestroys host st = Ret (st', wl) →
  destroysAdded (currentDef st) (func st) (func st')
  ∧ wfFunction (func st')
  ∧ currentDef st' = currentDef st
  ∧ liveness st' = liveness st
  ∧ consumingBlocks st' = consumingBlocks st
  ∧ destroys st' = destroys st.
Proof.
  intros Hwf Hrun.
  pose proof (findOrInsertDestroys_frame host st st st' wl
                (stepTwoFrame_refl st Hwf) Hrun) as HF.
  split; [exact (frame_func _ _ HF) |].
  split; [exact (frame_wf _ _ HF) |].
  split; [exact (frame_def _ _ HF) |].
  split; [exact (frame_liveness _ _ HF) |].
  split; [exact (frame_consuming _ _ HF) | exact (frame_destroys _ _ HF)].
Qed.

Lemma findOrInsertDestroys_adds_destroys_only_witness :
  wfFunction (func lateDestroyState)
  ∧ ∃ st' wl,
      findOrInsertDestroys exampleHost lateDestroyState = Ret (st', wl)
      ∧ blockInsts (func st') 0 !! 2 = Some (destroyInst 5 (InstResult 0))
      ∧ destroysAdded (InstResult 0) lateDestroy (func st').
Proof.
  assert (wfFunction (func lateDestroyState)) as Hwf
    by (apply (bool_decide_unpack _); vm_compute; exact I).
  split; [exact Hwf |].
  eexists. eexists. split; [vm_compute; reflexivity |].
  split; [reflexivity |].
  refine (proj1 (findOrInsertDestroys_adds_destroys_only exampleHost
                   lateDestroyState _ _ Hwf _)).
  vm_compute. reflexivity.
Defined.

(** X2: a run of [canonicalizeValueLifetime] on a well-formed function,
    whatever it returns, leaves every instruction that is not a copy_value
    or a destroy_value (nor, in prune-debug mode, a debug_value) in its
    block, in its order, with its identity, its kind and its successors:
    the run creates, deletes and moves copies, destroys and debug values
    only. *)
Theorem canonicalizeValueLifetime_keeps_other_instructions (host : Host)
    (fuel : nat) (def : SILValue) (st st' : CanonicalizeOSSALifetime)
    (ok : bool) :
  wfFunction (func st) →
  canonicalizeValueLifetime host fuel def st = Ret (ok, st') →
  fnSkeleton (pruneDebugMode st) (func st')
  = fnSkeleton (pruneDebugMode st) (func st).
Proof.
  intros Hwf Hrun.
  exact (proj1 (proj2 (canonicalizeValueLifetime_frame host fuel def st st' ok
                         Hwf Hrun))).
Qed.

Lemma canonicalizeValueLifetime_keeps_other_instructions_witness :
  wfFunction (func (exampleState false lateDestroy (InstResult 0)))
  ∧ ∃ st',
      canonicalizeValueLifetime exampleHost 10 (InstResult 0)
        (exampleState false lateDestroy (InstResult 0)) = Ret (true, st')
      ∧ instId <$> blockInsts (func st') 0 = [0; 1; 5; 2; 4]
      ∧ fnSkeleton false (func st') = fnSkeleton false lateDestroy.
Proof.
  assert (wfFunction (func (exampleState false lateDestroy (InstResult 0))))
    as Hwf by (apply (bool_decide_unpack _); vm_compute; exact I).
  split; [exact Hwf |].
  eexists. split; [vm_compute; reflexivity |].
  split; [reflexivity |].
  apply (canonicalizeValueLifetime_keeps_other_instructions exampleHost 10
           (InstResult 0) (exampleState false lateDestroy (InstResult 0))
           _ true Hwf).
  vm_compute. reflexivity.
Defined.

(** X3: a run of [canonicalizeValueLifetime] on a well-formed function
    keeps the control-flow graph: the blocks are the same, every block that
    ends in a terminator still ends in it (the same identity, kind and
    successors; its operands may have been retargeted), and its successor
    blocks are the same. *)
Theorem canonicalizeValueLifetime_keeps_terminators (host : Host)
    (fuel : nat) (def : SILValue) (st st' : CanonicalizeOSSALifetime)
    (ok : bool) :
  wfFunction (func st) →
  canonicalizeValueLifetime host fuel def st = Ret (ok, st') →
  bbId <$> fnBlocks (func st') = bbId <$> fnBlocks (func st)
  ∧ keepsTerminators (func st) (func st')
  ∧ ∀ bb,
      is_Some (getTerminator (blockInsts (func st) bb)) →
      getSuccessorBlocks (func st') bb = getSuccessorBlocks (func st) bb.
Proof.
  intros Hwf Hrun.
  destruct (canonicalizeValueLifetime_frame host fuel def st st' ok Hwf Hrun)
    as (_ & Hskel & Hterm & _).
  split.
  - rewrite <- (fnSkeleton_blocks (pruneDebugMode st) (func st')), Hskel.
    apply fnSkeleton_blocks.
  - split; [exact Hterm |].
    intros bb Hbb. exact (keepsTerminators_successors _ _ bb Hterm Hbb).
Qed.

Lemma canonicalizeValueLifetime_keeps_terminators_witness :
  wfFunction (func (exampleState false useByTerminator (InstResult 0)))
  ∧ ∃ st',
      canonicalizeValueLifetime exampleHost 10 (InstResult 0)
        (exampleState false useByTerminator (InstResult 0)) = Ret (true, st')
      ∧ bbId <$> fnBlocks (func st') = [0; 1; 2; 3]
      ∧ getSuccessorBlocks (func st') 1 = [2; 3].
Proof.
  assert (wfFunction (func (exampleState false useByTerminator
                              (InstResult 0))))
    as Hwf by (apply (bool_decide_unpack _); vm_compute; exact I).
  split; [exact Hwf |].
  eexists. split; [vm_compute; reflexivity |].
  destruct (canonicalizeValueLifetime_keeps_terminators exampleHost 10
              (InstResult 0)
              (exampleState false useByTerminator (InstResult 0))
              _ true Hwf ltac:(vm_compute; reflexivity))
    as (Hblocks & _ & Hsucc).
  split; [exact Hblocks |].
  apply (Hsucc 1). vm_compute. eexists. reflexivity.
Defined.

(** X4: the statistics account for every instruction a run creates. On a
    well-formed function, NumCopiesGenerated and NumDestroysGenerated never
    decrease in a run of [canonicalizeValueLifetime], and the number of
    instructions the run created is at most the sum of their increases. *)
Theorem canonicalizeValueLifetime_counts_created_instructions (host : Host)
    (fuel : nat) (def : SILValue) (st st' : CanonicalizeOSSALifetime)
    (ok : bool) :
  wfFunction (func st) →
  canonicalizeValueLifetime host fuel def st = Ret (ok, st') →
  NumCopiesGenerated (statistics st) ≤ NumCopiesGenerated (statistics st')
  ∧ NumDestroysGenerated (statistics st)
    ≤ NumDestroysGenerated (statistics st')
  ∧ fnNextInst (func st') + NumCopiesGenerated (statistics st)
    + NumDestroysGenerated (statistics st)
    ≤ NumCopiesGenerated (statistics st')
      + NumDestroysGenerated (statistics st') + fnNextInst (func st).
Proof.
  intros Hwf Hrun.
  destruct (canonicalizeValueLifetime_frame host fuel def st st' ok Hwf Hrun)
    as (_ & _ & _ & Hresult).
  exact Hresult.
Qed.

Lemma canonicalizeValueLifetime_counts_created_instructions_witness :
  wfFunction (func (exampleState false copyConsumedTwice (InstResult 0)))
  ∧ ∃ st',
      canonicalizeValueLifetime exampleHost 10 (InstResult 0)
        (exampleState false copyConsumedTwice (InstResult 0))
      = Ret (true, st')
      ∧ fnNextInst (func st') = 7
      ∧ NumCopiesGenerated (statistics st') = 1
      ∧ fnNextInst (func st') + 0 + 0
        ≤ NumCopiesGenerated (statistics st')
          + NumDestroysGenerated (statistics st') + 6.
Proof.
  assert (wfFunction (func (exampleState false copyConsumedTwice
                              (InstResult 0))))
    as Hwf by (apply (bool_decide_unpack _); vm_compute; exact I).
  split; [exact Hwf |].
  eexists. split; [vm_compute; reflexivity |].
  split; [reflexivity |]. split; [reflexivity |].
  refine (proj2 (proj2 (canonicalizeValueLifetime_counts_created_instructions
                          exampleHost 10 (InstResult 0)
                          (exampleState false copyConsumedTwice
                             (InstResult 0))
                          _ true Hwf _))).
  vm_compute. reflexivity.
Defined.

(** X5: step 1 writes to liveness and to its three records only: when
    [computeCanonicalLiveness] returns, with true or with false, the
    function, the current def, the mode, the final consumes and the
    statistics are as before; every destroy it recorded is a destroy_value
    of the function in a block recorded as consuming; every debug value it
    recorded is a debug_value of the function and the mode is prune-debug;
    and every block it recorded as consuming holds an instruction with a
    DestroyingConsume or ForwardingConsume operand. *)
Theorem computeCanonicalLiveness_records (host : Host) (fuel : nat)
    (st st' : CanonicalizeOSSALifetime) (ok : bool) :
  computeCanonicalLiveness host fuel st = Ret (ok, st') →
  stepOneRecords st st'.
Proof.
  intros Hrun.
  exact (computeCanonicalLivenessLoop_records host st fuel st st' _ ok
           (stepOneRecords_refl st) Hrun).
Qed.

Lemma computeCanonicalLiveness_records_witness :
  ∃ st0,
    initDef (InstResult 0) (exampleState false lateDestroy (InstResult 0))
    = Ret st0
    ∧ computeCanonicalLiveness exampleHost 10 st0
      = Ret (true, lateDestroyState)
    ∧ stepOneRecords st0 lateDestroyState.
Proof.
  eexists. split; [vm_compute; reflexivity |].
  split; [vm_compute; reflexivity |].
  apply (computeCanonicalLiveness_records exampleHost 10 _ lateDestroyState
           true).
  vm_compute. reflexivity.
Defined.

(** X6: the extension of liveness over overlapping access scopes writes to
    pruned liveness only: when [extendLivenessThroughOverlappingAccess]
    returns, the state is the one it started from with its liveness
    replaced; the function, the records of step 1, the final consumes and
    the statistics are untouched. *)
Theorem extendLiveness_writes_liveness_only (host : Host)
    (st st' : CanonicalizeOSSALifetime) :
  extendLivenessThroughOverlappingAccess host st = Ret st' →
  st' = setLiveness (liveness st') st.
Proof.
  intros Hrun. exact (extendLivenessLoop_liveness host _ st st' Hrun).
Qed.

Lemma extendLiveness_writes_liveness_only_witness :
  ∃ st',
    extendLivenessThroughOverlappingAccess exampleHost useInsideAccessState
    = Ret st'
    ∧ isInterestingUser (liveness st') 3 = NonLifetimeEndingUse
    ∧ st' = setLiveness (liveness st') useInsideAccessState.
Proof.
  eexists. split; [vm_compute; reflexivity |].
  split; [vm_compute; reflexivity |].
  apply (extendLiveness_writes_liveness_only exampleHost
           useInsideAccessState).
  vm_compute. reflexivity.
Defined.

(** X7: in a function with no end_access and no end_unpaired_access the
    extension of liveness finds nothing to extend over: whatever the host's
    analyses answer, [extendLivenessThroughOverlappingAccess] returns the
    state it was given after one iteration. *)
Theorem extendLiveness_without_access_scopes (host : Host)
    (st : CanonicalizeOSSALifetime) :
  (∀ p, p ∈ fnInsts (func st) →
        isa EndAccessInst p.2 = false
        ∧ isa EndUnpairedAccessInst p.2 = false) →
  extendLivenessThroughOverlappingAccess host st = Ret st.
Proof.
  intros Hnone. unfold extendLivenessThroughOverlappingAccess.
  cbn [extendLivenessLoop].
  rewrite (extendLivenessStep_none host st Hnone). reflexivity.
Qed.

Lemma extendLiveness_without_access_scopes_witness :
  extendLivenessThroughOverlappingAccess exampleHost lateDestroyState
  = Ret lateDestroyState.
Proof.
  apply (extendLiveness_without_access_scopes exampleHost lateDestroyState).
  apply Forall_forall. apply (bool_decide_unpack _). vm_compute. exact I.
Defined.

(** X8: the backward scan of a LiveWithin block records the final consume
    behind the last user. In a well-formed function, when
    [findOrInsertDestroyInBlock] returns for [bb], then either the
    terminator of [bb] is a user that does not end the lifetime (the
    destroys then go to the successors), or the final consume recorded for
    [bb] is an instruction of [bb] and no instruction behind it in the
    block is a user of the current def in pruned liveness. *)
Theorem findOrInsertDestroyInBlock_consume_behind_users (host : Host)
    (bb : BlockId) (st st' : CanonicalizeOSSALifetime) :
  wfFunction (func st) →
  findOrInsertDestroyInBlock host bb st = Ret st' →
  (∃ term,
     term ∈ blockInsts (func st) bb
     ∧ isTermInst (instKind term) = true
     ∧ isInterestingUser (liveness st) (instId term) = NonLifetimeEndingUse)
  ∨ consumeBehindUsers (liveness st) st' bb.
Proof.
  intros Hwf. unfold findOrInsertDestroyInBlock.
  destruct (getTerminator (blockInsts (func st) bb)) as [t |];
    cbn [deref mbind Outcome_bind]; [| discriminate].
  intros Hrun.
  apply (findOrInsertDestroyInBlockFrom_behind host bb
           (pred (length (blockInsts (func st) bb))) None st st' Hwf);
    [discriminate | | exact Hrun].
  destruct (blockInsts (func st) bb) as [| x l]; [constructor |].
  cbn [length pred drop]. rewrite drop_all. constructor.
Qed.

Lemma findOrInsertDestroyInBlock_consume_behind_users_witness :
  wfFunction (func lateDestroyState)
  ∧ ∃ st',
      findOrInsertDestroyInBlock exampleHost 0 lateDestroyState = Ret st'
      ∧ finalBlockConsumes (consumes st') !! 0 = Some 5
      ∧ ((∃ term,
            term ∈ blockInsts (func lateDestroyState) 0
            ∧ isTermInst (instKind term) = true
            ∧ isInterestingUser (liveness lateDestroyState) (instId term)
              = NonLifetimeEndingUse)
         ∨ consumeBehindUsers (liveness lateDestroyState) st' 0).
Proof.
  assert (wfFunction (func lateDestroyState)) as Hwf
    by (apply (bool_decide_unpack _); vm_compute; exact I).
  split; [exact Hwf |].
  eexists. split; [vm_compute; reflexivity |].
  split; [vm_compute; reflexivity |].
  apply (findOrInsertDestroyInBlock_consume_behind_users exampleHost 0
           lateDestroyState _ Hwf).
  vm_compute. reflexivity.
Defined.

(** X9: step 2 records final consumes where they are. In a well-formed
    function, when every final consume recorded so far is an instruction of
    the block it is recorded for, the same holds when
    [findOrInsertDestroys] returns: each block's final consume is an
    instruction of that block in the function with the destroys added. *)
Theorem findOrInsertDestroys_consumes_located (host : Host)
    (st st' : CanonicalizeOSSALifetime) (wl : GraphNodeWorklist BlockId) :
  wfFunction (func st) →
  consumesLocated st →
  findOrInsertDestroys host st = Ret (st', wl) →
  consumesLocated st'.
Proof.
  intros Hwf Hloc Hrun.
  exact (findOrInsertDestroys_located host st st' wl Hwf Hloc Hrun).
Qed.

Lemma findOrInsertDestroys_consumes_located_witness :
  wfFunction (func useByTerminatorState)
  ∧ consumesLocated useByTerminatorState
  ∧ ∃ st' wl,
      findOrInsertDestroys exampleHost useByTerminatorState = Ret (st', wl)
      ∧ finalBlockConsumes (consumes st') = {[2 := 4; 3 := 6]}
      ∧ consumesLocated st'.
Proof.
  assert (wfFunction (func useByTerminatorState)) as Hwf
    by (apply (bool_decide_unpack _); vm_compute; exact I).
  assert (consumesLocated useByTerminatorState) as Hloc.
  { intros bb c Hc. vm_compute in Hc. discriminate Hc. }
  split; [exact Hwf |]. split; [exact Hloc |].
  eexists. eexists. split; [vm_compute; reflexivity |].
  split; [vm_compute; reflexivity |].
  eapply (findOrInsertDestroys_consumes_located exampleHost
            useByTerminatorState _ _ Hwf Hloc).
  vm_compute. reflexivity.
Defined.

(** X11: step 3 adds copies only. In a well-formed function, when
    [rewriteCopies] returns, every instruction of the function either was
    there before, in the same block and with the same identity, kind and
    successors, or is a copy_value with a fresh identity; the number of
    instructions created is exactly the increase of NumCopiesGenerated,
    and NumDestroysGenerated is unchanged. *)
Theorem rewriteCopies_adds_copies_only (host : Host)
    (st st' : CanonicalizeOSSALifetime) :
  wfFunction (func st) →
  rewriteCopies host st = Ret st' →
  copiesAdded (func st) (func st')
  ∧ NumCopiesGenerated (statistics st') + fnNextInst (func st)
    = NumCopiesGenerated (statistics st) + fnNextInst (func st')
  ∧ NumDestroysGenerated (statistics st')
    = NumDestroysGenerated (statistics st).
Proof.
  intros Hwf Hrun.
  destruct (rewriteCopies_added host st st' Hwf Hrun)
    as (Hadd & _ & Hgen & Hdes).
  auto.
Qed.

Lemma rewriteCopies_adds_copies_only_witness :
  wfFunction (func (rwCanon copyConsumedTwiceRewrite))
  ∧ ∃ st1 wl st',
      findOrInsertDestroys exampleHost (rwCanon copyConsumedTwiceRewrite)
      = Ret (st1, wl)
      ∧ func st1 = copyConsumedTwice
      ∧ rewriteCopies exampleHost st1 = Ret st'
      ∧ instKind <$> blockInsts (func st') 0 !! 3 = Some CopyValueInst
      ∧ copiesAdded (func st1) (func st').
Proof.
  assert (wfFunction (func (rwCanon copyConsumedTwiceRewrite))) as Hwf
    by (apply (bool_decide_unpack _); vm_compute; exact I).
  split; [exact Hwf |].
  eexists. eexists. eexists. split; [vm_compute; reflexivity |].
  split; [reflexivity |].
  split; [vm_compute; reflexivity |].
  split; [reflexivity |].
  match goal with
  | |- copiesAdded (func ?st1) (func ?st') =>
      refine (proj1 (rewriteCopies_adds_copies_only exampleHost st1 st'
                       Hwf _))
  end.
  vm_compute. reflexivity.
Defined.

(** *** The copy short-circuit on owned copies *)

Lemma operandValue_operandAt (fn : SILFunction) (use : Operand) :
  operandValue fn use = operandAt fn (instId (opUser use)) (opIndex use).
Proof. reflexivity. Qed.

Lemma getBlock_blockInsts (fn : SILFunction) (bb : BlockId)
    (inst : SILInstruction) :
  inst ∈ blockInsts fn bb → is_Some (getBlock fn bb).
Proof.
  unfold blockInsts. destruct (getBlock fn bb); [eauto |].
  intros Hin. inversion Hin.
Qed.

(** [copyLiveUse] on an operand of the function returns, and puts a copy of
    the value the operand held in the block of the user. *)
Lemma copyLiveUse_returns (v : SILValue) (use : Operand)
    (st : CanonicalizeOSSALifetime) (user : SILInstruction) :
  wfFunction (func st) →
  findInst (func st) (instId (opUser use)) = Some (opParentBlock use, user) →
  operandAt (func st) (instId (opUser use)) (opIndex use) = Some v →
  ∃ st',
    copyLiveUse use st = Ret st'
    ∧ fnNextInst (func st') = S (fnNextInst (func st))
    ∧ operandAt (func st') (instId (opUser use)) (opIndex use)
      = Some (InstResult (fnNextInst (func st)))
    ∧ findInst (func st') (fnNextInst (func st))
      = Some (opParentBlock use,
              mkInst (fnNextInst (func st)) CopyValueInst
                [(v, InstantaneousUse)] [])
    ∧ (∀ i, i ≠ fnNextInst (func st) →
         instParent (func st') i = instParent (func st) i).
Proof.
  intros Hwf Hfind Hat. unfold copyLiveUse.
  pose proof (findInst_Some _ _ _ Hfind) as [Hin Hid]. cbn [fst snd] in *.
  pose proof (fnInsts_blockInsts _ _ _ Hwf Hin) as Hblock.
  destruct (instIndex_elem_of _ _ _ Hblock Hid) as [pos Hpos].
  rewrite Hpos. cbn [deref mbind Outcome_bind].
  rewrite operandValue_operandAt, Hat. cbn [deref mbind Outcome_bind].
  eexists. split; [reflexivity |].
  cbn [func setFunc incNumCopiesGenerated setStatistics].
  assert (instId (opUser use) ≠ fnNextInst (func st)) as Hne
    by (eapply findInst_lt_next; eassumption).
  set (r := createInst (opParentBlock use) pos CopyValueInst
              [(v, InstantaneousUse)] (func st)).
  assert (wfFunction r.2) as Hwf' by (apply wfFunction_createInst, Hwf).
  assert (∀ x : SILInstruction,
            instId (if decide (instId x = instId (opUser use))
                    then mkInst (instId x) (instKind x)
                           (alter (fun p => (InstResult (instId r.1), p.2))
                                  (opIndex use) (instOperands x))
                           (instSuccessors x)
                    else x) = instId x) as Hids
    by (intros x; destruct (decide _); reflexivity).
  split; [reflexivity |]. split.
  { apply operandAt_setOperand_same. unfold r.
    rewrite operandAt_createInst by assumption. rewrite Hat. eauto. }
  split.
  - unfold setOperand. rewrite findInst_mapInsts by exact Hids.
    rewrite (findInst_wf r.2 (fnNextInst (func st))
               (opParentBlock use, r.1) Hwf').
    + cbn [fmap option_fmap option_map fst snd r createInst instId].
      rewrite decide_False by congruence. reflexivity.
    + unfold r. rewrite fnInsts_createInst;
        [left | exact Hwf | eapply getBlock_blockInsts, Hblock].
    + reflexivity.
  - intros i Hi. unfold instParent, setOperand.
    rewrite findInst_mapInsts by exact Hids.
    unfold r. rewrite findInst_createInst by assumption.
    destruct (findInst (func st) i); reflexivity.
Qed.

Section OwnedCopies.

Variable host : Host.

Lemma visitUse_false_ending (use : Operand) (rw : RewriteState) :
  (visitUse host use rw).1 = false → isLifetimeEnding host use = true.
Proof.
  unfold visitUse.
  destruct (isa CopyValueInst (opUser use)); [discriminate |].
  destruct (isa DestroyValueInst (opUser use)).
  { destruct (claimConsume _ _ _) as [[] ?]; discriminate. }
  destruct (isLifetimeEnding host use); [reflexivity | discriminate].
Qed.

Lemma usesNeedingCopy_elem (uses : list Operand) :
  ∀ rw u,
    u ∈ usesNeedingCopy host uses rw →
    u ∈ uses ∧ isLifetimeEnding host u = true.
Proof.
  induction uses as [| use rest IH]; intros rw u; cbn [usesNeedingCopy].
  { intros Hu. inversion Hu. }
  destruct (visitUse host use rw) as [ok rw1] eqn:Hvisit. cbn [fst snd].
  destruct ok.
  - intros Hu. destruct (IH _ _ Hu). split; [right |]; assumption.
  - intros Hu. apply elem_of_cons in Hu as [-> | Hu].
    + split; [left |]. apply (visitUse_false_ending use rw).
      rewrite Hvisit. reflexivity.
    + destruct (IH _ _ Hu). split; [right |]; assumption.
Qed.

Lemma usesNeedingCopy_sublist (uses : list Operand) :
  ∀ rw, sublist (usesNeedingCopy host uses rw) uses.
Proof.
  induction uses as [| use rest IH]; intros rw; cbn [usesNeedingCopy];
    [constructor |].
  destruct (visitUse host use rw) as [[] rw1]; cbn [fst snd].
  - apply sublist_cons, IH.
  - apply sublist_skip, IH.
Qed.

Lemma firstUseInBlock_elem (srcBB : BlockId) (needing : list Operand)
    (u : Operand) :
  firstUseInBlock srcBB needing = Some u →
  u ∈ needing ∧ opParentBlock u = srcBB.
Proof.
  induction needing as [| x l IH]; cbn [firstUseInBlock]; [discriminate |].
  destruct (decide (srcBB = opParentBlock x)) as [-> | Hne].
  - intros [= <-]. split; [left | reflexivity].
  - intros Hu. destruct (IH Hu). split; [right |]; assumption.
Qed.

Lemma firstUseInBlock_None (srcBB : BlockId) (needing : list Operand)
    (u : Operand) :
  firstUseInBlock srcBB needing = None → u ∈ needing →
  opParentBlock u ≠ srcBB.
Proof.
  induction needing as [| x l IH]; cbn [firstUseInBlock];
    [intros _ Hu; inversion Hu |].
  destruct (decide (srcBB = opParentBlock x)) as [-> | Hne]; [discriminate |].
  intros Hnone Hu. apply elem_of_cons in Hu as [-> | Hu]; [congruence |].
  apply IH; assumption.
Qed.

(** When a use in the block of the copy is the only one of its kind, the
    first use in the block is the only use. *)
Lemma firstUseInBlock_only (srcBB : BlockId) (needing : list Operand) :
  NoDup needing →
  (∀ u1 u2, u1 ∈ needing → u2 ∈ needing →
            opParentBlock u1 = srcBB → u2 = u1) →
  firstUseInBlock srcBB needing = onlyUseInBlock srcBB needing.
Proof.
  intros Hnd Hone.
  destruct (firstUseInBlock srcBB needing) as [u |] eqn:Hfirst.
  - destruct (firstUseInBlock_elem _ _ _ Hfirst) as [Hu Hbb].
    destruct needing as [| x [| y l]]; [inversion Hu | |].
    + apply list_elem_of_singleton in Hu as ->.
      cbn [onlyUseInBlock]. rewrite decide_True by congruence. reflexivity.
    + exfalso.
      assert (x = u) as -> by (apply (Hone u x); [exact Hu | left | exact Hbb]).
      assert (y = u) as ->
        by (apply (Hone u y); [exact Hu | right; left | exact Hbb]).
      apply NoDup_cons in Hnd as [Hnotin _]. apply Hnotin. left.
  - destruct needing as [| x [| y l]]; cbn [onlyUseInBlock]; try reflexivity.
    rewrite decide_False; [reflexivity |].
    intros Hbb. apply (firstUseInBlock_None _ _ x Hfirst); [left | congruence].
Qed.

Lemma consumedOnceInBlock_one (fn : SILFunction) (c : InstId)
    (srcBB : BlockId) (u1 u2 : Operand) :
  consumedOnceInBlock host fn c srcBB →
  u1 ∈ getUses fn (InstResult c) → u2 ∈ getUses fn (InstResult c) →
  isLifetimeEnding host u1 = true → isLifetimeEnding host u2 = true →
  opParentBlock u1 = srcBB → u2 = u1.
Proof.
  unfold consumedOnceInBlock. cbn zeta.
  set (ending := filter _ _). intros Hone Hu1 Hu2 He1 He2 Hbb.
  assert (u1 ∈ ending) as Hin1 by (apply list_elem_of_filter; auto).
  assert (u2 ∈ ending) as Hin2 by (apply list_elem_of_filter; auto).
  specialize (Hone ltac:(apply Exists_exists; eauto)).
  destruct ending as [| x [| y l]]; cbn in Hone; try discriminate.
  apply list_elem_of_singleton in Hin1, Hin2. congruence.
Qed.

End OwnedCopies.

Section TraversalOfCopyUses.

Variable host : Host.

Lemma instParent_findInst (fn : SILFunction) (i : InstId) (bb : BlockId) :
  instParent fn i = Some bb → ∃ inst, findInst fn i = Some (bb, inst).
Proof.
  unfold instParent. destruct (findInst fn i) as [[b inst] |]; [| discriminate].
  intros [= <-]. eauto.
Qed.

Lemma instParent_lt_next (fn : SILFunction) (i : InstId) (bb : BlockId) :
  wfFunction fn → instParent fn i = Some bb → i < fnNextInst fn.
Proof.
  intros Hwf Hparent.
  destruct (instParent_findInst _ _ _ Hparent) as [inst Hfind].
  apply findInst_Some in Hfind as [Hin <-].
  destruct Hwf as (_ & _ & Hlt). rewrite Forall_forall in Hlt. apply Hlt.
  unfold instIds. apply list_elem_of_fmap. eauto.
Qed.

Lemma usesCopied_refl (c : InstId) (reusedOp : option Operand)
    (fn : SILFunction) :
  usesCopied c [] reusedOp fn fn.
Proof.
  split; [intros u Hu; inversion Hu | auto].
Qed.

(** The traversal of the uses of the copy [c] returns, and copies the uses
    that needed a copy, but for the reused one. *)
Lemma rewriteCopyUses_effect (c : InstId) (srcBB : BlockId)
    (src : SILInstruction) (uses : list Operand) :
  isa CopyValueInst src = true →
  ∀ (rw : RewriteState) (reused : option Operand),
  wfFunction (func (rwCanon rw)) →
  findInst (func (rwCanon rw)) c = Some (srcBB, src) →
  c ∉ instsToDelete rw →
  NoDup (usePos <$> uses) →
  (∀ u, u ∈ uses → instId (opUser u) = c → opUser u = src) →
  (∀ u, u ∈ uses →
     operandAt (func (rwCanon rw)) (instId (opUser u)) (opIndex u)
     = Some (InstResult c)) →
  (∀ u, u ∈ uses →
     instParent (func (rwCanon rw)) (instId (opUser u))
     = Some (opParentBlock u)) →
  (∀ u, reused = Some u →
     operandAt (func (rwCanon rw)) (instId (opUser u)) (opIndex u)
     = Some (InstResult c)
     ∧ usePos u ∉ usePos <$> uses) →
  ∃ rw' reused',
    rewriteCopyUses host srcBB uses rw reused = Ret (rw', reused')
    ∧ usesCopied c (usesNeedingCopy host uses rw) reused'
        (func (rwCanon rw)) (func (rwCanon rw'))
    ∧ (∀ i p, (∀ u, u ∈ uses → instId (opUser u) ≠ i) →
         findInst (func (rwCanon rw)) i = Some p →
         findInst (func (rwCanon rw')) i = Some p)
    ∧ (∀ i, i < fnNextInst (func (rwCanon rw)) →
         instParent (func (rwCanon rw')) i
         = instParent (func (rwCanon rw)) i)
    ∧ fnNextInst (func (rwCanon rw)) ≤ fnNextInst (func (rwCanon rw')).
Proof.
  intros Hsrc. induction uses as [| use rest IH];
    intros rw reused Hwf Hfind Hdel Hnd Hself Hheld Hparent Hreused.
  { exists rw, reused. split; [reflexivity |].
    split; [apply usesCopied_refl |]. auto. }
  rewrite fmap_cons in Hnd. apply NoDup_cons in Hnd as [Hfresh Hnd].
  assert (∀ u, u ∈ rest → usePos u ≠ usePos use) as Hother.
  { intros u Hu Heq. apply Hfresh. rewrite <- Heq.
    apply list_elem_of_fmap. eauto. }
  assert (∀ u, u ∈ rest → instId (opUser u) = c → opUser u = src) as Hself'
    by (intros u Hu; apply Hself; right; exact Hu).
  cbn [rewriteCopyUses usesNeedingCopy]. unfold rewriteCopyUse.
  pose proof (visitUse_func host use rw) as Hvfunc.
  pose proof (visitUse_instsToDelete host use rw c) as Hvdel.
  pose proof (visitUse_false host use rw) as Hvfalse.
  destruct (visitUse host use rw) as [ok rw1]. cbn [fst snd] in *.
  destruct ok.
  - (* the use keeps its operand *)
    cbn [mbind Outcome_bind].
    assert (c ∉ instsToDelete rw1) as Hdel1.
    { intros Hin. destruct (Hvdel Hin) as [? | [Hid Hdestroy]]; [auto |].
      rewrite (Hself use) in Hdestroy by (left || auto).
      unfold isa in *. apply bool_decide_eq_true in Hsrc, Hdestroy.
      congruence. }
    destruct (IH rw1 reused) as (rw' & reused' & Hrun & Hcopied & Hkeep
                                  & Hpar & Hnext); try assumption.
    + rewrite Hvfunc. exact Hwf.
    + rewrite Hvfunc. exact Hfind.
    + intros u Hu. rewrite Hvfunc. apply Hheld. right. exact Hu.
    + intros u Hu. rewrite Hvfunc. apply Hparent. right. exact Hu.
    + intros u Hu. rewrite Hvfunc. destruct (Hreused u Hu) as [Hat Hpos].
      split; [exact Hat |]. rewrite fmap_cons in Hpos.
      apply not_elem_of_cons in Hpos. tauto.
    + rewrite Hvfunc in *. exists rw', reused'.
      split; [exact Hrun |]. split; [exact Hcopied |].
      split; [| auto].
      intros i p Hi. apply Hkeep. intros u Hu. apply Hi. right. exact Hu.
  - (* the use needs a copy *)
    destruct (Hvfalse eq_refl) as [Hnocopy ->]. clear Hvfalse Hvfunc Hvdel.
    assert (instId (opUser use) ≠ c) as Hnotsrc.
    { intros Hid. rewrite (Hself use) in Hnocopy by (left || auto).
      congruence. }
    destruct (instParent_findInst _ _ _ (Hparent use ltac:(left)))
      as [user Huser].
    destruct (copyLiveUse_returns (InstResult c) use (rwCanon rw) user Hwf
                Huser (Hheld use ltac:(left)))
      as (st' & Hcopy & Hnext' & Hat' & Hnew & Hpar').
    destruct (copyLiveUse_inv use (rwCanon rw) st' Hwf Hcopy)
      as (Hwf' & Hcons & Hkeepat & Hkeepfind).
    (* the traversal of the rest after the copy *)
    assert (∀ reused1,
              (∀ u, reused1 = Some u →
                 operandAt (func (rwCanon rw)) (instId (opUser u)) (opIndex u)
                 = Some (InstResult c)
                 ∧ usePos u ≠ usePos use ∧ usePos u ∉ usePos <$> rest) →
              ∃ rw' reused',
                rewriteCopyUses host srcBB rest (setCanon st' rw) reused1
                = Ret (rw', reused')
                ∧ usesCopied c (use :: usesNeedingCopy host rest rw) reused'
                    (func (rwCanon rw)) (func (rwCanon rw'))
                ∧ (∀ i p, (∀ u, u ∈ use :: rest → instId (opUser u) ≠ i) →
                     findInst (func (rwCanon rw)) i = Some p →
                     findInst (func (rwCanon rw')) i = Some p)
                ∧ (∀ i, i < fnNextInst (func (rwCanon rw)) →
                     instParent (func (rwCanon rw')) i
                     = instParent (func (rwCanon rw)) i)
                ∧ fnNextInst (func (rwCanon rw))
                  ≤ fnNextInst (func (rwCanon rw'))) as Hcopied.
    { intros reused1 Hreused1.
      destruct (IH (setCanon st' rw) reused1)
        as (rw' & reused' & Hrun & [Hcopies Hsame] & Hkeep & Hpar & Hnext);
        cbn [rwCanon setCanon instsToDelete]; try assumption.
      { apply Hkeepfind; [congruence | exact Hfind]. }
      { intros u Hu. apply Hkeepat; [apply Hother, Hu |].
        apply Hheld. right. exact Hu. }
      { intros u Hu. rewrite Hpar'; [apply Hparent; right; exact Hu |].
        pose proof (instParent_lt_next _ _ _ Hwf
                      (Hparent u ltac:(right; exact Hu))). lia. }
      { intros u Hu. destruct (Hreused1 u Hu) as (Hat & Hne & Hnotin).
        split; [| exact Hnotin]. apply Hkeepat; assumption. }
      cbn [rwCanon setCanon] in *.
      rewrite (usesNeedingCopy_consumes host rest (setCanon st' rw) rw)
        in Hcopies, Hsame by (cbn [rwCanon setCanon]; congruence).
      pose proof (rewriteCopyUses_inv host c srcBB src rest Hsrc
                    (setCanon st' rw) reused1 rw' reused') as Hinv.
      cbn [rwCanon setCanon instsToDelete] in Hinv.
      destruct Hinv as (_ & _ & _ & _ & Hreused'); try assumption.
      { apply Hkeepfind; [congruence | exact Hfind]. }
      { intros u Hu. apply Hkeepat; [apply Hother, Hu |].
        apply Hheld. right. exact Hu. }
      { intros u Hu. destruct (Hreused1 u Hu) as (Hat & Hne & Hnotin).
        split; [| exact Hnotin]. apply Hkeepat; assumption. }
      assert (reused' ≠ Some use) as Hnotuse.
      { rewrite Hreused'. destruct reused1 as [w |].
        - destruct (Hreused1 w eq_refl) as (_ & Hne & _). congruence.
        - intros Hfirst. apply firstUseInBlock_elem in Hfirst as [Hin _].
          apply usesNeedingCopy_elem in Hin as [Hin _].
          exact (Hother use Hin eq_refl). }
      exists rw', reused'. split; [exact Hrun |]. split; [split |].
      - intros u Hu Hnot. apply elem_of_cons in Hu as [-> | Hu].
        + exists (fnNextInst (func (rwCanon rw))). split; [lia |]. split.
          * apply Hsame; [| exact Hat'].
            intros u Hu _ Heq. apply usesNeedingCopy_elem in Hu as [Hu _].
            exact (Hother u Hu Heq).
          * apply Hkeep; [| exact Hnew].
            intros u Hu Heq.
            pose proof (instParent_lt_next _ _ _ Hwf
                          (Hparent u ltac:(right; exact Hu))). lia.
        + destruct (Hcopies u Hu Hnot) as (f & Hf & Hatf & Hfindf).
          exists f. split; [lia |]. auto.
      - intros i idx w Hpos Hat. apply Hsame.
        + intros u Hu Hnot. apply Hpos; [right; exact Hu | exact Hnot].
        + apply Hkeepat; [| exact Hat].
          intros Heq. apply (Hpos use); [left | exact Hnotuse |].
          symmetry. exact Heq.
      - split; [| split].
        + intros i p Hi Hp. apply Hkeep.
          * intros u Hu. apply Hi. right. exact Hu.
          * apply Hkeepfind; [| exact Hp].
            intros ->. exact (Hi use ltac:(left) eq_refl).
        + intros i Hi. rewrite Hpar by lia. apply Hpar'. lia.
        + lia. }
    destruct reused as [w |].
    + rewrite Hcopy. cbn [mbind Outcome_bind].
      apply (Hcopied (Some w)).
      intros u [= <-]. destruct (Hreused w eq_refl) as [Hat Hpos].
      rewrite fmap_cons in Hpos. apply not_elem_of_cons in Hpos as [? ?].
      auto.
    + destruct (decide (srcBB = opParentBlock use)) as [Hbb | Hbb].
      * (* the copy is kept for this use *)
        destruct (IH rw (Some use))
          as (rw' & reused' & Hrun & [Hcopies Hsame] & Hkeep & Hpar & Hnext);
          try assumption.
        { intros u Hu. apply Hheld. right. exact Hu. }
        { intros u Hu. apply Hparent. right. exact Hu. }
        { intros u [= <-]. split; [apply Hheld; left | exact Hfresh]. }
        pose proof (rewriteCopyUses_inv host c srcBB src rest Hsrc
                      rw (Some use) rw' reused') as Hinv.
        destruct Hinv as (_ & _ & _ & _ & Hreused'); try assumption.
        { intros u Hu. apply Hheld. right. exact Hu. }
        { intros u [= <-]. split; [apply Hheld; left | exact Hfresh]. }
        exists rw', reused'. split; [exact Hrun |]. split; [split |].
        -- intros u Hu Hnot. apply elem_of_cons in Hu as [-> | Hu];
             [congruence |]. apply Hcopies; assumption.
        -- intros i idx w Hpos. apply Hsame.
           intros u Hu Hnot. apply Hpos; [right; exact Hu | exact Hnot].
        -- split; [| auto].
           intros i p Hi. apply Hkeep. intros u Hu. apply Hi. right. exact Hu.
      * rewrite Hcopy. cbn [mbind Outcome_bind].
        apply (Hcopied None). intros u [=].
Qed.

End TraversalOfCopyUses.

Section ShortCircuitOfOwnedCopies.

Variable host : Host.

Lemma getUses_parent (fn : SILFunction) (v : SILValue) (u : Operand) :
  wfFunction fn → u ∈ getUses fn v →
  instParent fn (instId (opUser u)) = Some (opParentBlock u).
Proof.
  intros Hwf Hu.
  apply elem_of_getUses in Hu as (bb & inst & idx & own & Hin & _ & ->).
  cbn [opUser opParentBlock]. unfold instParent.
  rewrite (findInst_wf fn (instId inst) (bb, inst) Hwf Hin eq_refl).
  reflexivity.
Qed.

(** The code's rule: the copy is kept for the first use, in the order of
    the visit, that needed a copy and is in the block of the copy. *)
Lemma rewriteCopy_reuses_first_use_in_block (c : InstId) (srcBB : BlockId)
    (src : SILInstruction) (operand : SILValue) (rw : RewriteState) :
  wfFunction (func (rwCanon rw)) →
  c ∉ instsToDelete rw →
  findInst (func (rwCanon rw)) c = Some (srcBB, src) →
  isa CopyValueInst src = true →
  getOperand src = Some operand →
  operand ≠ InstResult c →
  copyShortCircuit firstUseInBlock host c srcBB operand rw.
Proof.
  intros Hwf Hdel Hfind Hsrc Hoperand Hne uses Hperm. cbn zeta.
  assert (∀ u, u ∈ uses → u ∈ getUses (func (rwCanon rw)) (InstResult c))
    as Huses by (intros u Hu; rewrite <- Hperm; exact Hu).
  assert (NoDup (usePos <$> uses)) as Hnd
    by (rewrite Hperm; apply NoDup_usePos_getUses, Hwf).
  assert (∀ u, u ∈ uses → instId (opUser u) = c → opUser u = src) as Hself.
  { intros u Hu Hid. apply Huses in Hu.
    apply elem_of_getUses in Hu as (bb & inst & idx & own & Hin & _ & ->).
    cbn [opUser] in *. pose proof (findInst_Some _ _ _ Hfind) as [Hin' Hid'].
    pose proof (fnInsts_same_id _ (bb, inst) (srcBB, src) Hwf Hin Hin')
      as Heq.
    cbn [fst snd] in *. injection (Heq ltac:(congruence)) as _ ->.
    reflexivity. }
  assert (∀ u, u ∈ uses →
            operandAt (func (rwCanon rw)) (instId (opUser u)) (opIndex u)
            = Some (InstResult c)) as Hheld
    by (intros u Hu; apply (getUses_operandAt _ _ _ Hwf), Huses, Hu).
  assert (∀ u, u ∈ uses →
            instParent (func (rwCanon rw)) (instId (opUser u))
            = Some (opParentBlock u)) as Hparent
    by (intros u Hu; apply (getUses_parent _ (InstResult c)), Huses, Hu;
        exact Hwf).
  destruct (rewriteCopyUses_effect host c srcBB src uses Hsrc rw None)
    as (rw1 & reused1 & Hrun & Hcopied & _); try assumption.
  { intros u [=]. }
  destruct (rewriteCopyUses_inv host c srcBB src uses Hsrc rw None rw1
              reused1)
    as (Hwf1 & Hfind1 & Hdel1 & Hheld1 & ->); try assumption.
  { intros u [=]. }
  set (needing := usesNeedingCopy host uses rw) in *.
  assert (∃ rw',
            finishCopy c (firstUseInBlock srcBB needing) rw1 = Ret rw'
            ∧ (∀ i idx w,
                 w ≠ InstResult c →
                 operandAt (func (rwCanon rw1)) i idx = Some w →
                 operandAt (func (rwCanon rw')) i idx = Some w)
            ∧ match firstUseInBlock srcBB needing with
              | Some use => copyReusedFor c operand use rw1 rw'
              | None => copyReplaced c operand rw1 rw'
              end) as (rw' & Hfin & Hothers & Hresult).
  { unfold finishCopy.
    destruct (firstUseInBlock srcBB needing) as [use |] eqn:Hfirst.
    - specialize (Hheld1 use eq_refl).
      destruct (hasOneUse (func (rwCanon rw1)) (InstResult c)) eqn:Hone.
      + (* the reused operand is the only use of the copy *)
        rewrite bool_decide_eq_true_2 by eauto. cbn [andb].
        exists rw1. split; [reflexivity |]. split; [auto |].
        unfold hasOneUse in Hone. apply bool_decide_eq_true in Hone.
        destruct (operandAt_getUses _ _ _ _ Hheld1) as (op' & Hop' & Hpos').
        destruct (getUses (func (rwCanon rw1)) (InstResult c))
          as [| x [| y l]] eqn:Hlist; cbn in Hone; try discriminate.
        apply list_elem_of_singleton in Hop'. subst x.
        split; [exact Hdel1 |]. split; [exact Hheld1 |]. split.
        * intros op Hop. rewrite Hlist in Hop.
          apply list_elem_of_singleton in Hop. subst. exact Hpos'.
        * intros i idx Hpos Hat.
          destruct (operandAt_getUses _ _ _ _ Hat) as (op & Hop & Hposop).
          rewrite Hlist in Hop. apply list_elem_of_singleton in Hop. subst.
          unfold usePos in *. congruence.
      + rewrite andb_false_r. rewrite Hfind1. cbn [deref mbind Outcome_bind snd].
        rewrite Hoperand. cbn [deref mbind Outcome_bind].
        eexists. split; [reflexivity |]. unfold copyReusedFor.
        cbn [rwCanon setCanon func setFunc instsToDelete]. split.
        * intros i idx w Hw Hat.
          rewrite operandAt_setOperand_other
            by (intros [= -> ->]; congruence).
          rewrite operandAt_replaceAllUsesWith, Hat. cbn.
          rewrite decide_False by exact Hw. reflexivity.
        * split; [exact Hdel1 |]. split.
          { apply operandAt_setOperand_same.
            rewrite operandAt_replaceAllUsesWith, Hheld1. cbn. eauto. }
          split.
          { intros op Hop.
            apply (getUses_setOperand_replaced _ _ _ _ _ _ Hne Hop). }
          intros i idx Hpos Hat. unfold usePos in Hpos.
          rewrite operandAt_setOperand_other by exact Hpos.
          rewrite operandAt_replaceAllUsesWith, Hat. cbn.
          rewrite decide_True by reflexivity. reflexivity.
    - cbn [andb]. rewrite bool_decide_eq_false_2 by (intros [? [=]]).
      cbn [andb]. rewrite Hfind1. cbn [deref mbind Outcome_bind snd].
      rewrite Hoperand. cbn [deref mbind Outcome_bind].
      rewrite decide_False by exact Hdel1.
      eexists. split; [reflexivity |]. unfold copyReplaced.
      cbn [rwCanon setCanon func setFunc instsToDelete
           incNumCopiesEliminated setStatistics].
      split.
      + intros i idx w Hw Hat.
        rewrite operandAt_replaceAllUsesWith, Hat. cbn.
        rewrite decide_False by exact Hw. reflexivity.
      + split; [apply elem_of_app; right; left |]. split.
        * apply getUses_replaceAllUsesWith, Hne.
        * intros i idx Hat.
          rewrite operandAt_replaceAllUsesWith, Hat. cbn.
          rewrite decide_True by reflexivity. reflexivity. }
  exists rw1, rw'. split; [exact Hrun |]. split; [exact Hfin |].
  split; [| auto].
  intros ->. unfold rewriteCopy. rewrite Hfind.
  cbn [deref mbind Outcome_bind fst snd]. rewrite Hsrc.
  cbn [assert mbind Outcome_bind]. rewrite Hrun.
  cbn [mbind Outcome_bind]. exact Hfin.
Qed.

(** C8: what step 3 does with a copy [c] when its uses have been visited,
    in whatever order the use list gives them. On a function in ownership
    SSA form (a lifetime-ending use of [c] in the block of [c] is its only
    lifetime-ending use), if exactly one use of [c] needed a copy and that
    use is in the block of [c], then [c] is kept for that use: it is not
    scheduled for deletion, the use holds [c] and is the only operand that
    does, and every other operand that held [c] holds the operand of [c].
    Otherwise every operand that held [c] holds the operand of [c], no
    operand holds [c], and [c] is scheduled for deletion. Both the
    traversal of the uses and what follows it return; the uses that needed
    a copy, but for the reused one, were given a fresh copy_value of [c] in
    their block, and no operand that held another value changes. *)
Theorem rewriteCopy_reuses_only_use_in_block (c : InstId) (srcBB : BlockId)
    (src : SILInstruction) (operand : SILValue) (rw : RewriteState) :
  wfFunction (func (rwCanon rw)) →
  c ∉ instsToDelete rw →
  findInst (func (rwCanon rw)) c = Some (srcBB, src) →
  isa CopyValueInst src = true →
  getOperand src = Some operand →
  operand ≠ InstResult c →
  consumedOnceInBlock host (func (rwCanon rw)) c srcBB →
  copyShortCircuit onlyUseInBlock host c srcBB operand rw.
Proof.
  intros Hwf Hdel Hfind Hsrc Hoperand Hne Honce uses Hperm.
  assert (firstUseInBlock srcBB (usesNeedingCopy host uses rw)
          = onlyUseInBlock srcBB (usesNeedingCopy host uses rw)) as Heq.
  { apply firstUseInBlock_only.
    - eapply sublist_NoDup; [| apply usesNeedingCopy_sublist].
      rewrite Hperm. apply NoDup_getUses, Hwf.
    - intros u1 u2 Hu1 Hu2 Hbb.
      apply usesNeedingCopy_elem in Hu1 as [Hu1 He1].
      apply usesNeedingCopy_elem in Hu2 as [Hu2 He2].
      rewrite Hperm in Hu1, Hu2.
      exact (consumedOnceInBlock_one host _ c srcBB u1 u2 Honce Hu1 Hu2
               He1 He2 Hbb). }
  pose proof (rewriteCopy_reuses_first_use_in_block c srcBB src operand rw
                Hwf Hdel Hfind Hsrc Hoperand Hne uses Hperm) as Hfirst.
  cbn zeta in *. rewrite Heq in Hfirst. exact Hfirst.
Qed.

End ShortCircuitOfOwnedCopies.

Lemma rewriteCopy_reuses_only_use_in_block_witness :
  copyShortCircuit onlyUseInBlock exampleHost 1 0 (InstResult 0)
    copyConsumedOnceRewrite
  ∧ (∃ rw',
       rewriteCopy exampleHost (InstResult 1) copyConsumedOnceRewrite
       = Ret rw'
       ∧ blockInsts (func (rwCanon rw')) 0
         = [producerInst 0; copyInst 1 (InstResult 0);
            useInst 2 (InstResult 0); consumeInst 3 (InstResult 1);
            consumeInst 4 (InstResult 0); returnInst 5]
       ∧ instsToDelete rw' = [])
  ∧ copyShortCircuit onlyUseInBlock exampleHost 1 0 (InstResult 0)
      copyDestroyedRewrite
  ∧ ∃ rw',
      rewriteCopy exampleHost (InstResult 1) copyDestroyedRewrite = Ret rw'
      ∧ blockInsts (func (rwCanon rw')) 0
        = [producerInst 0; copyInst 1 (InstResult 0);
           useInst 2 (InstResult 0); destroyInst 3 (InstResult 0);
           consumeInst 4 (InstResult 0); returnInst 5]
      ∧ instsToDelete rw' = [3; 1].
Proof.
  split.
  { apply (rewriteCopy_reuses_only_use_in_block exampleHost 1 0
             (copyInst 1 (InstResult 0)) (InstResult 0)
             copyConsumedOnceRewrite).
    - apply (bool_decide_unpack _). vm_compute. exact I.
    - apply (bool_decide_unpack _). vm_compute. exact I.
    - reflexivity.
    - reflexivity.
    - reflexivity.
    - discriminate.
    - apply (bool_decide_unpack _). vm_compute. exact I. }
  split.
  { eexists. split; [vm_compute; reflexivity |]. split; reflexivity. }
  split.
  { apply (rewriteCopy_reuses_only_use_in_block exampleHost 1 0
             (copyInst 1 (InstResult 0)) (InstResult 0)
             copyDestroyedRewrite).
    - apply (bool_decide_unpack _). vm_compute. exact I.
    - apply (bool_decide_unpack _). vm_compute. exact I.
    - reflexivity.
    - reflexivity.
    - reflexivity.
    - discriminate.
    - apply (bool_decide_unpack _). vm_compute. exact I. }
  eexists. split; [vm_compute; reflexivity |]. split; reflexivity.
Defined.

(** Outside ownership SSA the copy is kept for one of several uses that
    needed a copy: both consumes of %1 in [copyConsumedTwice] needed one,
    %1 is kept for one of them and the other is given a fresh copy. *)
Example copy_consumed_twice_is_kept :
  ¬ consumedOnceInBlock exampleHost copyConsumedTwice 1 0
  ∧ ∃ rw',
      rewriteCopy exampleHost (InstResult 1) copyConsumedTwiceRewrite
      = Ret rw'
      ∧ instsToDelete rw' = []
      ∧ NumCopiesGenerated (statistics (rwCanon rw')) = 1.
Proof.
  split.
  - apply (bool_decide_unpack _). vm_compute. exact I.
  - eexists. split; [vm_compute; reflexivity |]. split; reflexivity.
Qed.

(** *** Step 1: what is visited, and where it bails out *)

Section TraversalOfStepOne.

Variable host : Host.

(** One use in step 1: the current def is not touched, and the worklist
    receives the values of the use. *)
Lemma computeLivenessForUse_worklist (use : Operand)
    (st st' : CanonicalizeOSSALifetime) (wl wl' : GraphNodeWorklist SILValue)
    (ok : bool) :
  computeLivenessForUse host use st wl = Ret (ok, st', wl') →
  currentDef st' = currentDef st
  ∧ wl' = foldl (fun w r => worklistInsert r w) wl
            (valuesOfUse (currentDef st) (pruneDebugMode st) use).
Proof.
  unfold computeLivenessForUse, valuesOfUse.
  destruct (isa CopyValueInst (opUser use)); [intros [= <- <- <-]; auto |].
  destruct (pruneDebugMode st && isa DebugValueInst (opUser use)).
  { destruct (decide _); intros [= <- <- <-]; auto. }
  destruct (opOwnership use); try discriminate;
    try (intros [= <- <- <-]; auto; fail).
  - (* DestroyingConsume *)
    intros [= <- <- <-].
    destruct (isa DestroyValueInst (opUser use)); auto.
  - (* Reborrow *)
    destruct (negb (isa BranchInst (opUser use))).
    { destruct (isSingleValueInstruction host (opUser use));
        cbn [assert mbind Outcome_bind]; [| discriminate].
      intros [= <- <- <-]. auto. }
    destruct (bool_decide _); [intros [= <- <- <-]; auto |].
    destruct (head (instSuccessors (opUser use)));
      cbn [deref mbind Outcome_bind]; [| discriminate].
    intros [= <- <- <-]. auto.
Qed.

(** Step 1 returns at a use that is not a stopping use. *)
Lemma computeLivenessForUse_returns (use : Operand)
    (st : CanonicalizeOSSALifetime) (wl : GraphNodeWorklist SILValue) :
  ¬ stoppingUse host (currentDef st) (pruneDebugMode st) use →
  ∃ r, computeLivenessForUse host use st wl = Ret r.
Proof.
  unfold computeLivenessForUse, stoppingUse. intros Hgo.
  destruct (isa CopyValueInst (opUser use)); [eauto |].
  destruct (pruneDebugMode st && isa DebugValueInst (opUser use)).
  { destruct (decide _); eauto. }
  destruct (opOwnership use); eauto.
  - exfalso. apply Hgo. auto.
  - destruct (isa BranchInst (opUser use)) eqn:Hbranch; cbn [negb].
    + destruct (bool_decide _) eqn:Hdef; [eauto |].
      apply bool_decide_eq_false in Hdef.
      destruct (head (instSuccessors (opUser use))) eqn:Hhead;
        cbn [deref mbind Outcome_bind]; [eauto |].
      exfalso. apply Hgo. auto 10.
    + destruct (isSingleValueInstruction host (opUser use)) eqn:Hsingle;
        cbn [assert mbind Outcome_bind]; [eauto |].
      exfalso. apply Hgo. auto 10.
Qed.

Lemma foldl_worklistInsert_app (xs ys : list SILValue)
    (wl : GraphNodeWorklist SILValue) :
  foldl (fun w r => worklistInsert r w) wl (xs ++ ys)
  = foldl (fun w r => worklistInsert r w)
      (foldl (fun w r => worklistInsert r w) wl xs) ys.
Proof. apply foldl_app. Qed.

(** The uses of one value: when none bails, every one of them has been
    dealt with and the worklist has received their values. *)
Lemma computeLivenessForUses_worklist (uses : list Operand) :
  ∀ (st st' : CanonicalizeOSSALifetime) (wl wl' : GraphNodeWorklist SILValue),
  computeLivenessForUses host uses st wl = Ret (true, st', wl') →
  func st' = func st
  ∧ currentDef st' = currentDef st
  ∧ pruneDebugMode st' = pruneDebugMode st
  ∧ wl' = foldl (fun w r => worklistInsert r w) wl
            (uses ≫= valuesOfUse (currentDef st) (pruneDebugMode st))
  ∧ ∀ use, use ∈ uses → ¬ bailingUse host (pruneDebugMode st) (func st) use.
Proof.
  induction uses as [| use rest IH]; intros st st' wl wl';
    cbn [computeLivenessForUses].
  { intros [= <- <-]. repeat split. intros use Huse. inversion Huse. }
  destruct (computeLivenessForUse host use st wl) as [[[ok1 st1] wl1] | |]
    eqn:Huse; cbn [mbind Outcome_bind]; try discriminate.
  destruct (computeLivenessForUse_func host _ _ _ _ _ _ Huse)
    as (Hf & Hd & Hbail).
  destruct (computeLivenessForUse_worklist _ _ _ _ _ _ Huse) as [Hdef Hwl].
  destruct ok1; [| discriminate].
  intros Hrest. destruct (IH _ _ _ _ Hrest) as (Hf' & Hdef' & Hd' & Hwl' & Hno).
  split; [congruence |]. split; [congruence |]. split; [congruence |].
  split.
  - rewrite bind_cons, foldl_worklistInsert_app, <- Hwl, <- Hdef, <- Hd.
    exact Hwl'.
  - intros u Hu. apply elem_of_cons in Hu as [-> | Hu].
    + intros Hb. apply Hbail in Hb. discriminate.
    + rewrite <- Hf, <- Hd. apply Hno, Hu.
Qed.

Lemma computeLivenessForUses_returns (uses : list Operand) :
  ∀ (st : CanonicalizeOSSALifetime) (wl : GraphNodeWorklist SILValue),
  (∀ use, use ∈ uses →
          ¬ stoppingUse host (currentDef st) (pruneDebugMode st) use) →
  ∃ r, computeLivenessForUses host uses st wl = Ret r.
Proof.
  induction uses as [| use rest IH]; intros st wl Hgo;
    cbn [computeLivenessForUses]; [eauto |].
  destruct (computeLivenessForUse_returns use st wl (Hgo use ltac:(left)))
    as [[[ok1 st1] wl1] Huse].
  rewrite Huse. cbn [mbind Outcome_bind].
  destruct (computeLivenessForUse_func host _ _ _ _ _ _ Huse)
    as (_ & Hd & _).
  destruct (computeLivenessForUse_worklist _ _ _ _ _ _ Huse) as [Hdef _].
  destruct ok1; [| eauto].
  apply IH. intros u Hu. rewrite Hdef, Hd. apply Hgo. right. exact Hu.
Qed.

(** What [closedInStepOne] bounds. *)
Lemma visitedInStepOne_closed (fn : SILFunction) (def : SILValue)
    (debugMode : bool) (values : list SILValue) (v : SILValue) :
  closedInStepOne host fn def debugMode values →
  visitedInStepOne host fn def debugMode v → v ∈ values.
Proof.
  intros [Hdef Hclosed] Hv. rewrite Forall_forall in Hclosed.
  induction Hv as [| v r _ IH Hphi Hr | v use w _ IH Huse Hw].
  - exact Hdef.
  - destruct (Hclosed v IH) as [Hadj _]. apply (Hadj Hphi), Hr.
  - destruct (Hclosed v IH) as [_ Huses]. rewrite Forall_forall in Huses.
    destruct (Huses use Huse) as [Hsub _]. apply Hsub, Hw.
Qed.

(** When the vector is empty the worklist holds every value step 1
    visits. *)
Lemma stepOneInvariant_done (fn : SILFunction) (def : SILValue)
    (debugMode : bool) (wl : GraphNodeWorklist SILValue) (v : SILValue) :
  stepOneInvariant host fn def debugMode wl →
  nodeVector wl = [] →
  visitedInStepOne host fn def debugMode v →
  v ∈ nodeVisited wl.
Proof.
  intros (_ & Hdef & _ & Hdone) Hempty Hv.
  assert (∀ x, x ∉ nodeVector wl) as Hout
    by (intros x; rewrite Hempty; apply not_elem_of_nil).
  induction Hv as [| v r _ IH Hphi Hr | v use w _ IH Huse Hw].
  - exact Hdef.
  - destruct (Hdone v IH (Hout v)) as [Hadj _]. apply (Hadj Hphi), Hr.
  - destruct (Hdone v IH (Hout v)) as [_ Huses].
    destruct (Huses use Huse) as [Hsub _]. apply Hsub, Hw.
Qed.

Lemma stepOneInvariant_start (fn : SILFunction) (def : SILValue)
    (debugMode : bool) :
  stepOneInvariant host fn def debugMode
    (worklistInsert def (mkWorklist [] [])).
Proof.
  unfold worklistInsert. rewrite decide_False by apply not_elem_of_nil.
  cbn [nodeVisited nodeVector].
  split; [split; [| split]; try apply NoDup_singleton; auto |].
  split; [left |]. split.
  - intros v Hv. apply list_elem_of_singleton in Hv as ->. constructor.
  - intros v Hv Hnot. contradiction.
Qed.

(** One iteration of the loop of step 1 that does not bail out. *)
Lemma stepOneInvariant_step (st st1 : CanonicalizeOSSALifetime)
    (wl wl1 wl3 : GraphNodeWorklist SILValue) (value : SILValue) :
  let fn := func st in
  let def := currentDef st in
  let debugMode := pruneDebugMode st in
  stepOneInvariant host fn def debugMode wl →
  worklistPop wl = Some (value, wl1) →
  computeLivenessForUses host (getUses fn value) st
    (if isPhiArgument host fn value
     then foldl (fun w r => worklistInsert r w) wl1
            (adjacentReborrowsOfPhi host fn value)
     else wl1)
  = Ret (true, st1, wl3) →
  func st1 = fn ∧ currentDef st1 = def ∧ pruneDebugMode st1 = debugMode
  ∧ stepOneInvariant host fn def debugMode wl3
  ∧ length (nodeVisited wl3) + length (nodeVector wl)
    = S (length (nodeVisited wl) + length (nodeVector wl3)).
Proof.
  intros fn def debugMode (Hinv & Hdef & Hvisited & Hdone) Hpop Huses.
  unfold worklistPop in Hpop.
  destruct (nodeVector wl) as [| x rest] eqn:Hvec; [discriminate |].
  injection Hpop as <- <-.
  destruct Hinv as (Hnv & Hnq & Hsub). rewrite Hvec in Hnq, Hsub.
  apply NoDup_cons in Hnq as [Hxrest Hnrest].
  assert (worklistInv (mkWorklist (nodeVisited wl) rest)) as Hinv1.
  { split; [exact Hnv |]. split; [exact Hnrest |].
    intros y Hy. apply Hsub. right. exact Hy. }
  set (adj := if isPhiArgument host fn x
              then adjacentReborrowsOfPhi host fn x else []).
  assert ((if isPhiArgument host fn x
           then foldl (fun w r => worklistInsert r w)
                  (mkWorklist (nodeVisited wl) rest)
                  (adjacentReborrowsOfPhi host fn x)
           else mkWorklist (nodeVisited wl) rest)
          = foldl (fun w r => worklistInsert r w)
              (mkWorklist (nodeVisited wl) rest) adj) as Hwl2
    by (unfold adj; destruct (isPhiArgument host fn x); reflexivity).
  rewrite Hwl2 in Huses.
  destruct (computeLivenessForUses_worklist _ _ _ _ _ Huses)
    as (Hf & Hd & Hm & -> & Hnobail).
  fold fn def debugMode in Hnobail |- *.
  rewrite <- foldl_worklistInsert_app.
  destruct (worklistInsert_range
              (adj ++ (getUses fn x ≫= valuesOfUse def debugMode))
              (mkWorklist (nodeVisited wl) rest) Hinv1)
    as (Hinv3 & (Hgv & Hgq & Hnew & Hout & Hlen) & Hall & Hfrom).
  cbn zeta in *. cbn [nodeVisited nodeVector] in *.
  set (wl3 := foldl (fun w r => worklistInsert r w)
                (mkWorklist (nodeVisited wl) rest)
                (adj ++ (getUses fn x ≫= valuesOfUse def debugMode))) in *.
  assert (x ∈ nodeVisited wl) as Hx by (apply Hsub; left).
  split; [exact Hf |]. split; [exact Hd |]. split; [exact Hm |].
  split; [| cbn [length] in *; lia].
  split; [exact Hinv3 |]. split; [apply Hgv, Hdef |]. split.
  - intros v Hv. destruct (Hfrom v Hv) as [Hold | Hnewv];
      [apply Hvisited, Hold |].
    apply elem_of_app in Hnewv as [Hadj | Hval].
    + unfold adj in Hadj.
      destruct (isPhiArgument host fn x) eqn:Hphi; [| inversion Hadj].
      exact (visited_reborrow host fn def debugMode x v (Hvisited x Hx)
               Hphi Hadj).
    + apply list_elem_of_bind in Hval as (use & Hw & Huse).
      exact (visited_use host fn def debugMode x use v (Hvisited x Hx)
               Huse Hw).
  - intros v Hv Hnot.
    destruct (decide (v = x)) as [-> | Hne].
    + split.
      * intros Hphi y Hy. apply Hall, elem_of_app. left.
        unfold adj. rewrite Hphi. exact Hy.
      * intros use Huse. split; [| apply Hnobail, Huse].
        intros y Hy. apply Hall, elem_of_app. right.
        apply list_elem_of_bind. eauto.
    + assert (v ∈ nodeVisited wl) as Hold.
      { destruct (Hnew v Hv) as [? | ?]; [assumption | contradiction]. }
      assert (v ∉ x :: rest) as Hnotq.
      { intros Hin. apply elem_of_cons in Hin as [? | Hin];
          [contradiction |]. apply Hnot, Hgq, Hin. }
      destruct (Hdone v Hold Hnotq) as [Hadj Huses'].
      split.
      * intros Hphi y Hy. apply Hgv, (Hadj Hphi), Hy.
      * intros use Huse. destruct (Huses' use Huse) as [Hsubv Hnb].
        split; [| exact Hnb]. intros y Hy. apply Hgv, Hsubv, Hy.
Qed.

End TraversalOfStepOne.

Section BailOutOfStepOne.

Variable host : Host.

(** The loop of step 1 returns false exactly when it meets a bailing
    use. *)
Lemma computeCanonicalLivenessLoop_bails (fuel : nat) :
  ∀ (st st' : CanonicalizeOSSALifetime) (wl : GraphNodeWorklist SILValue)
    (ok : bool),
  stepOneInvariant host (func st) (currentDef st) (pruneDebugMode st) wl →
  computeCanonicalLivenessLoop host fuel st wl = Ret (ok, st') →
  (ok = false ↔ bailsOut host (func st) (currentDef st) (pruneDebugMode st)).
Proof.
  induction fuel as [| fuel IH]; intros st st' wl ok Hinv;
    cbn [computeCanonicalLivenessLoop]; [discriminate |].
  destruct (worklistPop wl) as [[value wl1] |] eqn:Hpop.
  2:{ intros [= <- <-]. split; [discriminate |].
      intros (v & use & Hv & Huse & Hbail). exfalso.
      unfold worklistPop in Hpop.
      destruct (nodeVector wl) as [| x rest] eqn:Hvec; [| discriminate].
      pose proof (stepOneInvariant_done host _ _ _ wl v Hinv Hvec Hv) as Hin.
      destruct Hinv as (_ & _ & _ & Hdone).
      destruct (Hdone v Hin) as [_ Huses];
        [rewrite Hvec; apply not_elem_of_nil |].
      destruct (Huses use Huse) as [_ Hno]. exact (Hno Hbail). }
  destruct (computeLivenessForUses host _ st _) as [[[ok1 st1] wl3] | |]
    eqn:Huses; cbn [mbind Outcome_bind]; try discriminate.
  destruct ok1.
  - intros Hrest.
    destruct (stepOneInvariant_step host st st1 wl wl1 wl3 value Hinv Hpop
                Huses) as (Hf & Hd & Hm & Hinv3 & _).
    rewrite <- Hf, <- Hd, <- Hm in Hinv3 |- *.
    exact (IH st1 st' wl3 ok Hinv3 Hrest).
  - intros [= <- <-]. split; [intros _ | reflexivity].
    destruct (computeLivenessForUses_func host _ _ _ _ _ _ Huses)
      as (_ & _ & Hbail).
    destruct (Hbail eq_refl) as (use & Huse & Hb).
    exists value, use. split; [| auto].
    destruct Hinv as ((_ & _ & Hsub) & _ & Hvisited & _).
    apply Hvisited, Hsub. unfold worklistPop in Hpop.
    destruct (nodeVector wl) as [| x rest]; [discriminate |].
    injection Hpop as <- _. left.
Qed.

(** With more fuel than there are values to visit, the loop of step 1
    returns. *)
Lemma computeCanonicalLivenessLoop_returns (values : list SILValue)
    (fuel : nat) :
  ∀ (st : CanonicalizeOSSALifetime) (wl : GraphNodeWorklist SILValue),
  closedInStepOne host (func st) (currentDef st) (pruneDebugMode st) values →
  stepOneInvariant host (func st) (currentDef st) (pruneDebugMode st) wl →
  length values + S (length (nodeVector wl))
  ≤ fuel + length (nodeVisited wl) →
  ∃ r, computeCanonicalLivenessLoop host fuel st wl = Ret r.
Proof.
  induction fuel as [| fuel IH]; intros st wl Hclosed Hinv Hfuel.
  { exfalso. destruct Hinv as (Hwl & _ & Hvisited & _).
    assert (length (nodeVisited wl) ≤ length values); [| lia].
    apply worklistInv_visited_length; [exact Hwl |].
    intros v Hv. eapply visitedInStepOne_closed; eauto. }
  cbn [computeCanonicalLivenessLoop].
  destruct (worklistPop wl) as [[value wl1] |] eqn:Hpop; [| eauto].
  assert (value ∈ nodeVisited wl) as Hvalue.
  { destruct Hinv as ((_ & _ & Hsub) & _). apply Hsub.
    unfold worklistPop in Hpop.
    destruct (nodeVector wl) as [| x rest]; [discriminate |].
    injection Hpop as <- _. left. }
  assert (∀ use, use ∈ getUses (func st) value →
                 ¬ stoppingUse host (currentDef st) (pruneDebugMode st) use)
    as Hgo.
  { intros use Huse. destruct Hinv as (_ & _ & Hvisited & _).
    pose proof (visitedInStepOne_closed host _ _ _ values value Hclosed
                  (Hvisited value Hvalue)) as Hin.
    destruct Hclosed as [_ Hall]. rewrite Forall_forall in Hall.
    destruct (Hall value Hin) as [_ Huses]. rewrite Forall_forall in Huses.
    apply (Huses use Huse). }
  destruct (computeLivenessForUses_returns host _ st
              (if isPhiArgument host (func st) value
               then foldl (fun w r => worklistInsert r w) wl1
                      (adjacentReborrowsOfPhi host (func st) value)
               else wl1) Hgo) as [[[ok1 st1] wl3] Huses].
  rewrite Huses. cbn [mbind Outcome_bind].
  destruct ok1; [| eauto].
  destruct (stepOneInvariant_step host st st1 wl wl1 wl3 value Hinv Hpop
              Huses) as (Hf & Hd & Hm & Hinv3 & Hlen).
  apply IH.
  - rewrite Hf, Hd, Hm. exact Hclosed.
  - rewrite Hf, Hd, Hm. exact Hinv3.
  - lia.
Qed.

Lemma initDef_currentDef (def : SILValue)
    (st st0 : CanonicalizeOSSALifetime) :
  initDef def st = Ret st0 → currentDef st0 = def.
Proof.
  unfold initDef. destruct (bool_decide _); simpl; [| discriminate].
  destruct (getParentBlock (func st) def); simpl; [| discriminate].
  intros [= <-]. reflexivity.
Qed.

(** C2: [canonicalizeValueLifetime] returns false when the def is not
    owned or is lexical, and the state it was given. It returns true
    exactly when the three steps ran to completion. For an owned def that
    is not lexical, whatever it returns is false exactly when step 1 meets
    a bailing use: a use, of a value the traversal visits from the def,
    classified PointerEscape or ForwardingUnowned, or a borrow whose
    extension fails. Whenever it returns false the function is the one it
    was given. Step 1 needs no more fuel than there are values to visit:
    it then returns, and when it meets a bailing use the run returns false
    with liveness and the records of step 1 cleared; otherwise the run
    does not return false. *)
Theorem canonicalizeValueLifetime_result (fuel : nat) (def : SILValue)
    (st : CanonicalizeOSSALifetime) :
  (* the def is skipped *)
  (getOwnershipKind host def ≠ OwnedKind ∨ isLexical host def = true →
   canonicalizeValueLifetime host fuel def st = Ret (false, st))
  (* true: the run went through the three steps *)
  ∧ (∀ st',
       canonicalizeValueLifetime host fuel def st = Ret (true, st') ↔
       getOwnershipKind host def = OwnedKind ∧ isLexical host def = false
       ∧ ∃ st0 st1 st2 st3 wl st4,
           initDef def st = Ret st0
           ∧ computeCanonicalLiveness host fuel st0 = Ret (true, st1)
           ∧ extendLivenessThroughOverlappingAccess host st1 = Ret st2
           ∧ findOrInsertDestroys host st2 = Ret (st3, wl)
           ∧ rewriteCopies host st3 = Ret st4
           ∧ st' = setConsumes emptyConsumes (clearLiveness st4))
  (* what is returned is false exactly when step 1 meets a bailing use *)
  ∧ (∀ ok st',
       getOwnershipKind host def = OwnedKind → isLexical host def = false →
       canonicalizeValueLifetime host fuel def st = Ret (ok, st') →
       (ok = false ↔ bailsOut host (func st) def (pruneDebugMode st)))
  (* false: nothing was rewritten *)
  ∧ (∀ st',
       canonicalizeValueLifetime host fuel def st = Ret (false, st') →
       func st' = func st
       ∧ (getOwnershipKind host def ≠ OwnedKind
          ∨ isLexical host def = true
          ∨ bailsOut host (func st) def (pruneDebugMode st)))
  (* with enough fuel step 1 returns *)
  ∧ (∀ st0 values,
       getOwnershipKind host def = OwnedKind → isLexical host def = false →
       initDef def st = Ret st0 →
       closedInStepOne host (func st) def (pruneDebugMode st) values →
       length values < fuel →
       ∃ ok st1,
         computeCanonicalLiveness host fuel st0 = Ret (ok, st1)
         ∧ (ok = false ↔ bailsOut host (func st) def (pruneDebugMode st))
         ∧ (ok = false →
            canonicalizeValueLifetime host fuel def st
            = Ret (false, clearLiveness st1)
            ∧ func (clearLiveness st1) = func st
            ∧ liveness (clearLiveness st1) = emptyLiveness
            ∧ consumingBlocks (clearLiveness st1) = []
            ∧ destroys (clearLiveness st1) = []
            ∧ debugValues (clearLiveness st1) = [])
         ∧ (ok = true →
            ∀ st', canonicalizeValueLifetime host fuel def st
                   ≠ Ret (false, st'))).
Proof.
  unfold canonicalizeValueLifetime.
  destruct (decide (getOwnershipKind host def ≠ OwnedKind)) as [Hown | Hown].
  { split; [reflexivity |].
    split; [intros st'; split;
              [discriminate | intros [? _]; contradiction] |].
    split; [intros; contradiction |].
    split; [intros st' [= <-]; auto | intros; contradiction]. }
  apply dec_stable in Hown.
  destruct (isLexical host def) eqn:Hlex.
  { split; [reflexivity |].
    split; [intros st'; split; [discriminate | intros (_ & [=] & _)] |].
    split; [intros; discriminate |].
    split; [intros st' [= <-]; auto | intros; discriminate]. }
  split; [intros [? | ?]; [contradiction | discriminate] |].
  destruct (initDef def st) as [st0 | |] eqn:Hinit;
    cbn [mbind Outcome_bind].
  2,3: split; [intros st'; split;
                 [discriminate
                 | intros (_ & _ & ? & ? & ? & ? & ? & ? & [=] & _)] |];
       split; [intros; discriminate |];
       split; [intros; discriminate | intros; discriminate].
  destruct (initDef_func _ _ _ Hinit) as [Hf0 Hd0].
  pose proof (initDef_currentDef _ _ _ Hinit) as Hdef0.
  pose proof (stepOneInvariant_start host (func st0) (currentDef st0)
                (pruneDebugMode st0)) as Hstart.
  assert (∀ ok st1,
            computeCanonicalLiveness host fuel st0 = Ret (ok, st1) →
            func st1 = func st
            ∧ (ok = false ↔ bailsOut host (func st) def (pruneDebugMode st)))
    as Hstep.
  { intros ok st1 Hlive. split.
    - destruct (computeCanonicalLivenessLoop_func host _ _ _ _ _ Hlive)
        as [Hf1 _]. congruence.
    - rewrite <- Hf0, <- Hd0, <- Hdef0.
      exact (computeCanonicalLivenessLoop_bails fuel st0 st1 _ ok Hstart
               Hlive). }
  destruct (computeCanonicalLiveness host fuel st0) as [[ok1 st1] | |]
    eqn:Hlive; cbn [mbind Outcome_bind].
  2,3: split; [intros st'; split;
                 [discriminate
                 | intros (_ & _ & ? & ? & ? & ? & ? & ? & [= <-] & Hl & _);
                   rewrite Hlive in Hl; discriminate]
              |];
       split; [intros; discriminate |];
       split; [intros; discriminate |];
       intros s0 values _ _ [= <-] Hclosed Hfuel; exfalso;
       destruct (computeCanonicalLivenessLoop_returns values fuel st0
                   (worklistInsert (currentDef st0) (mkWorklist [] [])))
         as [r Hr];
         [rewrite Hf0, Hd0, Hdef0; exact Hclosed
         | exact Hstart
         | unfold worklistInsert;
           rewrite decide_False by apply not_elem_of_nil;
           cbn [nodeVisited nodeVector length]; lia
         | unfold computeCanonicalLiveness in Hlive; congruence].
  destruct (Hstep ok1 st1 eq_refl) as [Hf1 Hbails].
  destruct ok1; cbn [negb].
  - (* step 1 returned true *)
    assert (∀ ok st',
              (st2 ← extendLivenessThroughOverlappingAccess host st1;
               '(st3, _) ← findOrInsertDestroys host st2;
               st4 ← rewriteCopies host st3;
               Ret (true, setConsumes emptyConsumes (clearLiveness st4)))
              = Ret (ok, st') → ok = true) as Htrue.
    { intros ok st'.
      destruct (extendLivenessThroughOverlappingAccess host st1)
        as [st2 | |]; cbn [mbind Outcome_bind]; try discriminate.
      destruct (findOrInsertDestroys host st2) as [[st3 wl] | |];
        cbn [mbind Outcome_bind]; try discriminate.
      destruct (rewriteCopies host st3) as [st4 | |];
        cbn [mbind Outcome_bind]; try discriminate.
      intros [= <- _]. reflexivity. }
    split.
    { intros st'. split.
      - destruct (extendLivenessThroughOverlappingAccess host st1)
          as [st2 | |] eqn:He; cbn [mbind Outcome_bind]; try discriminate.
        destruct (findOrInsertDestroys host st2) as [[st3 wl] | |] eqn:Hd;
          cbn [mbind Outcome_bind]; try discriminate.
        destruct (rewriteCopies host st3) as [st4 | |] eqn:Hr;
          cbn [mbind Outcome_bind]; try discriminate.
        intros [= <-]. split; [exact Hown |]. split; [reflexivity |].
        exists st0, st1, st2, st3, wl, st4. auto 10.
      - intros (_ & _ & s0 & s1 & s2 & s3 & wl & s4 & [= <-] & Hl & He
                & Hd & Hr & ->).
        rewrite Hlive in Hl. injection Hl as <-.
        rewrite He. cbn [mbind Outcome_bind]. rewrite Hd.
        cbn [mbind Outcome_bind]. rewrite Hr. reflexivity. }
    split.
    { intros ok st' _ _ Hrun. rewrite (Htrue ok st' Hrun). exact Hbails. }
    split.
    { intros st' Hrun. discriminate (Htrue false st' Hrun). }
    intros s0 values _ _ [= <-] Hclosed Hfuel.
    exists true, st1. split; [exact Hlive |]. split; [exact Hbails |].
    split; [discriminate |].
    intros _ st' Hrun. discriminate (Htrue false st' Hrun).
  - (* step 1 bailed out *)
    split.
    { intros st'. split; [discriminate |].
      intros (_ & _ & s0 & s1 & s2 & s3 & wl & s4 & [= <-] & Hl & _).
      rewrite Hlive in Hl. discriminate. }
    split.
    { intros ok st' _ _ [= <- <-]. exact Hbails. }
    split.
    { intros st' [= <-]. split; [exact Hf1 |]. right. right.
      apply Hbails. reflexivity. }
    intros s0 values _ _ [= <-] Hclosed Hfuel.
    exists false, st1. split; [exact Hlive |]. split; [exact Hbails |].
    split; [| discriminate].
    intros _. repeat split. exact Hf1.
Qed.

End BailOutOfStepOne.

Lemma canonicalizeValueLifetime_result_witness :
  closedInStepOne exampleHost copyEscapes (InstResult 0) false
    [InstResult 0; InstResult 1]
  ∧ bailsOut exampleHost copyEscapes (InstResult 0) false
  ∧ ∃ st1,
      canonicalizeValueLifetime exampleHost 3 (InstResult 0)
        (exampleState false copyEscapes (InstResult 0))
      = Ret (false, clearLiveness st1)
      ∧ func (clearLiveness st1) = copyEscapes
      ∧ liveness (clearLiveness st1) = emptyLiveness.
Proof.
  assert (closedInStepOne exampleHost copyEscapes (InstResult 0) false
            [InstResult 0; InstResult 1]) as Hclosed
    by (apply (bool_decide_unpack _); vm_compute; exact I).
  split; [exact Hclosed |].
  destruct (canonicalizeValueLifetime_result exampleHost 3 (InstResult 0)
              (exampleState false copyEscapes (InstResult 0)))
    as (_ & _ & _ & _ & Hfuel).
  destruct (Hfuel _ [InstResult 0; InstResult 1] eq_refl eq_refl eq_refl
              Hclosed ltac:(cbn; lia))
    as (ok & st1 & Hlive & Hbails & Hfalse & _).
  vm_compute in Hlive. injection Hlive as <- <-.
  split; [apply Hbails; reflexivity |].
  eexists. split; [apply Hfalse; reflexivity |]. split; reflexivity.
Defined.
